(** * FEC recovery analysis: recovery graph, reachability search,
      loss models and recovery characteristics

    A shallow embedding of the Go package [fecanalysis]
    (recovery_graph.go, the BFS of the graph file, recovery_characteristics.go,
    the random loss model and gilbert_elliott_loss_model.go) together with
    the properties its design document states about them.

    Conventions of the embedding.
    - Go's [int] is the 64-bit two's-complement integer: a value is a [Z]
      in [[-2^63, 2^63)], and every arithmetic operation that can leave
      that interval is followed by [wrap].  Bitwise operations of [Z] act
      on the infinite two's-complement expansion and therefore agree with
      the machine operations on in-range values.
    - A run-time panic (negative shift count, division by zero, index out
      of range, negative slice length) is the outcome [Panic]; a loop
      without a static trip count is run with fuel and may answer
      [OutOfFuel].
    - [float64] is idealised as the exact rationals [Q]: the statements on
      probabilities are the exact-arithmetic ones, rounding is not
      modelled.
    - The read/write lock of the Gilbert-Elliott cache is not modelled:
      the embedding is sequential and threads the cache explicitly.
    - [make] with an explicit length panics on a negative length and
      when the requested size exceeds the allocation limit of the
      runtime, [2^48] bytes on the 64-bit platforms.  Storage within that
      limit is taken to be available, and so is the storage that slices
      grown by [append], strings and maps take up. *)

From Stdlib Require Import ZArith List Lia QArith Qfield Qpower Lqa Bool Sorted Ascii.
From stdpp Require Import base option list list_numbers gmap.

Local Open Scope Z_scope.

(* ================================================================== *)
(** * Part I. The embedding                                            *)
(* ================================================================== *)

(** ** Outcomes of a Go computation *)

Inductive result (A : Type) : Type :=
| Ok (a : A)
| Panic
| OutOfFuel.
Arguments Ok {A} a.
Arguments Panic {A}.
Arguments OutOfFuel {A}.

Definition bind {A B : Type} (m : result A) (f : A -> result B) : result B :=
  match m with
  | Ok a => f a
  | Panic => Panic
  | OutOfFuel => OutOfFuel
  end.

Notation "'let*' x ':=' m 'in' k" := (bind m (fun x => k))
  (at level 10, x pattern, m at level 100, k at level 200,
   format "'[v' 'let*'  x  ':='  m  'in' '/' k ']'").

(** ** Go's [int] *)

Module GoInt.

Definition min_int : Z := - 2 ^ 63.
Definition max_int : Z := 2 ^ 63 - 1.

Definition in_range (z : Z) : Prop := min_int <= z <= max_int.

(** Reduction of a mathematical integer to its 64-bit signed value. *)
Definition wrap (z : Z) : Z := (z + 2 ^ 63) mod 2 ^ 64 - 2 ^ 63.

Definition add (x y : Z) : Z := wrap (x + y).
Definition sub (x y : Z) : Z := wrap (x - y).
Definition neg (x : Z) : Z := wrap (- x).

(** [x << s]: panics on a negative count, yields 0 from 64 on. *)
Definition shl (x s : Z) : result Z :=
  if s <? 0 then Panic else Ok (wrap (Z.shiftl x s)).

(** [x >> s]: arithmetic shift. *)
Definition shr (x s : Z) : result Z :=
  if s <? 0 then Panic else Ok (Z.shiftr x s).

(** [x / y]: truncated division, panics on a zero divisor. *)
Definition quo (x y : Z) : result Z :=
  if y =? 0 then Panic else Ok (wrap (Z.quot x y)).

(** [x & y], [x | y], [x ^ y], [x &^ y]. *)
Definition and (x y : Z) : Z := Z.land x y.
Definition or (x y : Z) : Z := Z.lor x y.
Definition xor (x y : Z) : Z := Z.lxor x y.
Definition andnot (x y : Z) : Z := Z.ldiff x y.

(** The recurring test [(v & (1 << i)) != 0]. *)
Definition bit_set (v i : Z) : result bool :=
  let* b := shl 1 i in Ok (negb (and v b =? 0)).

(** Number of set bits among the low [n] bits of [x]. *)
Definition bitcount (n : Z) (x : Z) : Z :=
  Z.of_nat (length (List.filter (fun i => Z.testbit x i) (seqZ 0 n))).

(** Number of set bits of the 64-bit representation. *)
Definition popcount (x : Z) : Z := bitcount 64 x.

End GoInt.

Import GoInt.

(** ** Loops *)

(** [for i := lo; i < hi; i++ { s = body(i, s) }], the body leaving [i]
    alone and never returning from the enclosing function. *)
Fixpoint for_loop {S : Type} (count : nat) (i : Z)
    (body : Z -> S -> result S) (s : S) : result S :=
  match count with
  | O => Ok s
  | Datatypes.S c => let* s' := body i s in for_loop c (i + 1) body s'
  end.

Definition for_range {S : Type} (lo hi : Z)
    (body : Z -> S -> result S) (s : S) : result S :=
  for_loop (Z.to_nat (hi - lo)) lo body s.

(** The same loop whose body may [return v] from the enclosing function:
    [inl s] continues with state [s], [inr v] returns [v]. *)
Fixpoint for_loop_ret {S R : Type} (count : nat) (i : Z)
    (body : Z -> S -> result (S + R)) (s : S) : result (S + R) :=
  match count with
  | O => Ok (inl s)
  | Datatypes.S c =>
      let* r := body i s in
      match r with
      | inl s' => for_loop_ret c (i + 1) body s'
      | inr v => Ok (inr v)
      end
  end.

Definition for_range_ret {S R : Type} (lo hi : Z)
    (body : Z -> S -> result (S + R)) (s : S) : result (S + R) :=
  for_loop_ret (Z.to_nat (hi - lo)) lo body s.

(** [for _, x := range l { s = body(x, s) }]. *)
Fixpoint for_each {A S : Type} (l : list A)
    (body : A -> S -> result S) (s : S) : result S :=
  match l with
  | [] => Ok s
  | x :: l' => let* s' := body x s in for_each l' body s'
  end.

(** ** Allocation *)

(** The allocation limit of the runtime on the 64-bit platforms. *)
Definition maxAlloc : Z := 2 ^ 48.

(** [make([]T, n)] for elements of [elemSize] bytes: a panic on a
    negative length and when [elemSize * n] exceeds [maxAlloc], otherwise
    [n] zero values. *)
Definition make {A : Type} (elemSize n : Z) (zero : A) : result (list A) :=
  if (n <? 0) || (elemSize * n >? maxAlloc) then Panic
  else Ok (replicate (Z.to_nat n) zero).

(** ** recovery_graph.go *)

(** The [Mask] interface: three pure methods. *)
Record Mask : Type := {
  IsProtected : Z -> Z -> bool;   (* IsProtected(packetIndex, fecIndex) *)
  mask_N : Z;
  mask_K : Z
}.

Record RecoveryGraph : Type := {
  numVertices : Z;
  N : Z;
  K : Z;
  mask : Mask
}.

Definition NewRecoveryGraph (m : Mask) : result RecoveryGraph :=
  let n := mask_N m in
  let k := mask_K m in
  let* nv := shl 1 (add n k) in
  Ok {| numVertices := nv; N := n; K := k; mask := m |}.

Definition canUseFECPacket (g : RecoveryGraph) (vertex fecIndex : Z)
    : result bool :=
  let fecBitPosition := add (N g) fecIndex in
  let* b := shl 1 fecBitPosition in
  if and vertex b =? 0 then Ok false
  else
    let* r := for_range_ret 0 (N g) (fun packetIndex (_ : unit) =>
           if IsProtected (mask g) packetIndex fecIndex then
             let* b' := shl 1 packetIndex in
             if and vertex b' =? 0 then Ok (inr false) else Ok (inl tt)
           else Ok (inl tt)) tt in
    match r with
    | inr v => Ok v
    | inl _ => Ok true
    end.

Definition addRecoveryEdges (g : RecoveryGraph) (edges : list Z)
    (vertex fecIndex : Z) : result (list Z) :=
  for_range 0 (N g) (fun packetIndex edges =>
    if IsProtected (mask g) packetIndex fecIndex then
      let* b := shl 1 packetIndex in
      let destVertex := andnot vertex b in
      if negb (destVertex =? vertex) then Ok (edges ++ [destVertex])
      else Ok edges
    else Ok edges) edges.

Definition RecoveryGraph_NumVertices (g : RecoveryGraph) : Z := numVertices g.

Definition RecoveryGraph_GetEdges (g : RecoveryGraph) (vertex : Z)
    : result (list Z) :=
  if (vertex <? 0) || (vertex >=? numVertices g) then Ok []
  else
    for_range 0 (K g) (fun fecIndex edges =>
      let* c := canUseFECPacket g vertex fecIndex in
      if c then addRecoveryEdges g edges vertex fecIndex
      else Ok edges) [].

(** ** The [Graph] interface and breadth-first search *)

Class Graph (G : Type) : Type := {
  NumVertices : G -> Z;
  GetEdges : G -> Z -> result (list Z)
}.

#[global] Instance RecoveryGraph_Graph : Graph RecoveryGraph := {
  NumVertices := RecoveryGraph_NumVertices;
  GetEdges := RecoveryGraph_GetEdges
}.

(** The search state: the [visited] array, the result slice and the
    FIFO queue. *)
Record bfs_state : Type := {
  visited : list bool;
  reachableVertices : list Z;
  queue : list Z
}.

(** The body shared by the seeding loop and the neighbour loop: skip an
    out-of-range vertex, otherwise mark, record and enqueue it when it is
    not yet visited.  Indexing outside the array would panic. *)
Definition bfs_visit {G : Type} `{Graph G} (graph : G) (v : Z)
    (st : bfs_state) : result bfs_state :=
  if (v <? 0) || (v >=? NumVertices graph) then Ok st
  else
    match visited st !! Z.to_nat v with
    | None => Panic
    | Some true => Ok st
    | Some false =>
        Ok {| visited := <[Z.to_nat v := true]> (visited st);
              reachableVertices := reachableVertices st ++ [v];
              queue := queue st ++ [v] |}
    end.

Fixpoint bfs_loop {G : Type} `{Graph G} (fuel : nat) (graph : G)
    (st : bfs_state) : result (list Z) :=
  match queue st with
  | [] => Ok (reachableVertices st)
  | current :: rest =>
      match fuel with
      | O => OutOfFuel
      | Datatypes.S fuel' =>
          let* edges := GetEdges graph current in
          let* st' := for_each edges (bfs_visit graph)
                  {| visited := visited st;
                     reachableVertices := reachableVertices st;
                     queue := rest |} in
          bfs_loop fuel' graph st'
      end
  end.

Definition BFS {G : Type} `{Graph G} (fuel : nat) (graph : G)
    (sources : list Z) : result (list Z) :=
  if Nat.eqb (length sources) 0 then Ok []
  else
    let* visited := make 1 (NumVertices graph) false in
    let st0 := {| visited := visited;
                  reachableVertices := [];
                  queue := [] |} in
    let* st := for_each sources (bfs_visit graph) st0 in
    bfs_loop fuel graph st.

(** ** recovery_characteristics.go *)

Record RecoveryCharacteristics : Type := {
  MinLostPacketsForNonRecovery : Z;
  MinConsecutiveLostForNonRecovery : Z
}.

(** Reading a [map[int]bool]: an absent key reads as [false]. *)
Definition map_get (m : gmap Z bool) (k : Z) : bool := default false (m !! k).

(** The loop of [generateCombinations]; [break] and the exit through the
    loop condition both lead to the final [return false]. *)
Fixpoint generateCombinations_loop {S : Type} (fuel : nat)
    (callback : Z -> S -> result (bool * S))
    (maxCombination combination : Z) (s : S) : result (bool * S) :=
  if combination <=? maxCombination then
    match fuel with
    | O => OutOfFuel
    | Datatypes.S fuel' =>
        let* (found, s1) := callback combination s in
        if (found : bool) then Ok (true, s1)
        else
          let rightmostMovable := and combination (neg combination) in
          let temp := add combination rightmostMovable in
          if temp >? maxCombination then Ok (false, s1)
          else
            let* q := quo (xor combination temp) rightmostMovable in
            let* low := shr q 2 in
            generateCombinations_loop fuel' callback maxCombination
              (or temp low) s1
    end
  else Ok (false, s).

(** The callback is a closure; its effects are threaded as a state [S]. *)
Definition generateCombinations {S : Type} (fuel : nat) (n k : Z)
    (callback : Z -> S -> result (bool * S)) (s : S) : result (bool * S) :=
  if k =? 0 then callback 0 s
  else if k >? n then Ok (false, s)
  else
    let* top := shl 1 k in
    let combination := sub top 1 in
    let* maxCombination := shl combination (sub n k) in
    generateCombinations_loop fuel callback maxCombination combination s.

Definition hasNonRecoverablePattern (fuel : nat)
    (N K totalPackets numLost : Z) (reachableSet : gmap Z bool)
    : result bool :=
  let* (found, _) :=
    generateCombinations fuel totalPackets numLost
      (fun lossPattern (_ : unit) =>
         let* top := shl 1 totalPackets in
         let deliveryPattern := xor (sub top 1) lossPattern in
         Ok (negb (map_get reachableSet deliveryPattern), tt)) tt in
  Ok found.

(** [for numLost := 1; numLost <= totalPackets; numLost++]: the bound is
    written [totalPackets + 1], exclusive. *)
Definition findMinLostPacketsForNonRecovery (fuel : nat)
    (N K totalPackets : Z) (reachableSet : gmap Z bool) : result Z :=
  let* r := for_range_ret 1 (totalPackets + 1) (fun numLost (_ : unit) =>
              let* found := hasNonRecoverablePattern fuel N K totalPackets
                              numLost reachableSet in
              if (found : bool) then Ok (inr numLost) else Ok (inl tt)) tt in
  match r with
  | inr v => Ok v
  | inl _ => Ok (-1)
  end.

Definition findMinConsecutiveLostForNonRecovery
    (N K totalPackets : Z) (reachableSet : gmap Z bool) : result Z :=
  let* r :=
    for_range_ret 1 (totalPackets + 1) (fun consecutiveLen (_ : unit) =>
      for_range_ret 0 (sub totalPackets consecutiveLen + 1)
        (fun startPos (_ : unit) =>
           let* lossPattern :=
             for_range startPos (add startPos consecutiveLen)
               (fun i lossPattern =>
                  let* b := shl 1 i in Ok (or lossPattern b)) 0 in
           let* top := shl 1 totalPackets in
           let deliveryPattern := xor (sub top 1) lossPattern in
           if negb (map_get reachableSet deliveryPattern)
           then Ok (inr consecutiveLen)
           else Ok (inl tt)) tt) tt in
  match r with
  | inr v => Ok v
  | inl _ => Ok (-1)
  end.

Definition CalculateRecoveryCharacteristicsFromReachable (fuel : nat)
    (N K : Z) (reachable : list Z) : result RecoveryCharacteristics :=
  let totalPackets := add N K in
  let reachableSet :=
    foldl (fun (m : gmap Z bool) v => <[v := true]> m) ∅ reachable in
  let* minLostPackets :=
    findMinLostPacketsForNonRecovery fuel N K totalPackets reachableSet in
  let* minConsecutiveLost :=
    findMinConsecutiveLostForNonRecovery N K totalPackets reachableSet in
  Ok {| MinLostPacketsForNonRecovery := minLostPackets;
        MinConsecutiveLostForNonRecovery := minConsecutiveLost |}.

(** ** Loss models *)

(** The [LossModel] interface.  A call may update the model (the
    Gilbert-Elliott cache), so the model is threaded through. *)
Class LossModel (M : Type) : Type := {
  CalculateProbability : M -> Z -> Z -> result (Q * M);
  GetAverageLossProbability : M -> Q
}.

(** *** The random (independent) loss model *)

Record RandomLossModel : Type := { P : Q }.

Definition NewRandomLossModel (p : Q) : RandomLossModel := {| P := p |}.

(** [math.Pow(x, float64(n))] for a counter [n] is the power [x ^ n]. *)
Definition RandomLossModel_CalculateProbability (m : RandomLossModel)
    (vertex N : Z) : result Q :=
  if N <=? 0 then Ok 0%Q
  else
    let* (onesCount, zerosCount) :=
      for_range 0 N (fun i '(onesCount, zerosCount) =>
        let* delivered := bit_set vertex i in
        if (delivered : bool) then Ok (add onesCount 1, zerosCount)
        else Ok (onesCount, add zerosCount 1)) (0, 0) in
    Ok (Qpower (P m) zerosCount * Qpower (1 - P m) onesCount)%Q.

Definition RandomLossModel_GetAverageLossProbability (m : RandomLossModel)
    : Q := P m.

#[global] Instance RandomLossModel_LossModel : LossModel RandomLossModel := {
  CalculateProbability m vertex N :=
    let* p := RandomLossModel_CalculateProbability m vertex N in Ok (p, m);
  GetAverageLossProbability := RandomLossModel_GetAverageLossProbability
}.

(** *** The Gilbert-Elliott model *)

(** [cacheKey{pattern, length, initState}]. *)
Abbreviation cacheKey := (Z * Z * Z)%type.

Record GilbertElliotLossModel : Type := {
  Pe0 : Q;
  Pe1 : Q;
  P01 : Q;
  P10 : Q;
  cache : gmap cacheKey Q;
  steadyState0 : Q;
  steadyState1 : Q
}.

Definition NewGilbertElliotLossModel (pe0 pe1 p01 p10 : Q)
    : GilbertElliotLossModel :=
  let denominator := (p01 + p10)%Q in
  if Qlt_le_dec 0 denominator then
    {| Pe0 := pe0; Pe1 := pe1; P01 := p01; P10 := p10; cache := ∅;
       steadyState0 := (p10 / denominator)%Q;
       steadyState1 := (p01 / denominator)%Q |}
  else
    {| Pe0 := pe0; Pe1 := pe1; P01 := p01; P10 := p10; cache := ∅;
       steadyState0 := (1 # 2)%Q;
       steadyState1 := (1 # 2)%Q |}.

Definition NewGilbertLossModel (pe1 p01 p10 : Q) : GilbertElliotLossModel :=
  NewGilbertElliotLossModel 0 pe1 p01 p10.

(** One row of the table from the previous one. *)
Definition dp_row (m : GilbertElliotLossModel) (packetDelivered : bool)
    (prev : Q * Q) : Q * Q :=
  let '(prev0, prev1) := prev in
  ((if packetDelivered
    then prev0 * (1 - P01 m) * (1 - Pe0 m) + prev1 * P10 m * (1 - Pe0 m)
    else prev0 * (1 - P01 m) * Pe0 m + prev1 * P10 m * Pe0 m),
   (if packetDelivered
    then prev0 * P01 m * (1 - Pe1 m) + prev1 * (1 - P10 m) * (1 - Pe1 m)
    else prev0 * P01 m * Pe1 m + prev1 * (1 - P10 m) * Pe1 m))%Q.

(** The table [dp] is a slice of [length+1] rows of 16 bytes, written by
    index; the write of row 0 panics on an empty table. *)
Definition computePatternProbabilityDP (m : GilbertElliotLossModel)
    (pattern length initState : Z) : result Q :=
  let* dp := make 16 (add length 1) (0%Q, 0%Q) in
  match dp with
  | [] => Panic
  | _ :: _ =>
    let dp := <[0%nat := if initState =? 0 then (1%Q, 0%Q) else (0%Q, 1%Q)]> dp in
    (* [for i := 1; i <= length; i++]; [length + 1] does not wrap
       around here, the table of that many rows being allocated *)
    let* dp :=
      for_range 1 (length + 1) (fun i (dp : list (Q * Q)) =>
        let packetIndex := sub i 1 in
        let* packetDelivered := bit_set pattern packetIndex in
        match dp !! Z.to_nat (i - 1) with
        | None => Panic
        | Some prev => Ok (<[Z.to_nat i := dp_row m packetDelivered prev]> dp)
        end) dp in
    match dp !! Z.to_nat length with
    | None => Panic
    | Some (last0, last1) => Ok (last0 + last1)%Q
    end
  end.

Definition set_cache (m : GilbertElliotLossModel) (c : gmap cacheKey Q)
    : GilbertElliotLossModel :=
  {| Pe0 := Pe0 m; Pe1 := Pe1 m; P01 := P01 m; P10 := P10 m; cache := c;
     steadyState0 := steadyState0 m; steadyState1 := steadyState1 m |}.

Definition calculatePatternProbability (m : GilbertElliotLossModel)
    (pattern length initState : Z) : result (Q * GilbertElliotLossModel) :=
  if length =? 0 then Ok (1%Q, m)
  else
    let key : cacheKey := (pattern, length, initState) in
    match cache m !! key with
    | Some prob => Ok (prob, m)
    | None =>
        let* prob := computePatternProbabilityDP m pattern length initState in
        Ok (prob, set_cache m (<[key := prob]> (cache m)))
    end.

Definition GilbertElliotLossModel_CalculateProbability
    (m : GilbertElliotLossModel) (vertex N : Z)
    : result (Q * GilbertElliotLossModel) :=
  if N <=? 0 then Ok (0%Q, m)
  else
    let* (prob0, m1) := calculatePatternProbability m vertex N 0 in
    let* (prob1, m2) := calculatePatternProbability m1 vertex N 1 in
    Ok ((steadyState0 m * prob0 + steadyState1 m * prob1)%Q, m2).

Definition GetSteadyStateProbabilities (m : GilbertElliotLossModel) : Q * Q :=
  (steadyState0 m, steadyState1 m).

Definition ClearCache (m : GilbertElliotLossModel) : GilbertElliotLossModel :=
  set_cache m ∅.

Definition GilbertElliotLossModel_GetAverageLossProbability
    (m : GilbertElliotLossModel) : Q :=
  (steadyState0 m * Pe0 m + steadyState1 m * Pe1 m)%Q.

#[global] Instance GilbertElliotLossModel_LossModel
    : LossModel GilbertElliotLossModel := {
  CalculateProbability := GilbertElliotLossModel_CalculateProbability;
  GetAverageLossProbability := GilbertElliotLossModel_GetAverageLossProbability
}.

(** ** Notions used to state the properties *)

Section GraphNotions.
Context {G : Type} `{Graph G}.

Definition valid_vertex (g : G) (v : Z) : Prop := 0 <= v < NumVertices g.

(** [w] is listed among the edges of [v]. *)
Definition edge (g : G) (v w : Z) : Prop :=
  exists l, GetEdges g v = Ok l /\ In w l.

(** A walk of [n] edges. *)
Inductive walk (g : G) : Z -> nat -> Z -> Prop :=
| walk_nil v : walk g v 0 v
| walk_cons v w n u : edge g v w -> walk g w n u -> walk g v (Datatypes.S n) u.

(** Reachability through vertices of the graph. *)
Inductive reaches (g : G) : Z -> Z -> Prop :=
| reaches_refl v : reaches g v v
| reaches_step u v w :
    reaches g u v -> edge g v w -> valid_vertex g w -> reaches g u w.
End GraphNotions.

(** The edges of a vertex as the design states them: for each parity
    index [j] whose bit [N+j] is set and whose protected data packets are
    all present, one destination per protected data index [d], the vertex
    with bit [d] cleared. *)
Definition parity_usable (m : Mask) (v j : Z) : bool :=
  Z.testbit v (mask_N m + j) &&
  forallb (fun d => implb (IsProtected m d j) (Z.testbit v d))
          (seqZ 0 (mask_N m)).

Definition edges_spec (m : Mask) (v : Z) : list Z :=
  flat_map (fun j =>
    if parity_usable m v j
    then map (Z.clearbit v)
             (List.filter (fun d => IsProtected m d j) (seqZ 0 (mask_N m)))
    else []) (seqZ 0 (mask_K m)).

(** The integers below [2^n] with exactly [k] bits set, in increasing
    order. *)
Definition combinations (n k : Z) : list Z :=
  List.filter (fun x => bitcount n x =? k) (seqZ 0 (2 ^ n)).

(** Calling [callback] on the elements of [l] in order, stopping at the
    first call that answers [true]. *)
Fixpoint run_until {S : Type} (callback : Z -> S -> result (bool * S))
    (l : list Z) (s : S) : result (bool * S) :=
  match l with
  | [] => Ok (false, s)
  | x :: l' =>
      let* (found, s1) := callback x s in
      if (found : bool) then Ok (true, s1) else run_until callback l' s1
  end.

(** Binomial coefficients, by Pascal's rule. *)
Fixpoint binomial (n k : nat) : nat :=
  match n, k with
  | _, O => 1
  | O, Datatypes.S _ => 0
  | Datatypes.S n', Datatypes.S k' => binomial n' k' + binomial n' k
  end.

(** The sum of the probabilities of a list of vertices, the calls made one
    after the other on the same model. *)
Fixpoint sum_probabilities {M : Type} `{LossModel M} (m : M)
    (vertices : list Z) (N : Z) : result (Q * M) :=
  match vertices with
  | [] => Ok (0%Q, m)
  | v :: rest =>
      let* (p, m1) := CalculateProbability m v N in
      let* (s, m2) := sum_probabilities m1 rest N in
      Ok ((p + s)%Q, m2)
  end.

(** The states a Gilbert-Elliott model can be in: built by the
    constructor, then used through its methods. *)
Inductive GE_reachable : GilbertElliotLossModel -> Prop :=
| GE_new pe0 pe1 p01 p10 :
    GE_reachable (NewGilbertElliotLossModel pe0 pe1 p01 p10)
| GE_calculate m vertex N p m' :
    GE_reachable m ->
    GilbertElliotLossModel_CalculateProbability m vertex N = Ok (p, m') ->
    GE_reachable m'
| GE_clear m :
    GE_reachable m -> GE_reachable (ClearCache m).

(** ** The adjacency-list graph of the test suite *)

Record SimpleGraph : Type := {
  sg_numVertices : Z;
  sg_adjList : list (list Z)
}.

Definition SimpleGraph_GetEdges (g : SimpleGraph) (vertex : Z)
    : result (list Z) :=
  if (vertex >=? 0) && (vertex <? sg_numVertices g) then
    match sg_adjList g !! Z.to_nat vertex with
    | Some l => Ok l
    | None => Panic
    end
  else Ok [].

#[global] Instance SimpleGraph_Graph : Graph SimpleGraph := {
  NumVertices := sg_numVertices;
  GetEdges := SimpleGraph_GetEdges
}.

(** ** Notions used in the proofs *)

(** The mask of the design's scenario: [N = 3], [K = 1], parity packet 0
    protects data packets 0 and 1. *)
Definition scenario_mask : Mask :=
  {| IsProtected := fun packetIndex fecIndex =>
       (fecIndex =? 0) && ((packetIndex =? 0) || (packetIndex =? 1));
     mask_N := 3; mask_K := 1 |}.

(** With [N + K = 63] the vertex count [1 << 63] is negative, so every
    vertex is rejected: [N = 62], [K = 1], parity 0 protecting data 0, and
    the vertex with bits 0 and 62 set. *)
Definition wide_mask : Mask :=
  {| IsProtected := fun packetIndex fecIndex =>
       (fecIndex =? 0) && (packetIndex =? 0);
     mask_N := 62; mask_K := 1 |}.

(** A mask whose graph has [2^49] vertices: the [visited] array of the
    search is above the allocation limit. *)
Definition large_mask : Mask :=
  {| IsProtected := fun _ _ => false; mask_N := 49; mask_K := 0 |}.

Definition clears_one_bit (v d : Z) : Prop :=
  exists i, 0 <= i <= 62 /\ Z.testbit v i = true /\ d = Z.clearbit v i.

(** Number of entries of the [visited] array still [false]. *)
Definition unvisited (vis : list bool) : nat :=
  length (List.filter negb vis).

(** The lowest set bit, [c & -c], and the step of the enumeration, over
    the mathematical integers. *)
Definition lowbit (c : Z) : Z := Z.land c (- c).

Definition gosper (c : Z) : Z :=
  let r := lowbit c in
  let t := c + r in
  Z.lor t (Z.shiftr (Z.quot (Z.lxor c t) r) 2).

(** [chain a l c]: [l] starts with [a], ends with [c], and each element is
    followed by its [gosper] successor. *)
Inductive chain : Z -> list Z -> Z -> Prop :=
| chain_one a : chain a [a] a
| chain_cons a b l c : gosper a = b -> chain b l c -> chain a (a :: l) c.

(** A loss pattern is non-recoverable when its delivery pattern is absent
    from the reachable list. *)
Definition non_recoverable (total : Z) (R : list Z) (lossPattern : Z) : Prop :=
  ~ In (Z.lxor (2 ^ total - 1) lossPattern) R.

(** Some loss pattern with exactly [numLost] of the low [total] bits set is
    non-recoverable. *)
Definition loss_count_fails (total : Z) (R : list Z) (numLost : Z) : Prop :=
  exists lossPattern,
    0 <= lossPattern < 2 ^ total /\
    bitcount total lossPattern = numLost /\
    non_recoverable total R lossPattern.

(** The loss pattern with exactly the bits [[start, start+len)] set. *)
Definition run_pattern (start len : Z) : Z := Z.shiftl (Z.ones len) start.

(** Some run of [len] consecutive losses inside the [total] packets is
    non-recoverable. *)
Definition run_fails (total : Z) (R : list Z) (len : Z) : Prop :=
  exists start,
    0 <= start <= total - len /\
    non_recoverable total R (run_pattern start len).

(** [r] is the smallest value in [[1, total]] satisfying [fails], or [-1]
    when there is none. *)
Definition min_failing (fails : Z -> Prop) (total r : Z) : Prop :=
  (r = -1 /\ forall m, 1 <= m <= total -> ~ fails m) \/
  (1 <= r <= total /\ fails r /\ forall m, 1 <= m < r -> ~ fails m).

(** A callback that records its arguments and never stops. *)
Definition record_all (x : Z) (seen : list Z) : result (bool * list Z) :=
  Ok (false, seen ++ [x]).

(** With 63 packets: every single loss is recoverable, yet the search
    reports 1, because the enumeration of the single-loss patterns runs on
    to the value [-1]. *)
Definition single_loss_deliveries : list Z :=
  map (fun i => Z.lxor (2 ^ 63 - 1) (2 ^ i)) (seqZ 0 63).

(** The bit read by [(v & (1 << i)) != 0]; it is bit [i] of [v] up to
    [i = 62]. *)
Definition mbit (v i : Z) : bool :=
  negb (Z.land v (wrap (Z.shiftl 1 i)) =? 0).

Definition mbits (v : Z) (k : nat) : bool := mbit v (Z.of_nat k).

Definition tbits (v : Z) (k : nat) : bool := Z.testbit v (Z.of_nat k).

(** A state folded over the first [n] bits, lowest first. *)
Fixpoint iter_bits {A : Type} (step : bool -> A -> A) (init : A)
    (bits : nat -> bool) (n : nat) : A :=
  match n with
  | O => init
  | Datatypes.S k => step (bits k) (iter_bits step init bits k)
  end.

Definition count_step (b : bool) (c : Z * Z) : Z * Z :=
  let '(onesCount, zerosCount) := c in
  if b then (onesCount + 1, zerosCount) else (onesCount, zerosCount + 1).

(** The value the random model computes from the counters. *)
Definition random_value (p : Q) (c : Z * Z) : Q :=
  (Qpower p (snd c) * Qpower (1 - p) (fst c))%Q.

Definition init_row (initState : Z) : Q * Q :=
  if initState =? 0 then (1%Q, 0%Q) else (0%Q, 1%Q).

Definition row_total (r : Q * Q) : Q := (fst r + snd r)%Q.

Definition dp_rows (m : GilbertElliotLossModel) (v initState : Z) (k : nat)
    : Q * Q :=
  iter_bits (dp_row m) (init_row initState) (mbits v) k.

(** Every cached value is the value the table computation yields for its
    key. *)
Definition cache_valid (m : GilbertElliotLossModel) : Prop :=
  forall pattern len initState prob,
    cache m !! (pattern, len, initState) = Some prob ->
    computePatternProbabilityDP m pattern len initState = Ok prob.

(** The value of [CalculateProbability] in terms of the table values. *)
Definition ge_value (m : GilbertElliotLossModel) (v N : Z) : Q :=
  (steadyState0 m * row_total (dp_rows m v 0 (Z.to_nat N)) +
   steadyState1 m * row_total (dp_rows m v 1 (Z.to_nat N)))%Q.

Definition Qsum (l : list Q) : Q := fold_right Qplus 0%Q l.

Definition emit (p : Q) (b : bool) : Q := if b then (1 - p)%Q else p.

Definition emit_step (p : Q) (b : bool) (q : Q) : Q := (q * emit p b)%Q.

(** The design's search scenario: five vertices, edges [0 -> 1],
    [1 -> 2], [3 -> 1], [1 -> 4]. *)
Definition scenario_graph : SimpleGraph :=
  {| sg_numVertices := 5; sg_adjList := [[1]; [2; 4]; []; [1]; []] |}.

(** The recovery graph of the scenario mask. *)
Definition scenario_recovery_graph : RecoveryGraph :=
  {| numVertices := 16; N := 3; K := 1; mask := scenario_mask |}.

(** *** Invariants of the breadth-first search *)

Section SearchInvariants.
Context {G : Type} `{Graph G}.
Variable g : G.
Variable sources : list Z.

(** A vertex the search may record: reachable from a valid source. *)
Definition justified (v : Z) : Prop :=
  exists s, In s sources /\ valid_vertex g s /\ reaches g s v.

Record bfs_inv (st : bfs_state) : Prop := {
  inv_length : length (visited st) = Z.to_nat (NumVertices g);
  inv_visited : forall v, valid_vertex g v ->
    (visited st !! Z.to_nat v = Some true <-> v ∈ reachableVertices st);
  inv_nodup : NoDup (reachableVertices st);
  inv_sound : forall v, v ∈ reachableVertices st ->
    valid_vertex g v /\ justified v;
  inv_queue : forall v, v ∈ queue st -> v ∈ reachableVertices st
}.

(** All valid neighbours of [v] are recorded. *)
Definition closed (st : bfs_state) (v : Z) : Prop :=
  forall w, edge g v w -> valid_vertex g w -> w ∈ reachableVertices st.

Definition measure (st : bfs_state) : nat :=
  (unvisited (visited st) + length (queue st))%nat.

(** What one pass of the visiting body over a list preserves and
    achieves. *)
Record visit_post (l : list Z) (st st' : bfs_state) : Prop := {
  post_inv : bfs_inv st';
  post_measure : measure st' = measure st;
  post_reach_mono : forall x,
    x ∈ reachableVertices st -> x ∈ reachableVertices st';
  post_queue_mono : forall x, x ∈ queue st -> x ∈ queue st';
  post_covers : forall v, v ∈ l -> valid_vertex g v ->
    v ∈ reachableVertices st';
  post_new : forall x, x ∈ reachableVertices st' ->
    x ∈ reachableVertices st \/ x ∈ queue st'
}.

(** Between two iterations of the main loop every recorded vertex is
    either still queued or has all its valid neighbours recorded. *)
Definition loop_inv (st : bfs_state) : Prop :=
  bfs_inv st /\
  (forall s, In s sources -> valid_vertex g s -> s ∈ reachableVertices st) /\
  (forall v, v ∈ reachableVertices st -> v ∈ queue st \/ closed st v).

End SearchInvariants.

(** *** Tests of the recovery characteristics *)

(** The set built from the reachable list. *)
Definition reachableSet_of (R : list Z) : gmap Z bool :=
  foldl (fun (m : gmap Z bool) v => <[v := true]> m) ∅ R.

(** The test applied to a loss pattern. *)
Definition fails_b (R : list Z) (total lossPattern : Z) : bool :=
  negb (map_get (reachableSet_of R) (Z.lxor (2 ^ total - 1) lossPattern)).

(** The test applied to the start offsets of a run length. *)
Definition run_fails_b (R : list Z) (total len : Z) : bool :=
  existsb (fun start => fails_b R total (run_pattern start len))
          (seqZ 0 (total - len + 1)).

(** ** Further code of the package *)

(** *** Building the adjacency-list graph (graph_test.go) *)

(** [make([][]int, numVertices)]: the elements are slice headers of 24
    bytes. *)
Definition NewSimpleGraph (numVertices : Z) : result SimpleGraph :=
  let* adjList := make 24 numVertices [] in
  Ok {| sg_numVertices := numVertices; sg_adjList := adjList |}.

(** The receiver is updated in place; the updated graph is returned. *)
Definition AddEdge (g : SimpleGraph) (source destination : Z)
    : result SimpleGraph :=
  if (source >=? 0) && (source <? sg_numVertices g) &&
     (destination >=? 0) && (destination <? sg_numVertices g) then
    match sg_adjList g !! Z.to_nat source with
    | Some l =>
        Ok {| sg_numVertices := sg_numVertices g;
              sg_adjList :=
                <[Z.to_nat source := l ++ [destination]]> (sg_adjList g) |}
    | None => Panic
    end
  else Ok g.

Definition AddUndirectedEdge (g : SimpleGraph) (vertex1 vertex2 : Z)
    : result SimpleGraph :=
  let* g1 := AddEdge g vertex1 vertex2 in
  AddEdge g1 vertex2 vertex1.

(** The graphs obtained from the constructor by adding edges. *)
Inductive SimpleGraph_built : SimpleGraph -> Prop :=
| built_new n g : NewSimpleGraph n = Ok g -> SimpleGraph_built g
| built_edge g source destination g' :
    SimpleGraph_built g -> AddEdge g source destination = Ok g' ->
    SimpleGraph_built g'.

(** *** The visited marker (graph_test.go) *)

Record SimpleVisitedMarker : Type := { svm_visited : list bool }.

(** [make([]bool, numVertices)]. *)
Definition NewSimpleVisitedMarker (numVertices : Z)
    : result SimpleVisitedMarker :=
  let* visited := make 1 numVertices false in
  Ok {| svm_visited := visited |}.

Definition MarkReachable (m : SimpleVisitedMarker) (vertex : Z)
    : result SimpleVisitedMarker :=
  if (vertex >=? 0) && (vertex <? Z.of_nat (length (svm_visited m))) then
    match svm_visited m !! Z.to_nat vertex with
    | Some _ => Ok {| svm_visited := <[Z.to_nat vertex := true]> (svm_visited m) |}
    | None => Panic
    end
  else Ok m.

Definition IsReachable (m : SimpleVisitedMarker) (vertex : Z) : result bool :=
  if (vertex >=? 0) && (vertex <? Z.of_nat (length (svm_visited m))) then
    match svm_visited m !! Z.to_nat vertex with
    | Some b => Ok b
    | None => Panic
    end
  else Ok false.

(** [for i := range m.visited { m.visited[i] = false }]. *)
Definition Reset (m : SimpleVisitedMarker) : result SimpleVisitedMarker :=
  let* vis :=
    for_range 0 (Z.of_nat (length (svm_visited m))) (fun i vis =>
      match vis !! Z.to_nat i with
      | Some _ => Ok (<[Z.to_nat i := false]> vis)
      | None => Panic
      end) (svm_visited m) in
  Ok {| svm_visited := vis |}.

(** [for i, isReachable := range m.visited], appending the marked
    indices. *)
Definition GetReachableVertices (m : SimpleVisitedMarker) : result (list Z) :=
  for_range 0 (Z.of_nat (length (svm_visited m))) (fun i reachable =>
    match svm_visited m !! Z.to_nat i with
    | Some isReachable =>
        if (isReachable : bool) then Ok (reachable ++ [i]) else Ok reachable
    | None => Panic
    end) [].

(** *** Notions for the further properties of the search *)

(** The elements of [l] not in [seen], each at its first occurrence. *)
Fixpoint first_occurrences (seen l : list Z) : list Z :=
  match l with
  | [] => []
  | x :: l' =>
      if bool_decide (x ∈ seen) then first_occurrences seen l'
      else x :: first_occurrences (x :: seen) l'
  end.

(** The test [source < 0 || source >= graph.NumVertices()], negated. *)
Definition in_graph {G : Type} `{Graph G} (g : G) (s : Z) : bool :=
  (0 <=? s) && (s <? NumVertices g).

(** The sources as the seeding loop records them: the vertices of the
    graph among them, each at its first occurrence. *)
Definition seeded {G : Type} `{Graph G} (g : G) (sources : list Z) : list Z :=
  first_occurrences [] (List.filter (in_graph g) sources).

(** Same parity bits: the bits from position [n] on agree. *)
Definition same_parity_bits (n v w : Z) : Prop :=
  forall i, n <= i -> Z.testbit w i = Z.testbit v i.

(** [w] is [v] with some of its set bits cleared. *)
Definition submask (v w : Z) : Prop := Z.land w v = w.

(** [d] is [v] with one set bit below position [n] cleared. *)
Definition clears_data_bit (n v d : Z) : Prop :=
  exists i, 0 <= i < n /\ i <= 62 /\ Z.testbit v i = true /\ d = Z.clearbit v i.

(** The graphs obtained from the constructor by adding undirected edges
    only. *)
Inductive SimpleGraph_undirected : SimpleGraph -> Prop :=
| undirected_new n g : NewSimpleGraph n = Ok g -> SimpleGraph_undirected g
| undirected_edge g vertex1 vertex2 g' :
    SimpleGraph_undirected g ->
    AddUndirectedEdge g vertex1 vertex2 = Ok g' ->
    SimpleGraph_undirected g'.

(** *** Distance from the sources *)

(** [reaches_in g sources n v]: a walk of [n] edges leads from a source
    that is a vertex of the graph to [v], through vertices of the
    graph. *)
Inductive reaches_in {G : Type} `{Graph G} (g : G) (sources : list Z)
    : nat -> Z -> Prop :=
| reaches_in_source s :
    In s sources -> valid_vertex g s -> reaches_in g sources 0 s
| reaches_in_step n v w :
    reaches_in g sources n v -> edge g v w -> valid_vertex g w ->
    reaches_in g sources (Datatypes.S n) w.

(** The least number of edges of such a walk. *)
Definition distance {G : Type} `{Graph G} (g : G) (sources : list Z)
    (v : Z) (n : nat) : Prop :=
  reaches_in g sources n v /\
  forall m, reaches_in g sources m v -> (n <= m)%nat.

Section Levels.
Context {G : Type} `{Graph G}.
Variable g : G.
Variable sources : list Z.

(** The recorded vertices while the neighbours of [u] are visited: the
    processed vertices [P], then [u], then the queue; the distances are
    non-decreasing along the list and at most one more than that of
    [u]. *)
Definition frontier (P : list Z) (nsP : list nat) (u : Z) (k : nat)
    (st : bfs_state) : Prop :=
  exists nsQ,
    reachableVertices st = P ++ u :: queue st /\
    Forall2 (distance g sources) (queue st) nsQ /\
    StronglySorted le (nsP ++ k :: nsQ) /\
    Forall (fun n => (n <= Datatypes.S k)%nat) nsQ.

(** Between two iterations of the main loop: the processed vertices,
    then the queue, in non-decreasing distance; the queue spans at most
    two levels, and the processed vertices have their neighbours
    recorded. *)
Definition levels (st : bfs_state) : Prop :=
  exists P nsP nsQ,
    reachableVertices st = P ++ queue st /\
    Forall2 (distance g sources) P nsP /\
    Forall2 (distance g sources) (queue st) nsQ /\
    StronglySorted le (nsP ++ nsQ) /\
    (forall k, head nsQ = Some k ->
       Forall (fun n => (n <= Datatypes.S k)%nat) nsQ) /\
    (forall p, p ∈ P -> closed g st p).

Definition sources_recorded (st : bfs_state) : Prop :=
  forall s, In s sources -> valid_vertex g s -> s ∈ reachableVertices st.
End Levels.

(** *** The loss-model printer (cmd/loss-models-printer/main.go) *)

(** [countLostPackets]: the packets whose bit is clear among the first
    [N]. *)
Definition countLostPackets (mask N : Z) : result Z :=
  for_range 0 N (fun i lostCount =>
    let* b := shl 1 i in
    if and mask b =? 0 then Ok (add lostCount 1) else Ok lostCount) 0.

(** The two accumulators of [printLossModelAnalysis], for one loss model:
    over all masks from [0] to [(1 << N) - 1], the sum of the
    probabilities and the sum of the probabilities weighted by the number
    of lost packets; the second is then divided by [N] (the experimental
    loss probability).  What the function prints is left out. *)
Definition printLossModelAnalysis_sums {M : Type} `{LossModel M} (m : M)
    (N : Z) : result (Q * Q * M) :=
  let* totalMasks := shl 1 N in
  let* (sums, m') :=
    for_range 0 totalMasks (fun mask '(probabilitySum, lossPacketCount, m) =>
      let* lostPackets := countLostPackets mask N in
      let* (prob, m1) := CalculateProbability m mask N in
      Ok ((probabilitySum + prob)%Q,
          (lossPacketCount + prob * inject_Z lostPackets)%Q, m1))
      (0%Q, 0%Q, m) in
  Ok (fst sums, (snd sums / inject_Z N)%Q, m').

(** *** Notions for the further properties of the loss models *)

(** The lost-packet counter folded over the bits. *)
Definition zeros_step (b : bool) (z : Z) : Z := if b then z else z + 1.

(** Two folds run side by side. *)
Definition pair_step {A B : Type} (f : bool -> A -> A) (g : bool -> B -> B)
    (b : bool) (x : A * B) : A * B :=
  (f b (fst x), g b (snd x)).

(** A linear weight on a table row. *)
Definition row_dot (c r : Q * Q) : Q := (fst c * fst r + snd c * snd r)%Q.

(** The weight that the state transition carries one step back. *)
Definition transition_adjoint (m : GilbertElliotLossModel) (c : Q * Q)
    : Q * Q :=
  (fst c * (1 - P01 m) + snd c * P01 m,
   fst c * P10 m + snd c * (1 - P10 m))%Q.

(** The probability that the next packet is lost, as a weight on the
    current row. *)
Definition loss_weights (m : GilbertElliotLossModel) : Q * Q :=
  ((1 - P01 m) * Pe0 m + P01 m * Pe1 m,
   P10 m * Pe0 m + (1 - P10 m) * Pe1 m)%Q.

(** *** The recovery probability (cmd/fec-analysis/main.go) *)

(** The accumulation of [main] for one loss model: the probabilities of
    the vertices the search returned, added up in the order of the
    slice.  (The root [math.Pow(recoveryProb, 1/N)] taken afterwards is
    not a rational operation and is left out.) *)
Definition recoveryProb {M : Type} `{LossModel M} (m : M)
    (reachable : list Z) (totalPackets : Z) : result (Q * M) :=
  for_each reachable (fun vertex '(recoveryProb, m) =>
    let* (prob, m1) := CalculateProbability m vertex totalPackets in
    Ok ((recoveryProb + prob)%Q, m1)) (0%Q, m).

(** *** The good vertices of the analysis (cmd/fec-analysis/main.go) *)

(** [allMediaPackets := (1 << N) - 1], then for each state of the parity
    packets the vertex [allMediaPackets | (fecState << N)]. *)
Definition goodVertices (N K : Z) : result (list Z) :=
  let* top := shl 1 N in
  let allMediaPackets := sub top 1 in
  let* states := shl 1 K in
  for_range 0 states (fun fecState goodVertices =>
    let* hi := shl fecState N in
    Ok (goodVertices ++ [or allMediaPackets hi])) [].

(** Parity [j] is present in [v] while a data packet it protects is
    missing: it cannot be used at [v] nor at any vertex below. *)
Definition parity_spent (m : Mask) (v j : Z) : bool :=
  Z.testbit v (mask_N m + j) &&
  negb (forallb (fun d => implb (IsProtected m d j) (Z.testbit v d))
                (seqZ 0 (mask_N m))).

Definition spent_parities (m : Mask) (v : Z) : Z :=
  Z.of_nat (length (List.filter (parity_spent m v) (seqZ 0 (mask_K m)))).

Definition present_parities (m : Mask) (v : Z) : Z :=
  Z.of_nat (length (List.filter (fun j => Z.testbit v (mask_N m + j))
                                (seqZ 0 (mask_K m)))).

(** *** The interleaved mask ([InterleavedMask]; its code is in README.md
    of the source tree) *)

(** [packetIndex % m.k == fecIndex] inside the bounds; Go's [%] is the
    truncated remainder, and [m.k > 0] where it is evaluated. *)
Definition InterleavedMask_IsProtected (n k packetIndex fecIndex : Z) : bool :=
  if (packetIndex <? 0) || (packetIndex >=? n) ||
     (fecIndex <? 0) || (fecIndex >=? k) then false
  else Z.rem packetIndex k =? fecIndex.

Definition InterleavedMask (n k : Z) : Mask :=
  {| IsProtected := InterleavedMask_IsProtected n k;
     mask_N := n; mask_K := k |}.

(** The factory: [None] stands for the returned error. *)
Definition InterleavedMaskFactory_CreateMask (N K : Z) : option Mask :=
  if (N <=? 0) || (K <=? 0) || (K >? N) then None
  else Some (InterleavedMask N K).

(** *** The bit-pattern mask ([bitMask]; its code is in README.md of the
    source tree) *)

Definition mul (x y : Z) : Z := wrap (x * y).

(** Indexing a slice panics outside its bounds. *)
Definition index {A : Type} (l : list A) (i : Z) : result A :=
  if i <? 0 then Panic
  else match l !! Z.to_nat i with
       | Some x => Ok x
       | None => Panic
       end.

(** [1 << s] at type [byte]. *)
Definition shl_byte (x s : Z) : result Z :=
  if s <? 0 then Panic else Ok (Z.shiftl x s mod 2 ^ 8).

Record bitMask : Type := {
  bm_data : list Z;   (* bytes *)
  bm_n : Z;
  bm_k : Z
}.

Definition bitMask_IsProtected (m : bitMask) (packetIndex fecIndex : Z)
    : result bool :=
  if (packetIndex <? 0) || (packetIndex >=? 16) || (fecIndex <? 0)
  then Ok false
  else if mul fecIndex 2 >? Z.of_nat (length (bm_data m)) then Ok false
  else
    let byteOffset := mul fecIndex 2 in
    if packetIndex <? 8 then
      let bitPos := sub 7 packetIndex in
      let* b := index (bm_data m) byteOffset in
      let* one := shl_byte 1 bitPos in
      Ok (negb (Z.land b one =? 0))
    else
      let bitPos := sub 7 (sub packetIndex 8) in
      let* b := index (bm_data m) (add byteOffset 1) in
      let* one := shl_byte 1 bitPos in
      Ok (negb (Z.land b one =? 0)).

(** *** Formatting helpers (cmd/loss-models-printer/main.go) *)

(** A Go string is a sequence of bytes. *)
Abbreviation gostring := (list ascii).

(** [formatMask]: one character per packet, lowest bit first. *)
Definition formatMask (mask N : Z) : result gostring :=
  for_range 0 N (fun i desc =>
    let* b := shl 1 i in
    if negb (and mask b =? 0) then Ok (desc ++ ["1"%char])
    else Ok (desc ++ ["0"%char])) [].

(** [truncateName]: the slice expression [name[:width-3]] panics when
    its bound is negative or beyond the length. *)
Definition truncateName (name : gostring) (width : Z) : result gostring :=
  if Z.of_nat (length name) <=? width then Ok name
  else
    let hi := sub width 3 in
    if (hi <? 0) || (hi >? Z.of_nat (length name)) then Panic
    else Ok (take (Z.to_nat hi) name ++ ["."%char; "."%char; "."%char]).

(** The character [formatMask] writes for a bit. *)
Definition bit_char (b : bool) : ascii := if b then "1"%char else "0"%char.

(* ================================================================== *)
(** * Part II. Properties                                              *)
(* ================================================================== *)

(** ** Machine integers *)

Lemma wrap_id z : in_range z -> wrap z = z.
Proof.
  unfold in_range, wrap, min_int, max_int. intros Hz.
  rewrite Z.mod_small; lia.
Qed.

Lemma wrap_in_range z : in_range (wrap z).
Proof.
  unfold in_range, wrap, min_int, max_int.
  pose proof (Z.mod_pos_bound (z + 2 ^ 63) (2 ^ 64) ltac:(lia)). lia.
Qed.

Lemma pow2_le_mono a b : 0 <= a <= b -> 2 ^ a <= 2 ^ b.
Proof. intros. apply Z.pow_le_mono_r; lia. Qed.

Lemma pow2_lt_mono a b : 0 <= a < b -> 2 ^ a < 2 ^ b.
Proof. intros. apply Z.pow_lt_mono_r; lia. Qed.

Lemma pow2_pos a : 0 <= a -> 0 < 2 ^ a.
Proof. intros. apply Z.pow_pos_nonneg; lia. Qed.

Lemma in_range_small z : 0 <= z < 2 ^ 63 -> in_range z.
Proof. unfold in_range, min_int, max_int. lia. Qed.

Lemma wrap_small z : 0 <= z < 2 ^ 63 -> wrap z = z.
Proof. intros. by apply wrap_id, in_range_small. Qed.

Lemma shl_nonneg x s : 0 <= s -> shl x s = Ok (wrap (Z.shiftl x s)).
Proof. unfold shl. intros. destruct (Z.ltb_spec s 0); [lia | done]. Qed.

Lemma shl_1_small s : 0 <= s <= 62 -> shl 1 s = Ok (2 ^ s).
Proof.
  intros Hs. rewrite shl_nonneg by lia. f_equal.
  rewrite Z.shiftl_1_l. apply wrap_small.
  split; [apply Z.lt_le_incl, pow2_pos; lia | apply pow2_lt_mono; lia].
Qed.

Lemma shl_1_63 : shl 1 63 = Ok min_int.
Proof. reflexivity. Qed.

Lemma shl_1_large s : 64 <= s -> shl 1 s = Ok 0.
Proof.
  intros Hs. rewrite shl_nonneg by lia. f_equal.
  rewrite Z.shiftl_1_l. unfold wrap.
  replace s with (64 + (s - 64)) by lia.
  rewrite Z.pow_add_r by lia.
  rewrite Z.add_comm, Z.mul_comm, Z.mod_add by lia. reflexivity.
Qed.

Lemma land_pow2 v i :
  0 <= i -> Z.land v (2 ^ i) = if Z.testbit v i then 2 ^ i else 0.
Proof.
  intros Hi. apply Z.bits_inj'. intros j Hj.
  rewrite Z.land_spec, Z.pow2_bits_eqb by lia.
  destruct (Z.eqb_spec i j) as [->|Hne].
  - destruct (Z.testbit v j) eqn:E.
    + rewrite Z.pow2_bits_true by lia. done.
    + by rewrite Z.bits_0.
  - rewrite andb_false_r. destruct (Z.testbit v i).
    + rewrite Z.pow2_bits_false by lia. done.
    + by rewrite Z.bits_0.
Qed.

Lemma land_pow2_eqb v i :
  0 <= i -> (Z.land v (2 ^ i) =? 0) = negb (Z.testbit v i).
Proof.
  intros Hi. rewrite land_pow2 by done.
  pose proof (pow2_pos i Hi).
  destruct (Z.testbit v i); simpl; [apply Z.eqb_neq; lia | done].
Qed.

Lemma bit_set_small v i : 0 <= i <= 62 -> bit_set v i = Ok (Z.testbit v i).
Proof.
  intros Hi. unfold bit_set. rewrite shl_1_small by done. simpl.
  unfold and. rewrite land_pow2_eqb by lia. by rewrite negb_involutive.
Qed.

Lemma testbit_above x n i :
  0 <= x < 2 ^ n -> n <= i -> Z.testbit x i = false.
Proof.
  intros [H0 Hx] Hi.
  destruct (Z.eq_dec x 0) as [->|Hne]; [apply Z.bits_0|].
  apply Z.bits_above_log2; [done|].
  assert (Z.log2 x < n); [|lia].
  destruct (Z.le_gt_cases n 0) as [Hn|Hn].
  - assert (2 ^ n <= 1); [|lia].
    destruct (Z.eq_dec n 0) as [->|]; [done|].
    rewrite Z.pow_neg_r by lia. lia.
  - apply Z.log2_lt_pow2; lia.
Qed.

Lemma lt_pow2_of_bits x n :
  0 <= x -> 0 <= n -> (forall i, n <= i -> Z.testbit x i = false) -> x < 2 ^ n.
Proof.
  intros H0 Hn Hb.
  destruct (Z.eq_dec x 0) as [->|Hne]; [by apply pow2_pos|].
  apply Z.log2_lt_pow2; [lia|].
  destruct (Z.lt_ge_cases (Z.log2 x) n) as [|Hge]; [done|].
  specialize (Hb _ Hge). rewrite Z.bit_log2 in Hb by lia. done.
Qed.

Lemma clearbit_ldiff v i : Z.clearbit v i = Z.ldiff v (2 ^ i).
Proof. unfold Z.clearbit. by rewrite Z.shiftl_1_l. Qed.

Lemma clearbit_set_lt v i :
  0 <= i -> Z.testbit v i = true -> Z.clearbit v i = v - 2 ^ i.
Proof.
  intros Hi Hb. rewrite clearbit_ldiff.
  rewrite Z.ldiff_land, <- Zbitwise.Z.sub_land_same_l.
  rewrite land_pow2, Hb; done.
Qed.

Lemma clearbit_unset v i :
  0 <= i -> Z.testbit v i = false -> Z.clearbit v i = v.
Proof.
  intros Hi Hb. rewrite clearbit_ldiff.
  rewrite Z.ldiff_land, <- Zbitwise.Z.sub_land_same_l.
  rewrite land_pow2, Hb by done. lia.
Qed.

Lemma testbit_true_ge v i : 0 <= v -> Z.testbit v i = true -> 2 ^ i <= v.
Proof.
  intros Hv Hb.
  destruct (Z.lt_ge_cases i 0) as [Hi|Hi].
  { by rewrite Z.testbit_neg_r in Hb. }
  destruct (Z.lt_ge_cases v (2 ^ i)) as [Hlt|]; [|done].
  rewrite (testbit_above v i i) in Hb; [done | lia | lia].
Qed.

(** ** Results and loops *)

Lemma bind_Ok_inv {A B} (m : result A) (f : A -> result B) b :
  bind m f = Ok b -> exists a, m = Ok a /\ f a = Ok b.
Proof. destruct m; simpl; intros; eauto; done. Qed.

Lemma make_Ok {A} (elemSize n : Z) (zero : A) :
  0 <= n -> elemSize * n <= maxAlloc ->
  make elemSize n zero = Ok (replicate (Z.to_nat n) zero).
Proof.
  intros Hn Hsize. unfold make.
  destruct (Z.ltb_spec n 0); [lia|].
  destruct (Z.gtb_spec (elemSize * n) maxAlloc); [lia|]. done.
Qed.

Lemma make_Ok_inv {A} (elemSize n : Z) (zero : A) l :
  make elemSize n zero = Ok l ->
  0 <= n /\ elemSize * n <= maxAlloc /\ l = replicate (Z.to_nat n) zero.
Proof.
  unfold make.
  destruct (Z.ltb_spec n 0); [done|].
  destruct (Z.gtb_spec (elemSize * n) maxAlloc); [done|].
  intros Hl. inversion Hl. split; [lia|]. split; [lia|done].
Qed.

Lemma make_Panic {A} (elemSize n : Z) (zero : A) :
  n < 0 \/ maxAlloc < elemSize * n -> make elemSize n zero = Panic.
Proof.
  intros Hn. unfold make.
  destruct (Z.ltb_spec n 0); [done|].
  destruct (Z.gtb_spec (elemSize * n) maxAlloc); [done|lia].
Qed.

Lemma for_loop_snoc {S} (body : Z -> S -> result S) count i s :
  for_loop (Datatypes.S count) i body s =
  let* s' := for_loop count i body s in body (i + Z.of_nat count) s'.
Proof.
  revert i s. induction count as [|c IH]; intros i s.
  - simpl. rewrite Z.add_0_r. destruct (body i s); done.
  - change (for_loop (Datatypes.S (Datatypes.S c)) i body s)
      with (let* s' := body i s in for_loop (Datatypes.S c) (i + 1) body s').
    change (for_loop (Datatypes.S c) i body s)
      with (let* s' := body i s in for_loop c (i + 1) body s').
    destruct (body i s) as [s1| |]; cbn [bind]; try done.
    rewrite IH. replace (i + 1 + Z.of_nat c) with (i + Z.of_nat (Datatypes.S c)) by lia.
    done.
Qed.

(** Hoare-style rule for a loop without early return. *)
Lemma for_loop_inv {S} (I : S -> Prop) (body : Z -> S -> result S) count i s s' :
  I s ->
  (forall j t t', i <= j < i + Z.of_nat count -> I t -> body j t = Ok t' -> I t') ->
  for_loop count i body s = Ok s' -> I s'.
Proof.
  revert i s. induction count as [|c IH]; intros i s Hs Hbody Hrun.
  - simpl in Hrun. by inversion Hrun; subst.
  - simpl in Hrun. apply bind_Ok_inv in Hrun as (s1 & H1 & H2).
    apply (IH (i + 1) s1); [| |done].
    + apply (Hbody i s s1); [lia|done|done].
    + intros j t t' Hj. apply Hbody. lia.
Qed.

(** A loop that appends [f j] at step [j] computes a [flat_map]. *)
Lemma for_loop_append {A} (f : Z -> list A)
    (body : Z -> list A -> result (list A)) count i acc :
  (forall j t, i <= j < i + Z.of_nat count -> body j t = Ok (t ++ f j)) ->
  for_loop count i body acc = Ok (acc ++ flat_map f (seqZ i (Z.of_nat count))).
Proof.
  revert i acc. induction count as [|c IH]; intros i acc Hbody.
  - simpl. by rewrite app_nil_r.
  - simpl for_loop. rewrite Hbody by lia. simpl.
    rewrite IH by (intros; apply Hbody; lia).
    rewrite (seqZ_cons i) by lia. simpl.
    rewrite <- app_assoc.
    replace (Z.succ i) with (i + 1) by lia.
    by replace (Z.pred (Z.of_nat (Datatypes.S c))) with (Z.of_nat c) by lia.
Qed.

(** A loop that only checks [check j] and returns [r] at the first
    failure. *)
Lemma for_loop_ret_check {R} (check : Z -> bool) (r : R)
    (body : Z -> unit -> result (unit + R)) count i :
  (forall j, i <= j < i + Z.of_nat count ->
     body j tt = Ok (if check j then inl tt else inr r)) ->
  for_loop_ret count i body tt =
  Ok (if forallb check (seqZ i (Z.of_nat count)) then inl tt else inr r).
Proof.
  revert i. induction count as [|c IH]; intros i Hbody.
  - done.
  - simpl for_loop_ret. rewrite Hbody by lia.
    rewrite (seqZ_cons i) by lia. simpl.
    destruct (check i); simpl; [|done].
    rewrite IH by (intros; apply Hbody; lia).
    replace (Z.succ i) with (i + 1) by lia.
    by replace (Z.pred (Z.of_nat (Datatypes.S c))) with (Z.of_nat c) by lia.
Qed.

(** A loop whose first [m] iterations continue with the state unchanged
    and whose next iteration does not return. *)
Lemma for_loop_ret_stuck {S R} (body : Z -> S -> result (S + R)) (s : S)
    (m count : nat) (i : Z) :
  (m < count)%nat ->
  (forall j, (j < m)%nat -> body (i + Z.of_nat j) s = Ok (inl s)) ->
  body (i + Z.of_nat m) s = OutOfFuel ->
  for_loop_ret count i body s = OutOfFuel.
Proof.
  revert count i. induction m as [|m IH]; intros count i Hlt Hskip Hstuck.
  - destruct count as [|c]; [lia|].
    simpl for_loop_ret. rewrite Z.add_0_r in Hstuck. by rewrite Hstuck.
  - destruct count as [|c]; [lia|].
    simpl for_loop_ret.
    pose proof (Hskip O ltac:(lia)) as H0. rewrite Z.add_0_r in H0.
    rewrite H0. cbn [bind].
    apply IH; [lia| |].
    + intros j Hj.
      replace (i + 1 + Z.of_nat j) with (i + Z.of_nat (Datatypes.S j)) by lia.
      apply Hskip. lia.
    + by replace (i + 1 + Z.of_nat m) with (i + Z.of_nat (Datatypes.S m)) by lia.
Qed.

Lemma flat_map_filter_map {A B} (p : A -> bool) (f : A -> B) (l : list A) :
  flat_map (fun x => if p x then [f x] else []) l =
  map f (List.filter p l).
Proof.
  induction l as [|x l IH]; simpl; [done|].
  destruct (p x); simpl; by rewrite IH.
Qed.

(** ** The recovery graph *)

Section RecoveryGraphEdges.
Variable g : RecoveryGraph.
Hypothesis HN : N g = mask_N (mask g).
Hypothesis HK : K g = mask_K (mask g).
Hypothesis HN0 : 0 <= N g.
Hypothesis HK0 : 0 <= K g.
Hypothesis Hsmall : N g + K g <= 62.

Lemma in_seqZ_0 (x n : Z) : In x (seqZ 0 n) <-> 0 <= x < n.
Proof. rewrite <- list_elem_of_In, elem_of_seqZ. lia. Qed.

Lemma canUseFECPacket_spec v j :
  0 <= j < K g ->
  canUseFECPacket g v j = Ok (parity_usable (mask g) v j).
Proof.
  intros Hj. unfold canUseFECPacket, parity_usable, add.
  rewrite wrap_small by lia. rewrite shl_1_small by lia. cbn [bind].
  unfold and. rewrite land_pow2_eqb by lia. rewrite <- HN.
  destruct (Z.testbit v (N g + j)); cbn [negb andb]; [|done].
  unfold for_range_ret. rewrite Z.sub_0_r.
  rewrite (for_loop_ret_check
             (fun d => implb (IsProtected (mask g) d j) (Z.testbit v d)) false).
  - rewrite Z2Nat.id by done.
    by destruct (forallb _ _).
  - intros d Hd. rewrite Z2Nat.id in Hd by done.
    destruct (IsProtected (mask g) d j); cbn [implb]; [|done].
    rewrite shl_1_small by lia. cbn [bind].
    rewrite land_pow2_eqb by lia.
    by destruct (Z.testbit v d).
Qed.

Lemma addRecoveryEdges_spec edges v j :
  parity_usable (mask g) v j = true ->
  addRecoveryEdges g edges v j =
  Ok (edges ++ map (Z.clearbit v)
                   (List.filter (fun d => IsProtected (mask g) d j)
                                (seqZ 0 (N g)))).
Proof.
  intros Hu. apply andb_prop in Hu as [_ Hall].
  rewrite forallb_forall in Hall. rewrite <- HN in Hall.
  unfold addRecoveryEdges, for_range. rewrite Z.sub_0_r.
  rewrite (for_loop_append
             (fun d => if IsProtected (mask g) d j then [Z.clearbit v d] else [])).
  - by rewrite Z2Nat.id, flat_map_filter_map by done.
  - intros d t Hd. rewrite Z2Nat.id in Hd by done.
    specialize (Hall d). rewrite in_seqZ_0 in Hall.
    destruct (IsProtected (mask g) d j); [|by rewrite app_nil_r].
    rewrite shl_1_small by lia. cbn [bind].
    cbn [implb] in Hall. specialize (Hall ltac:(lia)).
    unfold andnot. rewrite <- clearbit_ldiff.
    rewrite clearbit_set_lt by (done || lia).
    pose proof (pow2_pos d ltac:(lia)).
    destruct (Z.eqb_spec (v - 2 ^ d) v); [lia|done].
Qed.

Lemma GetEdges_in_range v :
  0 <= v < numVertices g ->
  RecoveryGraph_GetEdges g v = Ok (edges_spec (mask g) v).
Proof.
  intros Hv. unfold RecoveryGraph_GetEdges.
  destruct (Z.ltb_spec v 0); [lia|].
  destruct (Z.geb_spec v (numVertices g)); [lia|]. cbn [orb].
  unfold for_range. rewrite Z.sub_0_r.
  rewrite (for_loop_append (fun j =>
    if parity_usable (mask g) v j
    then map (Z.clearbit v)
             (List.filter (fun d => IsProtected (mask g) d j) (seqZ 0 (N g)))
    else [])).
  - rewrite Z2Nat.id by done. unfold edges_spec. by rewrite <- HN, <- HK.
  - intros j t Hj. rewrite Z2Nat.id in Hj by done.
    rewrite canUseFECPacket_spec by lia. cbn [bind].
    destruct (parity_usable (mask g) v j) eqn:Hu.
    + by apply addRecoveryEdges_spec.
    + by rewrite app_nil_r.
Qed.
End RecoveryGraphEdges.

Lemma GetEdges_out_of_range g v :
  ~ (0 <= v < numVertices g) -> RecoveryGraph_GetEdges g v = Ok [].
Proof.
  intros Hv. unfold RecoveryGraph_GetEdges.
  destruct (Z.ltb_spec v 0); [done|].
  destruct (Z.geb_spec v (numVertices g)); [done|lia].
Qed.

Lemma NewRecoveryGraph_small m :
  0 <= mask_N m -> 0 <= mask_K m -> mask_N m + mask_K m <= 62 ->
  NewRecoveryGraph m =
  Ok {| numVertices := 2 ^ (mask_N m + mask_K m);
        N := mask_N m; K := mask_K m; mask := m |}.
Proof.
  intros. unfold NewRecoveryGraph, add.
  rewrite wrap_small by lia. by rewrite shl_1_small by lia.
Qed.

(** C1 (as amended): for a protection pattern with [0 <= N], [0 <= K] and
    [N + K <= 62] the graph is built; [GetEdges v] is empty for [v]
    outside [[0, 2^(N+K))], and for [v] inside it is, as a multiset, the
    list of the vertices [v] with bit [d] cleared, one for each parity
    index [j < K] whose bit [N+j] is set in [v] with all its protected
    data bits set in [v], and each data index [d] that [j] protects.
    In the scenario [N = 3], [K = 1], [GetEdges 11] is [{9, 10}] and
    [GetEdges 3] is empty. *)
Theorem C1_GetEdges_multiset (m : Mask) :
  0 <= mask_N m -> 0 <= mask_K m -> mask_N m + mask_K m <= 62 ->
  exists g,
    NewRecoveryGraph m = Ok g /\
    NumVertices g = 2 ^ (mask_N m + mask_K m) /\
    (forall v, ~ (0 <= v < 2 ^ (mask_N m + mask_K m)) -> GetEdges g v = Ok []) /\
    (forall v, 0 <= v < 2 ^ (mask_N m + mask_K m) ->
       exists l, GetEdges g v = Ok l /\ Permutation l (edges_spec m v)) /\
    (exists gs l,
       NewRecoveryGraph scenario_mask = Ok gs /\
       GetEdges gs 11 = Ok l /\ Permutation l [9; 10] /\
       GetEdges gs 3 = Ok []).
Proof.
  intros HN HK Hs. eexists. split; [by apply NewRecoveryGraph_small|].
  split; [done|]. split; [|split].
  - intros v Hv. by apply GetEdges_out_of_range.
  - intros v Hv. eexists. split; [|reflexivity].
    by apply (GetEdges_in_range
                {| numVertices := 2 ^ (mask_N m + mask_K m);
                   N := mask_N m; K := mask_K m; mask := m |}
                eq_refl eq_refl HN HK Hs).
  - eexists _, [10; 9]. split; [reflexivity|].
    split; [reflexivity|]. split; [|reflexivity].
    apply perm_swap.
Qed.

Lemma C1_GetEdges_multiset_witness :
  exists g,
    NewRecoveryGraph scenario_mask = Ok g /\
    NumVertices g = 2 ^ (3 + 1) /\
    (forall v, ~ (0 <= v < 2 ^ (3 + 1)) -> GetEdges g v = Ok []) /\
    (forall v, 0 <= v < 2 ^ (3 + 1) ->
       exists l, GetEdges g v = Ok l /\ Permutation l (edges_spec scenario_mask v)) /\
    (exists gs l,
       NewRecoveryGraph scenario_mask = Ok gs /\
       GetEdges gs 11 = Ok l /\ Permutation l [9; 10] /\
       GetEdges gs 3 = Ok []).
Proof.
  apply (C1_GetEdges_multiset scenario_mask); simpl; lia.
Defined.

Lemma C1_counterexample :
  exists g,
    NewRecoveryGraph wide_mask = Ok g /\
    0 <= 2 ^ 62 + 1 < 2 ^ (mask_N wide_mask + mask_K wide_mask) /\
    GetEdges g (2 ^ 62 + 1) = Ok [] /\
    edges_spec wide_mask (2 ^ 62 + 1) = [2 ^ 62].
Proof.
  eexists. split; [reflexivity|]. split; [simpl; lia|].
  split; [reflexivity|]. vm_compute. reflexivity.
Qed.

(** ** Counting bits *)

Lemma bitcount_nonneg n x : 0 <= bitcount n x.
Proof. unfold bitcount. lia. Qed.

Lemma popcount_nonneg x : 0 <= popcount x.
Proof. apply bitcount_nonneg. Qed.

Lemma bitcount_0 x : bitcount 0 x = 0.
Proof. reflexivity. Qed.

Lemma bitcount_succ n x :
  0 <= n -> bitcount (n + 1) x = bitcount n x + Z.b2z (Z.testbit x n).
Proof.
  intros Hn. unfold bitcount.
  rewrite seqZ_app by lia. rewrite List.filter_app, length_app.
  rewrite (seqZ_cons (0 + n)), (seqZ_nil (Z.succ (0 + n))) by lia. simpl.
  rewrite Z.add_0_l. destruct (Z.testbit x n); simpl; lia.
Qed.

Lemma bitcount_ext n x y :
  (forall i, 0 <= i < n -> Z.testbit x i = Z.testbit y i) ->
  bitcount n x = bitcount n y.
Proof.
  intros Hxy. unfold bitcount. do 2 f_equal.
  apply List.filter_ext_in. intros i Hi.
  apply Hxy. apply list_elem_of_In, elem_of_seqZ in Hi. lia.
Qed.

Lemma bitcount_le n x : 0 <= n -> bitcount n x <= n.
Proof.
  intros Hn. unfold bitcount.
  pose proof (List.filter_length_le (fun i => Z.testbit x i) (seqZ 0 n)) as Hl.
  rewrite length_seqZ in Hl. lia.
Qed.

Lemma bitcount_clearbit n v i :
  0 <= i < n -> Z.testbit v i = true ->
  bitcount n (Z.clearbit v i) = bitcount n v - 1.
Proof.
  intros [Hi Hn] Hb.
  assert (n = Z.of_nat (Z.to_nat n)) as Hk by lia.
  revert Hn. rewrite Hk. clear Hk.
  induction (Z.to_nat n) as [|k IH]; intros Hn; [lia|].
  rewrite Nat2Z.inj_succ. unfold Z.succ.
  rewrite !bitcount_succ by lia.
  destruct (Z.eq_dec i (Z.of_nat k)) as [->|Hne].
  - rewrite Z.clearbit_eq, Hb by lia. simpl.
    rewrite (bitcount_ext (Z.of_nat k) (Z.clearbit v (Z.of_nat k)) v); [lia|].
    intros j Hj. apply Z.clearbit_neq; lia.
  - rewrite IH by lia. rewrite Z.clearbit_neq by lia. lia.
Qed.

Lemma testbit_min_int i : 0 <= i -> Z.testbit min_int i = negb (i <? 63).
Proof.
  intros Hi. unfold min_int. rewrite Z.bits_opp by done.
  f_equal. change (Z.pred (2 ^ 63)) with (Z.ones 63).
  destruct (Z.ltb_spec i 63).
  - apply Z.ones_spec_low. lia.
  - apply Z.ones_spec_high. lia.
Qed.

Lemma ldiff_min_int v : 0 <= v < 2 ^ 63 -> Z.ldiff v min_int = v.
Proof.
  intros Hv. apply Z.bits_inj'. intros i Hi.
  rewrite Z.ldiff_spec, testbit_min_int by done.
  destruct (Z.ltb_spec i 63); simpl.
  - apply andb_true_r.
  - rewrite andb_false_r. symmetry. by apply (testbit_above v 63).
Qed.

(** ** Edges of the recovery graph clear one set bit *)

Lemma addRecoveryEdges_clears g edges v j edges' :
  0 <= v < 2 ^ 63 ->
  Forall (clears_one_bit v) edges ->
  addRecoveryEdges g edges v j = Ok edges' ->
  Forall (clears_one_bit v) edges'.
Proof.
  intros Hv Hedges. unfold addRecoveryEdges, for_range.
  apply for_loop_inv; [done|].
  intros p t t' Hp Ht Hbody.
  destruct (IsProtected (mask g) p j); [|by inversion Hbody; subst].
  apply bind_Ok_inv in Hbody as (b & Hb & Hbody).
  unfold andnot in Hbody.
  destruct (Z.eqb_spec (Z.ldiff v b) v) as [Heq|Hne]; simpl in Hbody;
    inversion Hbody; subst; [done|].
  apply Forall_app. split; [done|]. apply Forall_cons. split; [|done].
  destruct (Z.le_gt_cases p 62) as [Hp62|Hp62].
  - rewrite shl_1_small in Hb by lia. inversion Hb; subst.
    exists p. split; [lia|]. rewrite clearbit_ldiff. split; [|done].
    destruct (Z.testbit v p) eqn:E; [done|].
    exfalso. apply Hne. rewrite <- clearbit_ldiff. apply clearbit_unset; [lia|done].
  - exfalso. apply Hne.
    destruct (Z.eq_dec p 63) as [->|].
    + rewrite shl_1_63 in Hb. inversion Hb; subst. by apply ldiff_min_int.
    + rewrite shl_1_large in Hb by lia. inversion Hb; subst.
      apply Z.ldiff_0_r.
Qed.

Lemma GetEdges_clears g v l :
  in_range v ->
  RecoveryGraph_GetEdges g v = Ok l ->
  Forall (clears_one_bit v) l /\ (l <> [] -> 0 <= v < numVertices g).
Proof.
  intros Hr. unfold RecoveryGraph_GetEdges.
  destruct (Z.ltb_spec v 0); cbn [orb].
  { intros Hl; inversion Hl; subst. by split. }
  destruct (Z.geb_spec v (numVertices g)); cbn [orb].
  { intros Hl; inversion Hl; subst. by split. }
  intros Hrun. split; [|lia].
  assert (0 <= v < 2 ^ 63) as Hv.
  { unfold in_range, max_int in Hr. lia. }
  revert Hrun. unfold for_range. apply for_loop_inv; [done|].
  intros j t t' Hj Ht Hbody.
  apply bind_Ok_inv in Hbody as (c & Hc & Hbody).
  destruct c; [|by inversion Hbody; subst].
  by eapply addRecoveryEdges_clears.
Qed.

Lemma clears_one_bit_facts v d :
  0 <= v -> clears_one_bit v d ->
  0 <= d < v /\ popcount d = popcount v - 1.
Proof.
  intros Hv (i & Hi & Hb & ->).
  rewrite clearbit_set_lt by (lia || done).
  pose proof (testbit_true_ge v i Hv Hb).
  pose proof (pow2_pos i ltac:(lia)).
  split; [lia|].
  rewrite <- clearbit_set_lt by (lia || done).
  unfold popcount. apply bitcount_clearbit; [lia|done].
Qed.

Lemma edge_decreases (g : RecoveryGraph) v w :
  in_range v -> edge g v w ->
  0 <= w < v /\ v < NumVertices g /\ popcount w = popcount v - 1.
Proof.
  intros Hr (l & Hl & Hw).
  apply GetEdges_clears in Hl as [Hall Hne]; [|done].
  rewrite Forall_forall in Hall. apply list_elem_of_In in Hw.
  specialize (Hall w Hw).
  assert (l <> []) as Hl by (intros ->; by apply elem_of_nil in Hw).
  specialize (Hne Hl).
  apply clears_one_bit_facts in Hall as [? ?]; [|lia].
  change (NumVertices g) with (numVertices g). lia.
Qed.

Lemma walk_popcount (g : RecoveryGraph) v n u :
  in_range v -> walk g v n u ->
  popcount u + Z.of_nat n = popcount v /\ u <= v /\ (n <> 0%nat -> u < v).
Proof.
  intros Hr Hw. induction Hw as [v | v w n u He Hw IH].
  - split; [lia|]. split; [lia|done].
  - apply edge_decreases in He as (Hw1 & _ & Hpc); [|done].
    destruct IH as (IH1 & IH2 & _).
    { apply in_range_small. unfold in_range, max_int in Hr. lia. }
    split; [lia|]. split; [lia|]. intros _. lia.
Qed.

(** C10: every destination listed by [GetEdges v] is [v] with exactly one
    set bit cleared, so it lies in [[0, v)], below the vertex count, and
    has one set bit less; hence no walk returns to its start (the graph
    is acyclic) and a walk from [v] has at most [popcount v] edges. *)
Theorem C10_edges_clear_one_bit (g : RecoveryGraph) (v : Z) :
  in_range v ->
  (forall l d, GetEdges g v = Ok l -> In d l ->
     (exists i, 0 <= i /\ Z.testbit v i = true /\ d = Z.clearbit v i) /\
     0 <= d < v /\ d < NumVertices g /\ popcount d = popcount v - 1) /\
  (forall n u, walk g v n u ->
     Z.of_nat n <= popcount v /\ (n <> 0%nat -> u < v)).
Proof.
  intros Hr. split.
  - intros l d Hl Hd.
    assert (edge g v d) as He by (exists l; done).
    destruct (edge_decreases g v d Hr He) as (H1 & H2 & H3).
    split; [|split; [done|split; [lia|done]]].
    apply GetEdges_clears in Hl as [Hall _]; [|done].
    rewrite Forall_forall in Hall. apply list_elem_of_In in Hd.
    destruct (Hall d Hd) as (i & Hi & Hb & ->).
    exists i. split; [lia|done].
  - intros n u Hw.
    destruct (walk_popcount g v n u Hr Hw) as (H1 & H2 & H3).
    pose proof (popcount_nonneg u).
    split; [lia|exact H3].
Qed.

(** ** Breadth-first search *)

Lemma unvisited_replicate n : unvisited (replicate n false) = n.
Proof. unfold unvisited. induction n; simpl; congruence. Qed.

Lemma unvisited_mark vis i :
  vis !! i = Some false ->
  Datatypes.S (unvisited (<[i := true]> vis)) = unvisited vis.
Proof.
  unfold unvisited. revert i. induction vis as [|b vis IH]; intros i Hi.
  - done.
  - destruct i as [|i]; simpl in *.
    + by inversion Hi; subst.
    + specialize (IH i Hi). destruct b; simpl; lia.
Qed.

Section BFS.
Context {G : Type} `{Graph G}.
Variable g : G.
Variable sources : list Z.
Hypothesis Hnv : 0 <= NumVertices g.
Hypothesis Hmax : NumVertices g <= maxAlloc.
Hypothesis Hedges : forall v, valid_vertex g v -> exists l, GetEdges g v = Ok l.

Local Abbreviation justified := (justified g sources).
Local Abbreviation bfs_inv := (bfs_inv g sources).
Local Abbreviation visit_post := (visit_post g sources).
Local Abbreviation loop_inv := (loop_inv g sources).
Local Abbreviation inv_length := (inv_length g sources).
Local Abbreviation inv_visited := (inv_visited g sources).
Local Abbreviation inv_nodup := (inv_nodup g sources).
Local Abbreviation inv_sound := (inv_sound g sources).
Local Abbreviation inv_queue := (inv_queue g sources).
Local Abbreviation post_inv := (post_inv g sources).
Local Abbreviation post_measure := (post_measure g sources).
Local Abbreviation post_reach_mono := (post_reach_mono g sources).
Local Abbreviation post_queue_mono := (post_queue_mono g sources).
Local Abbreviation post_covers := (post_covers g sources).
Local Abbreviation post_new := (post_new g sources).
Local Abbreviation closed := (closed g).

Lemma visit_post_refl st : bfs_inv st -> visit_post [] st st.
Proof.
  intros Hinv. split; try done.
  - intros v Hv. by apply elem_of_nil in Hv.
  - intros x Hx. by left.
Qed.

Lemma bfs_visit_post v st :
  bfs_inv st -> (valid_vertex g v -> justified v) ->
  exists st', bfs_visit g v st = Ok st' /\ visit_post [v] st st'.
Proof.
  intros Hinv Hj. unfold bfs_visit.
  destruct (Z.ltb_spec v 0) as [Hneg|Hpos]; cbn [orb].
  { exists st. split; [done|]. destruct (visit_post_refl st Hinv).
    split; try done. intros x Hx Hval. unfold valid_vertex in Hval.
    apply list_elem_of_singleton in Hx. lia. }
  destruct (Z.geb_spec v (NumVertices g)) as [Hbig|Hsmall]; cbn [orb].
  { exists st. split; [done|]. destruct (visit_post_refl st Hinv).
    split; try done. intros x Hx Hval. unfold valid_vertex in Hval.
    apply list_elem_of_singleton in Hx. lia. }
  assert (valid_vertex g v) as Hval by (unfold valid_vertex; lia).
  destruct (visited st !! Z.to_nat v) as [b|] eqn:Hlook.
  2:{ apply lookup_ge_None in Hlook. rewrite (inv_length st Hinv) in Hlook.
      lia. }
  destruct b.
  { exists st. split; [done|]. destruct (visit_post_refl st Hinv).
    split; try done. intros x Hx _.
    apply list_elem_of_singleton in Hx. subst x.
    by apply (inv_visited st Hinv). }
  assert (v ∉ reachableVertices st) as Hfresh.
  { intros Hin. apply (inv_visited st Hinv) in Hin; [|done]. congruence. }
  eexists. split; [done|]. split; simpl.
  - split; simpl.
    + rewrite length_insert. apply (inv_length st Hinv).
    + intros w Hw. rewrite elem_of_app, list_elem_of_singleton.
      destruct (Z.eq_dec w v) as [->|Hne].
      * rewrite list_lookup_insert_eq; [tauto|].
        by apply lookup_lt_Some in Hlook.
      * rewrite list_lookup_insert_ne.
        2:{ unfold valid_vertex in *. lia. }
        rewrite (inv_visited st Hinv) by done. tauto.
    + apply NoDup_app. split; [apply (inv_nodup st Hinv)|].
      split; [|apply NoDup_singleton].
      intros x Hx Hx'. apply list_elem_of_singleton in Hx'. by subst.
    + intros w Hw. apply elem_of_app in Hw as [Hw|Hw].
      * by apply (inv_sound st Hinv).
      * apply list_elem_of_singleton in Hw. subst. split; [done|by apply Hj].
    + intros w Hw. apply elem_of_app in Hw as [Hw|Hw].
      * apply elem_of_app. left. by apply (inv_queue st Hinv).
      * apply elem_of_app. by right.
  - unfold measure. simpl. rewrite length_app. simpl.
    pose proof (unvisited_mark _ _ Hlook). lia.
  - intros x Hx. apply elem_of_app. by left.
  - intros x Hx. apply elem_of_app. by left.
  - intros x Hx _. apply elem_of_app. by right.
  - intros x Hx. apply elem_of_app in Hx as [Hx|Hx]; [by left|].
    right. apply elem_of_app. by right.
Qed.

Lemma for_each_visit_post l st :
  bfs_inv st -> (forall v, v ∈ l -> valid_vertex g v -> justified v) ->
  exists st', for_each l (bfs_visit g) st = Ok st' /\ visit_post l st st'.
Proof.
  revert st. induction l as [|v l IH]; intros st Hinv Hj.
  - exists st. split; [done|]. by apply visit_post_refl.
  - destruct (bfs_visit_post v st Hinv) as (st1 & Hrun1 & Hp1).
    { apply Hj. by left. }
    destruct (IH st1 (post_inv _ _ _ Hp1)) as (st2 & Hrun2 & Hp2).
    { intros w Hw. apply Hj. by right. }
    exists st2. split; [simpl; by rewrite Hrun1|].
    split.
    + apply (post_inv _ _ _ Hp2).
    + rewrite (post_measure _ _ _ Hp2). apply (post_measure _ _ _ Hp1).
    + intros x Hx.
      by apply (post_reach_mono _ _ _ Hp2), (post_reach_mono _ _ _ Hp1).
    + intros x Hx.
      by apply (post_queue_mono _ _ _ Hp2), (post_queue_mono _ _ _ Hp1).
    + intros w Hw Hval. apply elem_of_cons in Hw as [->|Hw].
      * apply (post_reach_mono _ _ _ Hp2).
        apply (post_covers _ _ _ Hp1); [by left|done].
      * by apply (post_covers _ _ _ Hp2).
    + intros x Hx. apply (post_new _ _ _ Hp2) in Hx as [Hx|Hx]; [|by right].
      apply (post_new _ _ _ Hp1) in Hx as [Hx|Hx]; [by left|].
      right. by apply (post_queue_mono _ _ _ Hp2).
Qed.

Lemma closed_complete st :
  loop_inv st -> queue st = [] ->
  forall v, justified v -> v ∈ reachableVertices st.
Proof.
  intros (Hinv & Hsrc & Hproc) Hq v (s & Hs & Hval & Hreach).
  induction Hreach as [s | s v w Hreach IH Hedge Hw].
  - by apply Hsrc.
  - specialize (IH Hs Hval).
    destruct (Hproc v IH) as [Hin|Hcl].
    + rewrite Hq in Hin. by apply elem_of_nil in Hin.
    + by apply Hcl.
Qed.

Lemma bfs_loop_correct fuel st :
  loop_inv st -> (measure st <= fuel)%nat ->
  exists res, bfs_loop fuel g st = Ok res /\ NoDup res /\
    (forall v, v ∈ res <-> justified v).
Proof.
  revert st. induction fuel as [|fuel IH]; intros st Hinv Hfuel.
  - destruct (queue st) as [|c q] eqn:Hq.
    2:{ unfold measure in Hfuel. rewrite Hq in Hfuel. simpl in Hfuel. lia. }
    exists (reachableVertices st). simpl. rewrite Hq.
    split; [done|]. split; [apply (inv_nodup _ (proj1 Hinv))|].
    intros v. split; [apply (inv_sound _ (proj1 Hinv))|by apply closed_complete].
  - destruct (queue st) as [|c q] eqn:Hq.
    { exists (reachableVertices st). simpl. rewrite Hq.
      split; [done|]. split; [apply (inv_nodup _ (proj1 Hinv))|].
      intros v. split; [apply (inv_sound _ (proj1 Hinv))|by apply closed_complete]. }
    destruct Hinv as (Hinv & Hsrc & Hproc).
    assert (c ∈ reachableVertices st) as Hc.
    { apply (inv_queue st Hinv). rewrite Hq. by left. }
    destruct (inv_sound st Hinv c Hc) as [Hcval Hcj].
    destruct (Hedges c Hcval) as [edges Hedg].
    set (st1 := {| visited := visited st;
                   reachableVertices := reachableVertices st;
                   queue := q |}).
    assert (bfs_inv st1) as Hinv1.
    { split; simpl.
      - apply (inv_length st Hinv).
      - apply (inv_visited st Hinv).
      - apply (inv_nodup st Hinv).
      - apply (inv_sound st Hinv).
      - intros v Hv. apply (inv_queue st Hinv). rewrite Hq. by right. }
    destruct (for_each_visit_post edges st1 Hinv1) as (st2 & Hrun & Hp).
    { intros w Hw Hwval. destruct Hcj as (s & Hs & Hsval & Hreach).
      exists s. split; [done|]. split; [done|].
      eapply reaches_step; [done| |done].
      exists edges. split; [done|]. by apply list_elem_of_In. }
    destruct (IH st2) as (res & Hres & Hnd & Hiff).
    + split; [apply (post_inv _ _ _ Hp)|]. split.
      * intros s Hs Hsval. apply (post_reach_mono _ _ _ Hp). simpl.
        by apply Hsrc.
      * intros v Hv. apply (post_new _ _ _ Hp) in Hv as [Hv|Hv]; [|by left].
        simpl in Hv. destruct (Hproc v Hv) as [Hin|Hcl].
        -- rewrite Hq in Hin. apply elem_of_cons in Hin as [->|Hin].
           ++ right. intros w (l & Hl & Hw) Hwval.
              rewrite Hedg in Hl. inversion Hl; subst l.
              apply (post_covers _ _ _ Hp); [|done]. by apply list_elem_of_In.
           ++ left. by apply (post_queue_mono _ _ _ Hp).
        -- right. intros w Hw Hwval. apply (post_reach_mono _ _ _ Hp).
           simpl. by apply Hcl.
    + rewrite (post_measure _ _ _ Hp). unfold measure in *. simpl.
      rewrite Hq in Hfuel. simpl in Hfuel. lia.
    + exists res. split; [|done].
      simpl. rewrite Hq, Hedg. cbn [bind]. fold st1. rewrite Hrun. done.
Qed.

Lemma BFS_correct fuel :
  (Z.to_nat (NumVertices g) <= fuel)%nat ->
  exists res, BFS fuel g sources = Ok res /\ NoDup res /\
    (forall v, v ∈ res <-> justified v).
Proof.
  intros Hfuel. unfold BFS.
  destruct (Nat.eqb (length sources) 0) eqn:Hlen.
  { apply Nat.eqb_eq, length_zero_iff_nil in Hlen.
    exists []. split; [done|]. split; [apply NoDup_nil_2|].
    intros v. split; [intros Hv; by apply elem_of_nil in Hv|].
    intros (s & Hs & _). rewrite Hlen in Hs. done. }
  rewrite make_Ok by lia. cbn [bind].
  set (st0 := {| visited := replicate (Z.to_nat (NumVertices g)) false;
                 reachableVertices := []; queue := [] |}).
  assert (bfs_inv st0) as Hinv0.
  { split; simpl.
    - apply length_replicate.
    - intros v Hv. split.
      + intros Hl. apply lookup_replicate in Hl as [? _]. done.
      + intros Hin. by apply elem_of_nil in Hin.
    - apply NoDup_nil_2.
    - intros v Hv. by apply elem_of_nil in Hv.
    - intros v Hv. by apply elem_of_nil in Hv. }
  destruct (for_each_visit_post sources st0 Hinv0) as (st & Hrun & Hp).
  { intros v Hv Hval. exists v. split; [by apply list_elem_of_In|].
    split; [done|apply reaches_refl]. }
  rewrite Hrun. cbn [bind].
  apply bfs_loop_correct.
  - split; [apply (post_inv _ _ _ Hp)|]. split.
    + intros s Hs Hval.
      apply (post_covers _ _ _ Hp); [by apply list_elem_of_In|done].
    + intros v Hv. apply (post_new _ _ _ Hp) in Hv as [Hv|Hv]; [|by left].
      simpl in Hv. by apply elem_of_nil in Hv.
  - rewrite (post_measure _ _ _ Hp). unfold measure. simpl.
    rewrite unvisited_replicate. lia.
Qed.
End BFS.

(** C2: on a graph whose vertex count lies in [[0, 2^48]] (the [visited]
    array can be allocated) and whose edge lookup is defined on its
    vertices, [BFS] (given fuel for one iteration per vertex) returns,
    without repetition, exactly the vertices reachable from the sources
    that lie in [[0, NumVertices)], those sources included; other sources
    and repeated sources are skipped, and without any valid source the
    result is empty. *)
Theorem C2_BFS_exactly_reachable {G : Type} `{Graph G} (g : G)
    (sources : list Z) (fuel : nat) :
  0 <= NumVertices g <= maxAlloc ->
  (forall v, valid_vertex g v -> exists l, GetEdges g v = Ok l) ->
  (Z.to_nat (NumVertices g) <= fuel)%nat ->
  exists res,
    BFS fuel g sources = Ok res /\
    List.NoDup res /\
    (forall v, In v res <->
       exists s, In s sources /\ valid_vertex g s /\ reaches g s v) /\
    ((forall s, In s sources -> ~ valid_vertex g s) -> res = []).
Proof.
  intros [Hnv Hmax] Hedges Hfuel.
  destruct (BFS_correct g sources Hnv Hmax Hedges fuel Hfuel)
    as (res & Hrun & Hnd & Hiff).
  exists res. split; [done|]. split; [by apply NoDup_ListNoDup|].
  split.
  - intros v. rewrite <- list_elem_of_In. apply Hiff.
  - intros Hnone. destruct res as [|x res]; [done|].
    destruct (proj1 (Hiff x)) as (s & Hs & Hval & _); [by left|].
    by destruct (Hnone s Hs).
Qed.

(** ** The next-combination step *)

Lemma land_le_l x y : 0 <= x -> Z.land x y <= x.
Proof.
  intros Hx. pose proof (Zbitwise.Z.sub_land_same_l x y) as Hs.
  assert (0 <= Z.land x (Z.lnot y)).
  { apply Z.land_nonneg. by left. }
  lia.
Qed.

Lemma lowbit_bounds c : 0 < c -> 0 < lowbit c <= c.
Proof.
  intros Hc. unfold lowbit.
  assert (0 <= Z.land c (- c)) by (apply Z.land_nonneg; left; lia).
  pose proof (land_le_l c (- c) ltac:(lia)).
  assert (Z.land c (- c) <> 0); [|lia].
  intros Hz. pose proof (Zbitwise.Z.add_lor_land c (- c)) as Ha.
  rewrite Hz in Ha.
  assert (Z.lor c (- c) = 0) as Hl by lia.
  apply Z.lor_eq_0_iff in Hl. lia.
Qed.

Lemma lowbit_odd q : lowbit (2 * q + 1) = 1.
Proof.
  unfold lowbit.
  replace (- (2 * q + 1)) with (2 * Z.lnot q + 1)
    by (rewrite Zbitwise.Z.lnot_eq_pred_opp; lia).
  apply Z.bits_inj'. intros i Hi.
  rewrite Z.land_spec.
  destruct (Z.eq_dec i 0) as [->|Hne].
  - by rewrite !Z.testbit_odd_0.
  - replace i with (Z.succ (i - 1)) by lia.
    rewrite !Z.testbit_odd_succ by lia.
    rewrite <- Z.land_spec, Z.land_lnot_diag, Z.bits_0.
    change 1 with (2 * 0 + 1). rewrite Z.testbit_odd_succ by lia.
    by rewrite Z.bits_0.
Qed.

Lemma lowbit_shift m a : 0 <= a -> lowbit (m * 2 ^ a) = lowbit m * 2 ^ a.
Proof.
  intros Ha. unfold lowbit.
  rewrite <- Z.mul_opp_l. rewrite <- !Z.shiftl_mul_pow2 by done.
  by rewrite Z.shiftl_land.
Qed.

(** Every positive integer is an odd number times a power of two. *)
Lemma odd_times_pow2 c :
  0 < c -> exists a q, 0 <= a /\ 0 <= q /\ c = (2 * q + 1) * 2 ^ a.
Proof.
  intros Hc. destruct c as [|p|p]; try lia. clear Hc.
  induction p as [p IH|p IH|].
  - exists 0, (Z.pos p). split; [lia|]. split; [lia|].
    rewrite Pos2Z.inj_xI. lia.
  - destruct IH as (a & q & Ha & Hq & Heq).
    exists (a + 1), q. split; [lia|]. split; [lia|].
    rewrite Pos2Z.inj_xO, Heq, Z.pow_add_r by lia. lia.
  - exists 0, 0. lia.
Qed.

Lemma lowbit_odd_shift q a : 0 <= a -> lowbit ((2 * q + 1) * 2 ^ a) = 2 ^ a.
Proof. intros. rewrite lowbit_shift, lowbit_odd by done. lia. Qed.

Lemma land_pow2_small x m : 0 <= x < 2 ^ m -> Z.land x (2 ^ m) = 0.
Proof.
  intros Hx. destruct (Z.lt_ge_cases m 0) as [Hm|Hm].
  { rewrite Z.pow_neg_r in Hx by done. lia. }
  rewrite land_pow2 by done. by rewrite (testbit_above x m m) by lia.
Qed.

Lemma add_pow2_lxor x m : 0 <= x < 2 ^ m -> x + 2 ^ m = Z.lxor x (2 ^ m).
Proof. intros. apply Z.add_nocarry_lxor. by apply land_pow2_small. Qed.

Lemma add_pow2_lor x m : 0 <= x < 2 ^ m -> x + 2 ^ m = Z.lor x (2 ^ m).
Proof.
  intros. rewrite add_pow2_lxor by done.
  apply Z.lxor_lor. by apply land_pow2_small.
Qed.

Lemma land_disjoint_below x y m :
  0 <= m -> 0 <= y < 2 ^ m -> Z.land (x * 2 ^ m) y = 0.
Proof.
  intros Hm Hy. apply Z.bits_inj'. intros i Hi.
  rewrite Z.land_spec, Z.bits_0.
  destruct (Z.lt_ge_cases i m).
  - by rewrite Z.mul_pow2_bits_low.
  - rewrite (testbit_above y m i) by lia. apply andb_false_r.
Qed.

Lemma lor_disjoint_below x y m :
  0 <= m -> 0 <= y < 2 ^ m -> Z.lor (x * 2 ^ m) y = x * 2 ^ m + y.
Proof.
  intros Hm Hy.
  pose proof (Zbitwise.Z.add_lor_land (x * 2 ^ m) y) as Ha.
  rewrite land_disjoint_below in Ha by done. lia.
Qed.

(** The auxiliary values of the step are non-negative, and the step
    moves upwards. *)
Lemma gosper_low_nonneg c :
  0 < c -> 0 <= Z.shiftr (Z.quot (Z.lxor c (c + lowbit c)) (lowbit c)) 2.
Proof.
  intros Hc. pose proof (lowbit_bounds c Hc).
  apply Z.shiftr_nonneg. apply Z.quot_pos; [|lia].
  apply Z.lxor_nonneg. lia.
Qed.

Lemma gosper_ge c : 0 < c -> c + lowbit c <= gosper c.
Proof.
  intros Hc. unfold gosper.
  set (t := c + lowbit c).
  set (s := Z.shiftr _ 2).
  assert (0 <= s) by (by apply gosper_low_nonneg).
  pose proof (Zbitwise.Z.add_lor_land t s) as Ha.
  pose proof (land_le_l s t ltac:(done)) as Hl.
  rewrite Z.land_comm in Hl. lia.
Qed.

(** The step on a block of [b] ones above [a] zeros. *)
Lemma gosper_block a b :
  0 <= a -> 1 <= b ->
  gosper ((2 ^ b - 1) * 2 ^ a) = 2 ^ (a + b) + 2 ^ (b - 1) - 1.
Proof.
  intros Ha Hb. unfold gosper.
  assert (2 ^ b = 2 * 2 ^ (b - 1)) as Hb2.
  { rewrite <- Z.pow_succ_r by lia. f_equal. lia. }
  pose proof (pow2_pos (b - 1) ltac:(lia)) as Hbp.
  pose proof (pow2_pos a Ha) as Hap.
  assert (lowbit ((2 ^ b - 1) * 2 ^ a) = 2 ^ a) as ->.
  { replace (2 ^ b - 1) with (2 * (2 ^ (b - 1) - 1) + 1) by lia.
    by apply lowbit_odd_shift. }
  assert ((2 ^ b - 1) * 2 ^ a + 2 ^ a = 2 ^ (a + b)) as ->.
  { rewrite Z.pow_add_r by lia. lia. }
  assert (0 <= (2 ^ b - 1) * 2 ^ a < 2 ^ (a + b)) as Hc.
  { rewrite Z.pow_add_r by lia. nia. }
  rewrite <- add_pow2_lxor by done.
  replace ((2 ^ b - 1) * 2 ^ a + 2 ^ (a + b))
    with ((2 ^ (b + 1) - 1) * 2 ^ a).
  2:{ rewrite !Z.pow_add_r by lia. lia. }
  rewrite Z.quot_mul by lia.
  rewrite Z.shiftr_div_pow2 by lia.
  replace ((2 ^ (b + 1) - 1) / 2 ^ 2) with (2 ^ (b - 1) - 1).
  2:{ apply (Z.div_unique _ _ _ 3); [lia|].
      rewrite Z.pow_add_r, Hb2 by lia. lia. }
  replace (2 ^ (a + b)) with (1 * 2 ^ (a + b)) by lia.
  rewrite lor_disjoint_below; [lia|lia|].
  split; [lia|].
  assert (2 ^ (b - 1) <= 2 ^ (a + b)) by (apply pow2_le_mono; lia). lia.
Qed.

(** The step commutes with a set bit above the result. *)
Lemma gosper_above u m :
  0 < u -> gosper u < 2 ^ m -> gosper (u + 2 ^ m) = gosper u + 2 ^ m.
Proof.
  intros Hu Hg.
  pose proof (gosper_ge u Hu) as Hge.
  pose proof (lowbit_bounds u Hu) as Hlb.
  assert (0 <= m) as Hm.
  { destruct (Z.lt_ge_cases m 0); [|done].
    rewrite Z.pow_neg_r in Hg by done. lia. }
  assert (lowbit (u + 2 ^ m) = lowbit u) as Hlow.
  { destruct (odd_times_pow2 u Hu) as (a & q & Ha & Hq & Heq).
    assert (a < m) as Ham.
    { destruct (Z.lt_ge_cases a m); [done|].
      assert (2 ^ m <= 2 ^ a) by (apply pow2_le_mono; lia).
      pose proof (pow2_pos a Ha). nia. }
    rewrite Heq at 2. rewrite lowbit_odd_shift by done.
    replace (u + 2 ^ m) with ((2 * (q + 2 ^ (m - a - 1)) + 1) * 2 ^ a).
    { by apply lowbit_odd_shift. }
    rewrite Heq.
    replace (2 ^ m) with (2 * 2 ^ (m - a - 1) * 2 ^ a); [lia|].
    rewrite <- Z.pow_succ_r, <- Z.pow_add_r by lia. f_equal. lia. }
  unfold gosper in *. rewrite Hlow.
  set (r := lowbit u) in *.
  set (s := Z.shiftr (Z.quot (Z.lxor u (u + r)) r) 2) in *.
  assert (Z.lxor (u + 2 ^ m) (u + 2 ^ m + r) = Z.lxor u (u + r)) as ->.
  { replace (u + 2 ^ m + r) with ((u + r) + 2 ^ m) by lia.
    rewrite !add_pow2_lxor by lia.
    rewrite Z.lxor_assoc, (Z.lxor_comm (u + r)), <- (Z.lxor_assoc (2 ^ m)).
    by rewrite Z.lxor_nilpotent, Z.lxor_0_l. }
  fold s.
  assert (0 <= Z.lor (u + r) s).
  { apply Z.lor_nonneg. split; [lia|]. by apply gosper_low_nonneg. }
  replace (u + 2 ^ m + r) with ((u + r) + 2 ^ m) by lia.
  rewrite (add_pow2_lor (u + r)) by lia.
  rewrite <- Z.lor_assoc, (Z.lor_comm (2 ^ m)), Z.lor_assoc.
  by rewrite <- add_pow2_lor by lia.
Qed.

(** The machine step is the mathematical one below [2^62]. *)
Lemma lxor_lt_pow2 x y n :
  0 <= x < 2 ^ n -> 0 <= y < 2 ^ n -> 0 <= Z.lxor x y < 2 ^ n.
Proof.
  intros Hx Hy.
  assert (0 <= Z.lxor x y) by (apply Z.lxor_nonneg; lia).
  split; [done|].
  destruct (Z.lt_ge_cases n 0) as [Hn|Hn].
  { rewrite Z.pow_neg_r in Hx by done. lia. }
  apply lt_pow2_of_bits; [done|done|].
  intros i Hi. rewrite Z.lxor_spec.
  by rewrite (testbit_above x n i), (testbit_above y n i).
Qed.

Lemma machine_step c :
  0 < c < 2 ^ 62 ->
  and c (neg c) = lowbit c /\
  add c (lowbit c) = c + lowbit c /\
  (let* q := quo (xor c (c + lowbit c)) (lowbit c) in
   let* low := shr q 2 in Ok (or (c + lowbit c) low)) = Ok (gosper c).
Proof.
  intros Hc. pose proof (lowbit_bounds c ltac:(lia)) as Hlb.
  split; [|split].
  - unfold and, neg, lowbit. rewrite wrap_id; [done|].
    unfold in_range, min_int, max_int. lia.
  - unfold add. apply wrap_small. lia.
  - unfold quo, xor, shr, or, gosper.
    destruct (Z.eqb_spec (lowbit c) 0); [lia|]. cbn [bind].
    assert (0 <= Z.lxor c (c + lowbit c) < 2 ^ 63) as Hx.
    { apply lxor_lt_pow2; lia. }
    rewrite wrap_small; [done|].
    rewrite Z.quot_div_nonneg by lia.
    split; [apply Z.div_pos; lia|].
    apply Z.le_lt_trans with (Z.lxor c (c + lowbit c)); [|lia].
    apply Z.div_le_upper_bound; [lia|]. nia.
Qed.

(** ** The list of combinations *)

Lemma chain_head a l c : chain a l c -> exists l', l = a :: l'.
Proof. intros Hc. destruct Hc; eauto. Qed.

Lemma chain_eq a a' l c c' : chain a l c -> a = a' -> c = c' -> chain a' l c'.
Proof. by intros ? <- <-. Qed.

Lemma chain_app a l1 b b' l2 c :
  chain a l1 b -> gosper b = b' -> chain b' l2 c -> chain a (l1 ++ l2) c.
Proof.
  intros H1 Hg H2. induction H1 as [a | a x l b Hx H1 IH].
  - simpl. by apply (chain_cons a b').
  - simpl. apply (chain_cons a x); [done|]. by apply IH.
Qed.

Lemma chain_map a l c m :
  chain a l c -> (forall x, In x l -> 0 < x < 2 ^ m) ->
  chain (2 ^ m + a) (map (Z.add (2 ^ m)) l) (2 ^ m + c).
Proof.
  intros Hc. induction Hc as [a | a b l c Hg Hc IH]; intros Hl.
  - apply chain_one.
  - simpl. apply (chain_cons _ (2 ^ m + b)).
    + rewrite (Z.add_comm _ a), (Z.add_comm _ b).
      rewrite gosper_above; [lia| |].
      * apply Hl. by left.
      * rewrite Hg. destruct (chain_head _ _ _ Hc) as [l' ->].
        apply Hl. right. by left.
    + apply IH. intros x Hx. apply Hl. by right.
Qed.

Lemma map_add_seqZ m len : seqZ m len = map (Z.add m) (seqZ 0 len).
Proof.
  pose proof (fmap_add_seqZ m 0 len) as Hf. rewrite Z.add_0_r in Hf.
  rewrite <- Hf. clear Hf.
  induction (seqZ 0 len) as [|x l IH]; [done|]. simpl. by rewrite <- IH.
Qed.

Lemma filter_none {A} (f : A -> bool) l :
  (forall x, In x l -> f x = false) -> List.filter f l = [].
Proof.
  induction l as [|x l IH]; intros Hf; simpl; [done|].
  rewrite (Hf x) by (by left). apply IH. intros y Hy. apply Hf. by right.
Qed.

Lemma testbit_add_pow2_low x n i :
  0 <= x < 2 ^ n -> 0 <= i < n -> Z.testbit (2 ^ n + x) i = Z.testbit x i.
Proof.
  intros Hx Hi. rewrite Z.add_comm, add_pow2_lor by done.
  rewrite Z.lor_spec, Z.pow2_bits_false by lia. apply orb_false_r.
Qed.

Lemma testbit_add_pow2_top x n :
  0 <= n -> 0 <= x < 2 ^ n -> Z.testbit (2 ^ n + x) n = true.
Proof.
  intros Hn Hx. rewrite Z.add_comm, add_pow2_lor by done.
  rewrite Z.lor_spec, Z.pow2_bits_true by lia. apply orb_true_r.
Qed.

Lemma combinations_succ n k :
  0 <= n ->
  combinations (n + 1) k =
  combinations n k ++ map (Z.add (2 ^ n)) (combinations n (k - 1)).
Proof.
  intros Hn. unfold combinations.
  pose proof (pow2_pos n Hn) as Hp.
  replace (2 ^ (n + 1)) with (2 ^ n + 2 ^ n) by (rewrite Z.pow_add_r; lia).
  rewrite seqZ_app by lia. rewrite List.filter_app. f_equal.
  - apply List.filter_ext_in. intros x Hx.
    apply in_seqZ_0 in Hx.
    rewrite bitcount_succ by done.
    rewrite (testbit_above x n n) by lia. simpl. by rewrite Z.add_0_r.
  - rewrite Z.add_0_l, map_add_seqZ, filter_map_swap. f_equal.
    apply List.filter_ext_in. intros x Hx.
    apply in_seqZ_0 in Hx.
    rewrite bitcount_succ by done.
    rewrite testbit_add_pow2_top by done. simpl.
    rewrite (bitcount_ext n (2 ^ n + x) x).
    + destruct (Z.eqb_spec (bitcount n x + 1) k), (Z.eqb_spec (bitcount n x) (k - 1));
        (done || lia).
    + intros i Hi. by apply testbit_add_pow2_low.
Qed.

Lemma combinations_0 k : combinations 0 k = if k =? 0 then [0] else [].
Proof.
  unfold combinations. change (2 ^ 0) with 1.
  rewrite seqZ_cons, seqZ_nil by lia. cbn [List.filter].
  rewrite bitcount_0. by rewrite Z.eqb_sym.
Qed.

Lemma combinations_spec n k x :
  In x (combinations n k) <-> 0 <= x < 2 ^ n /\ bitcount n x = k.
Proof.
  unfold combinations. rewrite filter_In, in_seqZ_0, Z.eqb_eq. tauto.
Qed.

Lemma combinations_gt n k : 0 <= n < k -> combinations n k = [].
Proof.
  intros Hk. apply filter_none. intros x _.
  pose proof (bitcount_le n x ltac:(lia)). apply Z.eqb_neq. lia.
Qed.

Lemma combinations_neg n k : k < 0 -> combinations n k = [].
Proof.
  intros Hk. apply filter_none. intros x _.
  pose proof (bitcount_nonneg n x). apply Z.eqb_neq. lia.
Qed.

Lemma combinations_zero n : 0 <= n -> combinations n 0 = [0].
Proof.
  intros Hn. rewrite <- (Z2Nat.id n Hn).
  induction (Z.to_nat n) as [|p IH].
  - by rewrite combinations_0.
  - rewrite Nat2Z.inj_succ. unfold Z.succ.
    rewrite combinations_succ by lia.
    rewrite IH, combinations_neg by lia. done.
Qed.

Lemma bitcount_zero n : bitcount n 0 = 0.
Proof.
  unfold bitcount. rewrite filter_none; [done|].
  intros i _. apply Z.bits_0.
Qed.

Lemma combinations_pos n k x : 1 <= k -> In x (combinations n k) -> 0 < x < 2 ^ n.
Proof.
  intros Hk Hx. apply combinations_spec in Hx as [Hx Hc].
  assert (x <> 0); [|lia]. intros ->. rewrite bitcount_zero in Hc. lia.
Qed.

(** The combinations form one chain from the [k] lowest bits to the [k]
    highest bits. *)
Lemma combinations_chain (n : nat) : forall k,
  0 <= k <= Z.of_nat n ->
  chain (2 ^ k - 1) (combinations (Z.of_nat n) k)
        ((2 ^ k - 1) * 2 ^ (Z.of_nat n - k)).
Proof.
  induction n as [|n IH]; intros k Hk.
  - assert (k = 0) as -> by lia. rewrite combinations_0. simpl. apply chain_one.
  - rewrite Nat2Z.inj_succ. unfold Z.succ.
    destruct (Z.eq_dec k 0) as [->|Hk0].
    { rewrite combinations_zero by lia. simpl.
      rewrite Z.mul_0_l. apply chain_one. }
    rewrite combinations_succ by lia.
    set (m := Z.of_nat n) in *.
    pose proof (pow2_pos m ltac:(lia)) as Hpm.
    assert (2 ^ k = 2 * 2 ^ (k - 1)) as Hk2.
    { rewrite <- Z.pow_succ_r by lia. f_equal. lia. }
    assert (2 ^ (m + 1) = 2 * 2 ^ m) as Hm2.
    { rewrite Z.pow_add_r by lia. lia. }
    assert (2 ^ k * 2 ^ (m + 1 - k) = 2 ^ (m + 1)) as Hsplit.
    { rewrite <- Z.pow_add_r by lia. f_equal. lia. }
    assert (chain (2 ^ m + (2 ^ (k - 1) - 1))
                  (map (Z.add (2 ^ m)) (combinations m (k - 1)))
                  ((2 ^ k - 1) * 2 ^ (m + 1 - k))) as HB.
    { destruct (Z.eq_dec k 1) as [->|Hk1].
      - rewrite combinations_zero by lia. simpl.
        replace (m + 1 - 1) with m by lia.
        eapply chain_eq; [apply chain_one|lia|lia].
      - eapply chain_eq.
        + apply chain_map; [apply (IH (k - 1)); lia|].
          intros x Hx. apply (combinations_pos m (k - 1)); [lia|done].
        + done.
        + replace (m - (k - 1)) with (m + 1 - k) by lia. lia. }
    destruct (Z.eq_dec k (m + 1)) as [->|Hkm].
    + rewrite combinations_gt by lia. simpl.
      eapply chain_eq; [apply HB| |done].
      replace (m + 1 - 1) with m by lia. lia.
    + eapply chain_app; [apply (IH k); lia| |apply HB].
      rewrite gosper_block by lia.
      replace (m - k + k) with m by lia. lia.
Qed.

Lemma chain_last_in a l c : chain a l c -> In c l.
Proof.
  intros Hc. induction Hc; [by left|by right].
Qed.

Lemma seqZ_sorted m len : StronglySorted Z.lt (seqZ m len).
Proof.
  destruct (Z.le_gt_cases len 0) as [Hl|Hl].
  { rewrite seqZ_nil by done. constructor. }
  rewrite <- (Z2Nat.id len) by lia. clear Hl. revert m.
  induction (Z.to_nat len) as [|p IH]; intros m.
  - rewrite seqZ_nil by done. constructor.
  - rewrite seqZ_cons by lia.
    replace (Z.pred (Z.of_nat (Datatypes.S p))) with (Z.of_nat p) by lia.
    constructor; [apply IH|].
    apply Forall_forall. intros x Hx. apply elem_of_seqZ in Hx. lia.
Qed.

Lemma filter_sorted (f : Z -> bool) l :
  StronglySorted Z.lt l -> StronglySorted Z.lt (List.filter f l).
Proof.
  induction 1 as [|x l Hs IH Hall]; simpl; [constructor|].
  destruct (f x); [|done]. constructor; [done|].
  rewrite Forall_forall in *. intros y Hy.
  apply Hall. apply list_elem_of_In in Hy. apply list_elem_of_In.
  apply filter_In in Hy. tauto.
Qed.

Lemma combinations_sorted n k : StronglySorted Z.lt (combinations n k).
Proof. apply filter_sorted, seqZ_sorted. Qed.

Lemma sorted_chain_le a l c :
  StronglySorted Z.lt l -> chain a l c -> forall x, In x l -> x <= c.
Proof.
  intros Hs Hc. revert Hs.
  induction Hc as [a | a b l c Hg Hc IH]; intros Hs x Hx.
  - destruct Hx as [->|[]]. lia.
  - apply StronglySorted_inv in Hs as [Hs Hall].
    destruct Hx as [<-|Hx]; [|by apply IH].
    rewrite Forall_forall in Hall.
    assert (a < c); [|lia]. apply Hall.
    apply list_elem_of_In. by eapply chain_last_in.
Qed.

Lemma combinations_length (n k : nat) :
  length (combinations (Z.of_nat n) (Z.of_nat k)) = binomial n k.
Proof.
  revert k. induction n as [|n IH]; intros k.
  - destruct k as [|k]; [by rewrite combinations_zero|].
    by rewrite combinations_gt by lia.
  - destruct k as [|k]; [by rewrite combinations_zero by lia|].
    rewrite (Nat2Z.inj_succ n). unfold Z.succ.
    rewrite combinations_succ by lia.
    rewrite length_app, length_map.
    replace (Z.of_nat (Datatypes.S k) - 1) with (Z.of_nat k) by lia.
    rewrite !IH. simpl. lia.
Qed.

(** ** The enumeration loop *)

Lemma generateCombinations_loop_unfold {S} fuel
    (cb : Z -> S -> result (bool * S)) maxc c s :
  generateCombinations_loop (Datatypes.S fuel) cb maxc c s =
  if c <=? maxc then
    let* (found, s1) := cb c s in
    if (found : bool) then Ok (true, s1)
    else
      let rightmostMovable := and c (neg c) in
      let temp := add c rightmostMovable in
      if temp >? maxc then Ok (false, s1)
      else
        let* q := quo (xor c temp) rightmostMovable in
        let* low := shr q 2 in
        generateCombinations_loop fuel cb maxc (or temp low) s1
  else Ok (false, s).
Proof. reflexivity. Qed.

Lemma generateCombinations_loop_chain {S} (cb : Z -> S -> result (bool * S))
    maxc c0 l0 m0 :
  chain c0 l0 m0 -> m0 = maxc ->
  (forall x, In x l0 -> 0 < x < 2 ^ 62 /\ x <= maxc) ->
  forall fuel s, (length l0 <= fuel)%nat ->
  generateCombinations_loop fuel cb maxc c0 s = run_until cb l0 s.
Proof.
  intros Hc. induction Hc as [a | a b l c Hg Hc IH]; intros -> Hl fuel s Hfuel.
  - destruct fuel as [|fuel]; [simpl in Hfuel; lia|].
    rewrite generateCombinations_loop_unfold.
    destruct (Hl maxc ltac:(by left)) as [Hr _].
    destruct (Z.leb_spec maxc maxc); [|lia].
    simpl run_until.
    destruct (cb maxc s) as [[found s1]| |]; cbn [bind]; try done.
    destruct found; [done|].
    destruct (machine_step maxc Hr) as (-> & -> & _).
    pose proof (lowbit_bounds maxc ltac:(lia)).
    destruct (Z.gtb_spec (maxc + lowbit maxc) maxc); [done|lia].
  - destruct fuel as [|fuel]; [simpl in Hfuel; lia|].
    rewrite generateCombinations_loop_unfold.
    destruct (Hl a ltac:(by left)) as [Hr Hle].
    destruct (Z.leb_spec a maxc); [|lia].
    simpl run_until.
    destruct (cb a s) as [[found s1]| |]; cbn [bind]; try done.
    destruct found; [done|].
    destruct (machine_step a Hr) as (-> & -> & Hstep).
    destruct (chain_head _ _ _ Hc) as [l' ->].
    destruct (Hl b ltac:(right; by left)) as [_ Hb].
    pose proof (gosper_ge a ltac:(lia)).
    destruct (Z.gtb_spec (a + lowbit a) maxc); [lia|].
    destruct (quo (xor a (a + lowbit a)) (lowbit a)) as [q| |];
      cbn [bind] in *; try done.
    destruct (shr q 2) as [low| |]; cbn [bind] in *; try done.
    inversion Hstep as [Hor]. rewrite Hor, Hg.
    apply IH; [done| |simpl in *; lia].
    intros x Hx. apply Hl. by right.
Qed.

Lemma generateCombinations_correct {S} (cb : Z -> S -> result (bool * S))
    n k s fuel :
  0 <= n <= 62 -> 0 <= k ->
  (length (combinations n k) <= fuel)%nat ->
  generateCombinations fuel n k cb s = run_until cb (combinations n k) s.
Proof.
  intros Hn Hk Hfuel. unfold generateCombinations.
  destruct (Z.eqb_spec k 0) as [->|Hk0].
  { rewrite combinations_zero by lia. simpl.
    destruct (cb 0 s) as [[[] s1]| |]; done. }
  destruct (Z.gtb_spec k n) as [Hgt|Hle].
  { by rewrite combinations_gt by lia. }
  rewrite shl_1_small by lia. cbn [bind].
  pose proof (pow2_pos k ltac:(lia)) as Hpk.
  assert (2 ^ k <= 2 ^ 62) as Hk62 by (apply pow2_le_mono; lia).
  assert (2 ^ n <= 2 ^ 62) as Hn62 by (apply pow2_le_mono; lia).
  assert (2 ^ k * 2 ^ (n - k) = 2 ^ n) as Hsplit.
  { rewrite <- Z.pow_add_r by lia. f_equal. lia. }
  pose proof (pow2_pos (n - k) ltac:(lia)) as Hpnk.
  unfold sub. rewrite (wrap_small (2 ^ k - 1)) by lia.
  rewrite (wrap_small (n - k)) by lia.
  rewrite shl_nonneg by lia. cbn [bind].
  rewrite Z.shiftl_mul_pow2 by lia.
  rewrite wrap_small by nia.
  pose proof (combinations_chain (Z.to_nat n) k ltac:(lia)) as Hchain.
  rewrite Z2Nat.id in Hchain by lia.
  apply (generateCombinations_loop_chain cb _ _ _ _ Hchain eq_refl); [|done].
  intros x Hx. split.
  - pose proof (combinations_pos n k x ltac:(lia) Hx). lia.
  - by apply (sorted_chain_le _ _ _ (combinations_sorted n k) Hchain).
Qed.

(** ** Recovery characteristics *)

Lemma run_until_pure (p : Z -> bool) (cb : Z -> unit -> result (bool * unit)) l :
  (forall x, In x l -> cb x tt = Ok (p x, tt)) ->
  run_until cb l tt = Ok (existsb p l, tt).
Proof.
  induction l as [|x l IH]; intros Hcb; [done|].
  simpl. rewrite (Hcb x) by (by left). cbn [bind].
  destruct (p x); [done|]. apply IH. intros y Hy. apply Hcb. by right.
Qed.

(** A search loop returning the first index that satisfies [b]. *)
Lemma for_loop_ret_first (b : Z -> bool)
    (body : Z -> unit -> result (unit + Z)) count i :
  (forall j, i <= j < i + Z.of_nat count ->
     body j tt = Ok (if b j then inr j else inl tt)) ->
  (for_loop_ret count i body tt = Ok (inl tt) /\
   forall j, i <= j < i + Z.of_nat count -> b j = false) \/
  (exists r, for_loop_ret count i body tt = Ok (inr r) /\
     i <= r < i + Z.of_nat count /\ b r = true /\
     forall j, i <= j < r -> b j = false).
Proof.
  revert i. induction count as [|c IH]; intros i Hbody.
  - left. split; [done|]. intros j Hj. lia.
  - simpl for_loop_ret. rewrite Hbody by lia.
    destruct (b i) eqn:Hbi; cbn [bind].
    + right. exists i. split; [done|]. split; [lia|]. split; [done|].
      intros j Hj. lia.
    + destruct (IH (i + 1)) as [[Hrun Hall]|(r & Hrun & Hr & Hbr & Hall)].
      { intros j Hj. apply Hbody. lia. }
      * left. split; [done|]. intros j Hj.
        destruct (Z.eq_dec j i) as [->|]; [done|]. apply Hall. lia.
      * right. exists r. split; [done|]. split; [lia|]. split; [done|].
        intros j Hj.
        destruct (Z.eq_dec j i) as [->|]; [done|]. apply Hall. lia.
Qed.

Lemma min_failing_of_search (b : Z -> bool) (fails : Z -> Prop)
    (body : Z -> unit -> result (unit + Z)) total :
  0 <= total ->
  (forall j, 1 <= j <= total -> (b j = true <-> fails j)) ->
  (forall j, 1 <= j <= total -> body j tt = Ok (if b j then inr j else inl tt)) ->
  exists r,
    (let* r := for_range_ret 1 (total + 1) body tt in
     match r with inr v => Ok v | inl _ => Ok (-1) end) = Ok r /\
    min_failing fails total r.
Proof.
  intros Ht Hb Hbody. unfold for_range_ret.
  replace (total + 1 - 1) with total by lia.
  destruct (for_loop_ret_first b body (Z.to_nat total) 1)
    as [[Hrun Hall]|(r & Hrun & Hr & Hbr & Hall)].
  - intros j Hj. apply Hbody. lia.
  - exists (-1). rewrite Hrun. split; [done|]. left. split; [done|].
    intros m Hm Hf. apply Hb in Hf; [|done].
    rewrite Hall in Hf by lia. done.
  - exists r. rewrite Hrun. split; [done|]. right.
    split; [lia|]. split; [apply Hb; [lia|done]|].
    intros m Hm Hf. apply Hb in Hf; [|lia].
    rewrite Hall in Hf by lia. done.
Qed.

Section Characteristics.
Variable R : list Z.

Lemma map_get_foldl (l : list Z) (m0 : gmap Z bool) d :
  map_get (foldl (fun (m : gmap Z bool) v => <[v := true]> m) m0 l) d = true
  <-> In d l \/ map_get m0 d = true.
Proof.
  revert m0. induction l as [|x l IH]; intros m0; simpl.
  - tauto.
  - rewrite IH. unfold map_get.
    destruct (Z.eq_dec x d) as [->|Hne].
    + rewrite lookup_insert_eq. simpl. tauto.
    + rewrite lookup_insert_ne by done. intuition congruence.
Qed.

Lemma map_get_reachableSet d : map_get (reachableSet_of R) d = true <-> In d R.
Proof.
  unfold reachableSet_of. rewrite map_get_foldl.
  unfold map_get. rewrite lookup_empty. simpl. intuition congruence.
Qed.

Lemma fails_b_spec total lp :
  fails_b R total lp = true <-> non_recoverable total R lp.
Proof.
  unfold fails_b, non_recoverable. rewrite <- map_get_reachableSet.
  destruct (map_get _ _); simpl; intuition congruence.
Qed.

Lemma delivery_mask total :
  0 <= total <= 62 ->
  (let* top := shl 1 total in Ok (sub top 1)) = Ok (2 ^ total - 1).
Proof.
  intros Ht. rewrite shl_1_small by done. cbn [bind]. unfold sub.
  rewrite wrap_small; [done|].
  pose proof (pow2_pos total ltac:(lia)).
  assert (2 ^ total <= 2 ^ 62) by (apply pow2_le_mono; lia). lia.
Qed.

Lemma combinations_length_le n k :
  0 <= n -> (length (combinations n k) <= Z.to_nat (2 ^ n))%nat.
Proof.
  intros Hn. unfold combinations.
  pose proof (List.filter_length_le (fun x => bitcount n x =? k) (seqZ 0 (2 ^ n))) as Hl.
  by rewrite length_seqZ in Hl.
Qed.

Lemma hasNonRecoverablePattern_spec fuel N K total numLost :
  0 <= total <= 62 -> 0 <= numLost ->
  (Z.to_nat (2 ^ total) <= fuel)%nat ->
  hasNonRecoverablePattern fuel N K total numLost (reachableSet_of R) =
  Ok (existsb (fails_b R total) (combinations total numLost)).
Proof.
  intros Ht Hn Hfuel. unfold hasNonRecoverablePattern.
  rewrite generateCombinations_correct; [|done|done|].
  2:{ pose proof (combinations_length_le total numLost ltac:(lia)). lia. }
  rewrite (run_until_pure (fails_b R total)); [done|].
  intros x _. pose proof (delivery_mask total Ht) as Hm.
  destruct (shl 1 total) as [top| |]; cbn [bind] in *; try done.
  inversion Hm as [Hs]. by rewrite Hs.
Qed.

Lemma existsb_fails total numLost :
  existsb (fails_b R total) (combinations total numLost) = true <->
  loss_count_fails total R numLost.
Proof.
  rewrite existsb_exists. unfold loss_count_fails. split.
  - intros (lp & Hin & Hf). apply combinations_spec in Hin as [? ?].
    exists lp. by rewrite <- fails_b_spec.
  - intros (lp & Hr & Hc & Hf). exists lp.
    rewrite combinations_spec, fails_b_spec. done.
Qed.

Lemma findMinLostPacketsForNonRecovery_spec fuel N K total :
  0 <= total <= 62 ->
  (Z.to_nat (2 ^ total) <= fuel)%nat ->
  exists r,
    findMinLostPacketsForNonRecovery fuel N K total (reachableSet_of R) = Ok r /\
    min_failing (loss_count_fails total R) total r.
Proof.
  intros Ht Hfuel. unfold findMinLostPacketsForNonRecovery.
  apply (min_failing_of_search
           (fun numLost => existsb (fails_b R total) (combinations total numLost))).
  - lia.
  - intros j _. apply existsb_fails.
  - intros j Hj. rewrite hasNonRecoverablePattern_spec by (lia || done).
    cbn [bind]. by destruct (existsb _ _).
Qed.

(** The inner loop that builds the run of lost packets. *)
Lemma run_pattern_bits start len i :
  0 <= start -> 0 <= len -> 0 <= i ->
  Z.testbit (run_pattern start len) i = (start <=? i) && (i <? start + len).
Proof.
  intros Hs Hl Hi. unfold run_pattern.
  destruct (Z.leb_spec start i) as [Hle|Hlt]; simpl.
  - rewrite Z.shiftl_spec by done.
    destruct (Z.ltb_spec i (start + len)).
    + apply Z.ones_spec_low. lia.
    + apply Z.ones_spec_high. lia.
  - apply Z.shiftl_spec_low. lia.
Qed.

Lemma run_pattern_loop (count : nat) : forall start,
  0 <= start -> start + Z.of_nat count <= 63 ->
  for_loop count start
    (fun i lossPattern => let* b := shl 1 i in Ok (or lossPattern b)) 0 =
  Ok (run_pattern start (Z.of_nat count)).
Proof.
  induction count as [|c IH]; intros start Hs Hc.
  - simpl. unfold run_pattern. simpl. by rewrite Z.shiftl_0_l.
  - rewrite for_loop_snoc. rewrite IH by lia. cbn [bind].
    rewrite shl_1_small by lia. cbn [bind]. f_equal. unfold or.
    apply Z.bits_inj'. intros i Hi.
    rewrite Z.lor_spec, !run_pattern_bits by lia.
    rewrite Z.pow2_bits_eqb by lia.
    destruct (Z.leb_spec start i), (Z.ltb_spec i (start + Z.of_nat c)),
      (Z.ltb_spec i (start + Z.of_nat (Datatypes.S c))),
      (Z.eqb_spec (start + Z.of_nat c) i); simpl; (done || lia).
Qed.

Lemma run_fails_b_spec total len :
  run_fails_b R total len = true <-> run_fails total R len.
Proof.
  unfold run_fails_b, run_fails. rewrite existsb_exists. split.
  - intros (s & Hin & Hf). apply in_seqZ_0 in Hin.
    exists s. rewrite <- fails_b_spec. split; [lia|done].
  - intros (s & Hs & Hf). exists s.
    rewrite in_seqZ_0, fails_b_spec. split; [lia|done].
Qed.

Lemma findMinConsecutiveLostForNonRecovery_spec N K total :
  0 <= total <= 62 ->
  exists r,
    findMinConsecutiveLostForNonRecovery N K total (reachableSet_of R) = Ok r /\
    min_failing (run_fails total R) total r.
Proof.
  intros Ht. unfold findMinConsecutiveLostForNonRecovery.
  apply (min_failing_of_search (run_fails_b R total)).
  - lia.
  - intros j _. apply run_fails_b_spec.
  - intros len Hlen. unfold for_range_ret, sub.
    rewrite wrap_small by lia.
    replace (total - len + 1 - 0) with (total - len + 1) by lia.
    rewrite (for_loop_ret_check
               (fun start => negb (fails_b R total (run_pattern start len))) len).
    + unfold run_fails_b. rewrite Z2Nat.id by lia.
      induction (seqZ 0 (total - len + 1)) as [|x l IH]; [done|].
      simpl. destruct (fails_b R total (run_pattern x len)); simpl; [done|].
      apply IH.
    + intros start Hstart. rewrite Z2Nat.id in Hstart by lia.
      unfold for_range, add. rewrite wrap_small by lia.
      replace (start + len - start) with len by lia.
      pose proof (run_pattern_loop (Z.to_nat len) start) as Hloop.
      rewrite Z2Nat.id in Hloop by lia. rewrite Hloop by lia.
      cbn [bind].
      pose proof (delivery_mask total Ht) as Hm.
      destruct (shl 1 total) as [top| |]; cbn [bind] in *; try done.
      inversion Hm as [Hsub]. unfold sub in Hsub. unfold xor. rewrite Hsub.
      fold (fails_b R total (run_pattern start len)).
      by destruct (fails_b R total (run_pattern start len)).
Qed.

Lemma CalculateRecoveryCharacteristics_spec fuel N K :
  0 <= N -> 0 <= K -> N + K <= 62 ->
  (Z.to_nat (2 ^ (N + K)) <= fuel)%nat ->
  exists rc,
    CalculateRecoveryCharacteristicsFromReachable fuel N K R = Ok rc /\
    min_failing (loss_count_fails (N + K) R) (N + K)
                (MinLostPacketsForNonRecovery rc) /\
    min_failing (run_fails (N + K) R) (N + K)
                (MinConsecutiveLostForNonRecovery rc).
Proof.
  intros HN HK Hs Hfuel.
  unfold CalculateRecoveryCharacteristicsFromReachable, add.
  rewrite wrap_small by lia. fold (reachableSet_of R).
  destruct (findMinLostPacketsForNonRecovery_spec fuel N K (N + K))
    as (r1 & -> & H1); [lia|done|].
  destruct (findMinConsecutiveLostForNonRecovery_spec N K (N + K))
    as (r2 & -> & H2); [lia|].
  eexists. split; [reflexivity|]. done.
Qed.

Lemma delivery_in_range total lp :
  0 <= total -> 0 <= lp < 2 ^ total ->
  0 <= Z.lxor (2 ^ total - 1) lp < 2 ^ total.
Proof.
  intros Ht Hlp. apply lxor_lt_pow2; [|done].
  pose proof (pow2_pos total Ht). lia.
Qed.

Lemma run_pattern_range total start len :
  0 <= start -> 0 <= len -> start + len <= total ->
  0 <= run_pattern start len < 2 ^ total.
Proof.
  intros Hs Hl Ht. unfold run_pattern.
  rewrite Z.shiftl_mul_pow2, Z.ones_equiv by done.
  pose proof (pow2_pos start Hs). pose proof (pow2_pos len Hl).
  assert (2 ^ len * 2 ^ start <= 2 ^ total).
  { rewrite <- Z.pow_add_r by done. apply pow2_le_mono. lia. }
  unfold Z.pred. nia.
Qed.
End Characteristics.

(** C4 (as amended): for [0 <= n <= 62] and [k >= 0], given fuel for one
    iteration per combination, [generateCombinations n k callback] behaves
    as calling the callback on the elements of [combinations n k] in
    order and stopping with [true] at the first call that answers [true];
    that list is strictly increasing, contains exactly the integers below
    [2^n] with [k] of their low [n] bits set, and has [C(n,k)] elements;
    it is [[0]] for [k = 0] and empty for [k > n]. *)
Theorem C4_generateCombinations_enumerates {S : Type} (n k : Z)
    (callback : Z -> S -> result (bool * S)) (s : S) (fuel : nat) :
  0 <= n <= 62 -> 0 <= k ->
  (binomial (Z.to_nat n) (Z.to_nat k) <= fuel)%nat ->
  generateCombinations fuel n k callback s =
    run_until callback (combinations n k) s /\
  StronglySorted Z.lt (combinations n k) /\
  (forall x, In x (combinations n k) <-> 0 <= x < 2 ^ n /\ bitcount n x = k) /\
  length (combinations n k) = binomial (Z.to_nat n) (Z.to_nat k) /\
  (k = 0 -> combinations n k = [0]) /\
  (n < k -> combinations n k = []).
Proof.
  intros Hn Hk Hfuel.
  assert (length (combinations n k) = binomial (Z.to_nat n) (Z.to_nat k)) as Hlen.
  { rewrite <- combinations_length. by rewrite !Z2Nat.id by lia. }
  split; [apply generateCombinations_correct; (lia || done)|].
  split; [apply combinations_sorted|].
  split; [apply combinations_spec|].
  split; [done|].
  split.
  - intros ->. apply combinations_zero. lia.
  - intros Hlt. apply combinations_gt. lia.
Qed.

Lemma C4_generateCombinations_enumerates_witness :
  (0 <= 4 <= 62 /\ 0 <= 2 /\ (binomial (Z.to_nat 4) (Z.to_nat 2) <= 6)%nat) /\
  generateCombinations 6 4 2 record_all [] =
    run_until record_all (combinations 4 2) [].
Proof.
  assert (0 <= 4 <= 62) as H1 by lia.
  assert (0 <= 2) as H2 by lia.
  assert (binomial (Z.to_nat 4) (Z.to_nat 2) <= 6)%nat as H3 by (vm_compute; lia).
  split; [done|].
  exact (proj1 (C4_generateCombinations_enumerates 4 2 record_all [] 6 H1 H2 H3)).
Defined.

Lemma existsb_none {A} (p : A -> bool) l :
  (forall x, In x l -> p x = false) -> existsb p l = false.
Proof.
  induction l as [|x l IH]; intros Hp; [done|].
  simpl. rewrite (Hp x) by (by left). apply IH. intros y Hy. apply Hp. by right.
Qed.

Lemma run_until_sign_probe n k :
  run_until (fun (x : Z) (_ : unit) => Ok (x <? 0, tt)) (combinations n k) tt =
  Ok (false, tt).
Proof.
  rewrite (run_until_pure (fun x => x <? 0)) by (intros; reflexivity).
  rewrite existsb_none; [reflexivity|].
  intros x Hx. apply combinations_spec in Hx. apply Z.ltb_ge. lia.
Qed.

(** For [n = 63] the enumeration runs past the last combination: from
    [2^63 - 1] the step wraps to [-1], on which the callback is
    called as well. *)
Lemma C4_counterexample :
  let callback := fun (x : Z) (_ : unit) => Ok (x <? 0, tt) in
  generateCombinations 2 63 63 callback tt = Ok (true, tt) /\
  run_until callback (combinations 63 63) tt = Ok (false, tt).
Proof.
  split; [reflexivity|]. apply run_until_sign_probe.
Qed.

(** C3 (as amended): for [0 <= N], [0 <= K] and [N + K <= 62], given fuel
    for the longest enumeration, [MinLostPacketsForNonRecovery] is the
    smallest [numLost] in [[1, N+K]] for which some loss pattern with
    exactly [numLost] of the low [N+K] bits set has its delivery pattern
    [(2^(N+K) - 1) xor lossPattern] absent from the reachable list, and
    [-1] when there is none. *)
Theorem C3_min_lost_packets (N K : Z) (R : list Z) (fuel : nat) :
  0 <= N -> 0 <= K -> N + K <= 62 ->
  (Z.to_nat (2 ^ (N + K)) <= fuel)%nat ->
  exists rc,
    CalculateRecoveryCharacteristicsFromReachable fuel N K R = Ok rc /\
    min_failing (loss_count_fails (N + K) R) (N + K)
                (MinLostPacketsForNonRecovery rc).
Proof.
  intros HN HK Hs Hfuel.
  destruct (CalculateRecoveryCharacteristics_spec R fuel N K HN HK Hs Hfuel)
    as (rc & Hrc & H1 & _).
  by exists rc.
Qed.

Lemma C3_min_lost_packets_witness :
  (0 <= 2 /\ 0 <= 1 /\ 2 + 1 <= 62 /\ (Z.to_nat (2 ^ (2 + 1)) <= 8)%nat) /\
  exists rc,
    CalculateRecoveryCharacteristicsFromReachable 8 2 1 [3; 5; 6; 7] = Ok rc /\
    min_failing (loss_count_fails (2 + 1) [3; 5; 6; 7]) (2 + 1)
                (MinLostPacketsForNonRecovery rc).
Proof.
  assert (0 <= 2) as H1 by lia.
  assert (0 <= 1) as H2 by lia.
  assert (2 + 1 <= 62) as H3 by lia.
  assert (Z.to_nat (2 ^ (2 + 1)) <= 8)%nat as H4 by (vm_compute; lia).
  split; [done|].
  exact (C3_min_lost_packets 2 1 [3; 5; 6; 7] 8 H1 H2 H3 H4).
Defined.

Lemma combinations_one n :
  0 <= n -> combinations n 1 = map (Z.pow 2) (seqZ 0 n).
Proof.
  intros Hn. rewrite <- (Z2Nat.id n Hn).
  induction (Z.to_nat n) as [|p IH].
  - by rewrite combinations_0.
  - rewrite seqZ_S, map_app, <- IH. rewrite Nat2Z.inj_succ. unfold Z.succ.
    rewrite combinations_succ by lia. f_equal.
    rewrite combinations_zero by lia. simpl. by rewrite Z.add_0_r.
Qed.

Lemma C3_counterexample :
  exists rc,
    CalculateRecoveryCharacteristicsFromReachable 70 63 0
      single_loss_deliveries = Ok rc /\
    MinLostPacketsForNonRecovery rc = 1 /\
    ~ min_failing (loss_count_fails 63 single_loss_deliveries) 63
                  (MinLostPacketsForNonRecovery rc).
Proof.
  eexists. split; [vm_compute; reflexivity|]. split; [reflexivity|].
  cbn [MinLostPacketsForNonRecovery].
  intros [[Hr _]|(_ & (lp & Hlp & Hc & Hf) & _)]; [discriminate Hr|].
  apply Hf.
  assert (In lp (combinations 63 1)) as Hin.
  { apply combinations_spec. split; [exact Hlp|exact Hc]. }
  rewrite combinations_one in Hin by lia.
  apply in_map_iff in Hin as (i & <- & Hi).
  unfold single_loss_deliveries. apply in_map_iff.
  exists i. split; [reflexivity|exact Hi].
Qed.

(** C6 (as amended): for [0 <= N], [0 <= K] and [N + K <= 62], given fuel
    for the longest enumeration, [MinConsecutiveLostForNonRecovery] is the
    smallest [runLength] in [[1, N+K]] such that for some start offset
    [0 <= start <= N+K - runLength] the loss pattern with exactly the bits
    [[start, start+runLength)] set has its delivery pattern absent from
    the reachable list, and [-1] when there is none; when the list
    contains all [2^(N+K)] vertices both fields are [-1]. *)
Theorem C6_min_consecutive_lost (N K : Z) (R : list Z) (fuel : nat) :
  0 <= N -> 0 <= K -> N + K <= 62 ->
  (Z.to_nat (2 ^ (N + K)) <= fuel)%nat ->
  exists rc,
    CalculateRecoveryCharacteristicsFromReachable fuel N K R = Ok rc /\
    min_failing (run_fails (N + K) R) (N + K)
                (MinConsecutiveLostForNonRecovery rc) /\
    ((forall v, 0 <= v < 2 ^ (N + K) -> In v R) ->
     MinLostPacketsForNonRecovery rc = -1 /\
     MinConsecutiveLostForNonRecovery rc = -1).
Proof.
  intros HN HK Hs Hfuel.
  destruct (CalculateRecoveryCharacteristics_spec R fuel N K HN HK Hs Hfuel)
    as (rc & Hrc & H1 & H2).
  exists rc. split; [done|]. split; [done|].
  intros Hall. split.
  - destruct H1 as [[? _]|(_ & (lp & Hlp & _ & Hf) & _)]; [done|].
    exfalso. apply Hf, Hall. apply delivery_in_range; [lia|done].
  - destruct H2 as [[? _]|(Hr & (start & Hst & Hf) & _)]; [done|].
    exfalso. apply Hf, Hall. apply delivery_in_range; [lia|].
    apply run_pattern_range; lia.
Qed.

Lemma C6_min_consecutive_lost_witness :
  (0 <= 2 /\ 0 <= 1 /\ 2 + 1 <= 62 /\ (Z.to_nat (2 ^ (2 + 1)) <= 8)%nat) /\
  exists rc,
    CalculateRecoveryCharacteristicsFromReachable 8 2 1 [0; 1; 2; 3; 4; 5; 6; 7]
      = Ok rc /\
    min_failing (run_fails (2 + 1) [0; 1; 2; 3; 4; 5; 6; 7]) (2 + 1)
                (MinConsecutiveLostForNonRecovery rc) /\
    ((forall v, 0 <= v < 2 ^ (2 + 1) -> In v [0; 1; 2; 3; 4; 5; 6; 7]) ->
     MinLostPacketsForNonRecovery rc = -1 /\
     MinConsecutiveLostForNonRecovery rc = -1).
Proof.
  assert (0 <= 2) as H1 by lia.
  assert (0 <= 1) as H2 by lia.
  assert (2 + 1 <= 62) as H3 by lia.
  assert (Z.to_nat (2 ^ (2 + 1)) <= 8)%nat as H4 by (vm_compute; lia).
  split; [done|].
  exact (C6_min_consecutive_lost 2 1 [0; 1; 2; 3; 4; 5; 6; 7] 8 H1 H2 H3 H4).
Defined.

(** With 128 packets and only vertex 0 reachable, the enumeration of the
    64-loss patterns starts at [(1 << 64) - 1 = -1], below the bound
    [-1 << 64 = 0]; the callback finds the delivery pattern
    [((1 << 128) - 1) ^ -1 = 0] reachable, and the step from [-1] leads to
    [-1] again. *)
Lemma generateCombinations_loop_spins fuel :
  generateCombinations_loop fuel
    (fun lossPattern (_ : unit) =>
       let* top := shl 1 128 in
       let deliveryPattern := xor (sub top 1) lossPattern in
       Ok (negb (map_get (reachableSet_of [0]) deliveryPattern), tt))
    0 (-1) tt = OutOfFuel.
Proof.
  induction fuel as [|fuel IH]; [reflexivity|].
  rewrite generateCombinations_loop_unfold. exact IH.
Qed.

(** The loss counts 1 to 63 call the callback on nothing (the bound
    [((1 << k) - 1) << (128 - k)] is 0); the loss count 64 does not
    return. *)
Lemma findMinLostPacketsForNonRecovery_spins fuel :
  findMinLostPacketsForNonRecovery fuel 128 0 128 (reachableSet_of [0]) =
  OutOfFuel.
Proof.
  unfold findMinLostPacketsForNonRecovery, for_range_ret.
  rewrite (for_loop_ret_stuck _ tt 63); [reflexivity| | |].
  - vm_compute. lia.
  - intros j Hj. destruct fuel as [|fuel];
      do 63 (destruct j as [|j]; [vm_compute; reflexivity|]); lia.
  - unfold hasNonRecoverablePattern.
    change (1 + Z.of_nat 63) with 64.
    unfold generateCombinations.
    change (64 =? 0) with false. change (64 >? 128) with false. cbv iota.
    change (shl 1 64) with (Ok (A:=Z) 0). cbn [bind].
    change (sub 0 1) with (-1).
    change (shl (-1) (sub 128 64)) with (Ok (A:=Z) 0).
    cbn [bind]. by rewrite generateCombinations_loop_spins.
Qed.

(** With [N = 128], [K = 0] and the reachable list [[0]] the computation
    never returns, whatever the fuel: the search for the minimum loss count
    that precedes the search over the runs does not terminate.  The claim
    asks for the value 1 there: the run of length 1 at offset 0 has its
    delivery pattern [2^128 - 2] absent from the list. *)
Lemma C6_counterexample :
  (~ exists fuel rc,
       CalculateRecoveryCharacteristicsFromReachable fuel 128 0 [0] = Ok rc) /\
  min_failing (run_fails 128 [0]) 128 1.
Proof.
  split.
  - intros (fuel & rc & Hrc).
    unfold CalculateRecoveryCharacteristicsFromReachable in Hrc.
    change (add 128 0) with 128 in Hrc. fold (reachableSet_of [0]) in Hrc.
    rewrite findMinLostPacketsForNonRecovery_spins in Hrc. discriminate Hrc.
  - right. split; [lia|]. split; [|intros m Hm; lia].
    exists 0. split; [lia|]. vm_compute. intros [H|[]]. discriminate H.
Qed.

(** ** Loss models: from the loops to folds over the bits *)

Lemma bit_set_mbit v i : 0 <= i -> bit_set v i = Ok (mbit v i).
Proof. intros Hi. unfold bit_set. by rewrite shl_nonneg by done. Qed.

Lemma mbit_testbit v i : 0 <= i <= 62 -> mbit v i = Z.testbit v i.
Proof.
  intros Hi. pose proof (bit_set_small v i Hi) as Hs.
  rewrite bit_set_mbit in Hs by lia. by inversion Hs.
Qed.

Lemma iter_bits_ext {A} (step : bool -> A -> A) init bits bits' n :
  (forall k, (k < n)%nat -> bits k = bits' k) ->
  iter_bits step init bits n = iter_bits step init bits' n.
Proof.
  induction n as [|n IH]; intros Hb; [done|].
  simpl. rewrite Hb by lia. rewrite IH; [done|]. intros k Hk. apply Hb. lia.
Qed.

(** *** The counters of the random model *)

Lemma count_step_inv bits n :
  let '(o, z) := iter_bits count_step (0, 0) bits n in
  0 <= o /\ 0 <= z /\ o + z = Z.of_nat n.
Proof.
  induction n as [|n IH]; [simpl; lia|].
  simpl. destruct (iter_bits count_step (0, 0) bits n) as [o z].
  unfold count_step. destruct (bits n); lia.
Qed.

Lemma random_count_loop v (n : nat) :
  Z.of_nat n <= max_int ->
  for_loop n 0
    (fun i '(onesCount, zerosCount) =>
       let* delivered := bit_set v i in
       if (delivered : bool) then Ok (add onesCount 1, zerosCount)
       else Ok (onesCount, add zerosCount 1)) (0, 0) =
  Ok (iter_bits count_step (0, 0) (mbits v) n).
Proof.
  induction n as [|n IH]; intros Hn; [done|].
  rewrite for_loop_snoc, IH by lia. cbn [bind].
  pose proof (count_step_inv (mbits v) n) as Hinv.
  simpl iter_bits. destruct (iter_bits count_step (0, 0) (mbits v) n) as [o z].
  rewrite Z.add_0_l, bit_set_mbit by lia. cbn [bind]. unfold mbits, count_step, add.
  unfold max_int in Hn.
  destruct (mbit v (Z.of_nat n)); rewrite wrap_small by lia; done.
Qed.

Lemma RandomLossModel_CalculateProbability_eq m v N :
  0 < N <= max_int ->
  RandomLossModel_CalculateProbability m v N =
  Ok (random_value (P m) (iter_bits count_step (0, 0) (mbits v) (Z.to_nat N))).
Proof.
  intros HN. unfold RandomLossModel_CalculateProbability.
  destruct (Z.leb_spec N 0); [lia|].
  unfold for_range. rewrite Z.sub_0_r.
  rewrite random_count_loop by lia. cbn [bind].
  by destruct (iter_bits _ _ _ _).
Qed.

(** *** The table of the Gilbert-Elliott model *)

Lemma dp_table_loop m v initState (n j : nat) :
  (j <= n)%nat -> Z.of_nat n <= max_int ->
  exists dp,
    for_loop j 1
      (fun i (dp : list (Q * Q)) =>
         let packetIndex := sub i 1 in
         let* packetDelivered := bit_set v packetIndex in
         match dp !! Z.to_nat (i - 1) with
         | None => Panic
         | Some prev => Ok (<[Z.to_nat i := dp_row m packetDelivered prev]> dp)
         end)
      (<[0%nat := init_row initState]> (replicate (Datatypes.S n) (0%Q, 0%Q)))
    = Ok dp /\
    length dp = Datatypes.S n /\
    forall k, (k <= j)%nat -> dp !! k = Some (dp_rows m v initState k).
Proof.
  intros Hj Hn. induction j as [|j IH].
  - eexists. split; [reflexivity|]. split.
    + by rewrite length_insert, length_replicate.
    + intros k Hk. assert (k = 0%nat) as -> by lia. done.
  - destruct IH as (dp & Hrun & Hlen & Hrows); [lia|].
    rewrite for_loop_snoc, Hrun. cbn [bind].
    unfold sub. unfold max_int in Hn. rewrite wrap_small by lia.
    replace (1 + Z.of_nat j - 1) with (Z.of_nat j) by lia.
    rewrite bit_set_mbit by lia. cbn [bind].
    rewrite Nat2Z.id, (Hrows j) by lia.
    eexists. split; [reflexivity|]. split.
    + by rewrite length_insert.
    + intros k Hk. replace (Z.to_nat (1 + Z.of_nat j)) with (Datatypes.S j) by lia.
      destruct (Nat.eq_dec k (Datatypes.S j)) as [->|Hne].
      * rewrite list_lookup_insert_eq by lia. done.
      * rewrite list_lookup_insert_ne by lia. apply Hrows. lia.
Qed.

Lemma computePatternProbabilityDP_eq m v len initState :
  0 <= len < 2 ^ 44 ->
  computePatternProbabilityDP m v len initState =
  Ok (row_total (dp_rows m v initState (Z.to_nat len))).
Proof.
  intros Hlen. unfold computePatternProbabilityDP, add.
  rewrite wrap_small by lia.
  rewrite make_Ok by (unfold maxAlloc; lia). cbn [bind].
  unfold for_range.
  replace (len + 1 - 1) with len by lia.
  replace (Z.to_nat (len + 1)) with (Datatypes.S (Z.to_nat len)) by lia.
  destruct (dp_table_loop m v initState (Z.to_nat len) (Z.to_nat len))
    as (dp & Hrun & _ & Hrows); [lia|unfold max_int; lia|].
  destruct (replicate (Datatypes.S (Z.to_nat len)) (0%Q, 0%Q))
    as [|row rows] eqn:Hrep; [done|].
  unfold init_row in Hrun. rewrite Hrun. cbn [bind].
  rewrite (Hrows (Z.to_nat len)) by lia.
  by destruct (dp_rows m v initState (Z.to_nat len)).
Qed.

(** *** The cache *)

Lemma computePatternProbabilityDP_set_cache m c pattern len initState :
  computePatternProbabilityDP (set_cache m c) pattern len initState =
  computePatternProbabilityDP m pattern len initState.
Proof. reflexivity. Qed.

Lemma calculatePatternProbability_post m pattern len initState prob m' :
  cache_valid m -> len <> 0 ->
  calculatePatternProbability m pattern len initState = Ok (prob, m') ->
  computePatternProbabilityDP m pattern len initState = Ok prob /\
  cache_valid m' /\
  (exists c, m' = set_cache m c /\
     c !! (pattern, len, initState) = Some prob /\
     forall key x, cache m !! key = Some x -> c !! key = Some x).
Proof.
  intros Hvalid Hlen. unfold calculatePatternProbability.
  destruct (Z.eqb_spec len 0); [done|].
  destruct (cache m !! (pattern, len, initState)) as [cached|] eqn:Hlook.
  - intros Heq. inversion Heq; subst.
    split; [by apply Hvalid|]. split; [done|].
    exists (cache m'). split; [by destruct m'|].
    split; [exact Hlook|]. intros key x Hx. exact Hx.
  - intros Heq. apply bind_Ok_inv in Heq as (x & Hdp & Heq).
    inversion Heq; subst. split; [done|]. split.
    + intros pat' len' st' prob' Hl. rewrite computePatternProbabilityDP_set_cache.
      simpl in Hl.
      destruct (decide ((pattern, len, initState) = (pat', len', st'))) as [Hk|Hk].
      * rewrite Hk in Hl. rewrite lookup_insert_eq in Hl.
        inversion Hk; subst. by inversion Hl; subst.
      * rewrite lookup_insert_ne in Hl by done. by apply Hvalid.
    + eexists. split; [reflexivity|]. split; [apply lookup_insert_eq|].
      intros key y Hy.
      destruct (decide ((pattern, len, initState) = key)) as [<-|Hk].
      * congruence.
      * by rewrite lookup_insert_ne.
Qed.

Lemma calculatePatternProbability_hit m pattern len initState prob :
  len <> 0 -> cache m !! (pattern, len, initState) = Some prob ->
  calculatePatternProbability m pattern len initState = Ok (prob, m).
Proof.
  intros Hlen Hl. unfold calculatePatternProbability.
  destruct (Z.eqb_spec len 0); [done|]. by rewrite Hl.
Qed.

Lemma calculatePatternProbability_miss m pattern len initState prob :
  len <> 0 -> cache m !! (pattern, len, initState) = None ->
  computePatternProbabilityDP m pattern len initState = Ok prob ->
  calculatePatternProbability m pattern len initState =
  Ok (prob, set_cache m (<[(pattern, len, initState) := prob]> (cache m))).
Proof.
  intros Hlen Hl Hdp. unfold calculatePatternProbability.
  destruct (Z.eqb_spec len 0); [done|]. by rewrite Hl, Hdp.
Qed.

(** With a valid cache the lookup returns the table value, whether it
    hits or misses. *)
Lemma calculatePatternProbability_total m pattern len initState prob :
  cache_valid m -> len <> 0 ->
  computePatternProbabilityDP m pattern len initState = Ok prob ->
  exists m', calculatePatternProbability m pattern len initState = Ok (prob, m').
Proof.
  intros Hvalid Hlen Hdp.
  destruct (cache m !! (pattern, len, initState)) as [cached|] eqn:Hlook.
  - exists m. rewrite (calculatePatternProbability_hit _ _ _ _ cached) by done.
    apply Hvalid in Hlook. congruence.
  - eexists. by apply calculatePatternProbability_miss.
Qed.

Lemma GE_reachable_valid m : GE_reachable m -> cache_valid m.
Proof.
  induction 1 as [pe0 pe1 p01 p10 | m v n p m' Hr IH Hcalc | m Hr IH].
  - unfold NewGilbertElliotLossModel.
    destruct (Qlt_le_dec _ _); intros ? ? ? ? Hl; simpl in Hl;
      by rewrite lookup_empty in Hl.
  - unfold GilbertElliotLossModel_CalculateProbability in Hcalc.
    destruct (Z.leb_spec n 0) as [|Hn]; [by inversion Hcalc; subst|].
    apply bind_Ok_inv in Hcalc as ([prob0 m1] & H0 & Hcalc).
    apply bind_Ok_inv in Hcalc as ([prob1 m2] & H1 & Hcalc).
    inversion Hcalc; subst.
    apply calculatePatternProbability_post in H0 as (_ & Hv1 & _); [|done|lia].
    apply calculatePatternProbability_post in H1 as (_ & Hv2 & _); [|done|lia].
    done.
  - intros ? ? ? ? Hl. simpl in Hl. by rewrite lookup_empty in Hl.
Qed.

Lemma GE_CalculateProbability_eq m v N :
  cache_valid m -> 0 < N < 2 ^ 44 ->
  exists c,
    GilbertElliotLossModel_CalculateProbability m v N =
      Ok (ge_value m v N, set_cache m c) /\
    cache_valid (set_cache m c) /\
    c !! (v, N, 0) = Some (row_total (dp_rows m v 0 (Z.to_nat N))) /\
    c !! (v, N, 1) = Some (row_total (dp_rows m v 1 (Z.to_nat N))).
Proof.
  intros Hvalid HN. unfold GilbertElliotLossModel_CalculateProbability.
  destruct (Z.leb_spec N 0); [lia|].
  assert (0 <= N < 2 ^ 44) as HN' by lia.
  assert (N <> 0) as HN0 by lia.
  pose proof (computePatternProbabilityDP_eq m v N 0 HN') as Hdp0.
  pose proof (computePatternProbabilityDP_eq m v N 1 HN') as Hdp1.
  destruct (calculatePatternProbability_total m v N 0 _ Hvalid HN0 Hdp0)
    as (m1 & Hc0).
  destruct (calculatePatternProbability_post _ _ _ _ _ _ Hvalid HN0 Hc0)
    as (_ & Hv1 & c1 & -> & Hk0 & Hmono1).
  rewrite Hc0. cbn [bind].
  destruct (calculatePatternProbability_total (set_cache m c1) v N 1 _ Hv1
              HN0 Hdp1) as (m2 & Hc1).
  destruct (calculatePatternProbability_post _ _ _ _ _ _ Hv1 HN0 Hc1)
    as (_ & Hv2 & c2 & -> & Hk1 & Hmono2).
  rewrite Hc1. cbn [bind].
  exists c2. split; [done|]. split; [done|]. split; [|done].
  apply Hmono2. done.
Qed.

(** Above the allocation limit of the table no call returns. *)
Lemma computePatternProbabilityDP_Panic m v len initState :
  2 ^ 44 <= len <= max_int ->
  computePatternProbabilityDP m v len initState = Panic.
Proof.
  intros Hlen. unfold computePatternProbabilityDP.
  rewrite make_Panic; [done|]. unfold add, maxAlloc.
  destruct (Z.eq_dec len max_int) as [->|Hne].
  - left. vm_compute. reflexivity.
  - right. rewrite wrap_small by (unfold max_int in *; lia). lia.
Qed.

Lemma GE_CalculateProbability_Panic m v N :
  cache_valid m -> 2 ^ 44 <= N <= max_int ->
  CalculateProbability m v N = Panic.
Proof.
  intros Hvalid HN. simpl.
  unfold GilbertElliotLossModel_CalculateProbability.
  destruct (Z.leb_spec N 0); [lia|].
  unfold calculatePatternProbability at 1.
  destruct (Z.eqb_spec N 0); [lia|].
  destruct (cache m !! (v, N, 0)) as [prob|] eqn:Hlook.
  - apply Hvalid in Hlook.
    by rewrite computePatternProbabilityDP_Panic in Hlook.
  - by rewrite computePatternProbabilityDP_Panic.
Qed.

(** ** Sums of rationals *)

Lemma Qsum_app l1 l2 : (Qsum (l1 ++ l2) == Qsum l1 + Qsum l2)%Q.
Proof.
  induction l1 as [|x l1 IH]; simpl.
  - ring.
  - rewrite IH. ring.
Qed.

Lemma Qsum_map_ext {A} (f g : A -> Q) l :
  (forall x, In x l -> (f x == g x)%Q) ->
  (Qsum (map f l) == Qsum (map g l))%Q.
Proof.
  induction l as [|x l IH]; intros Hfg; simpl; [reflexivity|].
  rewrite (Hfg x) by (by left). rewrite IH; [reflexivity|].
  intros y Hy. apply Hfg. by right.
Qed.

Lemma Qsum_map_plus {A} (f g : A -> Q) l :
  (Qsum (map f l) + Qsum (map g l) == Qsum (map (fun x => f x + g x) l))%Q.
Proof.
  induction l as [|x l IH]; simpl; [ring|]. rewrite <- IH. ring.
Qed.

Lemma Qsum_map_scale {A} (c : Q) (f : A -> Q) l :
  (Qsum (map (fun x => c * f x) l) == c * Qsum (map f l))%Q.
Proof.
  induction l as [|x l IH]; simpl; [ring|]. rewrite IH. ring.
Qed.

(** Summing a weight of the folded state over all [n]-bit vertices, when
    the two ways a step can go share the weight of the state between
    them. *)
Lemma sum_iter_bits {A} (w : A -> Q) (step : bool -> A -> A) (init : A) :
  (forall a, (w (step false a) + w (step true a) == w a)%Q) ->
  forall n : nat,
    (Qsum (map (fun v => w (iter_bits step init (tbits v) n))
               (seqZ 0 (2 ^ Z.of_nat n)%Z)) == w init)%Q.
Proof.
  intros Hstep. induction n as [|n IH].
  - simpl. ring.
  - rewrite Nat2Z.inj_succ. unfold Z.succ.
    pose proof (pow2_pos (Z.of_nat n) ltac:(lia)) as Hp.
    replace (2 ^ (Z.of_nat n + 1)) with (2 ^ Z.of_nat n + 2 ^ Z.of_nat n)
      by (rewrite Z.pow_add_r; lia).
    rewrite seqZ_app by lia. rewrite Z.add_0_l.
    rewrite (map_add_seqZ (2 ^ Z.of_nat n)).
    rewrite map_app, map_map, Qsum_app, Qsum_map_plus.
    rewrite <- IH. apply Qsum_map_ext. intros v Hv.
    apply in_seqZ_0 in Hv. simpl iter_bits.
    rewrite (iter_bits_ext step init (tbits (2 ^ Z.of_nat n + v)) (tbits v)).
    2:{ intros k Hk. unfold tbits. apply testbit_add_pow2_low; lia. }
    unfold tbits at 1 3.
    rewrite (testbit_above v (Z.of_nat n) (Z.of_nat n)) by lia.
    rewrite testbit_add_pow2_top by lia.
    apply Hstep.
Qed.

(** ** The random model as a product over the bits *)

Lemma Qpower_succ (q : Q) (z : Z) : 0 <= z -> (q ^ (z + 1) == q ^ z * q)%Q.
Proof.
  intros Hz. rewrite Qpower_plus' by lia. by rewrite Qpower_1_r.
Qed.

Lemma random_value_product p bits n :
  (random_value p (iter_bits count_step (0%Z, 0%Z) bits n) ==
   iter_bits (emit_step p) 1 bits n)%Q.
Proof.
  induction n as [|n IH]; [reflexivity|].
  simpl iter_bits. pose proof (count_step_inv bits n) as Hinv.
  destruct (iter_bits count_step (0, 0) bits n) as [o z].
  unfold emit_step at 1. rewrite <- IH.
  unfold random_value, count_step, emit. simpl.
  destruct (bits n); simpl.
  - rewrite Qpower_succ by lia. ring.
  - rewrite Qpower_succ by lia. ring.
Qed.

Lemma emit_step_split p q :
  (emit_step p false q + emit_step p true q == q)%Q.
Proof. unfold emit_step, emit. ring. Qed.

(** ** The table rows *)

Lemma dp_row_split m r :
  (row_total (dp_row m false r) + row_total (dp_row m true r) == row_total r)%Q.
Proof. destruct r as [x y]. unfold row_total, dp_row. simpl. ring. Qed.

(** Without transitions and with equal loss probabilities the two
    components evolve separately, each by the emission factor. *)
Lemma dp_rows_no_transition m p a0 b0 bits n :
  Pe0 m = p -> Pe1 m = p -> P01 m = 0%Q -> P10 m = 0%Q ->
  let r := iter_bits (dp_row m) (a0, b0) bits n in
  (fst r == a0 * iter_bits (emit_step p) 1 bits n)%Q /\
  (snd r == b0 * iter_bits (emit_step p) 1 bits n)%Q.
Proof.
  intros H0 H1 H01 H10. induction n as [|n IH]; simpl.
  - split; ring.
  - destruct IH as [IHa IHb].
    destruct (iter_bits (dp_row m) (a0, b0) bits n) as [x y].
    simpl in IHa, IHb. unfold dp_row, emit_step at 1 3, emit.
    rewrite H0, H1, H01, H10.
    destruct (bits n); simpl; rewrite IHa, IHb; split; ring.
Qed.

(** ** Reachable models *)

Lemma GE_reachable_shape m :
  GE_reachable m ->
  exists pe0 pe1 p01 p10 c,
    m = set_cache (NewGilbertElliotLossModel pe0 pe1 p01 p10) c.
Proof.
  induction 1 as [pe0 pe1 p01 p10 | m v n p m' Hr IH Hcalc | m Hr IH].
  - exists pe0, pe1, p01, p10, ∅.
    unfold NewGilbertElliotLossModel. by destruct (Qlt_le_dec _ _).
  - destruct IH as (pe0 & pe1 & p01 & p10 & c & ->).
    pose proof (GE_reachable_valid _ Hr) as Hvalid.
    unfold GilbertElliotLossModel_CalculateProbability in Hcalc.
    destruct (Z.leb_spec n 0) as [|Hn].
    { inversion Hcalc; subst. by exists pe0, pe1, p01, p10, c. }
    apply bind_Ok_inv in Hcalc as ([prob0 m1] & H0 & Hcalc).
    apply bind_Ok_inv in Hcalc as ([prob1 m2] & H1 & Hcalc).
    inversion Hcalc; subst.
    apply calculatePatternProbability_post in H0
      as (_ & Hv1 & c1 & -> & _); [|done|lia].
    apply calculatePatternProbability_post in H1
      as (_ & Hv2 & c2 & -> & _); [|done|lia].
    by exists pe0, pe1, p01, p10, c2.
  - destruct IH as (pe0 & pe1 & p01 & p10 & c & ->).
    by exists pe0, pe1, p01, p10, ∅.
Qed.

Lemma New_steady_sum pe0 pe1 p01 p10 :
  let m := NewGilbertElliotLossModel pe0 pe1 p01 p10 in
  (steadyState0 m + steadyState1 m == 1)%Q.
Proof.
  unfold NewGilbertElliotLossModel.
  destruct (Qlt_le_dec 0 (p01 + p10)) as [Hd|Hd]; simpl.
  - field. intros Hz. rewrite Hz in Hd. by apply Qlt_irrefl in Hd.
  - reflexivity.
Qed.

Lemma GE_reachable_steady_sum m :
  GE_reachable m -> (steadyState0 m + steadyState1 m == 1)%Q.
Proof.
  intros Hr. destruct (GE_reachable_shape m Hr) as (pe0 & pe1 & p01 & p10 & c & ->).
  apply (New_steady_sum pe0 pe1 p01 p10).
Qed.

Lemma GE_reachable_no_transition m :
  GE_reachable m -> P01 m = 0%Q -> P10 m = 0%Q ->
  steadyState0 m = (1 # 2)%Q /\ steadyState1 m = (1 # 2)%Q.
Proof.
  intros Hr H01 H10.
  destruct (GE_reachable_shape m Hr) as (pe0 & pe1 & p01 & p10 & c & ->).
  revert H01 H10. unfold NewGilbertElliotLossModel.
  destruct (Qlt_le_dec 0 (p01 + p10)) as [Hd|Hd]; simpl; [|done].
  intros -> ->. by apply Qlt_irrefl in Hd.
Qed.

(** ** Sums of probabilities *)

Lemma sum_probabilities_random (m : RandomLossModel) vs N :
  0 < N <= max_int ->
  sum_probabilities m vs N =
  Ok (Qsum (map (fun v => random_value (P m)
                   (iter_bits count_step (0, 0) (mbits v) (Z.to_nat N))) vs), m).
Proof.
  intros HN. induction vs as [|v vs IH]; [done|].
  simpl. rewrite RandomLossModel_CalculateProbability_eq by done.
  cbn [bind]. rewrite IH. done.
Qed.

Lemma sum_probabilities_GE (m : GilbertElliotLossModel) vs N :
  cache_valid m -> 0 < N < 2 ^ 44 ->
  exists c,
    sum_probabilities m vs N =
      Ok (Qsum (map (fun v => ge_value m v N) vs), set_cache m c) /\
    cache_valid (set_cache m c).
Proof.
  intros Hvalid HN. revert m Hvalid. induction vs as [|v vs IH]; intros m Hvalid.
  - exists (cache m). replace (set_cache m (cache m)) with m by (by destruct m).
    done.
  - destruct (GE_CalculateProbability_eq m v N Hvalid HN) as (c1 & Hc & Hv1 & _).
    destruct (IH (set_cache m c1) Hv1) as (c2 & Hs & Hv2).
    exists c2. split; [|done].
    simpl. simpl in Hc. rewrite Hc. cbn [bind].
    simpl in Hs. rewrite Hs. done.
Qed.

Lemma mbits_tbits v N k :
  0 <= N <= 63 -> (k < Z.to_nat N)%nat -> mbits v k = tbits v k.
Proof. intros HN Hk. unfold mbits, tbits. apply mbit_testbit. lia. Qed.

Lemma random_sum_is_one p N :
  1 <= N <= 63 ->
  (Qsum (map (fun v => random_value p
                (iter_bits count_step (0%Z, 0%Z) (mbits v) (Z.to_nat N)))
             (seqZ 0 (2 ^ N)%Z)) == 1)%Q.
Proof.
  intros HN.
  rewrite (Qsum_map_ext _
             (fun v => iter_bits (emit_step p) 1%Q (tbits v) (Z.to_nat N))).
  - pose proof (sum_iter_bits (fun q => q) (emit_step p) 1%Q
                  (emit_step_split p) (Z.to_nat N)) as Hs.
    rewrite Z2Nat.id in Hs by lia. exact Hs.
  - intros v _. rewrite random_value_product.
    rewrite (iter_bits_ext _ _ (mbits v) (tbits v)); [reflexivity|].
    intros k Hk. apply (mbits_tbits v N); [lia|done].
Qed.

Lemma ge_rows_sum_is_one m initState N :
  1 <= N <= 63 ->
  (Qsum (map (fun v => row_total (dp_rows m v initState (Z.to_nat N)))
             (seqZ 0 (2 ^ N)%Z)) == 1)%Q.
Proof.
  intros HN.
  rewrite (Qsum_map_ext _
             (fun v => row_total (iter_bits (dp_row m) (init_row initState)
                                            (tbits v) (Z.to_nat N)))).
  - pose proof (sum_iter_bits row_total (dp_row m) (init_row initState)
                  (dp_row_split m) (Z.to_nat N)) as Hs.
    rewrite Z2Nat.id in Hs by lia. rewrite Hs.
    unfold init_row, row_total. destruct (initState =? 0); reflexivity.
  - intros v _. unfold dp_rows.
    rewrite (iter_bits_ext _ _ (mbits v) (tbits v)); [reflexivity|].
    intros k Hk. apply (mbits_tbits v N); [lia|done].
Qed.

Lemma ge_sum_is_one m N :
  1 <= N <= 63 -> (steadyState0 m + steadyState1 m == 1)%Q ->
  (Qsum (map (fun v => ge_value m v N) (seqZ 0 (2 ^ N)%Z)) == 1)%Q.
Proof.
  intros HN Hsteady. unfold ge_value.
  rewrite <- Qsum_map_plus, !Qsum_map_scale.
  rewrite !ge_rows_sum_is_one by done.
  rewrite !Qmult_1_r. exact Hsteady.
Qed.

(** C5: in exact arithmetic, for [1 <= N <= 63] (the vertices
    [0 .. 2^N - 1] are machine integers) the probabilities
    [CalculateProbability vertex N] of all vertices from [0] to [2^N - 1],
    computed one after the other, sum to 1, for the random model with any
    [p] and for a Gilbert-Elliott model in any state it can reach. *)
Theorem C5_probabilities_sum_to_one (N : Z) :
  1 <= N <= 63 ->
  (forall p : Q, exists total m',
     sum_probabilities (NewRandomLossModel p) (seqZ 0 (2 ^ N)) N = Ok (total, m') /\
     (total == 1)%Q) /\
  (forall m : GilbertElliotLossModel, GE_reachable m -> exists total m',
     sum_probabilities m (seqZ 0 (2 ^ N)) N = Ok (total, m') /\
     (total == 1)%Q).
Proof.
  intros HN. assert (0 < N <= max_int) as HN' by (unfold max_int; lia).
  assert (0 < N < 2 ^ 44) as HN'' by lia.
  split.
  - intros p. eexists _, _. split.
    + by apply sum_probabilities_random.
    + by apply random_sum_is_one.
  - intros m Hr.
    destruct (sum_probabilities_GE m (seqZ 0 (2 ^ N)) N
                (GE_reachable_valid m Hr) HN'') as (c & Hs & _).
    eexists _, _. split; [exact Hs|].
    apply ge_sum_is_one; [done|]. by apply GE_reachable_steady_sum.
Qed.

Lemma C5_probabilities_sum_to_one_witness :
  1 <= 2 <= 63 /\
  ((forall p : Q, exists total m',
      sum_probabilities (NewRandomLossModel p) (seqZ 0 (2 ^ 2)) 2 = Ok (total, m') /\
      (total == 1)%Q) /\
   (forall m : GilbertElliotLossModel, GE_reachable m -> exists total m',
      sum_probabilities m (seqZ 0 (2 ^ 2)) 2 = Ok (total, m') /\
      (total == 1)%Q)).
Proof.
  assert (1 <= 2 <= 63) as H by lia.
  split; [exact H|]. exact (C5_probabilities_sum_to_one 2 H).
Defined.

(** C7: in exact arithmetic, a Gilbert-Elliott model with
    [pe0 = pe1 = p] and [p01 = p10 = 0], in any state it can reach, gives
    every vertex [v] and every length [N < 2^44] (the table of [N + 1]
    rows can be allocated) the probability the random model with
    parameter [p] gives it. *)
Theorem C7_no_transition_is_random (p : Q) (N v : Z)
    (m : GilbertElliotLossModel) :
  GE_reachable m ->
  Pe0 m = p -> Pe1 m = p -> P01 m = 0%Q -> P10 m = 0%Q ->
  N < 2 ^ 44 ->
  exists q m' q',
    CalculateProbability m v N = Ok (q, m') /\
    RandomLossModel_CalculateProbability (NewRandomLossModel p) v N = Ok q' /\
    (q == q')%Q.
Proof.
  intros Hr H0 H1 H01 H10 HN.
  destruct (Z.le_gt_cases N 0) as [Hle|Hgt].
  { exists 0%Q, m, 0%Q. simpl.
    unfold GilbertElliotLossModel_CalculateProbability,
      RandomLossModel_CalculateProbability.
    destruct (Z.leb_spec N 0); [|lia]. split; [done|]. split; [done|reflexivity]. }
  assert (0 < N < 2 ^ 44) as HN' by lia.
  destruct (GE_CalculateProbability_eq m v N (GE_reachable_valid m Hr) HN')
    as (c & Hc & _).
  eexists _, _, _. split; [exact Hc|].
  split; [apply RandomLossModel_CalculateProbability_eq; unfold max_int; lia|].
  simpl P. rewrite random_value_product.
  destruct (GE_reachable_no_transition m Hr H01 H10) as [Hs0 Hs1].
  unfold ge_value. rewrite Hs0, Hs1. unfold row_total, dp_rows, init_row.
  simpl (0 =? 0). simpl (1 =? 0). cbv iota.
  destruct (dp_rows_no_transition m p 1%Q 0%Q (mbits v) (Z.to_nat N)
              H0 H1 H01 H10) as [Ha0 Hb0].
  destruct (dp_rows_no_transition m p 0%Q 1%Q (mbits v) (Z.to_nat N)
              H0 H1 H01 H10) as [Ha1 Hb1].
  rewrite Ha0, Hb0, Ha1, Hb1. ring.
Qed.

Lemma C7_no_transition_is_random_witness :
  let m := NewGilbertElliotLossModel (1 # 10) (1 # 10) 0 0 in
  (GE_reachable m /\ Pe0 m = (1 # 10)%Q /\ Pe1 m = (1 # 10)%Q /\
   P01 m = 0%Q /\ P10 m = 0%Q /\ 3 < 2 ^ 44) /\
  exists q m' q',
    CalculateProbability m 5 3 = Ok (q, m') /\
    RandomLossModel_CalculateProbability (NewRandomLossModel (1 # 10)) 5 3 = Ok q' /\
    (q == q')%Q.
Proof.
  intros m.
  assert (GE_reachable m) as Hr by apply GE_new.
  assert (Pe0 m = (1 # 10)%Q) as H0 by reflexivity.
  assert (Pe1 m = (1 # 10)%Q) as H1 by reflexivity.
  assert (P01 m = 0%Q) as H01 by reflexivity.
  assert (P10 m = 0%Q) as H10 by reflexivity.
  assert (3 < 2 ^ 44) as HN by lia.
  split; [done|].
  exact (C7_no_transition_is_random (1 # 10) 3 5 m Hr H0 H1 H01 H10 HN).
Defined.

(** From [N = 2^44] on the table is above the allocation limit, and at
    [N = MaxInt64] its length [N + 1] is negative: the Gilbert-Elliott
    model panics where the random model returns. *)
Lemma C7_counterexample :
  CalculateProbability (NewGilbertElliotLossModel (1 # 10) (1 # 10) 0 0)
                       5 (2 ^ 44) = Panic /\
  CalculateProbability (NewGilbertElliotLossModel (1 # 10) (1 # 10) 0 0)
                       5 max_int = Panic /\
  (exists q,
     RandomLossModel_CalculateProbability (NewRandomLossModel (1 # 10))
                                          5 (2 ^ 44) = Ok q) /\
  (exists q,
     RandomLossModel_CalculateProbability (NewRandomLossModel (1 # 10))
                                          5 max_int = Ok q).
Proof.
  assert (GE_reachable (NewGilbertElliotLossModel (1 # 10) (1 # 10) 0 0))
    as Hr by apply GE_new.
  split; [|split; [|split]].
  - apply GE_CalculateProbability_Panic;
      [by apply GE_reachable_valid|unfold max_int; lia].
  - apply GE_CalculateProbability_Panic;
      [by apply GE_reachable_valid|unfold max_int; lia].
  - eexists. apply RandomLossModel_CalculateProbability_eq.
    unfold max_int; lia.
  - eexists. apply RandomLossModel_CalculateProbability_eq.
    unfold max_int; lia.
Qed.

(** C8: in exact arithmetic, for parameters in [[0,1]] the constructor
    stores [pi0 = p10/(p01+p10)] and [pi1 = p01/(p01+p10)] when
    [p01 + p10 > 0], and [pi0 = pi1 = 1/2] when [p01 + p10 = 0] (one of
    the two cases applies, and the constructor never fails); in both
    cases [pi0 + pi1 = 1], and [GetAverageLossProbability] is
    [pi0 * pe0 + pi1 * pe1]. *)
Theorem C8_steady_state (pe0 pe1 p01 p10 : Q) :
  (0 <= pe0 <= 1)%Q -> (0 <= pe1 <= 1)%Q ->
  (0 <= p01 <= 1)%Q -> (0 <= p10 <= 1)%Q ->
  let m := NewGilbertElliotLossModel pe0 pe1 p01 p10 in
  let pi0 := fst (GetSteadyStateProbabilities m) in
  let pi1 := snd (GetSteadyStateProbabilities m) in
  ((0 < p01 + p10)%Q ->
     (pi0 == p10 / (p01 + p10))%Q /\ (pi1 == p01 / (p01 + p10))%Q) /\
  ((p01 + p10 == 0)%Q -> (pi0 == 1 # 2)%Q /\ (pi1 == 1 # 2)%Q) /\
  ((0 < p01 + p10)%Q \/ (p01 + p10 == 0)%Q) /\
  (pi0 + pi1 == 1)%Q /\
  (GetAverageLossProbability m == pi0 * pe0 + pi1 * pe1)%Q.
Proof.
  intros _ _ [H01 _] [H10 _] m pi0 pi1.
  pose proof (New_steady_sum pe0 pe1 p01 p10) as Hsum.
  subst pi0 pi1 m. unfold GetSteadyStateProbabilities. simpl fst. simpl snd.
  split; [|split; [|split; [|split]]].
  - intros Hd. unfold NewGilbertElliotLossModel.
    destruct (Qlt_le_dec 0 (p01 + p10)) as [_|Hle]; simpl.
    + split; reflexivity.
    + exfalso. by apply (Qlt_not_le _ _ Hd).
  - intros Hz. unfold NewGilbertElliotLossModel.
    destruct (Qlt_le_dec 0 (p01 + p10)) as [Hd|_]; simpl.
    + exfalso. rewrite Hz in Hd. by apply Qlt_irrefl in Hd.
    + split; reflexivity.
  - assert (0 <= p01 + p10)%Q as Hd.
    { rewrite <- (Qplus_0_l 0). by apply Qplus_le_compat. }
    apply Qle_lt_or_eq in Hd as [Hd|Hd]; [by left|right].
    by symmetry.
  - exact Hsum.
  - unfold NewGilbertElliotLossModel.
    destruct (Qlt_le_dec 0 (p01 + p10)); apply Qeq_refl.
Qed.

Lemma C8_steady_state_witness :
  ((0 <= 0 <= 1)%Q /\ (0 <= 1 <= 1)%Q /\
   (0 <= 1 # 10 <= 1)%Q /\ (0 <= 9 # 10 <= 1)%Q) /\
  let m := NewGilbertElliotLossModel 0 1 (1 # 10) (9 # 10) in
  let pi0 := fst (GetSteadyStateProbabilities m) in
  let pi1 := snd (GetSteadyStateProbabilities m) in
  ((0 < (1 # 10) + (9 # 10))%Q ->
     (pi0 == (9 # 10) / ((1 # 10) + (9 # 10)))%Q /\
     (pi1 == (1 # 10) / ((1 # 10) + (9 # 10)))%Q) /\
  (((1 # 10) + (9 # 10) == 0)%Q -> (pi0 == 1 # 2)%Q /\ (pi1 == 1 # 2)%Q) /\
  ((0 < (1 # 10) + (9 # 10))%Q \/ ((1 # 10) + (9 # 10) == 0)%Q) /\
  (pi0 + pi1 == 1)%Q /\
  (GetAverageLossProbability m == pi0 * 0 + pi1 * 1)%Q.
Proof.
  assert (0 <= 0 <= 1)%Q as H1 by (split; discriminate).
  assert (0 <= 1 <= 1)%Q as H2 by (split; discriminate).
  assert (0 <= 1 # 10 <= 1)%Q as H3 by (split; discriminate).
  assert (0 <= 9 # 10 <= 1)%Q as H4 by (split; discriminate).
  split; [done|].
  exact (C8_steady_state 0 1 (1 # 10) (9 # 10) H1 H2 H3 H4).
Defined.

(** C9: on a Gilbert-Elliott model in any state it can reach, a call of
    [CalculateProbability] with [N < 2^44] (the table of [N + 1] rows can
    be allocated) returns; a second call with the same arguments
    returns the same value and leaves the model as it is (both table
    values are read from the cache); and a call after [ClearCache] returns
    the same value again. *)
Theorem C9_cache_is_transparent (m : GilbertElliotLossModel) (v N : Z) :
  GE_reachable m -> N < 2 ^ 44 ->
  exists q m1 m2,
    CalculateProbability m v N = Ok (q, m1) /\
    CalculateProbability m1 v N = Ok (q, m1) /\
    CalculateProbability (ClearCache m1) v N = Ok (q, m2).
Proof.
  intros Hr HN. pose proof (GE_reachable_valid m Hr) as Hvalid. simpl.
  destruct (Z.le_gt_cases N 0) as [Hle|Hgt].
  { exists 0%Q, m, (ClearCache m).
    unfold GilbertElliotLossModel_CalculateProbability.
    destruct (Z.leb_spec N 0); [done|lia]. }
  assert (0 < N < 2 ^ 44) as HN' by lia.
  assert (N <> 0) as HN0 by lia.
  destruct (GE_CalculateProbability_eq m v N Hvalid HN')
    as (c & Hc & Hv & Hk0 & Hk1).
  assert (cache_valid (ClearCache (set_cache m c))) as Hvc.
  { intros ? ? ? ? Hl. simpl in Hl. by rewrite lookup_empty in Hl. }
  destruct (GE_CalculateProbability_eq (ClearCache (set_cache m c)) v N Hvc HN')
    as (c' & Hc' & _).
  eexists _, _, _. split; [exact Hc|]. split; [|exact Hc'].
  unfold GilbertElliotLossModel_CalculateProbability.
  destruct (Z.leb_spec N 0); [lia|].
  rewrite (calculatePatternProbability_hit (set_cache m c) v N 0 _ HN0 Hk0).
  cbn [bind].
  rewrite (calculatePatternProbability_hit (set_cache m c) v N 1 _ HN0 Hk1).
  done.
Qed.

Lemma C9_cache_is_transparent_witness :
  let m := NewGilbertElliotLossModel (1 # 100) (1 # 2) (1 # 10) (4 # 10) in
  (GE_reachable m /\ 4 < 2 ^ 44) /\
  exists q m1 m2,
    CalculateProbability m 10 4 = Ok (q, m1) /\
    CalculateProbability m1 10 4 = Ok (q, m1) /\
    CalculateProbability (ClearCache m1) 10 4 = Ok (q, m2).
Proof.
  intros m.
  assert (GE_reachable m) as Hr by apply GE_new.
  assert (4 < 2 ^ 44) as HN by lia.
  split; [done|].
  exact (C9_cache_is_transparent m 10 4 Hr HN).
Defined.

(** From [N = 2^44] on no call returns, whatever the cache holds: the
    first call panics in the allocation of the table, nothing is cached,
    and the call after [ClearCache] panics again. *)
Lemma C9_counterexample :
  CalculateProbability
    (NewGilbertElliotLossModel (1 # 100) (1 # 2) (1 # 10) (4 # 10))
    10 (2 ^ 44) = Panic /\
  CalculateProbability
    (ClearCache (NewGilbertElliotLossModel (1 # 100) (1 # 2) (1 # 10) (4 # 10)))
    10 (2 ^ 44) = Panic /\
  CalculateProbability
    (NewGilbertElliotLossModel (1 # 100) (1 # 2) (1 # 10) (4 # 10))
    10 max_int = Panic.
Proof.
  assert (GE_reachable
            (NewGilbertElliotLossModel (1 # 100) (1 # 2) (1 # 10) (4 # 10)))
    as Hr by apply GE_new.
  split; [|split].
  - apply GE_CalculateProbability_Panic;
      [by apply GE_reachable_valid|unfold max_int; lia].
  - apply GE_CalculateProbability_Panic;
      [by apply GE_reachable_valid, GE_clear|unfold max_int; lia].
  - apply GE_CalculateProbability_Panic;
      [by apply GE_reachable_valid|unfold max_int; lia].
Qed.

Lemma scenario_graph_edges v :
  valid_vertex scenario_graph v -> exists l, GetEdges scenario_graph v = Ok l.
Proof.
  intros [H0 H5]. simpl in H5.
  assert (v = 0 \/ v = 1 \/ v = 2 \/ v = 3 \/ v = 4) as Hv by lia.
  destruct Hv as [->|[->|[->|[->| ->]]]]; eexists; reflexivity.
Qed.

Lemma C2_BFS_exactly_reachable_witness :
  (0 <= NumVertices scenario_graph <= maxAlloc /\
   (forall v, valid_vertex scenario_graph v ->
      exists l, GetEdges scenario_graph v = Ok l) /\
   (Z.to_nat (NumVertices scenario_graph) <= 5)%nat) /\
  exists res,
    BFS 5 scenario_graph [0; 3] = Ok res /\
    List.NoDup res /\
    (forall v, In v res <->
       exists s, In s [0; 3] /\ valid_vertex scenario_graph s /\
                 reaches scenario_graph s v) /\
    ((forall s, In s [0; 3] -> ~ valid_vertex scenario_graph s) -> res = []).
Proof.
  assert (0 <= NumVertices scenario_graph <= maxAlloc) as H1
    by (simpl; unfold maxAlloc; lia).
  assert (Z.to_nat (NumVertices scenario_graph) <= 5)%nat as H3 by (simpl; lia).
  split; [split; [exact H1|split; [exact scenario_graph_edges|exact H3]]|].
  exact (C2_BFS_exactly_reachable scenario_graph [0; 3] 5 H1
           scenario_graph_edges H3).
Defined.

(** Outside that range the search panics: on the graph of 63 packets,
    whose vertex count is negative, where no source is a vertex; and on a
    graph of [2^49] vertices, from a source that is one. *)
Lemma C2_counterexample :
  (exists g,
     NewRecoveryGraph wide_mask = Ok g /\
     NumVertices g = - 2 ^ 63 /\
     (forall s, In s [0; 1] -> ~ valid_vertex g s) /\
     forall fuel, BFS fuel g [0; 1] = Panic) /\
  (exists g,
     NewRecoveryGraph large_mask = Ok g /\
     NumVertices g = 2 ^ 49 /\
     valid_vertex g 0 /\
     (forall v, exists l, GetEdges g v = Ok l) /\
     forall fuel, BFS fuel g [0] = Panic).
Proof.
  split.
  - exists {| numVertices := - 2 ^ 63; N := 62; K := 1; mask := wide_mask |}.
    split; [reflexivity|]. split; [reflexivity|]. split.
    + intros s _ [Hs0 Hs1]. change (s < - 2 ^ 63) in Hs1. lia.
    + intros fuel. unfold BFS. simpl Nat.eqb. cbv iota.
      rewrite make_Panic; [done|]. left.
      change (- 2 ^ 63 < 0). lia.
  - exists {| numVertices := 2 ^ 49; N := 49; K := 0; mask := large_mask |}.
    split; [reflexivity|]. split; [reflexivity|]. split.
    + split; [lia|]. change (0 < 2 ^ 49). lia.
    + split.
      * intros v. change (exists l,
          RecoveryGraph_GetEdges
            {| numVertices := 2 ^ 49; N := 49; K := 0; mask := large_mask |}
            v = Ok l).
        unfold RecoveryGraph_GetEdges.
        destruct ((v <? 0) || (v >=? _)); by eexists.
      * intros fuel. unfold BFS. simpl Nat.eqb. cbv iota.
        rewrite make_Panic; [done|]. right.
        change (maxAlloc < 1 * 2 ^ 49). unfold maxAlloc. lia.
Qed.

Lemma C10_edges_clear_one_bit_witness :
  in_range 11 /\
  (forall l d, GetEdges scenario_recovery_graph 11 = Ok l -> In d l ->
     (exists i, 0 <= i /\ Z.testbit 11 i = true /\ d = Z.clearbit 11 i) /\
     0 <= d < 11 /\ d < NumVertices scenario_recovery_graph /\
     popcount d = popcount 11 - 1) /\
  (forall n u, walk scenario_recovery_graph 11 n u ->
     Z.of_nat n <= popcount 11 /\ (n <> 0%nat -> u < 11)).
Proof.
  assert (in_range 11) as H by (unfold in_range, min_int, max_int; lia).
  split; [exact H|].
  exact (C10_edges_clear_one_bit scenario_recovery_graph 11 H).
Defined.

(* ================================================================== *)
(** * Part III. Further properties of the code                          *)
(* ================================================================== *)

(** ** The search: what the seeding loop and the main loop append *)

Section SearchOrder.
Context {G : Type} `{Graph G}.
Variable g : G.

Lemma in_graph_spec s : in_graph g s = true <-> valid_vertex g s.
Proof. unfold in_graph, valid_vertex. rewrite andb_true_iff. lia. Qed.

(** The visiting body only appends to the result. *)
Lemma bfs_visit_appends v st st' :
  bfs_visit g v st = Ok st' ->
  exists l, reachableVertices st' = reachableVertices st ++ l.
Proof.
  unfold bfs_visit.
  destruct ((v <? 0) || (v >=? NumVertices g)).
  { intros Hst; inversion Hst; subst. exists []. by rewrite app_nil_r. }
  destruct (visited st !! Z.to_nat v) as [[|]|]; intros Hst; inversion Hst; subst.
  - exists []. by rewrite app_nil_r.
  - by exists [v].
Qed.

Lemma for_each_visit_appends l st st' :
  for_each l (bfs_visit g) st = Ok st' ->
  exists l', reachableVertices st' = reachableVertices st ++ l'.
Proof.
  revert st. induction l as [|v l IH]; intros st Hrun.
  - inversion Hrun; subst. exists []. by rewrite app_nil_r.
  - simpl in Hrun. apply bind_Ok_inv in Hrun as (st1 & H1 & H2).
    apply bfs_visit_appends in H1 as [l1 H1].
    apply IH in H2 as [l2 H2].
    exists (l1 ++ l2). by rewrite H2, H1, app_assoc.
Qed.

Lemma bfs_loop_appends fuel st res :
  bfs_loop fuel g st = Ok res ->
  exists l, res = reachableVertices st ++ l.
Proof.
  revert st. induction fuel as [|fuel IH]; intros st Hrun.
  - simpl in Hrun. destruct (queue st); [|done].
    inversion Hrun; subst. exists []. by rewrite app_nil_r.
  - simpl in Hrun. destruct (queue st) as [|c q].
    { inversion Hrun; subst. exists []. by rewrite app_nil_r. }
    apply bind_Ok_inv in Hrun as (edges & _ & Hrun).
    apply bind_Ok_inv in Hrun as (st1 & H1 & H2).
    apply for_each_visit_appends in H1 as [l1 H1]. simpl in H1.
    apply IH in H2 as [l2 H2].
    exists (l1 ++ l2). by rewrite H2, H1, app_assoc.
Qed.

(** The seeding loop records the sources that are vertices, each once,
    in the order of their first occurrence, and enqueues the same. *)
Lemma seeding_first_occurrences l st seen :
  length (visited st) = Z.to_nat (NumVertices g) ->
  (forall v, valid_vertex g v ->
     (visited st !! Z.to_nat v = Some true <-> v ∈ seen)) ->
  exists st',
    for_each l (bfs_visit g) st = Ok st' /\
    reachableVertices st' =
      reachableVertices st ++ first_occurrences seen (List.filter (in_graph g) l) /\
    queue st' = queue st ++ first_occurrences seen (List.filter (in_graph g) l).
Proof.
  revert st seen. induction l as [|x l IH]; intros st seen Hlen Hseen.
  - exists st. simpl. by rewrite !app_nil_r.
  - simpl for_each. simpl List.filter. unfold bfs_visit at 1.
    destruct (in_graph g x) eqn:Hx.
    + pose proof (proj1 (in_graph_spec x) Hx) as Hval.
      destruct (Z.ltb_spec x 0) as [|_]; [unfold valid_vertex in Hval; lia|].
      destruct (Z.geb_spec x (NumVertices g)) as [|_];
        [unfold valid_vertex in Hval; lia|].
      cbn [orb].
      destruct (visited st !! Z.to_nat x) as [b|] eqn:Hlook.
      2:{ apply lookup_ge_None in Hlook. unfold valid_vertex in Hval. lia. }
      simpl first_occurrences.
      destruct b.
      * rewrite bool_decide_eq_true_2 by (by apply Hseen).
        cbn [bind]. by apply IH.
      * rewrite bool_decide_eq_false_2.
        2:{ intros Hin. apply Hseen in Hin; [|done]. congruence. }
        cbn [bind].
        destruct (IH {| visited := <[Z.to_nat x := true]> (visited st);
                        reachableVertices := reachableVertices st ++ [x];
                        queue := queue st ++ [x] |} (x :: seen))
          as (st' & Hrun & Hr & Hq).
        -- simpl. by rewrite length_insert.
        -- intros v Hv. simpl. rewrite elem_of_cons.
           destruct (Z.eq_dec v x) as [->|Hne].
           ++ rewrite list_lookup_insert_eq by (by apply lookup_lt_Some in Hlook).
              tauto.
           ++ rewrite list_lookup_insert_ne
                by (unfold valid_vertex in *; lia).
              rewrite (Hseen v Hv). split; [by right|]. intros [?|?]; done.
        -- exists st'. split; [done|]. simpl in Hr, Hq.
           by rewrite Hr, Hq, <- !app_assoc.
    + assert ((x <? 0) || (x >=? NumVertices g) = true) as ->.
      { unfold in_graph in Hx. apply andb_false_iff in Hx.
        apply orb_true_iff. destruct Hx as [Hx|Hx].
        - left. apply Z.ltb_lt. apply Z.leb_gt in Hx. lia.
        - right. apply Z.geb_le. apply Z.ltb_ge in Hx. lia. }
      cbn [bind]. by apply IH.
Qed.

Lemma BFS_starts_with_sources fuel sources res :
  BFS fuel g sources = Ok res ->
  exists rest, res = seeded g sources ++ rest.
Proof.
  unfold BFS. destruct (Nat.eqb (length sources) 0) eqn:Hlen.
  { apply Nat.eqb_eq, length_zero_iff_nil in Hlen. subst.
    intros Hres; inversion Hres; subst. by exists []. }
  intros Hrun. apply bind_Ok_inv in Hrun as (vis & Hmk & Hrun).
  apply make_Ok_inv in Hmk as (Hnv & _ & ->). revert Hrun.
  set (st0 := {| visited := replicate (Z.to_nat (NumVertices g)) false;
                 reachableVertices := []; queue := [] |}).
  destruct (seeding_first_occurrences sources st0 [])
    as (st & Hrun & Hr & _).
  { apply length_replicate. }
  { intros v Hv. simpl. split.
    - intros Hl. apply lookup_replicate in Hl as [? _]. done.
    - intros Hin. by apply elem_of_nil in Hin. }
  rewrite Hrun. cbn [bind]. intros Hloop.
  apply bfs_loop_appends in Hloop as [l Hl].
  exists l. rewrite Hl, Hr. done.
Qed.

(** A list without repetition is its own list of first occurrences. *)
Lemma first_occurrences_NoDup seen l :
  NoDup l -> (forall x, x ∈ l -> x ∉ seen) ->
  first_occurrences seen l = l.
Proof.
  revert seen. induction l as [|x l IH]; intros seen Hnd Hfresh; [done|].
  apply NoDup_cons in Hnd as [Hx Hnd]. simpl.
  rewrite bool_decide_eq_false_2 by (apply Hfresh; by left).
  f_equal. apply IH; [done|].
  intros y Hy Hin. apply elem_of_cons in Hin as [->|Hin]; [done|].
  apply (Hfresh y); [by right|done].
Qed.

Lemma filter_in_graph_all l :
  (forall x, x ∈ l -> valid_vertex g x) -> List.filter (in_graph g) l = l.
Proof.
  induction l as [|x l IH]; intros Hl; [done|].
  simpl. rewrite (proj2 (in_graph_spec x)) by (apply Hl; by left).
  f_equal. apply IH. intros y Hy. apply Hl. by right.
Qed.

(** A list of distinct vertices has at most [NumVertices] elements. *)
Lemma NoDup_vertices_length l :
  0 <= NumVertices g ->
  NoDup l -> (forall x, x ∈ l -> valid_vertex g x) ->
  (length l <= Z.to_nat (NumVertices g))%nat.
Proof.
  intros Hnv Hnd Hval.
  assert (l ⊆+ seqZ 0 (NumVertices g)) as Hsub.
  { apply NoDup_submseteq; [done|].
    intros x Hx. apply elem_of_seqZ. specialize (Hval x Hx).
    unfold valid_vertex in Hval. lia. }
  apply submseteq_length in Hsub. by rewrite length_seqZ in Hsub.
Qed.

(** Visiting vertices that are already recorded, or are no vertices,
    changes nothing. *)
Lemma for_each_visit_recorded l st :
  length (visited st) = Z.to_nat (NumVertices g) ->
  (forall v, v ∈ l -> valid_vertex g v ->
     visited st !! Z.to_nat v = Some true) ->
  for_each l (bfs_visit g) st = Ok st.
Proof.
  intros Hlen. induction l as [|x l IH]; intros Hl; [done|].
  simpl. unfold bfs_visit at 1.
  destruct (Z.ltb_spec x 0) as [|H0]; cbn [orb bind].
  { apply IH. intros v Hv. apply Hl. by right. }
  destruct (Z.geb_spec x (NumVertices g)) as [|H1]; cbn [orb bind].
  { apply IH. intros v Hv. apply Hl. by right. }
  rewrite (Hl x) by (by left || (unfold valid_vertex; lia)). cbn [bind].
  apply IH. intros v Hv. apply Hl. by right.
Qed.

(** Once every recorded vertex has all its neighbours recorded, the main
    loop only empties the queue. *)
Lemma bfs_loop_closed fuel st :
  length (visited st) = Z.to_nat (NumVertices g) ->
  (forall v, valid_vertex g v -> v ∈ reachableVertices st ->
     visited st !! Z.to_nat v = Some true) ->
  (forall v, v ∈ queue st ->
     valid_vertex g v /\ v ∈ reachableVertices st) ->
  (forall v, v ∈ reachableVertices st -> exists l, GetEdges g v = Ok l) ->
  (forall v w, v ∈ reachableVertices st -> edge g v w -> valid_vertex g w ->
     w ∈ reachableVertices st) ->
  (length (queue st) <= fuel)%nat ->
  bfs_loop fuel g st = Ok (reachableVertices st).
Proof.
  intros Hlen Hvis Hq Hedges Hclosed.
  revert st Hlen Hvis Hq Hedges Hclosed.
  induction fuel as [|fuel IH]; intros st Hlen Hvis Hq Hedges Hclosed Hfuel.
  - simpl. destruct (queue st); [done|]. simpl in Hfuel. lia.
  - simpl. destruct (queue st) as [|c q] eqn:Hqueue; [done|].
    destruct (Hq c) as [Hcval Hc]; [by left|].
    destruct (Hedges c Hc) as [l Hl]. rewrite Hl. cbn [bind].
    rewrite for_each_visit_recorded; simpl; [|done|].
    2:{ intros w Hw Hwval. apply Hvis; [done|].
        apply (Hclosed c w); [done| |done].
        exists l. split; [done|]. by apply list_elem_of_In. }
    cbn [bind].
    apply (IH {| visited := visited st;
                 reachableVertices := reachableVertices st; queue := q |});
      simpl; try done.
    + intros v Hv. apply Hq. by right.
    + simpl in Hfuel. lia.
Qed.

End SearchOrder.

(** ** Further properties of the search *)

Lemma reaches_valid {G : Type} `{Graph G} (g : G) s v :
  valid_vertex g s -> reaches g s v -> valid_vertex g v.
Proof. intros Hs Hr. by destruct Hr. Qed.

Lemma reaches_trans {G : Type} `{Graph G} (g : G) u v w :
  reaches g u v -> reaches g v w -> reaches g u w.
Proof.
  intros Huv Hvw. induction Hvw as [v | v x w Hvx IH He Hw]; [done|].
  eapply reaches_step; [by apply IH|done|done].
Qed.

(** X1: on a graph whose vertex count lies in [[0, 2^48]] (the
    [visited] array can be allocated) and whose edge lookup is defined on
    its vertices, [BFS] (given fuel for one iteration per vertex) lists
    first the sources that are vertices of the graph, each once, in the
    order of their first occurrence among the sources, and the vertices
    found later after them; the result has at most [NumVertices]
    entries. *)
Theorem BFS_sources_first {G : Type} `{Graph G} (g : G)
    (sources : list Z) (fuel : nat) :
  0 <= NumVertices g <= maxAlloc ->
  (forall v, valid_vertex g v -> exists l, GetEdges g v = Ok l) ->
  (Z.to_nat (NumVertices g) <= fuel)%nat ->
  exists rest,
    BFS fuel g sources = Ok (seeded g sources ++ rest) /\
    Z.of_nat (length (seeded g sources ++ rest)) <= NumVertices g.
Proof.
  intros [Hnv Hmax] Hedges Hfuel.
  destruct (BFS_correct g sources Hnv Hmax Hedges fuel Hfuel)
    as (res & Hrun & Hnd & Hiff).
  destruct (BFS_starts_with_sources g fuel sources res Hrun) as [rest ->].
  exists rest. split; [done|].
  enough (length (seeded g sources ++ rest) <= Z.to_nat (NumVertices g))%nat
    by lia.
  apply NoDup_vertices_length; [done|done|].
  intros x Hx. apply Hiff in Hx as (s & _ & Hs & Hr).
  by apply (reaches_valid g s).
Qed.

Lemma BFS_sources_first_witness :
  (0 <= NumVertices scenario_graph <= maxAlloc /\
   (forall v, valid_vertex scenario_graph v ->
      exists l, GetEdges scenario_graph v = Ok l) /\
   (Z.to_nat (NumVertices scenario_graph) <= 5)%nat) /\
  exists rest,
    BFS 5 scenario_graph [3; 7; 0; 3] =
      Ok (seeded scenario_graph [3; 7; 0; 3] ++ rest) /\
    Z.of_nat (length (seeded scenario_graph [3; 7; 0; 3] ++ rest)) <=
    NumVertices scenario_graph.
Proof.
  assert (0 <= NumVertices scenario_graph <= maxAlloc) as H1
    by (simpl; unfold maxAlloc; lia).
  assert (Z.to_nat (NumVertices scenario_graph) <= 5)%nat as H3 by (simpl; lia).
  split; [split; [exact H1|split; [exact scenario_graph_edges|exact H3]]|].
  exact (BFS_sources_first scenario_graph [3; 7; 0; 3] 5 H1
           scenario_graph_edges H3).
Defined.

(** X2: the result of a search is a fixed point.  On a graph whose
    vertex count lies in [[0, 2^48]] and whose edge lookup is defined on
    its vertices, searching again from the vertices a search returned
    gives the same list, in the same order. *)
Theorem BFS_idempotent {G : Type} `{Graph G} (g : G)
    (sources : list Z) (fuel : nat) :
  0 <= NumVertices g <= maxAlloc ->
  (forall v, valid_vertex g v -> exists l, GetEdges g v = Ok l) ->
  (Z.to_nat (NumVertices g) <= fuel)%nat ->
  exists res,
    BFS fuel g sources = Ok res /\ BFS fuel g res = Ok res.
Proof.
  intros [Hnv Hmax] Hedges Hfuel.
  destruct (BFS_correct g sources Hnv Hmax Hedges fuel Hfuel)
    as (res & Hrun & Hnd & Hiff).
  exists res. split; [done|].
  assert (forall x, x ∈ res -> valid_vertex g x) as Hval.
  { intros x Hx. apply Hiff in Hx as (s & _ & Hs & Hr).
    by apply (reaches_valid g s). }
  unfold BFS. destruct (Nat.eqb (length res) 0) eqn:Hlen.
  { apply Nat.eqb_eq, length_zero_iff_nil in Hlen. by subst. }
  rewrite make_Ok by lia. cbn [bind].
  set (st0 := {| visited := replicate (Z.to_nat (NumVertices g)) false;
                 reachableVertices := []; queue := [] |}).
  assert (bfs_inv g res st0) as Hinv0.
  { split; simpl.
    - apply length_replicate.
    - intros v Hv. split.
      + intros Hl. apply lookup_replicate in Hl as [? _]. done.
      + intros Hin. by apply elem_of_nil in Hin.
    - apply NoDup_nil_2.
    - intros v Hv. by apply elem_of_nil in Hv.
    - intros v Hv. by apply elem_of_nil in Hv. }
  destruct (for_each_visit_post g res res st0 Hinv0)
    as (st & Hseed & Hp).
  { intros v Hv Hvalid. exists v. split; [by apply list_elem_of_In|].
    split; [done|apply reaches_refl]. }
  destruct (seeding_first_occurrences g res st0 [])
    as (st' & Hseed' & Hr & Hq).
  { apply length_replicate. }
  { intros v Hv. simpl. split.
    - intros Hl. apply lookup_replicate in Hl as [? _]. done.
    - intros Hin. by apply elem_of_nil in Hin. }
  rewrite Hseed in Hseed'. inversion Hseed'; subst st'. clear Hseed'.
  simpl in Hr, Hq.
  rewrite filter_in_graph_all, first_occurrences_NoDup in Hr, Hq;
    try done; try (intros x _ Hx; by apply elem_of_nil in Hx).
  rewrite Hseed. cbn [bind].
  pose proof (post_inv g res _ _ _ Hp) as Hinv.
  rewrite (bfs_loop_closed g fuel st); [by rewrite Hr| | | | | |].
  - apply (inv_length g res st Hinv).
  - intros v Hv Hin. by apply (inv_visited g res st Hinv).
  - intros v Hv. rewrite Hq in Hv. rewrite Hr. split; [by apply Hval|done].
  - intros v Hv. rewrite Hr in Hv. apply Hedges. by apply Hval.
  - intros v w Hv He Hw. rewrite Hr in *.
    apply Hiff in Hv as (s & Hs & Hsval & Hreach).
    apply Hiff. exists s. split; [done|]. split; [done|].
    by eapply reaches_step.
  - rewrite Hq. pose proof (NoDup_vertices_length g res Hnv Hnd Hval). lia.
Qed.

Lemma BFS_idempotent_witness :
  (0 <= NumVertices scenario_graph <= maxAlloc /\
   (forall v, valid_vertex scenario_graph v ->
      exists l, GetEdges scenario_graph v = Ok l) /\
   (Z.to_nat (NumVertices scenario_graph) <= 5)%nat) /\
  exists res,
    BFS 5 scenario_graph [0; 3] = Ok res /\ BFS 5 scenario_graph res = Ok res.
Proof.
  assert (0 <= NumVertices scenario_graph <= maxAlloc) as H1
    by (simpl; unfold maxAlloc; lia).
  assert (Z.to_nat (NumVertices scenario_graph) <= 5)%nat as H3 by (simpl; lia).
  split; [split; [exact H1|split; [exact scenario_graph_edges|exact H3]]|].
  exact (BFS_idempotent scenario_graph [0; 3] 5 H1 scenario_graph_edges H3).
Defined.

(** X3: a search from several sources finds what the searches from the
    parts of the source list find together.  On a graph whose vertex
    count lies in [[0, 2^48]] and whose edge lookup is defined on its
    vertices, the result for [sources1 ++ sources2] has the elements of
    the results for [sources1] and for [sources2]. *)
Theorem BFS_sources_union {G : Type} `{Graph G} (g : G)
    (sources1 sources2 : list Z) (fuel : nat) :
  0 <= NumVertices g <= maxAlloc ->
  (forall v, valid_vertex g v -> exists l, GetEdges g v = Ok l) ->
  (Z.to_nat (NumVertices g) <= fuel)%nat ->
  exists res1 res2 res,
    BFS fuel g sources1 = Ok res1 /\
    BFS fuel g sources2 = Ok res2 /\
    BFS fuel g (sources1 ++ sources2) = Ok res /\
    forall v, In v res <-> In v res1 \/ In v res2.
Proof.
  intros [Hnv Hmax] Hedges Hfuel.
  destruct (BFS_correct g sources1 Hnv Hmax Hedges fuel Hfuel)
    as (res1 & Hrun1 & _ & Hiff1).
  destruct (BFS_correct g sources2 Hnv Hmax Hedges fuel Hfuel)
    as (res2 & Hrun2 & _ & Hiff2).
  destruct (BFS_correct g (sources1 ++ sources2) Hnv Hmax Hedges fuel Hfuel)
    as (res & Hrun & _ & Hiff).
  exists res1, res2, res. split; [done|]. split; [done|]. split; [done|].
  intros v. rewrite <- !list_elem_of_In, Hiff, Hiff1, Hiff2.
  unfold justified. split.
  - intros (s & Hs & Hval & Hr). apply in_app_or in Hs as [Hs|Hs];
      [left|right]; by exists s.
  - intros [(s & Hs & Hval & Hr)|(s & Hs & Hval & Hr)]; exists s;
      (split; [apply in_or_app; by (left + right)|done]).
Qed.

Lemma BFS_sources_union_witness :
  (0 <= NumVertices scenario_graph <= maxAlloc /\
   (forall v, valid_vertex scenario_graph v ->
      exists l, GetEdges scenario_graph v = Ok l) /\
   (Z.to_nat (NumVertices scenario_graph) <= 5)%nat) /\
  exists res1 res2 res,
    BFS 5 scenario_graph [0] = Ok res1 /\
    BFS 5 scenario_graph [3] = Ok res2 /\
    BFS 5 scenario_graph ([0] ++ [3]) = Ok res /\
    forall v, In v res <-> In v res1 \/ In v res2.
Proof.
  assert (0 <= NumVertices scenario_graph <= maxAlloc) as H1
    by (simpl; unfold maxAlloc; lia).
  assert (Z.to_nat (NumVertices scenario_graph) <= 5)%nat as H3 by (simpl; lia).
  split; [split; [exact H1|split; [exact scenario_graph_edges|exact H3]]|].
  exact (BFS_sources_union scenario_graph [0] [3] 5 H1 scenario_graph_edges H3).
Defined.

(** ** The search proceeds level by level *)

Lemma sorted_snoc (l : list nat) (b : nat) :
  StronglySorted le l -> Forall (fun n => (n <= b)%nat) l ->
  StronglySorted le (l ++ [b]).
Proof.
  induction 1 as [|a l Hs IH Ha]; intros Hb; simpl.
  - constructor; constructor.
  - apply Forall_cons in Hb as [Hab Hb].
    constructor; [by apply IH|].
    apply Forall_app. split; [done|]. by constructor.
Qed.

Lemma sorted_app_inv (l1 l2 : list nat) :
  StronglySorted le (l1 ++ l2) ->
  StronglySorted le l2 /\
  forall a b, a ∈ l1 -> b ∈ l2 -> (a <= b)%nat.
Proof.
  induction l1 as [|x l1 IH]; simpl; intros Hs.
  - split; [done|]. intros a b Ha. by apply elem_of_nil in Ha.
  - apply StronglySorted_inv in Hs as [Hs Hx].
    destruct (IH Hs) as [H2 Hle]. split; [done|].
    intros a b Ha Hb. apply elem_of_cons in Ha as [->|Ha]; [|by apply Hle].
    rewrite Forall_forall in Hx. apply Hx.
    apply elem_of_app. by right.
Qed.

Lemma sorted_lookup_le (l : list nat) (i j a b : nat) :
  StronglySorted le l -> (i <= j)%nat ->
  l !! i = Some a -> l !! j = Some b -> (a <= b)%nat.
Proof.
  intros Hs. revert i j. induction Hs as [|x l Hs IH Hx]; intros i j Hij Hi Hj.
  - done.
  - destruct i as [|i], j as [|j]; simpl in *.
    + inversion Hi; inversion Hj; subst. lia.
    + inversion Hi; subst. rewrite Forall_forall in Hx. apply Hx.
      by eapply list_elem_of_lookup_2.
    + lia.
    + apply (IH i j); [lia|done|done].
Qed.

Section LevelOrder.
Context {G : Type} `{Graph G}.
Variable g : G.
Variable sources : list Z.

Local Abbreviation dist := (distance g sources).
Local Abbreviation bfs_inv := (bfs_inv g sources).
Local Abbreviation frontier := (frontier g sources).
Local Abbreviation levels := (levels g sources).
Local Abbreviation sources_recorded := (sources_recorded g sources).

Lemma reaches_in_justified n v :
  reaches_in g sources n v -> justified g sources v.
Proof.
  induction 1 as [s Hs Hv | n v w Hr IH He Hw].
  - exists s. split; [done|]. split; [done|apply reaches_refl].
  - destruct IH as (s & Hs & Hv & Hr'). exists s.
    split; [done|]. split; [done|]. by eapply reaches_step.
Qed.

Lemma distance_unique v n m : dist v n -> dist v m -> n = m.
Proof.
  intros [H1 H2] [H3 H4]. specialize (H2 _ H3). specialize (H4 _ H1). lia.
Qed.

(** While [u] is processed, every vertex within the distance of [u] is
    already recorded. *)
Lemma frontier_complete P nsP u k st :
  frontier P nsP u k st -> Forall2 dist P nsP -> dist u k ->
  (forall p, p ∈ P -> closed g st p) -> sources_recorded st ->
  forall n x, reaches_in g sources n x -> (n <= k)%nat ->
    x ∈ reachableVertices st.
Proof.
  intros (nsQ & HL & HQ & Hsorted & Hbound) HP Hu Hclosed Hsrc n x Hr.
  induction Hr as [s Hs Hv | n v w Hr IH He Hw]; intros Hn.
  - by apply Hsrc.
  - specialize (IH ltac:(lia)).
    rewrite HL in IH. apply elem_of_app in IH as [Hv|Hv].
    + by apply (Hclosed v Hv w).
    + exfalso.
      assert (Forall2 dist (u :: queue st) (k :: nsQ)) as HF
        by (by constructor).
      apply list_elem_of_lookup_1 in Hv as [i Hi].
      destruct (Forall2_lookup_l _ _ _ _ _ HF Hi) as (d & Hd & Hvd).
      apply sorted_app_inv in Hsorted as [Hsorted _].
      assert (k <= d)%nat as Hkd.
      { apply (sorted_lookup_le (k :: nsQ) 0 i k d);
          [done|lia|done|done]. }
      destruct Hvd as [_ Hmin]. specialize (Hmin n Hr). lia.
Qed.

Lemma bfs_visit_frontier P nsP u k w st st' :
  bfs_inv st -> frontier P nsP u k st ->
  Forall2 dist P nsP -> dist u k ->
  (forall p, p ∈ P -> closed g st p) -> sources_recorded st ->
  edge g u w ->
  bfs_visit g w st = Ok st' ->
  bfs_inv st' /\ frontier P nsP u k st' /\
  (forall x, x ∈ reachableVertices st -> x ∈ reachableVertices st') /\
  (valid_vertex g w -> w ∈ reachableVertices st').
Proof.
  intros Hinv Hfr HP Hu Hclosed Hsrc Hedge Hrun.
  assert (valid_vertex g w -> reaches_in g sources (Datatypes.S k) w) as Hreach.
  { intros Hw. eapply reaches_in_step; [apply Hu|done|done]. }
  destruct (bfs_visit_post g sources w st Hinv) as (st'' & Hrun' & Hp).
  { intros Hw. by eapply reaches_in_justified, Hreach. }
  rewrite Hrun in Hrun'. inversion Hrun'; subst st''. clear Hrun'.
  split; [apply (post_inv _ _ _ _ _ Hp)|].
  split; [|split; [apply (post_reach_mono _ _ _ _ _ Hp)|]].
  2:{ intros Hw. apply (post_covers _ _ _ _ _ Hp); [by left|done]. }
  unfold bfs_visit in Hrun.
  destruct (Z.ltb_spec w 0) as [|H0]; cbn [orb] in Hrun.
  { by inversion Hrun; subst. }
  destruct (Z.geb_spec w (NumVertices g)) as [|H1]; cbn [orb] in Hrun.
  { by inversion Hrun; subst. }
  assert (valid_vertex g w) as Hw by (unfold valid_vertex; lia).
  destruct (visited st !! Z.to_nat w) as [[|]|] eqn:Hlook; [| |done].
  { by inversion Hrun; subst. }
  assert (w ∉ reachableVertices st) as Hfresh.
  { intros Hin. apply (inv_visited _ _ _ Hinv) in Hin; [|done]. congruence. }
  assert (dist w (Datatypes.S k)) as Hdw.
  { split; [by apply Hreach|]. intros m Hm.
    destruct (le_lt_dec m k) as [Hle|Hlt]; [|lia].
    exfalso. apply Hfresh.
    by apply (frontier_complete P nsP u k st Hfr HP Hu Hclosed Hsrc m w). }
  destruct Hfr as (nsQ & HL & HQ & Hsorted & Hbound).
  inversion Hrun; subst st'; clear Hrun. simpl.
  exists (nsQ ++ [Datatypes.S k]). simpl. split; [|split; [|split]].
  - rewrite HL. by rewrite <- app_assoc.
  - apply Forall2_app; [done|]. by constructor.
  - change (nsP ++ k :: nsQ ++ [Datatypes.S k])
      with (nsP ++ (k :: nsQ) ++ [Datatypes.S k]).
    rewrite app_assoc. apply sorted_snoc; [done|].
    apply Forall_app. split.
    + apply Forall_forall. intros a Ha.
      destruct (sorted_app_inv _ _ Hsorted) as [_ Hle].
      specialize (Hle a k Ha ltac:(by left)). lia.
    + constructor; [lia|done].
  - apply Forall_app. split; [done|]. by constructor.
Qed.

Lemma closed_mono st st' p :
  (forall x, x ∈ reachableVertices st -> x ∈ reachableVertices st') ->
  closed g st p -> closed g st' p.
Proof. intros Hmono Hc w He Hw. by apply Hmono, Hc. Qed.

Lemma for_each_visit_frontier P nsP u k l st st' :
  bfs_inv st -> frontier P nsP u k st ->
  Forall2 dist P nsP -> dist u k ->
  (forall p, p ∈ P -> closed g st p) -> sources_recorded st ->
  (forall w, w ∈ l -> edge g u w) ->
  for_each l (bfs_visit g) st = Ok st' ->
  bfs_inv st' /\ frontier P nsP u k st' /\
  (forall x, x ∈ reachableVertices st -> x ∈ reachableVertices st') /\
  (forall w, w ∈ l -> valid_vertex g w -> w ∈ reachableVertices st').
Proof.
  intros Hinv Hfr HP Hu. revert st Hinv Hfr.
  induction l as [|w l IH]; intros st Hinv Hfr Hclosed Hsrc Hl Hrun.
  - inversion Hrun; subst. split; [done|]. split; [done|]. split; [done|].
    intros w Hw. by apply elem_of_nil in Hw.
  - simpl in Hrun. apply bind_Ok_inv in Hrun as (st1 & Hrun1 & Hrun2).
    destruct (bfs_visit_frontier P nsP u k w st st1)
      as (Hinv1 & Hfr1 & Hmono1 & Hw1); try done.
    { apply Hl. by left. }
    destruct (IH st1) as (Hinv2 & Hfr2 & Hmono2 & Hl2); try done.
    { intros p Hp. by apply (closed_mono st), Hclosed. }
    { intros s Hs Hv. by apply Hmono1, Hsrc. }
    { intros x Hx. apply Hl. by right. }
    split; [done|]. split; [done|]. split.
    + intros x Hx. by apply Hmono2, Hmono1.
    + intros x Hx Hv. apply elem_of_cons in Hx as [->|Hx].
      * by apply Hmono2, Hw1.
      * by apply Hl2.
Qed.

Lemma bfs_loop_levels fuel st res :
  bfs_inv st -> levels st -> sources_recorded st ->
  bfs_loop fuel g st = Ok res ->
  exists ns, Forall2 dist res ns /\ StronglySorted le ns.
Proof.
  revert st. induction fuel as [|fuel IH]; intros st Hinv Hlev Hsrc Hrun.
  - simpl in Hrun. destruct (queue st) as [|c q] eqn:Hq; [|done].
    inversion Hrun; subst res.
    destruct Hlev as (P & nsP & nsQ & HL & HP & HQ & Hsorted & _).
    exists (nsP ++ nsQ). split; [|done].
    rewrite HL. by apply Forall2_app.
  - simpl in Hrun. destruct (queue st) as [|u q] eqn:Hq.
    { inversion Hrun; subst res.
      destruct Hlev as (P & nsP & nsQ & HL & HP & HQ & Hsorted & _).
      exists (nsP ++ nsQ). split; [|done].
      rewrite HL, Hq. apply Forall2_app; [done|]. by rewrite <- Hq. }
    apply bind_Ok_inv in Hrun as (edges & Hedg & Hrun).
    apply bind_Ok_inv in Hrun as (st2 & Hrun1 & Hrun2).
    set (st1 := {| visited := visited st;
                   reachableVertices := reachableVertices st;
                   queue := q |}) in *.
    destruct Hlev as (P & nsP & nsQ & HL & HP & HQ & Hsorted & Hbound & Hcl).
    rewrite Hq in HL, HQ.
    apply Forall2_cons_inv_l in HQ as (k & nsR & Hu & HR & ->).
    specialize (Hbound k eq_refl).
    apply Forall_cons in Hbound as [_ Hbound].
    assert (bfs_inv st1) as Hinv1.
    { split; simpl.
      - apply (inv_length _ _ _ Hinv).
      - apply (inv_visited _ _ _ Hinv).
      - apply (inv_nodup _ _ _ Hinv).
      - apply (inv_sound _ _ _ Hinv).
      - intros v Hv. apply (inv_queue _ _ _ Hinv). rewrite Hq. by right. }
    destruct (for_each_visit_frontier P nsP u k edges st1 st2)
      as (Hinv2 & Hfr2 & Hmono & Hcov); try done.
    { by exists nsR. }
    { intros w Hw. exists edges. split; [done|]. by apply list_elem_of_In. }
    apply (IH st2); [done| |by intros s Hs Hv; apply Hmono, Hsrc|done].
    destruct Hfr2 as (nsQ2 & HL2 & HQ2 & Hsorted2 & Hbound2).
    exists (P ++ [u]), (nsP ++ [k]), nsQ2.
    split; [by rewrite HL2, <- app_assoc|].
    split; [apply Forall2_app; [done|by constructor]|].
    split; [done|].
    split; [by rewrite <- app_assoc|].
    split.
    + intros k' Hk'.
      destruct (sorted_app_inv _ _ Hsorted2) as [Hs2 _].
      apply StronglySorted_inv in Hs2 as [_ Hk].
      assert (k <= k')%nat as Hkk'.
      { rewrite Forall_forall in Hk. apply Hk.
        destruct nsQ2; inversion Hk'; subst. by left. }
      eapply Forall_impl; [exact Hbound2|]. simpl. intros; lia.
    + intros p Hp. apply elem_of_app in Hp as [Hp|Hp].
      * by apply (closed_mono st1), Hcl.
      * apply list_elem_of_singleton in Hp. subst p.
        intros w (l & Hl & Hw) Hwv. rewrite Hedg in Hl.
        inversion Hl; subst l.
        apply Hcov; [by apply list_elem_of_In|done].
Qed.

(** The seeding loop records sources that are vertices, and enqueues
    what it records. *)
Lemma seeding_sources l st st' :
  (forall x, x ∈ l -> In x sources) ->
  reachableVertices st = queue st ->
  Forall (fun x => In x sources /\ valid_vertex g x) (queue st) ->
  for_each l (bfs_visit g) st = Ok st' ->
  reachableVertices st' = queue st' /\
  Forall (fun x => In x sources /\ valid_vertex g x) (queue st').
Proof.
  revert st. induction l as [|x l IH]; intros st Hl HLQ Hall Hrun.
  - by inversion Hrun; subst.
  - simpl in Hrun. apply bind_Ok_inv in Hrun as (st1 & Hrun1 & Hrun2).
    apply (IH st1); [intros y Hy; apply Hl; by right| | |done];
      unfold bfs_visit in Hrun1;
      destruct (Z.ltb_spec x 0) as [|H0]; cbn [orb] in Hrun1;
      try (by inversion Hrun1; subst);
      destruct (Z.geb_spec x (NumVertices g)) as [|H1]; cbn [orb] in Hrun1;
      try (by inversion Hrun1; subst);
      destruct (visited st !! Z.to_nat x) as [[|]|]; try done;
      try (by inversion Hrun1; subst);
      inversion Hrun1; subst st1; simpl.
    + by rewrite HLQ.
    + apply Forall_app. split; [done|]. constructor; [|done].
      split; [apply Hl; by left|unfold valid_vertex; lia].
Qed.

Lemma BFS_levels fuel res :
  BFS fuel g sources = Ok res ->
  exists ns, Forall2 dist res ns /\ StronglySorted le ns.
Proof.
  unfold BFS. destruct (Nat.eqb (length sources) 0).
  { intros Hres; inversion Hres; subst. exists []. split; constructor. }
  intros Hrun. apply bind_Ok_inv in Hrun as (vis & Hmk & Hrun).
  apply make_Ok_inv in Hmk as (Hnv & _ & ->).
  set (st0 := {| visited := replicate (Z.to_nat (NumVertices g)) false;
                 reachableVertices := []; queue := [] |}) in *.
  apply bind_Ok_inv in Hrun as (st & Hseed & Hloop).
  assert (bfs_inv st0) as Hinv0.
  { split; simpl.
    - apply length_replicate.
    - intros v Hv. split.
      + intros Hl. apply lookup_replicate in Hl as [? _]. done.
      + intros Hin. by apply elem_of_nil in Hin.
    - apply NoDup_nil_2.
    - intros v Hv. by apply elem_of_nil in Hv.
    - intros v Hv. by apply elem_of_nil in Hv. }
  destruct (for_each_visit_post g sources sources st0 Hinv0)
    as (st' & Hseed' & Hp).
  { intros v Hv Hval. exists v. split; [by apply list_elem_of_In|].
    split; [done|apply reaches_refl]. }
  rewrite Hseed in Hseed'. inversion Hseed'; subst st'. clear Hseed'.
  destruct (seeding_sources sources st0 st) as [HLQ Hall]; try done.
  { intros x Hx. by apply list_elem_of_In. }
  apply (bfs_loop_levels fuel st); [apply (post_inv _ _ _ _ _ Hp)| |
    |done].
  - exists [], [], (map (fun _ => 0%nat) (queue st)).
    split; [done|]. split; [constructor|].
    split; [|split; [|split]].
    + clear -Hall. induction Hall as [|x l [Hx Hv] _ IH]; simpl;
        constructor; [|done].
      split; [by constructor|]. intros; lia.
    + simpl. clear. induction (queue st) as [|x l IH]; simpl;
        constructor; [done|].
      apply Forall_forall. intros a Ha.
      apply list_elem_of_fmap in Ha as (? & -> & _). lia.
    + intros k _. apply Forall_forall. intros a Ha.
      apply list_elem_of_fmap in Ha as (? & -> & _). lia.
    + intros p Hp'. by apply elem_of_nil in Hp'.
  - intros s Hs Hv.
    apply (post_covers _ _ _ _ _ Hp); [by apply list_elem_of_In|done].
Qed.

End LevelOrder.

(** X4: the search proceeds level by level.  On a graph whose vertex
    count lies in [[0, 2^48]] and whose edge lookup is defined on its
    vertices, [BFS] (given fuel for one iteration per vertex) returns its
    vertices in the order of their distance from the sources: every
    returned vertex has a distance, the least number of edges of a walk
    from a source that is a vertex of the graph, and a vertex listed
    earlier is never farther than one listed later. *)
Theorem BFS_level_order {G : Type} `{Graph G} (g : G)
    (sources : list Z) (fuel : nat) :
  0 <= NumVertices g <= maxAlloc ->
  (forall v, valid_vertex g v -> exists l, GetEdges g v = Ok l) ->
  (Z.to_nat (NumVertices g) <= fuel)%nat ->
  exists res,
    BFS fuel g sources = Ok res /\
    (forall v, v ∈ res -> exists n, distance g sources v n) /\
    (forall i j v w n m, (i <= j)%nat ->
       res !! i = Some v -> res !! j = Some w ->
       distance g sources v n -> distance g sources w m -> (n <= m)%nat).
Proof.
  intros [Hnv Hmax] Hedges Hfuel.
  destruct (BFS_correct g sources Hnv Hmax Hedges fuel Hfuel)
    as (res & Hrun & _ & _).
  destruct (BFS_levels g sources fuel res Hrun) as (ns & Hns & Hsorted).
  exists res. split; [done|]. split.
  - intros v Hv. apply list_elem_of_lookup_1 in Hv as [i Hi].
    destruct (Forall2_lookup_l _ _ _ _ _ Hns Hi) as (n & _ & Hn).
    by exists n.
  - intros i j v w n m Hij Hi Hj Hv Hw.
    destruct (Forall2_lookup_l _ _ _ _ _ Hns Hi) as (a & Ha & Hva).
    destruct (Forall2_lookup_l _ _ _ _ _ Hns Hj) as (b & Hb & Hwb).
    rewrite (distance_unique g sources v n a Hv Hva).
    rewrite (distance_unique g sources w m b Hw Hwb).
    by apply (sorted_lookup_le ns i j).
Qed.

Lemma BFS_level_order_witness :
  (0 <= NumVertices scenario_graph <= maxAlloc /\
   (forall v, valid_vertex scenario_graph v ->
      exists l, GetEdges scenario_graph v = Ok l) /\
   (Z.to_nat (NumVertices scenario_graph) <= 5)%nat) /\
  exists res,
    BFS 5 scenario_graph [0; 3] = Ok res /\
    (forall v, v ∈ res -> exists n, distance scenario_graph [0; 3] v n) /\
    (forall i j v w n m, (i <= j)%nat ->
       res !! i = Some v -> res !! j = Some w ->
       distance scenario_graph [0; 3] v n ->
       distance scenario_graph [0; 3] w m -> (n <= m)%nat).
Proof.
  assert (0 <= NumVertices scenario_graph <= maxAlloc) as H1
    by (simpl; unfold maxAlloc; lia).
  assert (Z.to_nat (NumVertices scenario_graph) <= 5)%nat as H3 by (simpl; lia).
  split; [split; [exact H1|split; [exact scenario_graph_edges|exact H3]]|].
  exact (BFS_level_order scenario_graph [0; 3] 5 H1
           scenario_graph_edges H3).
Defined.

(** ** Recovery graphs: what a search can reach *)

Lemma addRecoveryEdges_data_bits g edges v j edges' :
  0 <= v < 2 ^ 63 ->
  Forall (clears_data_bit (N g) v) edges ->
  addRecoveryEdges g edges v j = Ok edges' ->
  Forall (clears_data_bit (N g) v) edges'.
Proof.
  intros Hv Hedges. unfold addRecoveryEdges, for_range.
  apply for_loop_inv; [done|].
  intros p t t' Hp Ht Hbody.
  destruct (IsProtected (mask g) p j); [|by inversion Hbody; subst].
  apply bind_Ok_inv in Hbody as (b & Hb & Hbody).
  unfold andnot in Hbody.
  destruct (Z.eqb_spec (Z.ldiff v b) v) as [Heq|Hne]; simpl in Hbody;
    inversion Hbody; subst; [done|].
  apply Forall_app. split; [done|]. apply Forall_cons. split; [|done].
  destruct (Z.le_gt_cases p 62) as [Hp62|Hp62].
  - rewrite shl_1_small in Hb by lia. inversion Hb; subst.
    exists p. split; [lia|]. split; [done|].
    rewrite clearbit_ldiff. split; [|done].
    destruct (Z.testbit v p) eqn:E; [done|].
    exfalso. apply Hne. rewrite <- clearbit_ldiff. apply clearbit_unset; [lia|done].
  - exfalso. apply Hne.
    destruct (Z.eq_dec p 63) as [->|].
    + rewrite shl_1_63 in Hb. inversion Hb; subst. by apply ldiff_min_int.
    + rewrite shl_1_large in Hb by lia. inversion Hb; subst.
      apply Z.ldiff_0_r.
Qed.

Lemma GetEdges_data_bits g v l :
  in_range v ->
  RecoveryGraph_GetEdges g v = Ok l ->
  Forall (clears_data_bit (N g) v) l.
Proof.
  intros Hr. unfold RecoveryGraph_GetEdges.
  destruct (Z.ltb_spec v 0); cbn [orb].
  { intros Hl; by inversion Hl; subst. }
  destruct (Z.geb_spec v (numVertices g)); cbn [orb].
  { intros Hl; by inversion Hl; subst. }
  assert (0 <= v < 2 ^ 63) as Hv.
  { unfold in_range, max_int in Hr. lia. }
  unfold for_range. apply for_loop_inv; [done|].
  intros j t t' Hj Ht Hbody.
  apply bind_Ok_inv in Hbody as (c & Hc & Hbody).
  destruct c; [|by inversion Hbody; subst].
  by eapply addRecoveryEdges_data_bits.
Qed.

Lemma submask_refl v : submask v v.
Proof. apply Z.land_diag. Qed.

Lemma submask_trans u v w : submask u v -> submask v w -> submask u w.
Proof.
  unfold submask. intros Hv Hw.
  rewrite <- Hw at 1. rewrite <- Z.land_assoc, Hv. done.
Qed.

Lemma clears_data_bit_facts n v d :
  clears_data_bit n v d -> submask v d /\ same_parity_bits n v d.
Proof.
  intros (i & Hi & _ & Hb & ->). split.
  - unfold submask. apply Z.bits_inj'. intros k Hk.
    rewrite Z.land_spec.
    destruct (Z.eq_dec k i) as [->|Hne].
    + rewrite Z.clearbit_eq by lia. done.
    + rewrite Z.clearbit_neq by lia. apply andb_diag.
  - intros k Hk. apply Z.clearbit_neq. lia.
Qed.

Lemma RecoveryGraph_reaches_facts (g : RecoveryGraph) s v :
  in_range s -> reaches g s v ->
  submask s v /\ same_parity_bits (N g) s v /\ v <= s /\ in_range v.
Proof.
  intros Hs Hr. induction Hr as [s | s v w Hr IH He Hw].
  - split; [apply submask_refl|]. split; [done|]. split; [lia|done].
  - destruct (IH Hs) as (Hsub & Hpar & Hle & Hv).
    pose proof (edge_decreases g v w Hv He) as (Hw1 & _ & _).
    destruct He as (l & Hl & Hin).
    apply GetEdges_data_bits in Hl; [|done].
    rewrite Forall_forall in Hl. apply list_elem_of_In in Hin.
    apply Hl, clears_data_bit_facts in Hin as [Hsub' Hpar'].
    split; [by eapply submask_trans|].
    split; [intros k Hk; by rewrite Hpar', Hpar|].
    split; [lia|]. unfold in_range, min_int, max_int in *. lia.
Qed.

(** X5: recovery never touches the parity bits.  In any recovery graph,
    a vertex reachable from a vertex [s] (a machine integer) is [s] with
    some of its set bits cleared, agrees with [s] on every bit from
    position [N] on, and is not above [s]. *)
Theorem RecoveryGraph_reach_keeps_parity_bits (g : RecoveryGraph) (s v : Z) :
  in_range s -> reaches g s v ->
  submask s v /\ same_parity_bits (N g) s v /\ v <= s.
Proof.
  intros Hs Hr.
  destruct (RecoveryGraph_reaches_facts g s v Hs Hr) as (H1 & H2 & H3 & _).
  done.
Qed.

Lemma scenario_reaches_15_14 : reaches scenario_recovery_graph 15 14.
Proof.
  eapply reaches_step; [apply reaches_refl| |].
  - exists [14; 13]. split; [reflexivity|]. by left.
  - unfold valid_vertex. simpl. lia.
Qed.

Lemma RecoveryGraph_reach_keeps_parity_bits_witness :
  (in_range 15 /\ reaches scenario_recovery_graph 15 14) /\
  submask 15 14 /\ same_parity_bits (N scenario_recovery_graph) 15 14 /\
  14 <= 15.
Proof.
  assert (in_range 15) as H by (unfold in_range, min_int, max_int; lia).
  split; [split; [exact H|exact scenario_reaches_15_14]|].
  exact (RecoveryGraph_reach_keeps_parity_bits scenario_recovery_graph 15 14 H
           scenario_reaches_15_14).
Defined.

(** The graph of a mask with at most 62 packets answers [GetEdges] on
    every integer. *)
Lemma RecoveryGraph_GetEdges_total m v :
  0 <= mask_N m -> 0 <= mask_K m -> mask_N m + mask_K m <= 62 ->
  exists l,
    RecoveryGraph_GetEdges
      {| numVertices := 2 ^ (mask_N m + mask_K m);
         N := mask_N m; K := mask_K m; mask := m |} v = Ok l.
Proof.
  intros HN HK Hs.
  set (g := {| numVertices := 2 ^ (mask_N m + mask_K m);
               N := mask_N m; K := mask_K m; mask := m |}).
  destruct (Z_lt_ge_dec v 0) as [Hneg|Hpos].
  { exists []. apply GetEdges_out_of_range. simpl. lia. }
  destruct (Z_lt_ge_dec v (numVertices g)) as [Hin|Hout].
  - exists (edges_spec m v).
    subst g. apply GetEdges_in_range; simpl in *; (done || lia).
  - exists []. apply GetEdges_out_of_range. subst g. simpl in *. lia.
Qed.

(** The search on the graph of a mask of at most 48 packets: its
    [2^(N+K)] vertices are within the allocation limit. *)
Lemma BFS_recovery_correct (m : Mask) (sources : list Z) (fuel : nat) :
  0 <= mask_N m -> 0 <= mask_K m -> mask_N m + mask_K m <= 48 ->
  (Z.to_nat (2 ^ (mask_N m + mask_K m)) <= fuel)%nat ->
  exists res,
    BFS fuel {| numVertices := 2 ^ (mask_N m + mask_K m);
                N := mask_N m; K := mask_K m; mask := m |} sources = Ok res /\
    NoDup res /\
    (forall v, v ∈ res <->
       justified {| numVertices := 2 ^ (mask_N m + mask_K m);
                    N := mask_N m; K := mask_K m; mask := m |} sources v).
Proof.
  intros HN HK Hs Hfuel.
  apply BFS_correct.
  - simpl. unfold RecoveryGraph_NumVertices. simpl.
    apply Z.lt_le_incl, pow2_pos. lia.
  - simpl. unfold RecoveryGraph_NumVertices, maxAlloc. simpl.
    apply pow2_le_mono. lia.
  - intros v _. apply RecoveryGraph_GetEdges_total; lia.
  - done.
Qed.

(** X6: for a mask with [0 <= N], [0 <= K] and [N + K <= 48] (the
    [2^(N+K)] vertices are within the allocation limit of the [visited]
    array) the graph is built and a search on it, given fuel for one
    iteration per vertex, neither panics nor runs out of fuel: it
    returns, without repetition, exactly the vertices reachable from the
    sources that lie in [[0, 2^(N+K))]. *)
Theorem BFS_on_recovery_graph (m : Mask) (sources : list Z) (fuel : nat) :
  0 <= mask_N m -> 0 <= mask_K m -> mask_N m + mask_K m <= 48 ->
  (Z.to_nat (2 ^ (mask_N m + mask_K m)) <= fuel)%nat ->
  exists g res,
    NewRecoveryGraph m = Ok g /\
    BFS fuel g sources = Ok res /\
    List.NoDup res /\
    (forall v, In v res <->
       exists s, In s sources /\ 0 <= s < 2 ^ (mask_N m + mask_K m) /\
                 reaches g s v).
Proof.
  intros HN HK Hs Hfuel.
  set (g := {| numVertices := 2 ^ (mask_N m + mask_K m);
               N := mask_N m; K := mask_K m; mask := m |}).
  destruct (BFS_recovery_correct m sources fuel HN HK Hs Hfuel)
    as (res & Hrun & Hnd & Hiff).
  exists g, res. split; [apply NewRecoveryGraph_small; lia|].
  split; [done|]. split; [by apply NoDup_ListNoDup|].
  intros v. rewrite <- list_elem_of_In. apply Hiff.
Qed.

Lemma BFS_on_recovery_graph_witness :
  (0 <= mask_N scenario_mask /\ 0 <= mask_K scenario_mask /\
   mask_N scenario_mask + mask_K scenario_mask <= 48 /\
   (Z.to_nat (2 ^ (mask_N scenario_mask + mask_K scenario_mask)) <= 16)%nat) /\
  exists g res,
    NewRecoveryGraph scenario_mask = Ok g /\
    BFS 16 g [15] = Ok res /\
    List.NoDup res /\
    (forall v, In v res <->
       exists s, In s [15] /\
                 0 <= s < 2 ^ (mask_N scenario_mask + mask_K scenario_mask) /\
                 reaches g s v).
Proof.
  assert (0 <= mask_N scenario_mask) as H1 by (simpl; lia).
  assert (0 <= mask_K scenario_mask) as H2 by (simpl; lia).
  assert (mask_N scenario_mask + mask_K scenario_mask <= 48) as H3
    by (simpl; lia).
  assert (Z.to_nat (2 ^ (mask_N scenario_mask + mask_K scenario_mask)) <= 16)%nat
    as H4 by (vm_compute; lia).
  split; [done|].
  exact (BFS_on_recovery_graph scenario_mask [15] 16 H1 H2 H3 H4).
Defined.

(** ** The adjacency-list graph *)

Lemma SimpleGraph_built_wf g :
  SimpleGraph_built g ->
  0 <= sg_numVertices g /\ 24 * sg_numVertices g <= maxAlloc /\
  length (sg_adjList g) = Z.to_nat (sg_numVertices g).
Proof.
  induction 1 as [n g Hnew | g s d g' Hb IH Hadd].
  - unfold NewSimpleGraph in Hnew.
    apply bind_Ok_inv in Hnew as (adj & Hmk & Hnew).
    apply make_Ok_inv in Hmk as (Hn & Hsize & ->).
    inversion Hnew; subst. simpl.
    split; [done|]. split; [done|]. apply length_replicate.
  - unfold AddEdge in Hadd.
    destruct (_ && _); [|by inversion Hadd; subst].
    destruct (sg_adjList g !! Z.to_nat s); [|done].
    inversion Hadd; subst. simpl. by rewrite length_insert.
Qed.

Lemma SimpleGraph_GetEdges_total g v :
  length (sg_adjList g) = Z.to_nat (sg_numVertices g) ->
  exists l, SimpleGraph_GetEdges g v = Ok l.
Proof.
  intros Hlen. unfold SimpleGraph_GetEdges.
  destruct (Z.geb_spec v 0); cbn [andb]; [|by eexists].
  destruct (Z.ltb_spec v (sg_numVertices g)); [|by eexists].
  destruct (sg_adjList g !! Z.to_nat v) as [l|] eqn:Hl; [by eexists|].
  apply lookup_ge_None in Hl. lia.
Qed.

(** The edges after [AddEdge]. *)
Lemma AddEdge_spec g s d :
  length (sg_adjList g) = Z.to_nat (sg_numVertices g) ->
  if (0 <=? s) && (s <? sg_numVertices g) &&
     (0 <=? d) && (d <? sg_numVertices g)
  then
    exists g' l,
      AddEdge g s d = Ok g' /\
      sg_numVertices g' = sg_numVertices g /\
      SimpleGraph_GetEdges g s = Ok l /\
      SimpleGraph_GetEdges g' s = Ok (l ++ [d]) /\
      forall v, v <> s -> SimpleGraph_GetEdges g' v = SimpleGraph_GetEdges g v
  else AddEdge g s d = Ok g.
Proof.
  intros Hlen. unfold AddEdge.
  replace (s >=? 0) with (0 <=? s) by (rewrite Z.geb_leb; done).
  replace (d >=? 0) with (0 <=? d) by (rewrite Z.geb_leb; done).
  destruct (_ && _) eqn:Hguard; [|done].
  apply andb_true_iff in Hguard as [Hguard Hd1].
  apply andb_true_iff in Hguard as [Hguard Hd0].
  apply andb_true_iff in Hguard as [Hs0 Hs1].
  apply Z.leb_le in Hs0, Hd0. apply Z.ltb_lt in Hs1, Hd1.
  destruct (sg_adjList g !! Z.to_nat s) as [l|] eqn:Hl.
  2:{ apply lookup_ge_None in Hl. lia. }
  eexists _, l. split; [done|]. simpl. split; [done|].
  unfold SimpleGraph_GetEdges. simpl.
  destruct (Z.geb_spec s 0); [|lia].
  destruct (Z.ltb_spec s (sg_numVertices g)); [|lia]. cbn [andb].
  rewrite Hl. split; [done|].
  rewrite list_lookup_insert_eq by (by apply lookup_lt_Some in Hl).
  split; [done|].
  intros v Hv.
  destruct (Z.geb_spec v 0); cbn [andb]; [|done].
  destruct (Z.ltb_spec v (sg_numVertices g)); [|done].
  rewrite list_lookup_insert_ne by lia. done.
Qed.

(** X7: the graphs built from [NewSimpleGraph] by [AddEdge] keep the
    adjacency list as long as the vertex count, which is not negative:
    on them [GetEdges] and [AddEdge] never panic, every listed
    destination is a vertex, and a search with fuel for one iteration
    per vertex returns, without repetition, exactly the vertices
    reachable from the sources that are vertices. *)
Theorem SimpleGraph_built_safe (g : SimpleGraph) :
  SimpleGraph_built g ->
  0 <= NumVertices g /\
  (forall v, exists l, GetEdges g v = Ok l) /\
  (forall v w, edge g v w -> valid_vertex g v /\ valid_vertex g w) /\
  (forall s d, exists g', AddEdge g s d = Ok g') /\
  (forall sources fuel, (Z.to_nat (NumVertices g) <= fuel)%nat ->
     exists res,
       BFS fuel g sources = Ok res /\ List.NoDup res /\
       forall v, In v res <->
         exists s, In s sources /\ valid_vertex g s /\ reaches g s v).
Proof.
  intros Hb. pose proof (SimpleGraph_built_wf g Hb) as (Hnv & Hmax & Hlen).
  split; [done|].
  split; [intros v; by apply SimpleGraph_GetEdges_total|].
  split.
  { clear Hnv Hmax Hlen.
    induction Hb as [n g Hnew | g s d g' Hb IH Hadd]; intros v w (l & Hl & Hw).
    - unfold NewSimpleGraph in Hnew.
      apply bind_Ok_inv in Hnew as (adj & Hmk & Hnew).
      apply make_Ok_inv in Hmk as (Hn & Hsize & ->).
      inversion Hnew; subst.
      simpl in Hl. unfold SimpleGraph_GetEdges in Hl. simpl in Hl.
      destruct (_ && _); [|by inversion Hl; subst].
      destruct (replicate (Z.to_nat n) [] !! Z.to_nat v) as [l'|] eqn:Hl';
        [|done].
      apply lookup_replicate in Hl' as [-> _]. by inversion Hl; subst.
    - pose proof (SimpleGraph_built_wf g Hb) as (Hnv & Hmax & Hlen).
      pose proof (AddEdge_spec g s d Hlen) as Hspec.
      destruct (_ && _) eqn:Hguard.
      + destruct Hspec as (g1 & l0 & Hadd1 & Hn & Hg & Hg' & Hother).
        rewrite Hadd in Hadd1. inversion Hadd1; subst g1.
        apply andb_true_iff in Hguard as [Hguard Hd1].
        apply andb_true_iff in Hguard as [Hguard Hd0].
        apply andb_true_iff in Hguard as [Hs0 Hs1].
        apply Z.leb_le in Hs0, Hd0. apply Z.ltb_lt in Hs1, Hd1.
        unfold valid_vertex. simpl. rewrite Hn.
        destruct (Z.eq_dec v s) as [->|Hne].
        * simpl in Hl. rewrite Hg' in Hl. inversion Hl; subst l.
          apply in_app_or in Hw as [Hw|[<-|[]]]; [|lia].
          destruct (IH s w) as [_ Hww]; [by exists l0|].
          unfold valid_vertex in Hww. simpl in Hww. lia.
        * simpl in Hl. rewrite Hother in Hl by done.
          destruct (IH v w) as [Hvv Hww]; [by exists l|].
          unfold valid_vertex in Hvv, Hww. simpl in Hvv, Hww. lia.
      + rewrite Hadd in Hspec. inversion Hspec; subst g'.
        apply IH. by exists l. }
  split.
  { intros s d. pose proof (AddEdge_spec g s d Hlen) as Hspec.
    destruct (_ && _); [|by eexists].
    destruct Hspec as (g' & _ & Hadd & _). by exists g'. }
  intros sources fuel Hfuel.
  destruct (BFS_correct g sources) with (fuel := fuel)
    as (res & Hrun & Hnd & Hiff); [done|simpl; lia| |done|].
  { intros v _. by apply SimpleGraph_GetEdges_total. }
  exists res. split; [done|]. split; [by apply NoDup_ListNoDup|].
  intros v. rewrite <- list_elem_of_In. apply Hiff.
Qed.

Lemma scenario_graph_built : SimpleGraph_built scenario_graph.
Proof.
  apply (built_edge
           {| sg_numVertices := 5; sg_adjList := [[1]; [2]; []; [1]; []] |}
           1 4); [|reflexivity].
  apply (built_edge
           {| sg_numVertices := 5; sg_adjList := [[1]; [2]; []; []; []] |}
           3 1); [|reflexivity].
  apply (built_edge
           {| sg_numVertices := 5; sg_adjList := [[1]; []; []; []; []] |}
           1 2); [|reflexivity].
  apply (built_edge
           {| sg_numVertices := 5; sg_adjList := [[]; []; []; []; []] |}
           0 1); [|reflexivity].
  apply (built_new 5). reflexivity.
Qed.

Lemma SimpleGraph_built_safe_witness :
  SimpleGraph_built scenario_graph /\
  0 <= NumVertices scenario_graph /\
  (forall v, exists l, GetEdges scenario_graph v = Ok l) /\
  (forall v w, edge scenario_graph v w ->
     valid_vertex scenario_graph v /\ valid_vertex scenario_graph w) /\
  (forall s d, exists g', AddEdge scenario_graph s d = Ok g') /\
  (forall sources fuel, (Z.to_nat (NumVertices scenario_graph) <= fuel)%nat ->
     exists res,
       BFS fuel scenario_graph sources = Ok res /\ List.NoDup res /\
       forall v, In v res <->
         exists s, In s sources /\ valid_vertex scenario_graph s /\
                   reaches scenario_graph s v).
Proof.
  split; [exact scenario_graph_built|].
  exact (SimpleGraph_built_safe scenario_graph scenario_graph_built).
Defined.

Lemma NewSimpleGraph_spec n :
  if (n <? 0) || (24 * n >? maxAlloc) then NewSimpleGraph n = Panic
  else exists g, NewSimpleGraph n = Ok g /\ sg_numVertices g = n /\
         forall v, SimpleGraph_GetEdges g v = Ok [].
Proof.
  unfold NewSimpleGraph, make.
  destruct ((n <? 0) || (24 * n >? maxAlloc)); [done|]. cbn [bind].
  eexists. split; [done|]. split; [done|].
  intros v. unfold SimpleGraph_GetEdges. simpl.
  destruct (_ && _) eqn:Hguard; [|done].
  apply andb_true_iff in Hguard as [Hv0 Hv1].
  apply Z.geb_le in Hv0. apply Z.ltb_lt in Hv1.
  rewrite lookup_replicate_2 by lia. done.
Qed.

(** X8: inserting and looking up edges.  A new graph of [n >= 0]
    vertices, its [n] slice headers of 24 bytes within the allocation
    limit, has no edges; a negative [n] and an [n] above that limit
    panic.  On a graph built from
    it, [AddEdge s d] between two vertices appends [d] to the edge list
    of [s] (a repeated edge is listed again) and leaves the vertex count
    and the edge lists of the other vertices as they are; with [s] or [d]
    outside the graph it changes nothing. *)
Theorem AddEdge_GetEdges (g : SimpleGraph) (s d n : Z) :
  SimpleGraph_built g ->
  (n < 0 \/ maxAlloc < 24 * n -> NewSimpleGraph n = Panic) /\
  (0 <= n -> 24 * n <= maxAlloc ->
   exists g0, NewSimpleGraph n = Ok g0 /\ NumVertices g0 = n /\
              forall v, GetEdges g0 v = Ok []) /\
  (valid_vertex g s -> valid_vertex g d ->
   exists g' l,
     AddEdge g s d = Ok g' /\
     NumVertices g' = NumVertices g /\
     GetEdges g s = Ok l /\
     GetEdges g' s = Ok (l ++ [d]) /\
     forall v, v <> s -> GetEdges g' v = GetEdges g v) /\
  (~ (valid_vertex g s /\ valid_vertex g d) -> AddEdge g s d = Ok g).
Proof.
  intros Hb. pose proof (SimpleGraph_built_wf g Hb) as (Hnv & Hmax & Hlen).
  pose proof (NewSimpleGraph_spec n) as Hnew.
  pose proof (AddEdge_spec g s d Hlen) as Hadd.
  unfold valid_vertex. simpl.
  split; [|split; [|split]].
  - intros Hn. destruct (Z.ltb_spec n 0); [done|].
    destruct (Z.gtb_spec (24 * n) maxAlloc); [done|lia].
  - intros Hn Hsize. destruct (Z.ltb_spec n 0); [lia|].
    destruct (Z.gtb_spec (24 * n) maxAlloc); [lia|done].
  - intros Hs Hd.
    destruct (Z.leb_spec 0 s); [|lia].
    destruct (Z.ltb_spec s (sg_numVertices g)); [|lia].
    destruct (Z.leb_spec 0 d); [|lia].
    destruct (Z.ltb_spec d (sg_numVertices g)); [|lia].
    exact Hadd.
  - intros Hnot.
    destruct (Z.leb_spec 0 s); [|done].
    destruct (Z.ltb_spec s (sg_numVertices g)); [|done].
    destruct (Z.leb_spec 0 d); [|done].
    destruct (Z.ltb_spec d (sg_numVertices g)); [|done].
    exfalso. apply Hnot. lia.
Qed.

Lemma AddEdge_GetEdges_witness :
  SimpleGraph_built scenario_graph /\
  (-1 < 0 \/ maxAlloc < 24 * -1 -> NewSimpleGraph (-1) = Panic) /\
  (0 <= -1 -> 24 * -1 <= maxAlloc ->
   exists g0, NewSimpleGraph (-1) = Ok g0 /\ NumVertices g0 = -1 /\
              forall v, GetEdges g0 v = Ok []) /\
  (valid_vertex scenario_graph 1 -> valid_vertex scenario_graph 4 ->
   exists g' l,
     AddEdge scenario_graph 1 4 = Ok g' /\
     NumVertices g' = NumVertices scenario_graph /\
     GetEdges scenario_graph 1 = Ok l /\
     GetEdges g' 1 = Ok (l ++ [4]) /\
     forall v, v <> 1 -> GetEdges g' v = GetEdges scenario_graph v) /\
  (~ (valid_vertex scenario_graph 1 /\ valid_vertex scenario_graph 4) ->
   AddEdge scenario_graph 1 4 = Ok scenario_graph).
Proof.
  split; [exact scenario_graph_built|].
  exact (AddEdge_GetEdges scenario_graph 1 4 (-1) scenario_graph_built).
Defined.

(** *** Undirected graphs *)

Lemma SimpleGraph_undirected_built g :
  SimpleGraph_undirected g -> SimpleGraph_built g.
Proof.
  induction 1 as [n g Hnew | g a b g' Hu IH Hadd].
  - by eapply built_new.
  - unfold AddUndirectedEdge in Hadd.
    apply bind_Ok_inv in Hadd as (g1 & H1 & H2).
    eapply built_edge; [eapply built_edge|]; done.
Qed.

(** The edges after [AddEdge], as a relation. *)
Lemma AddEdge_edge g s d g' v w :
  SimpleGraph_built g -> AddEdge g s d = Ok g' ->
  (edge g' v w <->
   edge g v w \/ (valid_vertex g s /\ valid_vertex g d /\ v = s /\ w = d)).
Proof.
  intros Hb Hadd. pose proof (SimpleGraph_built_wf g Hb) as (Hnv & Hmax & Hlen).
  pose proof (AddEdge_spec g s d Hlen) as Hspec.
  unfold valid_vertex, edge. simpl.
  destruct (Z.leb_spec 0 s); cbn [andb] in Hspec.
  2:{ rewrite Hadd in Hspec. inversion Hspec; subst. split; [by left|].
      intros [?|?]; [done|lia]. }
  destruct (Z.ltb_spec s (sg_numVertices g)); cbn [andb] in Hspec.
  2:{ rewrite Hadd in Hspec. inversion Hspec; subst. split; [by left|].
      intros [?|?]; [done|lia]. }
  destruct (Z.leb_spec 0 d); cbn [andb] in Hspec.
  2:{ rewrite Hadd in Hspec. inversion Hspec; subst. split; [by left|].
      intros [?|?]; [done|lia]. }
  destruct (Z.ltb_spec d (sg_numVertices g)); cbn [andb] in Hspec.
  2:{ rewrite Hadd in Hspec. inversion Hspec; subst. split; [by left|].
      intros [?|?]; [done|lia]. }
  destruct Hspec as (g1 & l0 & Hadd1 & Hn & Hg & Hg' & Hother).
  rewrite Hadd in Hadd1. inversion Hadd1; subst g1.
  destruct (Z.eq_dec v s) as [->|Hne].
  - rewrite Hg', Hg. split.
    + intros (l & Hl & Hw). inversion Hl; subst l.
      apply in_app_or in Hw as [Hw|[<-|[]]].
      * left. by exists l0.
      * right. lia.
    + intros [(l & Hl & Hw)|(_ & _ & _ & ->)].
      * inversion Hl; subst l. exists (l0 ++ [d]). split; [done|].
        apply in_or_app. by left.
      * exists (l0 ++ [d]). split; [done|]. apply in_or_app. right. by left.
  - rewrite Hother by done. split; [by left|].
    intros [?|(_ & _ & ? & _)]; done.
Qed.

Lemma AddEdge_numVertices g s d g' :
  AddEdge g s d = Ok g' -> sg_numVertices g' = sg_numVertices g.
Proof.
  unfold AddEdge. destruct (_ && _); [|by intros Hg; inversion Hg].
  destruct (sg_adjList g !! Z.to_nat s); [|done].
  by intros Hg; inversion Hg.
Qed.

Lemma SimpleGraph_undirected_symmetric g :
  SimpleGraph_undirected g -> forall v w, edge g v w -> edge g w v.
Proof.
  induction 1 as [n g Hnew | g a b g' Hu IH Hadd]; intros v w He.
  - pose proof (NewSimpleGraph_spec n) as Hspec.
    destruct ((n <? 0) || (24 * n >? maxAlloc));
      [by rewrite Hnew in Hspec|].
    destruct Hspec as (g0 & Hg0 & _ & Hempty).
    rewrite Hnew in Hg0. inversion Hg0; subst g0.
    destruct He as (l & Hl & Hw). simpl in Hl. rewrite Hempty in Hl.
    by inversion Hl; subst.
  - pose proof (SimpleGraph_undirected_built g Hu) as Hb.
    unfold AddUndirectedEdge in Hadd.
    apply bind_Ok_inv in Hadd as (g1 & H1 & H2).
    assert (SimpleGraph_built g1) as Hb1 by (by eapply built_edge).
    pose proof (AddEdge_numVertices _ _ _ _ H1) as Hn1.
    assert (forall x, valid_vertex g1 x <-> valid_vertex g x) as Hval.
    { intros x. unfold valid_vertex. simpl. by rewrite Hn1. }
    apply (AddEdge_edge g1 b a g' v w Hb1 H2) in He.
    apply (AddEdge_edge g1 b a g' w v Hb1 H2).
    rewrite (AddEdge_edge g a b g1 w v Hb H1).
    rewrite (AddEdge_edge g a b g1 v w Hb H1) in He.
    rewrite !Hval. rewrite !Hval in He.
    destruct He as [[He|He]|He].
    + left. left. by apply IH.
    + right. tauto.
    + left. right. tauto.
Qed.

(** X9: in a graph built with [AddUndirectedEdge] only, the edges go
    both ways, and so does reachability: if a search from the vertex [u]
    can reach [v], a search from [v] can reach [u]. *)
Theorem AddUndirectedEdge_symmetric (g : SimpleGraph) :
  SimpleGraph_undirected g ->
  (forall v w, edge g v w <-> edge g w v) /\
  (forall u v, valid_vertex g u -> reaches g u v -> reaches g v u).
Proof.
  intros Hu. pose proof (SimpleGraph_undirected_symmetric g Hu) as Hsym.
  split; [intros v w; split; apply Hsym|].
  intros u v Hval Hr. induction Hr as [u | u v w Hr IH He Hw].
  - apply reaches_refl.
  - specialize (IH Hval).
    pose proof (reaches_valid g u v Hval Hr) as Hv.
    apply (reaches_trans g w v u); [|done].
    eapply reaches_step; [apply reaches_refl|by apply Hsym|done].
Qed.

Lemma undirected_pair :
  SimpleGraph_undirected
    {| sg_numVertices := 2; sg_adjList := [[1]; [0]] |}.
Proof.
  apply (undirected_edge
           {| sg_numVertices := 2; sg_adjList := [[]; []] |} 0 1);
    [|reflexivity].
  apply (undirected_new 2). reflexivity.
Qed.

Lemma AddUndirectedEdge_symmetric_witness :
  SimpleGraph_undirected {| sg_numVertices := 2; sg_adjList := [[1]; [0]] |} /\
  (forall v w,
     edge {| sg_numVertices := 2; sg_adjList := [[1]; [0]] |} v w <->
     edge {| sg_numVertices := 2; sg_adjList := [[1]; [0]] |} w v) /\
  (forall u v,
     valid_vertex {| sg_numVertices := 2; sg_adjList := [[1]; [0]] |} u ->
     reaches {| sg_numVertices := 2; sg_adjList := [[1]; [0]] |} u v ->
     reaches {| sg_numVertices := 2; sg_adjList := [[1]; [0]] |} v u).
Proof.
  split; [exact undirected_pair|].
  exact (AddUndirectedEdge_symmetric _ undirected_pair).
Defined.

(** ** The visited marker *)

Lemma IsReachable_lookup m w :
  IsReachable m w =
  Ok ((0 <=? w) && default false (svm_visited m !! Z.to_nat w)).
Proof.
  unfold IsReachable. rewrite Z.geb_leb.
  destruct (Z.leb_spec 0 w); cbn [andb]; [|done].
  destruct (Z.ltb_spec w (Z.of_nat (length (svm_visited m)))).
  - destruct (svm_visited m !! Z.to_nat w) as [b|] eqn:Hl; [done|].
    apply lookup_ge_None in Hl. lia.
  - rewrite (proj2 (lookup_ge_None _ _)) by lia. done.
Qed.

Lemma reset_loop (count : nat) : forall (i : nat) (vis : list bool),
  (i + count <= length vis)%nat ->
  exists vis',
    for_loop count (Z.of_nat i)
      (fun j (vis : list bool) =>
         match vis !! Z.to_nat j with
         | Some _ => Ok (<[Z.to_nat j := false]> vis)
         | None => Panic
         end) vis = Ok vis' /\
    length vis' = length vis /\
    forall k, vis' !! k =
      if bool_decide (i <= k < i + count)%nat then Some false else vis !! k.
Proof.
  induction count as [|c IH]; intros i vis Hlen.
  - exists vis. split; [done|]. split; [done|]. intros k.
    rewrite bool_decide_eq_false_2 by lia. done.
  - simpl for_loop. rewrite Nat2Z.id.
    destruct (vis !! i) as [b|] eqn:Hl.
    2:{ apply lookup_ge_None in Hl. lia. }
    cbn [bind].
    destruct (IH (Datatypes.S i) (<[i := false]> vis))
      as (vis' & Hrun & Hlen' & Hlook).
    { rewrite length_insert. lia. }
    exists vis'. replace (Z.of_nat i + 1) with (Z.of_nat (Datatypes.S i)) by lia.
    split; [done|]. split; [by rewrite Hlen', length_insert|].
    intros k. rewrite Hlook.
    destruct (decide (k = i)) as [->|Hne].
    + rewrite bool_decide_eq_false_2 by lia.
      rewrite bool_decide_eq_true_2 by lia.
      apply list_lookup_insert_eq. by apply lookup_lt_Some in Hl.
    + rewrite list_lookup_insert_ne by done.
      destruct (decide (i <= k < i + Datatypes.S c)%nat).
      * rewrite !bool_decide_eq_true_2 by lia. done.
      * rewrite !bool_decide_eq_false_2 by lia. done.
Qed.

Lemma GetReachableVertices_filter m :
  GetReachableVertices m =
  Ok (List.filter (fun i => default false (svm_visited m !! Z.to_nat i))
                  (seqZ 0 (Z.of_nat (length (svm_visited m))))).
Proof.
  unfold GetReachableVertices, for_range. rewrite Z.sub_0_r, Nat2Z.id.
  rewrite (for_loop_append
             (fun i => if default false (svm_visited m !! Z.to_nat i)
                       then [i] else [])).
  - simpl. f_equal.
    induction (seqZ 0 (Z.of_nat (length (svm_visited m)))) as [|x l IH];
      [done|].
    simpl. destruct (default false _); simpl; by rewrite IH.
  - intros j t Hj.
    destruct (svm_visited m !! Z.to_nat j) as [b|] eqn:Hl.
    + simpl. destruct b; [done|by rewrite app_nil_r].
    + apply lookup_ge_None in Hl. lia.
Qed.

(** X10: the visited marker.  A new marker of [n] entries, [n] in
    [[0, 2^48]], marks nothing; the constructor panics on a negative [n]
    and on an [n] above the allocation limit.  After [MarkReachable v]
    exactly [v], when it is an index of the marker, is marked besides
    what was marked before (an index outside changes nothing);
    [GetReachableVertices] lists exactly the marked indices, in strictly
    increasing order; after [Reset] nothing is marked.  None of the
    methods panics. *)
Theorem SimpleVisitedMarker_marks (m : SimpleVisitedMarker) (v n : Z) :
  (0 <= n <= maxAlloc ->
     exists m0, NewSimpleVisitedMarker n = Ok m0 /\
                forall w, IsReachable m0 w = Ok false) /\
  (n < 0 \/ maxAlloc < n -> NewSimpleVisitedMarker n = Panic) /\
  (exists m',
     MarkReachable m v = Ok m' /\
     forall w, IsReachable m' w =
       if (w =? v) && (0 <=? v) && (v <? Z.of_nat (length (svm_visited m)))
       then Ok true else IsReachable m w) /\
  (exists l,
     GetReachableVertices m = Ok l /\ StronglySorted Z.lt l /\
     forall w, In w l <-> IsReachable m w = Ok true) /\
  (exists m0,
     Reset m = Ok m0 /\ (forall w, IsReachable m0 w = Ok false) /\
     GetReachableVertices m0 = Ok []).
Proof.
  split; [|split; [|split; [|split]]].
  - intros Hn. unfold NewSimpleVisitedMarker.
    rewrite make_Ok by lia. cbn [bind]. eexists. split; [done|].
    intros w. rewrite IsReachable_lookup. simpl.
    destruct (replicate (Z.to_nat n) false !! Z.to_nat w) as [b|] eqn:Hl.
    + apply lookup_replicate in Hl as [-> _]. by rewrite andb_false_r.
    + by rewrite andb_false_r.
  - intros Hn. unfold NewSimpleVisitedMarker.
    rewrite make_Panic; [done|lia].
  - unfold MarkReachable. rewrite Z.geb_leb.
    destruct (Z.leb_spec 0 v); cbn [andb].
    2:{ exists m. split; [done|]. intros w. by rewrite andb_false_r. }
    destruct (Z.ltb_spec v (Z.of_nat (length (svm_visited m)))).
    2:{ exists m. split; [done|]. intros w. by rewrite andb_false_r. }
    destruct (svm_visited m !! Z.to_nat v) as [b|] eqn:Hl.
    2:{ apply lookup_ge_None in Hl. lia. }
    eexists. split; [done|]. intros w.
    rewrite !IsReachable_lookup. simpl. rewrite !andb_true_r.
    destruct (Z.eqb_spec w v) as [->|Hne].
    + rewrite list_lookup_insert_eq by (by apply lookup_lt_Some in Hl).
      simpl. by destruct (Z.leb_spec 0 v); [|lia].
    + destruct (Z.leb_spec 0 w); cbn [andb]; [|done].
      rewrite list_lookup_insert_ne by lia. done.
  - eexists. split; [apply GetReachableVertices_filter|].
    split; [apply filter_sorted, seqZ_sorted|].
    intros w. rewrite filter_In, in_seqZ_0, IsReachable_lookup.
    split.
    + intros [Hw Hb]. rewrite Hb. by destruct (Z.leb_spec 0 w); [|lia].
    + intros Hb.
      assert ((0 <=? w) && default false (svm_visited m !! Z.to_nat w) = true)
        as Hb' by congruence.
      clear Hb. apply andb_true_iff in Hb' as [H0 Hb'].
      apply Z.leb_le in H0. rewrite Hb'. split; [|done].
      destruct (svm_visited m !! Z.to_nat w) as [b|] eqn:Hl; [|done].
      apply lookup_lt_Some in Hl. lia.
  - unfold Reset, for_range. rewrite Z.sub_0_r, Nat2Z.id.
    destruct (reset_loop (length (svm_visited m)) 0 (svm_visited m))
      as (vis' & Hrun & Hlen & Hlook); [lia|].
    change (Z.of_nat 0) with 0 in Hrun. rewrite Hrun. cbn [bind].
    eexists. split; [done|].
    assert (forall k, default false (vis' !! k) = false) as Hfalse.
    { intros k. rewrite Hlook.
      destruct (decide (k < length (svm_visited m))%nat).
      - rewrite bool_decide_eq_true_2 by lia. done.
      - rewrite bool_decide_eq_false_2 by lia.
        rewrite (proj2 (lookup_ge_None _ _)) by lia. done. }
    split.
    + intros w. rewrite IsReachable_lookup. simpl.
      by rewrite Hfalse, andb_false_r.
    + rewrite GetReachableVertices_filter. simpl. f_equal.
      induction (seqZ 0 (Z.of_nat (length vis'))) as [|x l IH]; [done|].
      simpl. by rewrite Hfalse.
Qed.

(** ** Recovery characteristics: further properties *)

Lemma reachableSet_lookup (R : list Z) (m0 : gmap Z bool) k :
  foldl (fun (m : gmap Z bool) v => <[v := true]> m) m0 R !! k =
  if bool_decide (k ∈ R) then Some true else m0 !! k.
Proof.
  revert m0. induction R as [|x R IH]; intros m0.
  - case_bool_decide as Hin; [by apply elem_of_nil in Hin|done].
  - change (foldl _ m0 (x :: R))
      with (foldl (fun (m : gmap Z bool) v => <[v := true]> m)
                  (<[x := true]> m0) R).
    rewrite IH.
    case_bool_decide as Hin; case_bool_decide as Hin'; try done.
    + exfalso. apply Hin'. by right.
    + apply elem_of_cons in Hin' as [->|?]; [|done].
      by rewrite lookup_insert_eq.
    + rewrite lookup_insert_ne; [done|].
      intros <-. apply Hin'. by left.
Qed.

Lemma reachableSet_of_ext R R' :
  (forall v, In v R <-> In v R') -> reachableSet_of R = reachableSet_of R'.
Proof.
  intros Hsame. apply map_eq. intros k. unfold reachableSet_of.
  rewrite !reachableSet_lookup.
  destruct (decide (k ∈ R)) as [Hin|Hout].
  - rewrite !bool_decide_eq_true_2; [done| |done].
    apply list_elem_of_In, Hsame, list_elem_of_In. done.
  - rewrite !bool_decide_eq_false_2; [done| |done].
    intros Hin. apply Hout. apply list_elem_of_In, Hsame, list_elem_of_In. done.
Qed.

(** X11: the characteristics depend on the reachable list only as a set:
    two lists with the same elements, in any order and with any
    repetitions, give the same outcome, for every [N], [K] and fuel. *)
Theorem characteristics_depend_on_set (fuel : nat) (N K : Z) (R R' : list Z) :
  (forall v, In v R <-> In v R') ->
  CalculateRecoveryCharacteristicsFromReachable fuel N K R =
  CalculateRecoveryCharacteristicsFromReachable fuel N K R'.
Proof.
  intros Hsame. unfold CalculateRecoveryCharacteristicsFromReachable.
  fold (reachableSet_of R). fold (reachableSet_of R').
  by rewrite (reachableSet_of_ext R R' Hsame).
Qed.

Lemma characteristics_depend_on_set_witness :
  (forall v, In v [3; 5; 6; 7] <-> In v [7; 6; 3; 5; 3]) /\
  CalculateRecoveryCharacteristicsFromReachable 8 2 1 [3; 5; 6; 7] =
  CalculateRecoveryCharacteristicsFromReachable 8 2 1 [7; 6; 3; 5; 3].
Proof.
  assert (forall v, In v [3; 5; 6; 7] <-> In v [7; 6; 3; 5; 3]) as H
    by (intros v; simpl; tauto).
  split; [exact H|].
  exact (characteristics_depend_on_set 8 2 1 [3; 5; 6; 7] [7; 6; 3; 5; 3] H).
Defined.

(** *** Runs are loss patterns *)

Lemma filter_all {A} (f : A -> bool) l :
  (forall x, In x l -> f x = true) -> List.filter f l = l.
Proof.
  induction l as [|x l IH]; intros Hf; simpl; [done|].
  rewrite (Hf x) by (by left). f_equal. apply IH. intros y Hy. apply Hf. by right.
Qed.

Lemma bitcount_run_pattern total start len :
  0 <= start -> 0 <= len -> start + len <= total ->
  bitcount total (run_pattern start len) = len.
Proof.
  intros Hs Hl Ht. unfold bitcount.
  replace total with (start + (len + (total - start - len))) by lia.
  rewrite seqZ_app, seqZ_app by lia.
  rewrite !List.filter_app, !length_app.
  rewrite (filter_none _ (seqZ 0 start)).
  2:{ intros i Hi. apply in_seqZ_0 in Hi.
      rewrite run_pattern_bits by lia.
      destruct (Z.leb_spec start i); [lia|done]. }
  rewrite (filter_none _ (seqZ (0 + start + len) _)).
  2:{ intros i Hi. apply list_elem_of_In, elem_of_seqZ in Hi.
      rewrite run_pattern_bits by lia.
      destruct (Z.ltb_spec i (start + len)); [lia|]. apply andb_false_r. }
  rewrite filter_all.
  2:{ intros i Hi. apply list_elem_of_In, elem_of_seqZ in Hi.
      rewrite run_pattern_bits by lia.
      destruct (Z.leb_spec start i); [|lia].
      destruct (Z.ltb_spec i (start + len)); [done|lia]. }
  rewrite length_seqZ. simpl. lia.
Qed.

Lemma run_fails_loss_count_fails total R len :
  0 <= len -> run_fails total R len -> loss_count_fails total R len.
Proof.
  intros Hl (start & Hs & Hf). exists (run_pattern start len).
  split; [apply run_pattern_range; lia|].
  split; [apply bitcount_run_pattern; lia|done].
Qed.

(** X12: for [N + K <= 62] each of the two fields is [-1] or lies in
    [[1, N+K]], and whenever some run of consecutive losses cannot be
    recovered the minimum number of losses is defined and is at most the
    minimum run length: [MinLost <= MinConsecutive]; with no
    non-recoverable loss pattern at all ([MinLost = -1]) there is no
    non-recoverable run either. *)
Theorem min_lost_at_most_min_consecutive (N K : Z) (R : list Z) (fuel : nat) :
  0 <= N -> 0 <= K -> N + K <= 62 ->
  (Z.to_nat (2 ^ (N + K)) <= fuel)%nat ->
  exists rc,
    CalculateRecoveryCharacteristicsFromReachable fuel N K R = Ok rc /\
    (MinLostPacketsForNonRecovery rc = -1 \/
     1 <= MinLostPacketsForNonRecovery rc <= N + K) /\
    (MinConsecutiveLostForNonRecovery rc = -1 \/
     1 <= MinConsecutiveLostForNonRecovery rc <= N + K) /\
    (MinLostPacketsForNonRecovery rc = -1 ->
     MinConsecutiveLostForNonRecovery rc = -1) /\
    (MinConsecutiveLostForNonRecovery rc <> -1 ->
     1 <= MinLostPacketsForNonRecovery rc <=
       MinConsecutiveLostForNonRecovery rc).
Proof.
  intros HN HK Hs Hfuel.
  destruct (CalculateRecoveryCharacteristics_spec R fuel N K HN HK Hs Hfuel)
    as (rc & Hrc & H1 & H2).
  exists rc. split; [done|].
  destruct H1 as [[Hl1 Hnone1]|(Hr1 & Hf1 & Hmin1)];
    destruct H2 as [[Hl2 Hnone2]|(Hr2 & Hf2 & Hmin2)].
  - rewrite Hl1, Hl2. split; [by left|]. split; [by left|]. done.
  - exfalso. apply (Hnone1 _ Hr2).
    apply run_fails_loss_count_fails; [lia|done].
  - rewrite Hl2. split; [by right|]. split; [by left|]. split; [lia|done].
  - split; [by right|]. split; [by right|]. split; [lia|].
    intros _. split; [lia|].
    destruct (Z_le_gt_dec (MinLostPacketsForNonRecovery rc)
                          (MinConsecutiveLostForNonRecovery rc)); [done|].
    exfalso. apply (Hmin1 (MinConsecutiveLostForNonRecovery rc)); [lia|].
    apply run_fails_loss_count_fails; [lia|done].
Qed.

Lemma min_lost_at_most_min_consecutive_witness :
  (0 <= 2 /\ 0 <= 1 /\ 2 + 1 <= 62 /\ (Z.to_nat (2 ^ (2 + 1)) <= 8)%nat) /\
  exists rc,
    CalculateRecoveryCharacteristicsFromReachable 8 2 1 [3; 5; 6; 7] = Ok rc /\
    (MinLostPacketsForNonRecovery rc = -1 \/
     1 <= MinLostPacketsForNonRecovery rc <= 2 + 1) /\
    (MinConsecutiveLostForNonRecovery rc = -1 \/
     1 <= MinConsecutiveLostForNonRecovery rc <= 2 + 1) /\
    (MinLostPacketsForNonRecovery rc = -1 ->
     MinConsecutiveLostForNonRecovery rc = -1) /\
    (MinConsecutiveLostForNonRecovery rc <> -1 ->
     1 <= MinLostPacketsForNonRecovery rc <=
       MinConsecutiveLostForNonRecovery rc).
Proof.
  assert (0 <= 2) as H1 by lia.
  assert (0 <= 1) as H2 by lia.
  assert (2 + 1 <= 62) as H3 by lia.
  assert (Z.to_nat (2 ^ (2 + 1)) <= 8)%nat as H4 by (vm_compute; lia).
  split; [done|].
  exact (min_lost_at_most_min_consecutive 2 1 [3; 5; 6; 7] 8 H1 H2 H3 H4).
Defined.

(** *** More reachable vertices *)

Lemma min_failing_antitone (fails fails' : Z -> Prop) total r r' :
  (forall m, fails' m -> fails m) ->
  min_failing fails total r -> min_failing fails' total r' ->
  r' = -1 \/ (1 <= r <= r').
Proof.
  intros Himp [[-> Hnone]|(Hr & Hf & Hmin)] [[-> Hnone']|(Hr' & Hf' & Hmin')].
  - by left.
  - exfalso. apply (Hnone r' Hr'). by apply Himp.
  - by left.
  - right. split; [lia|].
    destruct (Z_le_gt_dec r r'); [done|].
    exfalso. apply (Hmin r'); [lia|]. by apply Himp.
Qed.

(** X13: reaching more vertices never lowers the thresholds.  For
    [N + K <= 62] and reachable lists with [R] contained in [R'], each
    field computed from [R'] is [-1] (no non-recoverable pattern), or the
    field computed from [R] is defined and not above it. *)
Theorem characteristics_monotone (N K : Z) (R R' : list Z) (fuel : nat) :
  0 <= N -> 0 <= K -> N + K <= 62 ->
  (Z.to_nat (2 ^ (N + K)) <= fuel)%nat ->
  (forall v, In v R -> In v R') ->
  exists rc rc',
    CalculateRecoveryCharacteristicsFromReachable fuel N K R = Ok rc /\
    CalculateRecoveryCharacteristicsFromReachable fuel N K R' = Ok rc' /\
    (MinLostPacketsForNonRecovery rc' = -1 \/
     1 <= MinLostPacketsForNonRecovery rc <=
       MinLostPacketsForNonRecovery rc') /\
    (MinConsecutiveLostForNonRecovery rc' = -1 \/
     1 <= MinConsecutiveLostForNonRecovery rc <=
       MinConsecutiveLostForNonRecovery rc').
Proof.
  intros HN HK Hs Hfuel Hsub.
  destruct (CalculateRecoveryCharacteristics_spec R fuel N K HN HK Hs Hfuel)
    as (rc & Hrc & H1 & H2).
  destruct (CalculateRecoveryCharacteristics_spec R' fuel N K HN HK Hs Hfuel)
    as (rc' & Hrc' & H1' & H2').
  exists rc, rc'. split; [done|]. split; [done|]. split.
  - eapply min_failing_antitone; [|exact H1|exact H1'].
    intros m (lp & Hlp & Hc & Hf). exists lp. split; [done|]. split; [done|].
    intros Hin. apply Hf. by apply Hsub.
  - eapply min_failing_antitone; [|exact H2|exact H2'].
    intros m (start & Hst & Hf). exists start. split; [done|].
    intros Hin. apply Hf. by apply Hsub.
Qed.

Lemma characteristics_monotone_witness :
  (0 <= 2 /\ 0 <= 1 /\ 2 + 1 <= 62 /\ (Z.to_nat (2 ^ (2 + 1)) <= 8)%nat /\
   (forall v, In v [7] -> In v [3; 5; 6; 7])) /\
  exists rc rc',
    CalculateRecoveryCharacteristicsFromReachable 8 2 1 [7] = Ok rc /\
    CalculateRecoveryCharacteristicsFromReachable 8 2 1 [3; 5; 6; 7] = Ok rc' /\
    (MinLostPacketsForNonRecovery rc' = -1 \/
     1 <= MinLostPacketsForNonRecovery rc <=
       MinLostPacketsForNonRecovery rc') /\
    (MinConsecutiveLostForNonRecovery rc' = -1 \/
     1 <= MinConsecutiveLostForNonRecovery rc <=
       MinConsecutiveLostForNonRecovery rc').
Proof.
  assert (0 <= 2) as H1 by lia.
  assert (0 <= 1) as H2 by lia.
  assert (2 + 1 <= 62) as H3 by lia.
  assert (Z.to_nat (2 ^ (2 + 1)) <= 8)%nat as H4 by (vm_compute; lia).
  assert (forall v, In v [7] -> In v [3; 5; 6; 7]) as H5
    by (intros v; simpl; tauto).
  split; [done|].
  exact (characteristics_monotone 2 1 [7] [3; 5; 6; 7] 8 H1 H2 H3 H4 H5).
Defined.

(** X14: the edge cases of the packet count and of the reachable list.
    With no packet at all ([N = K = 0]) both fields are [-1], whatever
    the list and the fuel; with an empty reachable list and
    [1 <= N + K <= 62] both fields are 1. *)
Theorem characteristics_edge_cases (N K : Z) (R : list Z) (fuel : nat) :
  0 <= N -> 0 <= K -> 1 <= N + K <= 62 ->
  (Z.to_nat (2 ^ (N + K)) <= fuel)%nat ->
  CalculateRecoveryCharacteristicsFromReachable fuel 0 0 R =
    Ok {| MinLostPacketsForNonRecovery := -1;
          MinConsecutiveLostForNonRecovery := -1 |} /\
  CalculateRecoveryCharacteristicsFromReachable fuel N K [] =
    Ok {| MinLostPacketsForNonRecovery := 1;
          MinConsecutiveLostForNonRecovery := 1 |}.
Proof.
  intros HN HK Hs Hfuel. split; [reflexivity|].
  destruct (CalculateRecoveryCharacteristics_spec [] fuel N K HN HK
              ltac:(lia) Hfuel) as (rc & Hrc & H1 & H2).
  rewrite Hrc. f_equal. destruct rc as [r1 r2]. simpl in H1, H2.
  assert (run_fails (N + K) [] 1) as Hrun.
  { exists 0. split; [lia|]. intros []. }
  assert (loss_count_fails (N + K) [] 1) as Hloss.
  { apply run_fails_loss_count_fails; [lia|done]. }
  f_equal.
  - destruct H1 as [[_ Hnone]|(Hr & _ & Hmin)].
    + exfalso. apply (Hnone 1); [lia|done].
    + destruct (Z.eq_dec r1 1); [done|].
      exfalso. apply (Hmin 1); [lia|done].
  - destruct H2 as [[_ Hnone]|(Hr & _ & Hmin)].
    + exfalso. apply (Hnone 1); [lia|done].
    + destruct (Z.eq_dec r2 1); [done|].
      exfalso. apply (Hmin 1); [lia|done].
Qed.

Lemma characteristics_edge_cases_witness :
  (0 <= 2 /\ 0 <= 1 /\ 1 <= 2 + 1 <= 62 /\
   (Z.to_nat (2 ^ (2 + 1)) <= 8)%nat) /\
  CalculateRecoveryCharacteristicsFromReachable 8 0 0 [0] =
    Ok {| MinLostPacketsForNonRecovery := -1;
          MinConsecutiveLostForNonRecovery := -1 |} /\
  CalculateRecoveryCharacteristicsFromReachable 8 2 1 [] =
    Ok {| MinLostPacketsForNonRecovery := 1;
          MinConsecutiveLostForNonRecovery := 1 |}.
Proof.
  assert (0 <= 2) as H1 by lia.
  assert (0 <= 1) as H2 by lia.
  assert (1 <= 2 + 1 <= 62) as H3 by lia.
  assert (Z.to_nat (2 ^ (2 + 1)) <= 8)%nat as H4 by (vm_compute; lia).
  split; [done|].
  exact (characteristics_edge_cases 2 1 [0] 8 H1 H2 H3 H4).
Defined.

(** ** Loss models: further properties *)

Lemma count_step_bitcount v (n : nat) :
  iter_bits count_step (0, 0) (tbits v) n =
  (bitcount (Z.of_nat n) v, Z.of_nat n - bitcount (Z.of_nat n) v).
Proof.
  induction n as [|n IH].
  - simpl. by rewrite bitcount_0.
  - simpl iter_bits. rewrite IH. rewrite Nat2Z.inj_succ. unfold Z.succ.
    rewrite bitcount_succ by lia. unfold count_step, tbits.
    destruct (Z.testbit v (Z.of_nat n)); simpl; f_equal; lia.
Qed.

Lemma iter_bits_step_ext {A} (step step' : bool -> A -> A) init bits n :
  (forall b a, step b a = step' b a) ->
  iter_bits step init bits n = iter_bits step' init bits n.
Proof.
  intros Hs. induction n as [|n IH]; [done|]. simpl. by rewrite IH, Hs.
Qed.

Lemma random_counts v N :
  1 <= N <= 63 ->
  iter_bits count_step (0, 0) (mbits v) (Z.to_nat N) =
  (bitcount N v, N - bitcount N v).
Proof.
  intros HN.
  rewrite (iter_bits_ext _ _ (mbits v) (tbits v)).
  2:{ intros k Hk. apply (mbits_tbits v N); [lia|done]. }
  rewrite count_step_bitcount. by rewrite Z2Nat.id by lia.
Qed.

(** X15: the random model in closed form.  For [1 <= N <= 63] the
    probability of a vertex is [p^(N - ones) * (1-p)^ones], [ones] being
    the number of bits set among the low [N] bits of the vertex; for
    [N <= 0] it is 0. *)
Theorem RandomLossModel_closed_form (p : Q) (v N : Z) :
  1 <= N <= 63 ->
  RandomLossModel_CalculateProbability (NewRandomLossModel p) v N =
    Ok (p ^ (N - bitcount N v) * (1 - p) ^ bitcount N v)%Q /\
  forall N', N' <= 0 ->
    RandomLossModel_CalculateProbability (NewRandomLossModel p) v N' = Ok 0%Q.
Proof.
  intros HN. split.
  - rewrite RandomLossModel_CalculateProbability_eq by (unfold max_int; lia).
    by rewrite random_counts.
  - intros N' HN'. unfold RandomLossModel_CalculateProbability.
    by destruct (Z.leb_spec N' 0); [|lia].
Qed.

Lemma RandomLossModel_closed_form_witness :
  1 <= 3 <= 63 /\
  RandomLossModel_CalculateProbability (NewRandomLossModel (1 # 4)) 5 3 =
    Ok ((1 # 4) ^ (3 - bitcount 3 5) * (1 - (1 # 4)) ^ bitcount 3 5)%Q /\
  forall N', N' <= 0 ->
    RandomLossModel_CalculateProbability (NewRandomLossModel (1 # 4)) 5 N' =
    Ok 0%Q.
Proof.
  assert (1 <= 3 <= 63) as H by lia.
  split; [exact H|]. exact (RandomLossModel_closed_form (1 # 4) 5 3 H).
Defined.

(** *** Only the low bits of the vertex are read *)

Lemma ge_value_set_cache m c v N :
  ge_value (set_cache m c) v N = ge_value m v N.
Proof.
  unfold ge_value, dp_rows. simpl.
  rewrite !(iter_bits_step_ext (dp_row (set_cache m c)) (dp_row m))
    by (intros b [x y]; reflexivity).
  done.
Qed.

Lemma ge_value_low_bits m v v' N :
  1 <= N <= 63 ->
  (forall i, 0 <= i < N -> Z.testbit v i = Z.testbit v' i) ->
  ge_value m v N = ge_value m v' N.
Proof.
  intros HN Hbits. unfold ge_value, dp_rows.
  rewrite !(iter_bits_ext _ _ (mbits v) (mbits v'))
    by (intros k Hk; unfold mbits; rewrite !mbit_testbit by lia;
        apply Hbits; lia).
  done.
Qed.

(** X16: both models read only the [N] low bits of the vertex: for
    [1 <= N <= 63], two vertices that agree on the bits [0 .. N-1] get
    the same probability (for the Gilbert-Elliott model the two calls
    differ only in the cache entries they leave). *)
Theorem probability_reads_low_bits (N v v' : Z) :
  1 <= N <= 63 ->
  (forall i, 0 <= i < N -> Z.testbit v i = Z.testbit v' i) ->
  (forall p,
     RandomLossModel_CalculateProbability (NewRandomLossModel p) v N =
     RandomLossModel_CalculateProbability (NewRandomLossModel p) v' N) /\
  (forall m : GilbertElliotLossModel, GE_reachable m ->
     exists q m1 m2,
       CalculateProbability m v N = Ok (q, m1) /\
       CalculateProbability m v' N = Ok (q, m2)).
Proof.
  intros HN Hbits. assert (0 < N <= max_int) as HN' by (unfold max_int; lia).
  assert (0 < N < 2 ^ 44) as HN'' by lia.
  split.
  - intros p.
    rewrite !RandomLossModel_CalculateProbability_eq by done.
    rewrite !random_counts by done.
    by rewrite (bitcount_ext N v v' Hbits).
  - intros m Hr. pose proof (GE_reachable_valid m Hr) as Hvalid.
    destruct (GE_CalculateProbability_eq m v N Hvalid HN'') as (c1 & H1 & _).
    destruct (GE_CalculateProbability_eq m v' N Hvalid HN'') as (c2 & H2 & _).
    eexists _, _, _. split; [exact H1|].
    rewrite (ge_value_low_bits m v v' N HN Hbits). exact H2.
Qed.

Lemma probability_reads_low_bits_witness :
  (1 <= 3 <= 63 /\
   (forall i, 0 <= i < 3 -> Z.testbit 5 i = Z.testbit 13 i)) /\
  (forall p,
     RandomLossModel_CalculateProbability (NewRandomLossModel p) 5 3 =
     RandomLossModel_CalculateProbability (NewRandomLossModel p) 13 3) /\
  (forall m : GilbertElliotLossModel, GE_reachable m ->
     exists q m1 m2,
       CalculateProbability m 5 3 = Ok (q, m1) /\
       CalculateProbability m 13 3 = Ok (q, m2)).
Proof.
  assert (1 <= 3 <= 63) as H by lia.
  assert (forall i, 0 <= i < 3 -> Z.testbit 5 i = Z.testbit 13 i) as Hb.
  { intros i Hi. assert (i = 0 \/ i = 1 \/ i = 2) as [->|[->| ->]] by lia;
      reflexivity. }
  split; [split; [exact H|exact Hb]|].
  exact (probability_reads_low_bits 3 5 13 H Hb).
Defined.

(** *** Probabilities lie between 0 and 1 *)

Lemma emit_product_bounds p bits n :
  (0 <= p <= 1)%Q ->
  (0 <= iter_bits (emit_step p) 1 bits n <= 1)%Q.
Proof.
  intros Hp. induction n as [|n IH]; simpl; [lra|].
  unfold emit_step at 1 3, emit. destruct (bits n); nra.
Qed.

Lemma dp_row_bounds m b r :
  (0 <= Pe0 m <= 1)%Q -> (0 <= Pe1 m <= 1)%Q ->
  (0 <= P01 m <= 1)%Q -> (0 <= P10 m <= 1)%Q ->
  (0 <= fst r)%Q -> (0 <= snd r)%Q ->
  (0 <= fst (dp_row m b r))%Q /\ (0 <= snd (dp_row m b r))%Q /\
  (row_total (dp_row m b r) <= row_total r)%Q.
Proof.
  intros He0 He1 H01 H10. destruct r as [x y]. simpl. intros Hx Hy.
  unfold row_total. simpl.
  assert (0 <= x * (1 - P01 m))%Q by nra.
  assert (0 <= y * P10 m)%Q by nra.
  assert (0 <= x * P01 m)%Q by nra.
  assert (0 <= y * (1 - P10 m))%Q by nra.
  destruct b.
  - assert (0 <= x * (1 - P01 m) * (1 - Pe0 m) <= x * (1 - P01 m))%Q by nra.
    assert (0 <= y * P10 m * (1 - Pe0 m) <= y * P10 m)%Q by nra.
    assert (0 <= x * P01 m * (1 - Pe1 m) <= x * P01 m)%Q by nra.
    assert (0 <= y * (1 - P10 m) * (1 - Pe1 m) <= y * (1 - P10 m))%Q by nra.
    split; [lra|]. split; lra.
  - assert (0 <= x * (1 - P01 m) * Pe0 m <= x * (1 - P01 m))%Q by nra.
    assert (0 <= y * P10 m * Pe0 m <= y * P10 m)%Q by nra.
    assert (0 <= x * P01 m * Pe1 m <= x * P01 m)%Q by nra.
    assert (0 <= y * (1 - P10 m) * Pe1 m <= y * (1 - P10 m))%Q by nra.
    split; [lra|]. split; lra.
Qed.

Lemma dp_rows_bounds m v initState n :
  (0 <= Pe0 m <= 1)%Q -> (0 <= Pe1 m <= 1)%Q ->
  (0 <= P01 m <= 1)%Q -> (0 <= P10 m <= 1)%Q ->
  (0 <= fst (dp_rows m v initState n))%Q /\
  (0 <= snd (dp_rows m v initState n))%Q /\
  (row_total (dp_rows m v initState n) <= 1)%Q.
Proof.
  intros He0 He1 H01 H10. unfold dp_rows. induction n as [|n IH].
  - simpl. unfold init_row, row_total. destruct (initState =? 0); simpl; lra.
  - simpl iter_bits. destruct IH as (IH0 & IH1 & IHt).
    destruct (dp_row_bounds m (mbits v n) _ He0 He1 H01 H10 IH0 IH1)
      as (H0 & H1 & Ht).
    split; [done|]. split; [done|]. lra.
Qed.

Lemma steady_state_bounds m :
  GE_reachable m -> (0 <= P01 m)%Q -> (0 <= P10 m)%Q ->
  (0 <= steadyState0 m)%Q /\ (0 <= steadyState1 m)%Q.
Proof.
  intros Hr. destruct (GE_reachable_shape m Hr)
    as (pe0 & pe1 & p01 & p10 & c & ->).
  unfold NewGilbertElliotLossModel.
  destruct (Qlt_le_dec 0 (p01 + p10)) as [Hd|Hd]; simpl; intros H01 H10.
  - split; apply Qle_shift_div_l; (done || lra).
  - split; lra.
Qed.

(** X17: with parameters that are probabilities, the results are
    probabilities.  For every vertex and every [N] (a machine integer)
    the random model with [0 <= p <= 1] returns a value in [[0, 1]]; so
    does, for [N < 2^44], a Gilbert-Elliott model with its four
    parameters in [[0, 1]] in any state it can reach; from [N = 2^44] on
    the table of the Gilbert-Elliott model is above the allocation limit
    and the call panics. *)
Theorem probabilities_in_unit_interval (N v : Z) :
  N <= max_int ->
  (forall p, (0 <= p <= 1)%Q ->
     exists q,
       RandomLossModel_CalculateProbability (NewRandomLossModel p) v N = Ok q /\
       (0 <= q <= 1)%Q) /\
  (forall m : GilbertElliotLossModel, GE_reachable m ->
     (0 <= Pe0 m <= 1)%Q -> (0 <= Pe1 m <= 1)%Q ->
     (0 <= P01 m <= 1)%Q -> (0 <= P10 m <= 1)%Q ->
     N < 2 ^ 44 ->
     exists q m',
       CalculateProbability m v N = Ok (q, m') /\ (0 <= q <= 1)%Q) /\
  (forall m : GilbertElliotLossModel, GE_reachable m ->
     2 ^ 44 <= N -> CalculateProbability m v N = Panic).
Proof.
  intros HN. split; [|split].
  3:{ intros m Hr Hbig. apply GE_CalculateProbability_Panic;
        [by apply GE_reachable_valid|lia]. }
  - intros p Hp. destruct (Z.le_gt_cases N 0) as [Hle|Hgt].
    { exists 0%Q. unfold RandomLossModel_CalculateProbability.
      destruct (Z.leb_spec N 0); [|lia]. split; [done|lra]. }
    eexists. split; [apply RandomLossModel_CalculateProbability_eq; lia|].
    simpl P. rewrite random_value_product. by apply emit_product_bounds.
  - intros m Hr He0 He1 H01 H10 Hsmall.
    destruct (Z.le_gt_cases N 0) as [Hle|Hgt].
    { exists 0%Q, m. simpl. unfold GilbertElliotLossModel_CalculateProbability.
      destruct (Z.leb_spec N 0); [|lia]. split; [done|lra]. }
    destruct (GE_CalculateProbability_eq m v N (GE_reachable_valid m Hr))
      as (c & Hc & _); [lia|].
    eexists _, _. split; [exact Hc|].
    destruct (steady_state_bounds m Hr) as [Hs0 Hs1]; [lra|lra|].
    pose proof (GE_reachable_steady_sum m Hr) as Hsum.
    destruct (dp_rows_bounds m v 0 (Z.to_nat N) He0 He1 H01 H10)
      as (Ha0 & Ha1 & Hat).
    destruct (dp_rows_bounds m v 1 (Z.to_nat N) He0 He1 H01 H10)
      as (Hb0 & Hb1 & Hbt).
    unfold ge_value. unfold row_total in *.
    set (t0 := (fst (dp_rows m v 0 (Z.to_nat N)) +
                snd (dp_rows m v 0 (Z.to_nat N)))%Q) in *.
    set (t1 := (fst (dp_rows m v 1 (Z.to_nat N)) +
                snd (dp_rows m v 1 (Z.to_nat N)))%Q) in *.
    assert (0 <= t0)%Q by (unfold t0; lra).
    assert (0 <= t1)%Q by (unfold t1; lra).
    nra.
Qed.

Lemma probabilities_in_unit_interval_witness :
  3 <= max_int /\
  (forall p, (0 <= p <= 1)%Q ->
     exists q,
       RandomLossModel_CalculateProbability (NewRandomLossModel p) 5 3 = Ok q /\
       (0 <= q <= 1)%Q) /\
  (forall m : GilbertElliotLossModel, GE_reachable m ->
     (0 <= Pe0 m <= 1)%Q -> (0 <= Pe1 m <= 1)%Q ->
     (0 <= P01 m <= 1)%Q -> (0 <= P10 m <= 1)%Q ->
     3 < 2 ^ 44 ->
     exists q m',
       CalculateProbability m 5 3 = Ok (q, m') /\ (0 <= q <= 1)%Q) /\
  (forall m : GilbertElliotLossModel, GE_reachable m ->
     2 ^ 44 <= 3 -> CalculateProbability m 5 3 = Panic).
Proof.
  assert (3 <= max_int) as H by (unfold max_int; lia).
  split; [exact H|]. exact (probabilities_in_unit_interval 3 5 H).
Defined.

(** ** Loss models: marginals and the expected number of losses *)

Lemma mbit_testbit_nonneg v i :
  0 <= v <= max_int -> 0 <= i -> mbit v i = Z.testbit v i.
Proof.
  intros Hv Hi. unfold max_int in Hv.
  destruct (Z.le_gt_cases i 62); [apply mbit_testbit; lia|].
  rewrite (testbit_above v 63 i) by lia.
  unfold mbit. destruct (Z.eq_dec i 63) as [->|Hne].
  - change (wrap (Z.shiftl 1 63)) with min_int.
    replace (Z.land v min_int) with 0; [done|].
    symmetry. apply Z.bits_inj'. intros k Hk.
    rewrite Z.land_spec, Z.bits_0, testbit_min_int by done.
    destruct (Z.ltb_spec k 63); simpl; [apply andb_false_r|].
    by rewrite (testbit_above v 63 k) by lia.
  - pose proof (shl_1_large i ltac:(lia)) as Hs.
    rewrite shl_nonneg in Hs by lia. inversion Hs as [Hw]. rewrite Hw.
    by rewrite Z.land_0_r.
Qed.

Lemma iter_bits_pair {A B} (f : bool -> A -> A) (g : bool -> B -> B)
    a b bits n :
  iter_bits (pair_step f g) (a, b) bits n =
  (iter_bits f a bits n, iter_bits g b bits n).
Proof. induction n as [|n IH]; [done|]. simpl. by rewrite IH. Qed.

Lemma zeros_step_range bits n :
  0 <= iter_bits zeros_step 0 bits n <= Z.of_nat n.
Proof.
  induction n as [|n IH]; simpl; [lia|].
  unfold zeros_step at 1 3. destruct (bits n); lia.
Qed.

Lemma zeros_step_bitcount v (n : nat) :
  iter_bits zeros_step 0 (tbits v) n = Z.of_nat n - bitcount (Z.of_nat n) v.
Proof.
  induction n as [|n IH].
  - simpl. by rewrite bitcount_0.
  - simpl iter_bits. rewrite IH, Nat2Z.inj_succ. unfold Z.succ.
    rewrite bitcount_succ by lia. unfold zeros_step, tbits.
    destruct (Z.testbit v (Z.of_nat n)); simpl; lia.
Qed.

Lemma countLostPackets_loop mask (n : nat) :
  Z.of_nat n <= max_int ->
  for_loop n 0
    (fun i lostCount =>
       let* b := shl 1 i in
       if and mask b =? 0 then Ok (add lostCount 1) else Ok lostCount) 0 =
  Ok (iter_bits zeros_step 0 (mbits mask) n).
Proof.
  induction n as [|n IH]; intros Hn; [done|].
  rewrite for_loop_snoc, IH by lia. cbn [bind].
  pose proof (zeros_step_range (mbits mask) n) as Hr.
  rewrite Z.add_0_l, shl_nonneg by lia. cbn [bind].
  simpl iter_bits.
  set (z := iter_bits zeros_step 0 (mbits mask) n) in *.
  unfold zeros_step, mbits, mbit, and, add.
  unfold max_int in Hn.
  destruct (Z.land mask (wrap (Z.shiftl 1 (Z.of_nat n))) =? 0); simpl; [|done].
  by rewrite wrap_small by lia.
Qed.

Lemma countLostPackets_eq mask N :
  0 <= N <= max_int ->
  countLostPackets mask N =
  Ok (iter_bits zeros_step 0 (mbits mask) (Z.to_nat N)).
Proof.
  intros HN. unfold countLostPackets, for_range. rewrite Z.sub_0_r.
  apply countLostPackets_loop. lia.
Qed.

(** X18: [countLostPackets mask N] counts the clear bits among the low
    [N] bits: for a non-negative mask and [0 <= N] (machine integers) it
    is [N] minus the number of set bits among them, hence between [0]
    and [N]; for a negative [N] it is 0. *)
Theorem countLostPackets_clear_bits (mask N : Z) :
  0 <= mask <= max_int -> 0 <= N <= max_int ->
  countLostPackets mask N = Ok (N - bitcount N mask) /\
  0 <= N - bitcount N mask <= N /\
  forall N', N' < 0 -> countLostPackets mask N' = Ok 0.
Proof.
  intros Hm HN. split; [|split].
  - rewrite countLostPackets_eq by done.
    rewrite (iter_bits_ext _ _ (mbits mask) (tbits mask)).
    2:{ intros k Hk. unfold mbits, tbits. apply mbit_testbit_nonneg; lia. }
    rewrite zeros_step_bitcount. by rewrite Z2Nat.id by lia.
  - pose proof (bitcount_le N mask ltac:(lia)).
    pose proof (bitcount_nonneg N mask). lia.
  - intros N' HN'. unfold countLostPackets, for_range.
    by replace (Z.to_nat (N' - 0)) with 0%nat by lia.
Qed.

Lemma countLostPackets_clear_bits_witness :
  (0 <= 5 <= max_int /\ 0 <= 4 <= max_int) /\
  countLostPackets 5 4 = Ok (4 - bitcount 4 5) /\
  0 <= 4 - bitcount 4 5 <= 4 /\
  forall N', N' < 0 -> countLostPackets 5 N' = Ok 0.
Proof.
  assert (0 <= 5 <= max_int) as H1 by (unfold max_int; lia).
  assert (0 <= 4 <= max_int) as H2 by (unfold max_int; lia).
  split; [done|]. exact (countLostPackets_clear_bits 5 4 H1 H2).
Defined.

(** *** Sums over all vertices, one more bit *)

Lemma sum_iter_bits_step {A} (w : A -> Q) (step : bool -> A -> A) (init : A)
    (n : nat) :
  (Qsum (map (fun v => w (iter_bits step init (tbits v) (Datatypes.S n)))
             (seqZ 0 (2 ^ Z.of_nat (Datatypes.S n))%Z)) ==
   Qsum (map (fun v => w (step false (iter_bits step init (tbits v) n)) +
                       w (step true (iter_bits step init (tbits v) n)))
             (seqZ 0 (2 ^ Z.of_nat n)%Z)))%Q.
Proof.
  rewrite Nat2Z.inj_succ. unfold Z.succ.
  pose proof (pow2_pos (Z.of_nat n) ltac:(lia)) as Hp.
  replace (2 ^ (Z.of_nat n + 1)) with (2 ^ Z.of_nat n + 2 ^ Z.of_nat n)
    by (rewrite Z.pow_add_r; lia).
  rewrite seqZ_app by lia. rewrite Z.add_0_l.
  rewrite (map_add_seqZ (2 ^ Z.of_nat n)).
  rewrite map_app, map_map, Qsum_app, Qsum_map_plus.
  apply Qsum_map_ext. intros v Hv.
  apply in_seqZ_0 in Hv. simpl iter_bits.
  rewrite (iter_bits_ext step init (tbits (2 ^ Z.of_nat n + v)) (tbits v)).
  2:{ intros k Hk. unfold tbits. apply testbit_add_pow2_low; lia. }
  unfold tbits at 1 3.
  rewrite (testbit_above v (Z.of_nat n) (Z.of_nat n)) by lia.
  rewrite testbit_add_pow2_top by lia.
  reflexivity.
Qed.

Lemma Qsum_map_const {A} (c : Q) (l : list A) :
  (Qsum (map (fun _ => c) l) == inject_Z (Z.of_nat (length l)) * c)%Q.
Proof.
  induction l as [|x l IH]; [simpl; ring|].
  cbn [map Qsum fold_right length]. fold (Qsum (map (fun _ : A => c) l)).
  rewrite IH, Nat2Z.inj_succ. unfold Z.succ. rewrite inject_Z_plus. ring.
Qed.

(** *** The random model *)

Lemma random_expected_losses p (n : nat) :
  (Qsum (map (fun v =>
          iter_bits (emit_step p) 1%Q (tbits v) n *
          inject_Z (iter_bits zeros_step 0%Z (tbits v) n))
        (seqZ 0 (2 ^ Z.of_nat n)%Z)) == inject_Z (Z.of_nat n) * p)%Q.
Proof.
  induction n as [|n IH].
  - simpl. ring.
  - pose proof (sum_iter_bits_step
                  (fun s : Q * Z => (fst s * inject_Z (snd s))%Q)
                  (pair_step (emit_step p) zeros_step) (1%Q, 0%Z) n) as Hstep.
    rewrite (Qsum_map_ext _ (fun v =>
               (fst (iter_bits (pair_step (emit_step p) zeros_step) (1%Q, 0%Z)
                               (tbits v) (Datatypes.S n)) *
                inject_Z (snd (iter_bits (pair_step (emit_step p) zeros_step)
                               (1%Q, 0%Z) (tbits v) (Datatypes.S n))))%Q)).
    2:{ intros v _. rewrite iter_bits_pair. reflexivity. }
    rewrite Hstep. clear Hstep.
    rewrite (Qsum_map_ext _ (fun v =>
               (iter_bits (emit_step p) 1%Q (tbits v) n *
                inject_Z (iter_bits zeros_step 0%Z (tbits v) n) +
                p * iter_bits (emit_step p) 1%Q (tbits v) n)%Q)).
    2:{ intros v _. rewrite iter_bits_pair. unfold pair_step. simpl.
        unfold emit_step, emit, zeros_step. rewrite inject_Z_plus. ring. }
    rewrite <- Qsum_map_plus, IH, Qsum_map_scale.
    rewrite (sum_iter_bits (fun q => q) (emit_step p) 1%Q (emit_step_split p) n).
    rewrite Nat2Z.inj_succ. unfold Z.succ. rewrite inject_Z_plus. ring.
Qed.

(** *** The Gilbert-Elliott model *)

Lemma ge_weight_step m c initState (n : nat) :
  (Qsum (map (fun v => row_dot c (iter_bits (dp_row m) (init_row initState)
                                            (tbits v) (Datatypes.S n)))
             (seqZ 0 (2 ^ Z.of_nat (Datatypes.S n))%Z)) ==
   Qsum (map (fun v => row_dot (transition_adjoint m c)
                         (iter_bits (dp_row m) (init_row initState)
                                    (tbits v) n))
             (seqZ 0 (2 ^ Z.of_nat n)%Z)))%Q.
Proof.
  rewrite (sum_iter_bits_step (row_dot c) (dp_row m) (init_row initState) n).
  apply Qsum_map_ext. intros v _.
  destruct (iter_bits (dp_row m) (init_row initState) (tbits v) n) as [x y].
  unfold row_dot, transition_adjoint, dp_row. simpl. ring.
Qed.

(** The steady state is stationary for the transition. *)
Lemma steady_state_stationary m :
  GE_reachable m -> (0 <= P01 m)%Q -> (0 <= P10 m)%Q ->
  (steadyState0 m * (1 - P01 m) + steadyState1 m * P10 m == steadyState0 m)%Q /\
  (steadyState0 m * P01 m + steadyState1 m * (1 - P10 m) == steadyState1 m)%Q.
Proof.
  intros Hr. destruct (GE_reachable_shape m Hr)
    as (pe0 & pe1 & p01 & p10 & c & ->).
  unfold NewGilbertElliotLossModel.
  destruct (Qlt_le_dec 0 (p01 + p10)) as [Hd|Hd]; simpl; intros H01 H10.
  - split; field; intros Hz; rewrite Hz in Hd; by apply Qlt_irrefl in Hd.
  - split; lra.
Qed.

Lemma ge_mixture_weight m c (n : nat) :
  (steadyState0 m * (1 - P01 m) + steadyState1 m * P10 m == steadyState0 m)%Q ->
  (steadyState0 m * P01 m + steadyState1 m * (1 - P10 m) == steadyState1 m)%Q ->
  (steadyState0 m *
     Qsum (map (fun v => row_dot c (iter_bits (dp_row m) (init_row 0%Z)
                                              (tbits v) n))
               (seqZ 0 (2 ^ Z.of_nat n)%Z)) +
   steadyState1 m *
     Qsum (map (fun v => row_dot c (iter_bits (dp_row m) (init_row 1%Z)
                                              (tbits v) n))
               (seqZ 0 (2 ^ Z.of_nat n)%Z)) ==
   fst c * steadyState0 m + snd c * steadyState1 m)%Q.
Proof.
  intros Hs0 Hs1. revert c. induction n as [|n IH]; intros c.
  - simpl. unfold row_dot, init_row. simpl. ring.
  - rewrite !ge_weight_step, IH.
    unfold transition_adjoint. simpl.
    transitivity
      (fst c * (steadyState0 m * (1 - P01 m) + steadyState1 m * P10 m) +
       snd c * (steadyState0 m * P01 m + steadyState1 m * (1 - P10 m)))%Q;
      [ring|].
    rewrite Hs0, Hs1. reflexivity.
Qed.

Lemma ge_losses_step m initState (n : nat) :
  (Qsum (map (fun v =>
          row_total (iter_bits (dp_row m) (init_row initState) (tbits v)
                               (Datatypes.S n)) *
          inject_Z (iter_bits zeros_step 0%Z (tbits v) (Datatypes.S n)))
        (seqZ 0 (2 ^ Z.of_nat (Datatypes.S n))%Z)) ==
   Qsum (map (fun v =>
          row_total (iter_bits (dp_row m) (init_row initState) (tbits v) n) *
          inject_Z (iter_bits zeros_step 0%Z (tbits v) n))
        (seqZ 0 (2 ^ Z.of_nat n)%Z)) +
   Qsum (map (fun v => row_dot (loss_weights m)
                         (iter_bits (dp_row m) (init_row initState)
                                    (tbits v) n))
             (seqZ 0 (2 ^ Z.of_nat n)%Z)))%Q.
Proof.
  pose proof (sum_iter_bits_step
                (fun s : Q * Q * Z => (row_total (fst s) * inject_Z (snd s))%Q)
                (pair_step (dp_row m) zeros_step) (init_row initState, 0%Z) n)
    as Hstep.
  rewrite (Qsum_map_ext _ (fun v =>
             (row_total (fst (iter_bits (pair_step (dp_row m) zeros_step)
                               (init_row initState, 0%Z) (tbits v)
                               (Datatypes.S n))) *
              inject_Z (snd (iter_bits (pair_step (dp_row m) zeros_step)
                               (init_row initState, 0%Z) (tbits v)
                               (Datatypes.S n))))%Q)).
  2:{ intros v _. rewrite iter_bits_pair. reflexivity. }
  rewrite Hstep. clear Hstep.
  rewrite Qsum_map_plus. apply Qsum_map_ext. intros v _.
  rewrite iter_bits_pair. unfold pair_step. simpl.
  destruct (iter_bits (dp_row m) (init_row initState) (tbits v) n) as [x y].
  unfold row_total, row_dot, loss_weights, dp_row, zeros_step. simpl.
  rewrite inject_Z_plus. ring.
Qed.

Lemma ge_expected_losses m (n : nat) :
  (steadyState0 m * (1 - P01 m) + steadyState1 m * P10 m == steadyState0 m)%Q ->
  (steadyState0 m * P01 m + steadyState1 m * (1 - P10 m) == steadyState1 m)%Q ->
  (Qsum (map (fun v =>
          (steadyState0 m *
             row_total (iter_bits (dp_row m) (init_row 0%Z) (tbits v) n) +
           steadyState1 m *
             row_total (iter_bits (dp_row m) (init_row 1%Z) (tbits v) n)) *
          inject_Z (iter_bits zeros_step 0%Z (tbits v) n))
        (seqZ 0 (2 ^ Z.of_nat n)%Z)) ==
   inject_Z (Z.of_nat n) *
   (steadyState0 m * Pe0 m + steadyState1 m * Pe1 m))%Q.
Proof.
  intros Hs0 Hs1.
  rewrite (Qsum_map_ext _ (fun v =>
     (steadyState0 m *
        (row_total (iter_bits (dp_row m) (init_row 0%Z) (tbits v) n) *
         inject_Z (iter_bits zeros_step 0%Z (tbits v) n)) +
      steadyState1 m *
        (row_total (iter_bits (dp_row m) (init_row 1%Z) (tbits v) n) *
         inject_Z (iter_bits zeros_step 0%Z (tbits v) n)))%Q)).
  2:{ intros v _. ring. }
  rewrite <- Qsum_map_plus, !Qsum_map_scale.
  induction n as [|n IH].
  - simpl. ring.
  - rewrite !ge_losses_step.
    transitivity
      ((steadyState0 m *
          Qsum (map (fun v =>
             row_total (iter_bits (dp_row m) (init_row 0%Z) (tbits v) n) *
             inject_Z (iter_bits zeros_step 0%Z (tbits v) n))
             (seqZ 0 (2 ^ Z.of_nat n)%Z)) +
        steadyState1 m *
          Qsum (map (fun v =>
             row_total (iter_bits (dp_row m) (init_row 1%Z) (tbits v) n) *
             inject_Z (iter_bits zeros_step 0%Z (tbits v) n))
             (seqZ 0 (2 ^ Z.of_nat n)%Z))) +
       (steadyState0 m *
          Qsum (map (fun v => row_dot (loss_weights m)
                       (iter_bits (dp_row m) (init_row 0%Z) (tbits v) n))
                    (seqZ 0 (2 ^ Z.of_nat n)%Z)) +
        steadyState1 m *
          Qsum (map (fun v => row_dot (loss_weights m)
                       (iter_bits (dp_row m) (init_row 1%Z) (tbits v) n))
                    (seqZ 0 (2 ^ Z.of_nat n)%Z))))%Q; [ring|].
    rewrite IH, (ge_mixture_weight m (loss_weights m) n Hs0 Hs1).
    rewrite Nat2Z.inj_succ. unfold Z.succ. rewrite inject_Z_plus.
    unfold loss_weights. simpl.
    transitivity
      (inject_Z (Z.of_nat n) *
         (steadyState0 m * Pe0 m + steadyState1 m * Pe1 m) +
       (Pe0 m * (steadyState0 m * (1 - P01 m) + steadyState1 m * P10 m) +
        Pe1 m * (steadyState0 m * P01 m + steadyState1 m * (1 - P10 m))))%Q;
      [ring|].
    rewrite Hs0, Hs1. ring.
Qed.

(** *** The sums of the loss-model printer *)

Lemma for_loop_sums {M : Type} (I : M -> Prop) (f g : Z -> Q)
    (body : Z -> Q * Q * M -> result (Q * Q * M)) (count : nat) :
  forall i,
  (forall j ps lc m, i <= j < i + Z.of_nat count -> I m ->
     exists m', I m' /\
       body j (ps, lc, m) = Ok ((ps + f j)%Q, (lc + g j)%Q, m')) ->
  forall ps lc m, I m ->
  exists ps' lc' m',
    for_loop count i body (ps, lc, m) = Ok (ps', lc', m') /\ I m' /\
    (ps' == ps + Qsum (map f (seqZ i (Z.of_nat count))))%Q /\
    (lc' == lc + Qsum (map g (seqZ i (Z.of_nat count))))%Q.
Proof.
  induction count as [|c IH]; intros i Hbody ps lc m Hm.
  - exists ps, lc, m. split; [done|]. split; [done|]. simpl. split; ring.
  - destruct (Hbody i ps lc m ltac:(lia) Hm) as (m1 & Hm1 & Hrun1).
    destruct (IH (i + 1) ltac:(intros; apply Hbody; (lia || done))
                 (ps + f i)%Q (lc + g i)%Q m1 Hm1)
      as (ps' & lc' & m' & Hrun & Hm' & Hps & Hlc).
    exists ps', lc', m'. split; [simpl for_loop; by rewrite Hrun1|].
    split; [done|].
    rewrite (seqZ_cons i) by lia.
    replace (Z.succ i) with (i + 1) by lia.
    replace (Z.pred (Z.of_nat (Datatypes.S c))) with (Z.of_nat c) by lia.
    simpl. rewrite Hps, Hlc. split; ring.
Qed.

Lemma inject_Z_nonzero (N : Z) : 1 <= N -> ~ (inject_Z N == 0)%Q.
Proof. intros HN. unfold Qeq. simpl. lia. Qed.

Lemma random_analysis_sums p N :
  1 <= N <= 63 ->
  (Qsum (map (fun v => random_value p
                (iter_bits count_step (0%Z, 0%Z) (mbits v) (Z.to_nat N)))
             (seqZ 0 (2 ^ N))) == 1)%Q /\
  (Qsum (map (fun v =>
            (random_value p
               (iter_bits count_step (0%Z, 0%Z) (mbits v) (Z.to_nat N)) *
             inject_Z (iter_bits zeros_step 0%Z (mbits v) (Z.to_nat N)))%Q)
             (seqZ 0 (2 ^ N))) == inject_Z N * p)%Q.
Proof.
  intros HN. split; [by apply random_sum_is_one|].
  rewrite (Qsum_map_ext _ (fun v =>
     (iter_bits (emit_step p) 1%Q (tbits v) (Z.to_nat N) *
      inject_Z (iter_bits zeros_step 0%Z (tbits v) (Z.to_nat N)))%Q)).
  - pose proof (random_expected_losses p (Z.to_nat N)) as He.
    rewrite Z2Nat.id in He by lia. exact He.
  - intros v _. rewrite random_value_product.
    rewrite !(iter_bits_ext _ _ (mbits v) (tbits v))
      by (intros k Hk; apply (mbits_tbits v N); [lia|done]).
    reflexivity.
Qed.

Lemma ge_analysis_sums m N :
  1 <= N <= 63 ->
  (steadyState0 m + steadyState1 m == 1)%Q ->
  (steadyState0 m * (1 - P01 m) + steadyState1 m * P10 m == steadyState0 m)%Q ->
  (steadyState0 m * P01 m + steadyState1 m * (1 - P10 m) == steadyState1 m)%Q ->
  (Qsum (map (fun v => ge_value m v N) (seqZ 0 (2 ^ N))) == 1)%Q /\
  (Qsum (map (fun v =>
            (ge_value m v N *
             inject_Z (iter_bits zeros_step 0%Z (mbits v) (Z.to_nat N)))%Q)
             (seqZ 0 (2 ^ N))) ==
   inject_Z N * (steadyState0 m * Pe0 m + steadyState1 m * Pe1 m))%Q.
Proof.
  intros HN Hsum Hs0 Hs1. split; [by apply ge_sum_is_one|].
  rewrite (Qsum_map_ext _ (fun v =>
     ((steadyState0 m *
         row_total (iter_bits (dp_row m) (init_row 0%Z) (tbits v) (Z.to_nat N)) +
       steadyState1 m *
         row_total (iter_bits (dp_row m) (init_row 1%Z) (tbits v) (Z.to_nat N))) *
      inject_Z (iter_bits zeros_step 0%Z (tbits v) (Z.to_nat N)))%Q)).
  - pose proof (ge_expected_losses m (Z.to_nat N) Hs0 Hs1) as He.
    rewrite Z2Nat.id in He by lia. exact He.
  - intros v _. unfold ge_value, dp_rows.
    rewrite !(iter_bits_ext _ _ (mbits v) (tbits v))
      by (intros k Hk; apply (mbits_tbits v N); [lia|done]).
    reflexivity.
Qed.

(** X19: what the loss-model printer verifies holds exactly.  For
    [1 <= N <= 62], over all masks from [0] to [2^N - 1] the
    probabilities sum to 1 and the experimental loss probability (the
    expected number of lost packets, divided by [N]) equals
    [GetAverageLossProbability]: for the random model with any [p], and
    for a Gilbert-Elliott model with non-negative transition
    probabilities in any state it can reach. *)
Theorem printLossModelAnalysis_sums_agree (N : Z) :
  1 <= N <= 62 ->
  (forall p : Q, exists total experimental m',
     printLossModelAnalysis_sums (NewRandomLossModel p) N =
       Ok (total, experimental, m') /\
     (total == 1)%Q /\
     (experimental == GetAverageLossProbability (NewRandomLossModel p))%Q) /\
  (forall m : GilbertElliotLossModel, GE_reachable m ->
     (0 <= P01 m)%Q -> (0 <= P10 m)%Q ->
     exists total experimental m',
       printLossModelAnalysis_sums m N = Ok (total, experimental, m') /\
       (total == 1)%Q /\
       (experimental == GetAverageLossProbability m)%Q).
Proof.
  intros HN. assert (0 < N <= max_int) as HN' by (unfold max_int; lia).
  assert (0 <= N <= max_int) as HN'' by lia.
  assert (0 < N < 2 ^ 44) as HNa by lia.
  pose proof (inject_Z_nonzero N ltac:(lia)) as Hnz.
  assert (0 <= 2 ^ N) as Hpow by (apply Z.lt_le_incl, pow2_pos; lia).
  split.
  - intros p. unfold printLossModelAnalysis_sums.
    rewrite shl_1_small by lia. cbn [bind]. unfold for_range.
    rewrite Z.sub_0_r.
    destruct (for_loop_sums (fun m : RandomLossModel => P m = p)
                (fun v => random_value p
                   (iter_bits count_step (0%Z, 0%Z) (mbits v) (Z.to_nat N)))
                (fun v => (random_value p
                   (iter_bits count_step (0%Z, 0%Z) (mbits v) (Z.to_nat N)) *
                   inject_Z (iter_bits zeros_step 0%Z (mbits v) (Z.to_nat N)))%Q)
                (fun mask '(probabilitySum, lossPacketCount, m) =>
                   let* lostPackets := countLostPackets mask N in
                   let* (prob, m1) := CalculateProbability m mask N in
                   Ok ((probabilitySum + prob)%Q,
                       (lossPacketCount + prob * inject_Z lostPackets)%Q, m1))
                (Z.to_nat (2 ^ N)) 0) with (ps := 0%Q) (lc := 0%Q)
                (m := NewRandomLossModel p)
      as (ps & lc & m' & Hrun & _ & Hps & Hlc); [|done|].
    { intros j ps lc m _ Hm. exists m. split; [done|].
      rewrite countLostPackets_eq by done. cbn [bind]. simpl.
      rewrite RandomLossModel_CalculateProbability_eq by done. cbn [bind].
      by rewrite Hm. }
    rewrite Hrun. cbn [bind]. simpl.
    rewrite Z2Nat.id in Hps, Hlc by done.
    destruct (random_analysis_sums p N ltac:(lia)) as [Hone Hexp].
    eexists _, _, _. split; [reflexivity|].
    split.
    + rewrite Hps, Hone. ring.
    + unfold RandomLossModel_GetAverageLossProbability. simpl.
      rewrite Hlc, Hexp. by field.
  - intros m Hr H01 H10. unfold printLossModelAnalysis_sums.
    rewrite shl_1_small by lia. cbn [bind]. unfold for_range.
    rewrite Z.sub_0_r.
    destruct (for_loop_sums
                (fun m' : GilbertElliotLossModel =>
                   cache_valid m' /\ exists c, m' = set_cache m c)
                (fun v => ge_value m v N)
                (fun v => (ge_value m v N *
                   inject_Z (iter_bits zeros_step 0%Z (mbits v) (Z.to_nat N)))%Q)
                (fun mask '(probabilitySum, lossPacketCount, m) =>
                   let* lostPackets := countLostPackets mask N in
                   let* (prob, m1) := CalculateProbability m mask N in
                   Ok ((probabilitySum + prob)%Q,
                       (lossPacketCount + prob * inject_Z lostPackets)%Q, m1))
                (Z.to_nat (2 ^ N)) 0) with (ps := 0%Q) (lc := 0%Q) (m := m)
      as (ps & lc & m' & Hrun & _ & Hps & Hlc).
    { intros j ps lc m1 _ (Hvalid & c & ->).
      destruct (GE_CalculateProbability_eq (set_cache m c) j N Hvalid HNa)
        as (c' & Hc & Hv' & _).
      exists (set_cache m c'). split; [split; [exact Hv'|by exists c']|].
      rewrite countLostPackets_eq by done. cbn [bind].
      simpl in Hc. simpl. rewrite Hc. cbn [bind].
      by rewrite ge_value_set_cache. }
    { split; [by apply GE_reachable_valid|].
      exists (cache m). by destruct m. }
    rewrite Hrun. cbn [bind]. simpl.
    rewrite Z2Nat.id in Hps, Hlc by done.
    destruct (steady_state_stationary m Hr H01 H10) as [Hs0 Hs1].
    destruct (ge_analysis_sums m N ltac:(lia)
                (GE_reachable_steady_sum m Hr) Hs0 Hs1) as [Hone Hexp].
    eexists _, _, _. split; [reflexivity|].
    split.
    + rewrite Hps, Hone. ring.
    + unfold GilbertElliotLossModel_GetAverageLossProbability.
      rewrite Hlc, Hexp. by field.
Qed.

Lemma printLossModelAnalysis_sums_agree_witness :
  1 <= 2 <= 62 /\
  ((forall p : Q, exists total experimental m',
      printLossModelAnalysis_sums (NewRandomLossModel p) 2 =
        Ok (total, experimental, m') /\
      (total == 1)%Q /\
      (experimental == GetAverageLossProbability (NewRandomLossModel p))%Q) /\
   (forall m : GilbertElliotLossModel, GE_reachable m ->
      (0 <= P01 m)%Q -> (0 <= P10 m)%Q ->
      exists total experimental m',
        printLossModelAnalysis_sums m 2 = Ok (total, experimental, m') /\
        (total == 1)%Q /\
        (experimental == GetAverageLossProbability m)%Q)).
Proof.
  assert (1 <= 2 <= 62) as H by lia.
  split; [exact H|]. exact (printLossModelAnalysis_sums_agree 2 H).
Defined.

(** *** Leaving out the last packet *)

Lemma mbits_low_add v N (k : nat) :
  0 <= N <= 62 -> 0 <= v < 2 ^ N -> (k < Z.to_nat N)%nat ->
  mbits (v + 2 ^ N) k = mbits v k.
Proof.
  intros HN Hv Hk. unfold mbits. rewrite !mbit_testbit by lia.
  rewrite Z.add_comm. apply testbit_add_pow2_low; lia.
Qed.

Lemma mbits_top v N :
  0 <= N <= 62 -> 0 <= v < 2 ^ N ->
  mbits v (Z.to_nat N) = false /\ mbits (v + 2 ^ N) (Z.to_nat N) = true.
Proof.
  intros HN Hv. unfold mbits. rewrite Z2Nat.id by lia.
  rewrite !mbit_testbit by lia. split.
  - apply (testbit_above v N); lia.
  - rewrite Z.add_comm. apply testbit_add_pow2_top; lia.
Qed.

Lemma random_last_packet p v N :
  1 <= N <= 62 -> 0 <= v < 2 ^ N ->
  (random_value p (iter_bits count_step (0%Z, 0%Z) (mbits v)
                             (Z.to_nat (N + 1))) +
   random_value p (iter_bits count_step (0%Z, 0%Z) (mbits (v + 2 ^ N))
                             (Z.to_nat (N + 1))) ==
   random_value p (iter_bits count_step (0%Z, 0%Z) (mbits v) (Z.to_nat N)))%Q.
Proof.
  intros HN Hv. rewrite !random_value_product.
  replace (Z.to_nat (N + 1)) with (Datatypes.S (Z.to_nat N)) by lia.
  simpl iter_bits.
  rewrite (iter_bits_ext _ _ (mbits (v + 2 ^ N)) (mbits v))
    by (intros k Hk; apply mbits_low_add; (lia || done)).
  destruct (mbits_top v N) as [-> ->]; [lia|done|].
  apply emit_step_split.
Qed.

Lemma ge_last_packet m v N :
  1 <= N <= 62 -> 0 <= v < 2 ^ N ->
  (ge_value m v (N + 1) + ge_value m (v + 2 ^ N) (N + 1) == ge_value m v N)%Q.
Proof.
  intros HN Hv. unfold ge_value, dp_rows.
  replace (Z.to_nat (N + 1)) with (Datatypes.S (Z.to_nat N)) by lia.
  simpl iter_bits.
  rewrite !(iter_bits_ext _ _ (mbits (v + 2 ^ N)) (mbits v))
    by (intros k Hk; apply mbits_low_add; (lia || done)).
  destruct (mbits_top v N) as [-> ->]; [lia|done|].
  pose proof (dp_row_split m
                (iter_bits (dp_row m) (init_row 0) (mbits v) (Z.to_nat N)))
    as H0.
  pose proof (dp_row_split m
                (iter_bits (dp_row m) (init_row 1) (mbits v) (Z.to_nat N)))
    as H1.
  rewrite <- H0, <- H1. ring.
Qed.

(** X20: the probabilities of the two ways the last packet can go add up
    to the probability of the shorter pattern.  For [1 <= N <= 62] and a
    vertex [v] below [2^N], [CalculateProbability v (N+1)] plus
    [CalculateProbability (v + 2^N) (N+1)] equals
    [CalculateProbability v N], in exact arithmetic, for the random model
    and for a Gilbert-Elliott model in any state it can reach (the three
    calls made one after the other). *)
Theorem last_packet_marginal (N v : Z) :
  1 <= N <= 62 -> 0 <= v < 2 ^ N ->
  (forall p, exists a b c,
     RandomLossModel_CalculateProbability (NewRandomLossModel p) v (N + 1)
       = Ok a /\
     RandomLossModel_CalculateProbability (NewRandomLossModel p) (v + 2 ^ N)
       (N + 1) = Ok b /\
     RandomLossModel_CalculateProbability (NewRandomLossModel p) v N = Ok c /\
     (a + b == c)%Q) /\
  (forall m : GilbertElliotLossModel, GE_reachable m ->
     exists a m1 b m2 c m3,
       CalculateProbability m v (N + 1) = Ok (a, m1) /\
       CalculateProbability m1 (v + 2 ^ N) (N + 1) = Ok (b, m2) /\
       CalculateProbability m2 v N = Ok (c, m3) /\
       (a + b == c)%Q).
Proof.
  intros HN Hv.
  assert (0 < N <= max_int) as HN0 by (unfold max_int; lia).
  assert (0 < N + 1 <= max_int) as HN1 by (unfold max_int; lia).
  assert (0 < N < 2 ^ 44) as HNa by lia.
  assert (0 < N + 1 < 2 ^ 44) as HNb by lia.
  split.
  - intros p. eexists _, _, _.
    split; [by apply RandomLossModel_CalculateProbability_eq|].
    split; [by apply RandomLossModel_CalculateProbability_eq|].
    split; [by apply RandomLossModel_CalculateProbability_eq|].
    simpl P. by apply random_last_packet.
  - intros m Hr. pose proof (GE_reachable_valid m Hr) as Hvalid.
    destruct (GE_CalculateProbability_eq m v (N + 1) Hvalid HNb)
      as (c1 & H1 & Hv1 & _).
    destruct (GE_CalculateProbability_eq (set_cache m c1) (v + 2 ^ N) (N + 1)
                Hv1 HNb) as (c2 & H2 & Hv2 & _).
    destruct (GE_CalculateProbability_eq (set_cache m c2) v N Hv2 HNa)
      as (c3 & H3 & _).
    eexists _, _, _, _, _, _.
    split; [exact H1|]. split; [exact H2|]. split; [exact H3|].
    rewrite !ge_value_set_cache. by apply ge_last_packet.
Qed.

Lemma last_packet_marginal_witness :
  (1 <= 2 <= 62 /\ 0 <= 1 < 2 ^ 2) /\
  (forall p, exists a b c,
     RandomLossModel_CalculateProbability (NewRandomLossModel p) 1 (2 + 1)
       = Ok a /\
     RandomLossModel_CalculateProbability (NewRandomLossModel p) (1 + 2 ^ 2)
       (2 + 1) = Ok b /\
     RandomLossModel_CalculateProbability (NewRandomLossModel p) 1 2 = Ok c /\
     (a + b == c)%Q) /\
  (forall m : GilbertElliotLossModel, GE_reachable m ->
     exists a m1 b m2 c m3,
       CalculateProbability m 1 (2 + 1) = Ok (a, m1) /\
       CalculateProbability m1 (1 + 2 ^ 2) (2 + 1) = Ok (b, m2) /\
       CalculateProbability m2 1 2 = Ok (c, m3) /\
       (a + b == c)%Q).
Proof.
  assert (1 <= 2 <= 62) as H1 by lia.
  assert (0 <= 1 < 2 ^ 2) as H2 by lia.
  split; [done|]. exact (last_packet_marginal 2 1 H1 H2).
Defined.

(** *** Leaving out the first packet *)

Lemma iter_bits_shift {A} (step : bool -> A -> A) init bits n :
  iter_bits step init bits (Datatypes.S n) =
  iter_bits step (step (bits 0%nat) init) (fun k => bits (Datatypes.S k)) n.
Proof.
  induction n as [|n IH]; [done|].
  change (iter_bits step init bits (Datatypes.S (Datatypes.S n)))
    with (step (bits (Datatypes.S n)) (iter_bits step init bits (Datatypes.S n))).
  rewrite IH. done.
Qed.

Lemma mbits_even v (k : nat) :
  (k <= 61)%nat ->
  mbits (2 * v) (Datatypes.S k) = mbits v k /\ mbits (2 * v) 0 = false.
Proof.
  intros Hk. unfold mbits. rewrite !mbit_testbit by lia. split.
  - rewrite Nat2Z.inj_succ. apply Z.testbit_even_succ. lia.
  - apply Z.testbit_even_0.
Qed.

Lemma mbits_odd v (k : nat) :
  (k <= 61)%nat ->
  mbits (2 * v + 1) (Datatypes.S k) = mbits v k /\ mbits (2 * v + 1) 0 = true.
Proof.
  intros Hk. unfold mbits. rewrite !mbit_testbit by lia. split.
  - rewrite Nat2Z.inj_succ. apply Z.testbit_odd_succ. lia.
  - apply Z.testbit_odd_0.
Qed.

Lemma emit_product_scale p q bits n :
  (iter_bits (emit_step p) q bits n == q * iter_bits (emit_step p) 1 bits n)%Q.
Proof.
  induction n as [|n IH]; simpl; [ring|].
  unfold emit_step at 1 3. rewrite IH. ring.
Qed.

Lemma dp_rows_linear m x y bits n :
  (fst (iter_bits (dp_row m) (x, y) bits n) ==
     x * fst (iter_bits (dp_row m) (1, 0) bits n) +
     y * fst (iter_bits (dp_row m) (0, 1) bits n))%Q /\
  (snd (iter_bits (dp_row m) (x, y) bits n) ==
     x * snd (iter_bits (dp_row m) (1, 0) bits n) +
     y * snd (iter_bits (dp_row m) (0, 1) bits n))%Q.
Proof.
  induction n as [|n IH]; simpl.
  - split; ring.
  - destruct IH as [IH0 IH1].
    destruct (iter_bits (dp_row m) (x, y) bits n) as [r0 r1].
    destruct (iter_bits (dp_row m) (1%Q, 0%Q) bits n) as [a0 a1].
    destruct (iter_bits (dp_row m) (0%Q, 1%Q) bits n) as [b0 b1].
    simpl in IH0, IH1. unfold dp_row.
    destruct (bits n); simpl; rewrite IH0, IH1; split; ring.
Qed.

Lemma random_first_packet p v N :
  1 <= N <= 62 ->
  (random_value p (iter_bits count_step (0%Z, 0%Z) (mbits (2 * v))
                             (Z.to_nat (N + 1))) +
   random_value p (iter_bits count_step (0%Z, 0%Z) (mbits (2 * v + 1))
                             (Z.to_nat (N + 1))) ==
   random_value p (iter_bits count_step (0%Z, 0%Z) (mbits v) (Z.to_nat N)))%Q.
Proof.
  intros HN. rewrite !random_value_product.
  replace (Z.to_nat (N + 1)) with (Datatypes.S (Z.to_nat N)) by lia.
  rewrite !iter_bits_shift.
  rewrite (iter_bits_ext _ _
             (fun k => mbits (2 * v) (Datatypes.S k)) (mbits v))
    by (intros k Hk; apply mbits_even; lia).
  rewrite (iter_bits_ext _ _
             (fun k => mbits (2 * v + 1) (Datatypes.S k)) (mbits v))
    by (intros k Hk; apply mbits_odd; lia).
  destruct (mbits_even v 0) as [_ ->]; [lia|].
  destruct (mbits_odd v 0) as [_ ->]; [lia|].
  rewrite (emit_product_scale p (emit_step p false 1)).
  rewrite (emit_product_scale p (emit_step p true 1)).
  unfold emit_step, emit. ring.
Qed.

Lemma ge_first_packet m v N :
  1 <= N <= 62 ->
  (steadyState0 m * (1 - P01 m) + steadyState1 m * P10 m == steadyState0 m)%Q ->
  (steadyState0 m * P01 m + steadyState1 m * (1 - P10 m) == steadyState1 m)%Q ->
  (ge_value m (2 * v) (N + 1) + ge_value m (2 * v + 1) (N + 1) ==
   ge_value m v N)%Q.
Proof.
  intros HN Hs0 Hs1. unfold ge_value, dp_rows.
  replace (Z.to_nat (N + 1)) with (Datatypes.S (Z.to_nat N)) by lia.
  rewrite !iter_bits_shift.
  rewrite !(iter_bits_ext _ _
              (fun k => mbits (2 * v) (Datatypes.S k)) (mbits v))
    by (intros k Hk; apply mbits_even; lia).
  rewrite !(iter_bits_ext _ _
              (fun k => mbits (2 * v + 1) (Datatypes.S k)) (mbits v))
    by (intros k Hk; apply mbits_odd; lia).
  destruct (mbits_even v 0) as [_ ->]; [lia|].
  destruct (mbits_odd v 0) as [_ ->]; [lia|].
  unfold init_row. simpl (0 =? 0). simpl (1 =? 0). cbv iota.
  unfold dp_row at 2 4 6 8. unfold row_total.
  set (bits := mbits v). set (n := Z.to_nat N).
  repeat match goal with
  | |- context [iter_bits (dp_row m) (?x, ?y) bits n] =>
      lazymatch x with
      | 1%Q => fail
      | 0%Q => fail
      | _ =>
        let H0 := fresh "H" in let H1 := fresh "H" in
        destruct (dp_rows_linear m x y bits n) as [H0 H1];
        rewrite H0, H1; clear H0 H1
      end
  end.
  transitivity
    ((fst (iter_bits (dp_row m) (1, 0) bits n) +
      snd (iter_bits (dp_row m) (1, 0) bits n)) *
     (steadyState0 m * (1 - P01 m) + steadyState1 m * P10 m) +
     (fst (iter_bits (dp_row m) (0, 1) bits n) +
      snd (iter_bits (dp_row m) (0, 1) bits n)) *
     (steadyState0 m * P01 m + steadyState1 m * (1 - P10 m)))%Q; [ring|].
  rewrite Hs0, Hs1. ring.
Qed.

(** X21: the models are stationary: leaving out the first packet does
    not change the probability of what follows.  For [1 <= N <= 62] and
    a vertex [v] below [2^N], [CalculateProbability (2v) (N+1)] plus
    [CalculateProbability (2v+1) (N+1)] equals [CalculateProbability v N],
    in exact arithmetic, for the random model and for a Gilbert-Elliott
    model with non-negative transition probabilities in any state it can
    reach: the steady-state start is stationary for the chain. *)
Theorem first_packet_marginal (N v : Z) :
  1 <= N <= 62 -> 0 <= v < 2 ^ N ->
  (forall p, exists a b c,
     RandomLossModel_CalculateProbability (NewRandomLossModel p) (2 * v)
       (N + 1) = Ok a /\
     RandomLossModel_CalculateProbability (NewRandomLossModel p) (2 * v + 1)
       (N + 1) = Ok b /\
     RandomLossModel_CalculateProbability (NewRandomLossModel p) v N = Ok c /\
     (a + b == c)%Q) /\
  (forall m : GilbertElliotLossModel, GE_reachable m ->
     (0 <= P01 m)%Q -> (0 <= P10 m)%Q ->
     exists a m1 b m2 c m3,
       CalculateProbability m (2 * v) (N + 1) = Ok (a, m1) /\
       CalculateProbability m1 (2 * v + 1) (N + 1) = Ok (b, m2) /\
       CalculateProbability m2 v N = Ok (c, m3) /\
       (a + b == c)%Q).
Proof.
  intros HN Hv.
  assert (0 < N <= max_int) as HN0 by (unfold max_int; lia).
  assert (0 < N + 1 <= max_int) as HN1 by (unfold max_int; lia).
  assert (0 < N < 2 ^ 44) as HNa by lia.
  assert (0 < N + 1 < 2 ^ 44) as HNb by lia.
  split.
  - intros p. eexists _, _, _.
    split; [by apply RandomLossModel_CalculateProbability_eq|].
    split; [by apply RandomLossModel_CalculateProbability_eq|].
    split; [by apply RandomLossModel_CalculateProbability_eq|].
    simpl P. by apply random_first_packet.
  - intros m Hr H01 H10. pose proof (GE_reachable_valid m Hr) as Hvalid.
    destruct (steady_state_stationary m Hr H01 H10) as [Hs0 Hs1].
    destruct (GE_CalculateProbability_eq m (2 * v) (N + 1) Hvalid HNb)
      as (c1 & H1 & Hv1 & _).
    destruct (GE_CalculateProbability_eq (set_cache m c1) (2 * v + 1) (N + 1)
                Hv1 HNb) as (c2 & H2 & Hv2 & _).
    destruct (GE_CalculateProbability_eq (set_cache m c2) v N Hv2 HNa)
      as (c3 & H3 & _).
    eexists _, _, _, _, _, _.
    split; [exact H1|]. split; [exact H2|]. split; [exact H3|].
    rewrite !ge_value_set_cache. by apply ge_first_packet.
Qed.

Lemma first_packet_marginal_witness :
  (1 <= 2 <= 62 /\ 0 <= 1 < 2 ^ 2) /\
  (forall p, exists a b c,
     RandomLossModel_CalculateProbability (NewRandomLossModel p) (2 * 1)
       (2 + 1) = Ok a /\
     RandomLossModel_CalculateProbability (NewRandomLossModel p) (2 * 1 + 1)
       (2 + 1) = Ok b /\
     RandomLossModel_CalculateProbability (NewRandomLossModel p) 1 2 = Ok c /\
     (a + b == c)%Q) /\
  (forall m : GilbertElliotLossModel, GE_reachable m ->
     (0 <= P01 m)%Q -> (0 <= P10 m)%Q ->
     exists a m1 b m2 c m3,
       CalculateProbability m (2 * 1) (2 + 1) = Ok (a, m1) /\
       CalculateProbability m1 (2 * 1 + 1) (2 + 1) = Ok (b, m2) /\
       CalculateProbability m2 1 2 = Ok (c, m3) /\
       (a + b == c)%Q).
Proof.
  assert (1 <= 2 <= 62) as H1 by lia.
  assert (0 <= 1 < 2 ^ 2) as H2 by lia.
  split; [done|]. exact (first_packet_marginal 2 1 H1 H2).
Defined.

(** *** What a call leaves in the cache *)

Lemma calculatePatternProbability_cache m pattern len initState prob :
  len <> 0 ->
  computePatternProbabilityDP m pattern len initState = Ok prob ->
  exists prob' c,
    calculatePatternProbability m pattern len initState =
      Ok (prob', set_cache m c) /\
    c !! (pattern, len, initState) = Some prob' /\
    (forall key x, cache m !! key = Some x -> c !! key = Some x) /\
    (forall key, key <> (pattern, len, initState) -> c !! key = cache m !! key).
Proof.
  intros Hlen Hdp.
  destruct (cache m !! (pattern, len, initState)) as [cached|] eqn:Hlook.
  - exists cached, (cache m).
    rewrite (calculatePatternProbability_hit _ _ _ _ cached) by done.
    split; [by destruct m|]. done.
  - exists prob, (<[(pattern, len, initState) := prob]> (cache m)).
    rewrite (calculatePatternProbability_miss _ _ _ _ prob) by done.
    split; [done|]. split; [by rewrite lookup_insert_eq|].
    split.
    + intros key x Hx. rewrite lookup_insert_ne; [done|]. congruence.
    + intros key Hne. by rewrite lookup_insert_ne.
Qed.

(** X22: a call with [0 < N < 2^44] (the table of [N + 1] rows can be
    allocated) changes nothing of the model but the cache,
    and the cache only grows: afterwards it holds an entry for each of
    the two keys [(v, N, 0)] and [(v, N, 1)] of the call, every earlier
    entry is still there with its value, and no other key was added.  A
    call with [N <= 0] returns 0 and leaves the model as it is, and
    [ClearCache] leaves an empty cache. *)
Theorem CalculateProbability_cache_contents (m : GilbertElliotLossModel)
    (v N : Z) :
  0 < N < 2 ^ 44 ->
  (exists q m',
     CalculateProbability m v N = Ok (q, m') /\
     Pe0 m' = Pe0 m /\ Pe1 m' = Pe1 m /\ P01 m' = P01 m /\ P10 m' = P10 m /\
     GetSteadyStateProbabilities m' = GetSteadyStateProbabilities m /\
     is_Some (cache m' !! (v, N, 0)) /\ is_Some (cache m' !! (v, N, 1)) /\
     (forall key x, cache m !! key = Some x -> cache m' !! key = Some x) /\
     (forall key, key <> (v, N, 0) -> key <> (v, N, 1) ->
        cache m' !! key = cache m !! key)) /\
  (forall N', N' <= 0 -> CalculateProbability m v N' = Ok (0%Q, m)) /\
  cache (ClearCache m) = ∅.
Proof.
  intros HN. split; [|split].
  - simpl. unfold GilbertElliotLossModel_CalculateProbability.
    destruct (Z.leb_spec N 0); [lia|].
    assert (N <> 0) as HN0 by lia.
    destruct (calculatePatternProbability_cache m v N 0 _ HN0
                (computePatternProbabilityDP_eq m v N 0 ltac:(lia)))
      as (p0 & c1 & H0 & Hk0 & Hmono0 & Hother0).
    rewrite H0. cbn [bind].
    destruct (calculatePatternProbability_cache (set_cache m c1) v N 1 _ HN0
                (computePatternProbabilityDP_eq _ v N 1 ltac:(lia)))
      as (p1 & c2 & H1 & Hk1 & Hmono1 & Hother1).
    rewrite H1. cbn [bind]. simpl in *.
    eexists _, _. split; [reflexivity|]. simpl.
    do 5 (split; [done|]).
    split; [exists p0; by apply Hmono1|].
    split; [by exists p1|].
    split.
    + intros key x Hx. by apply Hmono1, Hmono0.
    + intros key Hn0 Hn1. by rewrite Hother1, Hother0.
  - intros N' HN'. simpl. unfold GilbertElliotLossModel_CalculateProbability.
    by destruct (Z.leb_spec N' 0); [|lia].
  - done.
Qed.

Lemma CalculateProbability_cache_contents_witness :
  0 < 3 < 2 ^ 44 /\
  (exists q m',
     CalculateProbability (NewGilbertLossModel (1 # 2) (1 # 10) (1 # 5)) 5 3
       = Ok (q, m') /\
     Pe0 m' = Pe0 (NewGilbertLossModel (1 # 2) (1 # 10) (1 # 5)) /\
     Pe1 m' = Pe1 (NewGilbertLossModel (1 # 2) (1 # 10) (1 # 5)) /\
     P01 m' = P01 (NewGilbertLossModel (1 # 2) (1 # 10) (1 # 5)) /\
     P10 m' = P10 (NewGilbertLossModel (1 # 2) (1 # 10) (1 # 5)) /\
     GetSteadyStateProbabilities m' =
       GetSteadyStateProbabilities
         (NewGilbertLossModel (1 # 2) (1 # 10) (1 # 5)) /\
     is_Some (cache m' !! (5, 3, 0)) /\ is_Some (cache m' !! (5, 3, 1)) /\
     (forall key x,
        cache (NewGilbertLossModel (1 # 2) (1 # 10) (1 # 5)) !! key = Some x ->
        cache m' !! key = Some x) /\
     (forall key, key <> (5, 3, 0) -> key <> (5, 3, 1) ->
        cache m' !! key =
        cache (NewGilbertLossModel (1 # 2) (1 # 10) (1 # 5)) !! key)) /\
  (forall N', N' <= 0 ->
     CalculateProbability (NewGilbertLossModel (1 # 2) (1 # 10) (1 # 5)) 5 N' =
     Ok (0%Q, NewGilbertLossModel (1 # 2) (1 # 10) (1 # 5))) /\
  cache (ClearCache (NewGilbertLossModel (1 # 2) (1 # 10) (1 # 5))) = ∅.
Proof.
  assert (0 < 3 < 2 ^ 44) as H by lia.
  split; [exact H|].
  exact (CalculateProbability_cache_contents
           (NewGilbertLossModel (1 # 2) (1 # 10) (1 # 5)) 5 3 H).
Defined.

(** ** The recovery probability *)

Lemma for_each_sum {M : Type} (I : M -> Prop) (f : Z -> Q)
    (body : Z -> Q * M -> result (Q * M)) (l : list Z) :
  (forall x acc m, In x l -> I m ->
     exists m', I m' /\ body x (acc, m) = Ok ((acc + f x)%Q, m')) ->
  forall acc m, I m ->
  exists acc' m',
    for_each l body (acc, m) = Ok (acc', m') /\ I m' /\
    (acc' == acc + Qsum (map f l))%Q.
Proof.
  induction l as [|x l IH]; intros Hbody acc m Hm.
  - exists acc, m. split; [done|]. split; [done|]. simpl. ring.
  - destruct (Hbody x acc m ltac:(by left) Hm) as (m1 & Hm1 & Hrun1).
    destruct (IH ltac:(intros; apply Hbody; [by right|done])
                 (acc + f x)%Q m1 Hm1) as (acc' & m' & Hrun & Hm' & Hacc).
    exists acc', m'. split; [simpl; by rewrite Hrun1|]. split; [done|].
    simpl. rewrite Hacc. ring.
Qed.

Lemma Qsum_nonneg {A} (f : A -> Q) l :
  (forall x, (0 <= f x)%Q) -> (0 <= Qsum (map f l))%Q.
Proof.
  intros Hf. induction l as [|x l IH]; simpl; [lra|].
  specialize (Hf x). lra.
Qed.

Lemma Qsum_submseteq {A} (f : A -> Q) (l1 l2 : list A) :
  (forall x, (0 <= f x)%Q) -> l1 ⊆+ l2 ->
  (Qsum (map f l1) <= Qsum (map f l2))%Q.
Proof.
  intros Hf Hsub. induction Hsub as [|x l1 l2 _ IH|x y l|x l1 l2 _ IH|l1 l2 l3 _ IH1 _ IH2];
    simpl.
  - lra.
  - lra.
  - lra.
  - specialize (Hf x). lra.
  - lra.
Qed.

Lemma ge_value_nonneg m v N :
  GE_reachable m ->
  (0 <= Pe0 m <= 1)%Q -> (0 <= Pe1 m <= 1)%Q ->
  (0 <= P01 m <= 1)%Q -> (0 <= P10 m <= 1)%Q ->
  (0 <= ge_value m v N)%Q.
Proof.
  intros Hr He0 He1 H01 H10.
  destruct (steady_state_bounds m Hr) as [Hs0 Hs1]; [lra|lra|].
  destruct (dp_rows_bounds m v 0 (Z.to_nat N) He0 He1 H01 H10)
    as (Ha0 & Ha1 & _).
  destruct (dp_rows_bounds m v 1 (Z.to_nat N) He0 He1 H01 H10)
    as (Hb0 & Hb1 & _).
  unfold ge_value, row_total.
  set (t0 := (fst (dp_rows m v 0 (Z.to_nat N)) +
              snd (dp_rows m v 0 (Z.to_nat N)))%Q).
  set (t1 := (fst (dp_rows m v 1 (Z.to_nat N)) +
              snd (dp_rows m v 1 (Z.to_nat N)))%Q).
  assert (0 <= t0)%Q by (unfold t0; lra).
  assert (0 <= t1)%Q by (unfold t1; lra).
  nra.
Qed.

Lemma random_value_nonneg p v N :
  (0 <= p <= 1)%Q ->
  (0 <= random_value p
          (iter_bits count_step (0%Z, 0%Z) (mbits v) (Z.to_nat N)))%Q.
Proof.
  intros Hp. rewrite random_value_product.
  by apply emit_product_bounds.
Qed.

Lemma vertices_submseteq (l : list Z) n :
  NoDup l -> (forall x, x ∈ l -> 0 <= x < n) -> l ⊆+ seqZ 0 n.
Proof.
  intros Hnd Hl. apply NoDup_submseteq; [done|].
  intros x Hx. apply elem_of_seqZ. specialize (Hl x Hx). lia.
Qed.

(** X23: the recovery probability is a probability.  For a mask with
    [N, K >= 0] and [1 <= N + K <= 48] (the [2^(N+K)] vertices are
    within the allocation limit of the search), the probabilities of the
    vertices that the search on its recovery graph returns, added up as
    [main] does for a loss model, give a value in [[0, 1]], in exact
    arithmetic: for the random model with [0 <= p <= 1] and for a
    Gilbert-Elliott model with its parameters in [[0, 1]] in any state it
    can reach. *)
Theorem recovery_probability_in_unit_interval (mk : Mask) (sources : list Z)
    (fuel : nat) :
  0 <= mask_N mk -> 0 <= mask_K mk -> 1 <= mask_N mk + mask_K mk <= 48 ->
  (Z.to_nat (2 ^ (mask_N mk + mask_K mk)) <= fuel)%nat ->
  exists g reachable,
    NewRecoveryGraph mk = Ok g /\
    BFS fuel g sources = Ok reachable /\
    (forall p, (0 <= p <= 1)%Q -> exists total m',
       recoveryProb (NewRandomLossModel p) reachable
                    (mask_N mk + mask_K mk) = Ok (total, m') /\
       (0 <= total <= 1)%Q) /\
    (forall m : GilbertElliotLossModel, GE_reachable m ->
       (0 <= Pe0 m <= 1)%Q -> (0 <= Pe1 m <= 1)%Q ->
       (0 <= P01 m <= 1)%Q -> (0 <= P10 m <= 1)%Q ->
       exists total m',
         recoveryProb m reachable (mask_N mk + mask_K mk) = Ok (total, m') /\
         (0 <= total <= 1)%Q).
Proof.
  intros HN HK Hs Hfuel.
  set (T := mask_N mk + mask_K mk) in *.
  set (g := {| numVertices := 2 ^ T; N := mask_N mk; K := mask_K mk;
               mask := mk |}).
  destruct (BFS_recovery_correct mk sources fuel HN HK ltac:(lia) Hfuel)
    as (res & Hrun & Hnd & Hiff).
  fold T in Hrun, Hiff. fold g in Hrun, Hiff.
  exists g, res. split; [apply NewRecoveryGraph_small; lia|]. split; [done|].
  assert (res ⊆+ seqZ 0 (2 ^ T)) as Hsub.
  { apply vertices_submseteq; [done|]. intros x Hx.
    apply Hiff in Hx as (s & _ & Hsv & Hr).
    by apply (reaches_valid g s x Hsv Hr). }
  assert (0 < T <= max_int) as HT by (unfold max_int; lia).
  assert (0 < T < 2 ^ 44) as HTa by lia.
  split.
  - intros p Hp. unfold recoveryProb.
    destruct (for_each_sum (fun m : RandomLossModel => P m = p)
                (fun v => random_value p
                   (iter_bits count_step (0%Z, 0%Z) (mbits v) (Z.to_nat T)))
                (fun vertex '(recoveryProb, m) =>
                   let* (prob, m1) := CalculateProbability m vertex T in
                   Ok ((recoveryProb + prob)%Q, m1)) res)
      with (acc := 0%Q) (m := NewRandomLossModel p)
      as (total & m' & Hsum & _ & Htotal); [|done|].
    { intros x acc m _ Hm. exists m. split; [done|]. simpl.
      rewrite RandomLossModel_CalculateProbability_eq by done. cbn [bind].
      by rewrite Hm. }
    exists total, m'. split; [exact Hsum|]. rewrite Htotal.
    pose proof (Qsum_nonneg
                  (fun v => random_value p
                     (iter_bits count_step (0%Z, 0%Z) (mbits v) (Z.to_nat T)))
                  res ltac:(intros; by apply random_value_nonneg)) as H0.
    pose proof (Qsum_submseteq _ _ _
                  ltac:(intros x; by apply (random_value_nonneg p x T))
                  Hsub) as H1.
    rewrite (random_sum_is_one p T) in H1 by lia. lra.
  - intros m Hr He0 He1 H01 H10. unfold recoveryProb.
    destruct (for_each_sum
                (fun m' : GilbertElliotLossModel =>
                   cache_valid m' /\ exists c, m' = set_cache m c)
                (fun v => ge_value m v T)
                (fun vertex '(recoveryProb, m) =>
                   let* (prob, m1) := CalculateProbability m vertex T in
                   Ok ((recoveryProb + prob)%Q, m1)) res)
      with (acc := 0%Q) (m := m)
      as (total & m' & Hsum & _ & Htotal).
    { intros x acc m1 _ (Hvalid & c & ->).
      destruct (GE_CalculateProbability_eq (set_cache m c) x T Hvalid HTa)
        as (c' & Hc & Hv' & _).
      exists (set_cache m c'). split; [split; [exact Hv'|by exists c']|].
      simpl in Hc. simpl. rewrite Hc. cbn [bind].
      by rewrite ge_value_set_cache. }
    { split; [by apply GE_reachable_valid|].
      exists (cache m). by destruct m. }
    exists total, m'. split; [exact Hsum|]. rewrite Htotal.
    pose proof (Qsum_nonneg (fun v => ge_value m v T) res
                  ltac:(intros; by apply ge_value_nonneg)) as H0.
    pose proof (Qsum_submseteq (fun v => ge_value m v T) _ _
                  ltac:(intros; by apply ge_value_nonneg) Hsub) as H1.
    rewrite (ge_sum_is_one m T) in H1
      by (lia || by apply GE_reachable_steady_sum).
    lra.
Qed.

Lemma recovery_probability_in_unit_interval_witness :
  (0 <= mask_N scenario_mask /\ 0 <= mask_K scenario_mask /\
   1 <= mask_N scenario_mask + mask_K scenario_mask <= 48 /\
   (Z.to_nat (2 ^ (mask_N scenario_mask + mask_K scenario_mask)) <= 16)%nat) /\
  exists g reachable,
    NewRecoveryGraph scenario_mask = Ok g /\
    BFS 16 g [15; 7] = Ok reachable /\
    (forall p, (0 <= p <= 1)%Q -> exists total m',
       recoveryProb (NewRandomLossModel p) reachable
                    (mask_N scenario_mask + mask_K scenario_mask)
         = Ok (total, m') /\
       (0 <= total <= 1)%Q) /\
    (forall m : GilbertElliotLossModel, GE_reachable m ->
       (0 <= Pe0 m <= 1)%Q -> (0 <= Pe1 m <= 1)%Q ->
       (0 <= P01 m <= 1)%Q -> (0 <= P10 m <= 1)%Q ->
       exists total m',
         recoveryProb m reachable
                      (mask_N scenario_mask + mask_K scenario_mask)
           = Ok (total, m') /\
         (0 <= total <= 1)%Q).
Proof.
  assert (0 <= mask_N scenario_mask) as H1 by (simpl; lia).
  assert (0 <= mask_K scenario_mask) as H2 by (simpl; lia).
  assert (1 <= mask_N scenario_mask + mask_K scenario_mask <= 48) as H3
    by (simpl; lia).
  assert (Z.to_nat (2 ^ (mask_N scenario_mask + mask_K scenario_mask)) <= 16)%nat
    as H4 by (vm_compute; lia).
  split; [done|].
  exact (recovery_probability_in_unit_interval scenario_mask [15; 7] 16
           H1 H2 H3 H4).
Defined.

(** ** No mask recovers more lost packets than there are parity packets *)

Lemma flat_map_singleton {A B} (f : A -> B) (l : list A) :
  flat_map (fun x => [f x]) l = map f l.
Proof. induction l as [|x l IH]; [done|]. simpl. by rewrite IH. Qed.

Lemma filter_length_le {A} (p q : A -> bool) (l : list A) :
  (forall x, In x l -> p x = true -> q x = true) ->
  (length (List.filter p l) <= length (List.filter q l))%nat.
Proof.
  induction l as [|x l IH]; intros Hpq; simpl; [lia|].
  specialize (IH ltac:(intros y Hy; apply Hpq; by right)).
  pose proof (Hpq x ltac:(by left)) as Hx.
  destruct (p x), (q x); simpl; try lia; by specialize (Hx eq_refl).
Qed.

Lemma filter_length_lt {A} (p q : A -> bool) (l : list A) (x0 : A) :
  (forall x, In x l -> p x = true -> q x = true) ->
  In x0 l -> p x0 = false -> q x0 = true ->
  (length (List.filter p l) < length (List.filter q l))%nat.
Proof.
  induction l as [|x l IH]; intros Hpq Hin Hp Hq; [done|].
  assert (forall y, In y l -> p y = true -> q y = true) as Hpq'
    by (intros y Hy; apply Hpq; by right).
  pose proof (filter_length_le p q l Hpq') as Hle.
  pose proof (Hpq x ltac:(by left)) as Hx.
  destruct Hin as [->|Hin]; simpl.
  - rewrite Hp, Hq. simpl. lia.
  - specialize (IH Hpq' Hin Hp Hq).
    destruct (p x), (q x); simpl; try lia; by specialize (Hx eq_refl).
Qed.

Lemma filter_map_length {A B} (p : B -> bool) (f : A -> B) (l : list A) :
  length (List.filter p (map f l)) =
  length (List.filter (fun x => p (f x)) l).
Proof.
  induction l as [|x l IH]; [done|]. simpl.
  destruct (p (f x)); simpl; by rewrite IH.
Qed.

(** The set bits among the low [n + k] bits: those below [n] and those
    from [n] on. *)
Lemma bitcount_app n k x :
  0 <= n -> 0 <= k ->
  bitcount (n + k) x =
  bitcount n x +
  Z.of_nat (length (List.filter (fun j => Z.testbit x (n + j)) (seqZ 0 k))).
Proof.
  intros Hn Hk. unfold bitcount.
  rewrite seqZ_app by done. rewrite List.filter_app, length_app.
  rewrite Z.add_0_l.
  replace (seqZ n k) with (map (Z.add n) (seqZ 0 k)).
  2:{ change (map (Z.add n) (seqZ 0 k)) with (Z.add n <$> seqZ 0 k).
      by rewrite fmap_add_seqZ, Z.add_0_r. }
  rewrite filter_map_length. lia.
Qed.

Lemma testbit_all_ones total i :
  0 <= i < total -> Z.testbit (2 ^ total - 1) i = true.
Proof.
  intros Hi. replace (2 ^ total - 1) with (Z.ones total)
    by (rewrite Z.ones_equiv; lia).
  apply Z.ones_spec_low. lia.
Qed.

(** The delivery mask of a loss pattern has the other bits set. *)
Lemma bitcount_complement total lp :
  0 <= total ->
  bitcount total (Z.lxor (2 ^ total - 1) lp) = total - bitcount total lp.
Proof.
  intros Ht.
  enough (forall n, 0 <= n -> n <= total ->
            bitcount n (Z.lxor (2 ^ total - 1) lp) = n - bitcount n lp)
    as Hn by (apply Hn; lia).
  apply (natlike_ind (fun n => n <= total ->
            bitcount n (Z.lxor (2 ^ total - 1) lp) = n - bitcount n lp)).
  - intros _. by rewrite !bitcount_0.
  - intros n Hn IH Hle. unfold Z.succ. rewrite !bitcount_succ by done.
    rewrite IH by lia. rewrite Z.lxor_spec, testbit_all_ones by lia.
    destruct (Z.testbit lp n); simpl; lia.
Qed.

Lemma goodVertices_eq N K :
  0 <= N -> 0 <= K -> N + K <= 62 ->
  goodVertices N K =
  Ok (map (fun fecState => Z.lor (2 ^ N - 1) (fecState * 2 ^ N))
          (seqZ 0 (2 ^ K))).
Proof.
  intros HN HK Hs. unfold goodVertices.
  rewrite shl_1_small by lia. cbn [bind].
  rewrite shl_1_small by lia. cbn [bind].
  pose proof (pow2_pos N HN) as HpN. pose proof (pow2_pos K HK) as HpK.
  assert (2 ^ N * 2 ^ K <= 2 ^ 62) as Hprod.
  { rewrite <- Z.pow_add_r by done. apply pow2_le_mono. lia. }
  unfold sub. rewrite wrap_small by nia.
  unfold for_range. rewrite Z.sub_0_r.
  rewrite (for_loop_append
             (fun fecState => [Z.lor (2 ^ N - 1) (fecState * 2 ^ N)])).
  - by rewrite Z2Nat.id, flat_map_singleton by lia.
  - intros j t Hj. rewrite Z2Nat.id in Hj by lia.
    rewrite shl_nonneg by done. cbn [bind].
    rewrite Z.shiftl_mul_pow2 by done. rewrite wrap_small by nia. done.
Qed.

(** A good vertex is a vertex and has all its data bits set. *)
Lemma good_vertex_facts N K fecState :
  0 <= N -> 0 <= K -> 0 <= fecState < 2 ^ K ->
  0 <= Z.lor (2 ^ N - 1) (fecState * 2 ^ N) < 2 ^ (N + K) /\
  bitcount N (Z.lor (2 ^ N - 1) (fecState * 2 ^ N)) = N.
Proof.
  intros HN HK Hf. pose proof (pow2_pos N HN) as HpN. split.
  - rewrite Z.lor_comm, lor_disjoint_below by lia.
    rewrite Z.pow_add_r by done. nia.
  - transitivity (bitcount N (run_pattern 0 N));
      [|apply bitcount_run_pattern; lia].
    apply bitcount_ext. intros i Hi.
    rewrite Z.lor_spec, testbit_all_ones by done.
    rewrite run_pattern_bits by lia.
    destruct (Z.leb_spec 0 i); [|lia]. destruct (Z.ltb_spec i (0 + N)); [|lia].
    done.
Qed.

Section Erasures.
Variable m : Mask.
Hypothesis HN0 : 0 <= mask_N m.
Hypothesis HK0 : 0 <= mask_K m.
Hypothesis Hsmall : mask_N m + mask_K m <= 62.

Local Abbreviation total := (mask_N m + mask_K m).
Local Abbreviation g :=
  {| numVertices := 2 ^ total; N := mask_N m; K := mask_K m; mask := m |}.

(** An edge uses a parity that is usable at its source and clears a data
    bit which that parity protects. *)
Lemma edge_uses_parity v w :
  0 <= v < 2 ^ total -> edge g v w ->
  exists j d,
    0 <= j < mask_K m /\ 0 <= d < mask_N m /\
    parity_usable m v j = true /\ IsProtected m d j = true /\
    w = Z.clearbit v d.
Proof.
  intros Hv (l & Hl & Hin). simpl in Hl.
  rewrite (GetEdges_in_range g eq_refl eq_refl HN0 HK0 Hsmall v Hv) in Hl.
  inversion Hl; subst l. clear Hl. unfold edges_spec in Hin. simpl in Hin.
  apply in_flat_map in Hin as (j & Hj & Hin).
  destruct (parity_usable m v j) eqn:Hu; [|done].
  apply in_map_iff in Hin as (d & <- & Hd).
  apply filter_In in Hd as [Hd Hp].
  apply in_seqZ_0 in Hj. apply in_seqZ_0 in Hd.
  by exists j, d.
Qed.

Lemma parity_usable_protected v j d :
  parity_usable m v j = true -> 0 <= d < mask_N m ->
  IsProtected m d j = true -> Z.testbit v d = true.
Proof.
  intros Hu Hd Hp. apply andb_prop in Hu as [_ Hall].
  rewrite forallb_forall in Hall.
  specialize (Hall d ltac:(by apply in_seqZ_0)). by rewrite Hp in Hall.
Qed.

(** Each edge loses one data packet and spends one more parity. *)
Lemma edge_spends_parity v w :
  0 <= v < 2 ^ total -> edge g v w ->
  bitcount (mask_N m) w = bitcount (mask_N m) v - 1 /\
  spent_parities m v < spent_parities m w.
Proof.
  intros Hv He.
  destruct (edge_uses_parity v w Hv He) as (j & d & Hj & Hd & Hu & Hp & ->).
  pose proof (parity_usable_protected v j d Hu Hd Hp) as Hbit.
  split; [by apply bitcount_clearbit|].
  unfold spent_parities.
  enough (length (List.filter (parity_spent m v) (seqZ 0 (mask_K m))) <
          length (List.filter (parity_spent m (Z.clearbit v d))
                              (seqZ 0 (mask_K m))))%nat by lia.
  apply (filter_length_lt _ _ _ j).
  - intros j' Hj' Hs. apply in_seqZ_0 in Hj'. unfold parity_spent in *.
    apply andb_prop in Hs as [Hfec Hmiss].
    rewrite Z.clearbit_neq by lia. rewrite Hfec. cbn [andb].
    apply negb_true_iff. apply negb_true_iff in Hmiss.
    apply not_true_is_false. intros Hall. rewrite forallb_forall in Hall.
    assert (forallb (fun d0 => implb (IsProtected m d0 j') (Z.testbit v d0))
                    (seqZ 0 (mask_N m)) = true) as Hall'; [|congruence].
    apply forallb_forall. intros d' Hd'. specialize (Hall d' Hd').
    destruct (IsProtected m d' j'); [|done]. simpl in *.
    destruct (Z.eq_dec d' d) as [->|Hne]; [done|].
    by rewrite Z.clearbit_neq in Hall by lia.
  - by apply in_seqZ_0.
  - unfold parity_spent. apply andb_prop in Hu as [_ ->].
    by rewrite andb_false_r.
  - unfold parity_spent. apply andb_prop in Hu as [Hfec _].
    rewrite Z.clearbit_neq by lia. rewrite Hfec. cbn [andb].
    apply negb_true_iff, not_true_is_false. intros Hall.
    rewrite forallb_forall in Hall.
    specialize (Hall d ltac:(by apply in_seqZ_0)).
    rewrite Hp in Hall. simpl in Hall.
    rewrite Z.clearbit_eq in Hall by lia. done.
Qed.

Lemma spent_le_present v : spent_parities m v <= present_parities m v.
Proof.
  unfold spent_parities, present_parities.
  enough (length (List.filter (parity_spent m v) (seqZ 0 (mask_K m))) <=
          length (List.filter (fun j => Z.testbit v (mask_N m + j))
                              (seqZ 0 (mask_K m))))%nat by lia.
  apply filter_length_le. intros j _ Hs.
  by apply andb_prop in Hs as [Hs _].
Qed.

(** From a vertex with all data packets present, a reachable vertex
    misses no more data packets than it has spent parities. *)
Lemma reaches_spent s v :
  0 <= s < 2 ^ total -> bitcount (mask_N m) s = mask_N m ->
  reaches g s v ->
  mask_N m - bitcount (mask_N m) v <= spent_parities m v.
Proof.
  intros Hs Hfull Hr.
  induction Hr as [s | s v w Hr IH He Hw].
  - rewrite Hfull. unfold spent_parities. lia.
  - specialize (IH Hs Hfull).
    assert (valid_vertex g s) as Hs' by (split; simpl; lia).
    pose proof (reaches_valid g s v Hs' Hr) as Hv.
    destruct (edge_spends_parity v w Hv He) as [Hcount Hspent]. lia.
Qed.

(** A vertex from which all data packets can be recovered holds at least
    as many packets as there are data packets. *)
Lemma recoverable_delivered s v :
  0 <= s < 2 ^ total -> bitcount (mask_N m) s = mask_N m ->
  reaches g s v ->
  mask_N m <= bitcount total v.
Proof.
  intros Hs Hfull Hr. rewrite bitcount_app by done.
  pose proof (reaches_spent s v Hs Hfull Hr).
  pose proof (spent_le_present v). unfold present_parities in *. lia.
Qed.

End Erasures.

(** The analysis of a mask of at most 48 packets: the graph, the search
    from the good vertices, the characteristics of its result. *)
Lemma analysis_spec (mk : Mask) (fuel : nat) :
  0 <= mask_N mk -> 0 <= mask_K mk -> mask_N mk + mask_K mk <= 48 ->
  (Z.to_nat (2 ^ (mask_N mk + mask_K mk)) <= fuel)%nat ->
  let g := {| numVertices := 2 ^ (mask_N mk + mask_K mk);
              N := mask_N mk; K := mask_K mk; mask := mk |} in
  let good := map (fun fecState =>
                     Z.lor (2 ^ mask_N mk - 1) (fecState * 2 ^ mask_N mk))
                  (seqZ 0 (2 ^ mask_K mk)) in
  exists reachable rc,
    NewRecoveryGraph mk = Ok g /\
    goodVertices (mask_N mk) (mask_K mk) = Ok good /\
    BFS fuel g good = Ok reachable /\
    CalculateRecoveryCharacteristicsFromReachable
      fuel (mask_N mk) (mask_K mk) reachable = Ok rc /\
    (forall v, In v reachable <-> justified g good v) /\
    min_failing (loss_count_fails (mask_N mk + mask_K mk) reachable)
                (mask_N mk + mask_K mk) (MinLostPacketsForNonRecovery rc) /\
    min_failing (run_fails (mask_N mk + mask_K mk) reachable)
                (mask_N mk + mask_K mk) (MinConsecutiveLostForNonRecovery rc).
Proof.
  intros HN HK Hs Hfuel g good.
  destruct (BFS_recovery_correct mk good fuel HN HK Hs Hfuel)
    as (res & Hrun & _ & Hiff).
  fold g in Hrun, Hiff.
  destruct (CalculateRecoveryCharacteristics_spec res fuel
              (mask_N mk) (mask_K mk) HN HK ltac:(lia) Hfuel)
    as (rc & Hrc & H1 & H2).
  exists res, rc.
  split; [apply NewRecoveryGraph_small; lia|].
  split; [apply goodVertices_eq; lia|].
  split; [done|]. split; [done|].
  split; [|done].
  intros v. rewrite <- list_elem_of_In. apply Hiff.
Qed.

(** What the search from the good vertices returns holds at least [N]
    packets. *)
Lemma justified_delivered (mk : Mask) v :
  0 <= mask_N mk -> 0 <= mask_K mk -> mask_N mk + mask_K mk <= 62 ->
  justified
    {| numVertices := 2 ^ (mask_N mk + mask_K mk);
       N := mask_N mk; K := mask_K mk; mask := mk |}
    (map (fun fecState =>
            Z.lor (2 ^ mask_N mk - 1) (fecState * 2 ^ mask_N mk))
         (seqZ 0 (2 ^ mask_K mk))) v ->
  mask_N mk <= bitcount (mask_N mk + mask_K mk) v.
Proof.
  intros HN HK Hs (s & Hin & _ & Hr).
  apply in_map_iff in Hin as (f & <- & Hf). apply in_seqZ_0 in Hf.
  destruct (good_vertex_facts (mask_N mk) (mask_K mk) f HN HK Hf)
    as [Hrange Hfull].
  by apply (recoverable_delivered mk HN HK Hs _ v Hrange Hfull).
Qed.

(** When every returned vertex holds at least [N] packets, the loss of
    the first [K + 1] packets is not recoverable. *)
Lemma long_run_fails (n k : Z) (R : list Z) :
  1 <= n -> 0 <= k ->
  (forall v, In v R -> n <= bitcount (n + k) v) ->
  run_fails (n + k) R (k + 1).
Proof.
  intros Hn Hk Hdel. exists 0. split; [lia|]. intros Hin.
  apply Hdel in Hin.
  rewrite bitcount_complement in Hin by lia.
  rewrite bitcount_run_pattern in Hin by lia. lia.
Qed.

Lemma min_failing_upper (fails : Z -> Prop) total r b :
  min_failing fails total r -> 1 <= b <= total -> fails b -> 1 <= r <= b.
Proof.
  intros [[_ Hnone]|(Hr & Hf & Hmin)] Hb Hfb.
  - exfalso. by apply (Hnone b).
  - split; [lia|]. destruct (Z_le_gt_dec r b); [done|].
    exfalso. apply (Hmin b); [lia|done].
Qed.

(** X24: no mask recovers more lost packets than there are parity
    packets.  For a mask with [N >= 1], [K >= 0] and [N + K <= 48] (the
    [2^(N+K)] vertices are within the allocation limit of the search),
    the analysis (the graph of the mask, the search from the good
    vertices, the characteristics of its result) runs through, every
    vertex the
    search returns has at least [N] of its [N + K] packets delivered,
    and so some loss of [K + 1] packets, even of [K + 1] consecutive
    ones, is not recoverable:
    [1 <= MinLost <= MinConsecutive <= K + 1]. *)
Theorem at_most_K_losses_recoverable (mk : Mask) (fuel : nat) :
  1 <= mask_N mk -> 0 <= mask_K mk -> mask_N mk + mask_K mk <= 48 ->
  (Z.to_nat (2 ^ (mask_N mk + mask_K mk)) <= fuel)%nat ->
  exists g good reachable rc,
    NewRecoveryGraph mk = Ok g /\
    goodVertices (mask_N mk) (mask_K mk) = Ok good /\
    BFS fuel g good = Ok reachable /\
    CalculateRecoveryCharacteristicsFromReachable
      fuel (mask_N mk) (mask_K mk) reachable = Ok rc /\
    (forall v, In v reachable ->
       mask_N mk <= bitcount (mask_N mk + mask_K mk) v) /\
    1 <= MinLostPacketsForNonRecovery rc /\
    MinLostPacketsForNonRecovery rc <= MinConsecutiveLostForNonRecovery rc /\
    MinConsecutiveLostForNonRecovery rc <= mask_K mk + 1.
Proof.
  intros HN HK Hs48 Hfuel.
  assert (0 <= mask_N mk) as HN0 by lia.
  assert (mask_N mk + mask_K mk <= 62) as Hs by lia.
  destruct (analysis_spec mk fuel HN0 HK Hs48 Hfuel)
    as (res & rc & Hg & Hgood & Hrun & Hrc & Hiff & H1 & H2).
  assert (forall v, In v res ->
            mask_N mk <= bitcount (mask_N mk + mask_K mk) v) as Hdel.
  { intros v Hv. apply Hiff in Hv. by apply justified_delivered. }
  pose proof (long_run_fails _ _ res HN HK Hdel) as Hfail.
  destruct (min_failing_upper _ _ _ (mask_K mk + 1) H2 ltac:(lia) Hfail)
    as [Hlo2 Hhi2].
  assert (loss_count_fails (mask_N mk + mask_K mk) res
            (MinConsecutiveLostForNonRecovery rc)) as Hfail'.
  { apply run_fails_loss_count_fails; [lia|].
    destruct H2 as [[? _]|(_ & ? & _)]; [lia|done]. }
  destruct (min_failing_upper _ _ _ (MinConsecutiveLostForNonRecovery rc)
              H1 ltac:(lia) Hfail') as [Hlo1 Hhi1].
  eexists _, _, res, rc.
  split; [exact Hg|]. split; [exact Hgood|].
  split; [done|]. split; [done|]. split; [done|]. lia.
Qed.

Lemma at_most_K_losses_recoverable_witness :
  (1 <= mask_N scenario_mask /\ 0 <= mask_K scenario_mask /\
   mask_N scenario_mask + mask_K scenario_mask <= 48 /\
   (Z.to_nat (2 ^ (mask_N scenario_mask + mask_K scenario_mask)) <= 16)%nat) /\
  exists g good reachable rc,
    NewRecoveryGraph scenario_mask = Ok g /\
    goodVertices (mask_N scenario_mask) (mask_K scenario_mask) = Ok good /\
    BFS 16 g good = Ok reachable /\
    CalculateRecoveryCharacteristicsFromReachable
      16 (mask_N scenario_mask) (mask_K scenario_mask) reachable = Ok rc /\
    (forall v, In v reachable ->
       mask_N scenario_mask <=
       bitcount (mask_N scenario_mask + mask_K scenario_mask) v) /\
    1 <= MinLostPacketsForNonRecovery rc /\
    MinLostPacketsForNonRecovery rc <= MinConsecutiveLostForNonRecovery rc /\
    MinConsecutiveLostForNonRecovery rc <= mask_K scenario_mask + 1.
Proof.
  assert (1 <= mask_N scenario_mask) as H1 by (simpl; lia).
  assert (0 <= mask_K scenario_mask) as H2 by (simpl; lia).
  assert (mask_N scenario_mask + mask_K scenario_mask <= 48) as H3
    by (simpl; lia).
  assert (Z.to_nat (2 ^ (mask_N scenario_mask + mask_K scenario_mask)) <= 16)%nat
    as H4 by (simpl; lia).
  split; [done|].
  exact (at_most_K_losses_recoverable scenario_mask 16 H1 H2 H3 H4).
Defined.

(** ** Which single losses a mask recovers *)

Lemma bitcount_full n x :
  0 <= n -> (forall i, 0 <= i < n -> Z.testbit x i = true) ->
  bitcount n x = n.
Proof.
  intros Hn Hbits.
  transitivity (bitcount n (run_pattern 0 n));
    [|apply bitcount_run_pattern; lia].
  apply bitcount_ext. intros i Hi.
  rewrite Hbits, run_pattern_bits by lia.
  destruct (Z.leb_spec 0 i); [|lia]. destruct (Z.ltb_spec i (0 + n)); [|lia].
  done.
Qed.

Lemma filter_none_length {A} (p : A -> bool) (l : list A) :
  (forall x, In x l -> p x = false) -> length (List.filter p l) = 0%nat.
Proof. intros Hp. by rewrite filter_none. Qed.

(** The delivery mask of the loss of packet [i] alone. *)
Lemma lxor_all_ones_pow2 total i :
  0 <= i < total ->
  Z.lxor (2 ^ total - 1) (2 ^ i) = Z.clearbit (2 ^ total - 1) i.
Proof.
  intros Hi. apply Z.bits_inj'. intros k Hk.
  rewrite Z.lxor_spec, Z.pow2_bits_eqb, Z.clearbit_eqb by lia.
  destruct (Z.eqb_spec i k) as [->|Hne].
  - rewrite testbit_all_ones by lia. done.
  - by rewrite xorb_false_r, andb_true_r.
Qed.

Lemma single_loss_pattern total lp :
  0 <= total -> 0 <= lp < 2 ^ total -> bitcount total lp = 1 ->
  exists i, 0 <= i < total /\ lp = 2 ^ i.
Proof.
  intros Ht Hlp Hc.
  assert (In lp (combinations total 1)) as Hin
    by (by apply combinations_spec).
  rewrite combinations_one in Hin by done.
  apply in_map_iff in Hin as (i & <- & Hi). apply in_seqZ_0 in Hi.
  by exists i.
Qed.

Lemma single_loss_count total i :
  0 <= i < total -> 0 <= 2 ^ i < 2 ^ total /\ bitcount total (2 ^ i) = 1.
Proof.
  intros Hi.
  assert (In (2 ^ i) (combinations total 1)) as Hin.
  { rewrite combinations_one by lia. apply in_map_iff.
    exists i. split; [done|]. by apply in_seqZ_0. }
  by apply combinations_spec in Hin.
Qed.

(** The vertices with all data bits set are good vertices. *)
Lemma goodVertices_member N K v :
  0 <= N -> 0 <= K -> 0 <= v < 2 ^ (N + K) ->
  (forall d, 0 <= d < N -> Z.testbit v d = true) ->
  In v (map (fun fecState => Z.lor (2 ^ N - 1) (fecState * 2 ^ N))
            (seqZ 0 (2 ^ K))).
Proof.
  intros HN HK Hv Hbits. pose proof (pow2_pos N HN) as HpN.
  apply in_map_iff. exists (v / 2 ^ N). split.
  - apply Z.bits_inj'. intros i Hi. rewrite Z.lor_spec.
    destruct (Z_lt_ge_dec i N) as [Hlt|Hge].
    + rewrite testbit_all_ones, Hbits by lia. done.
    + replace (2 ^ N - 1) with (Z.ones N) by (rewrite Z.ones_equiv; lia).
      rewrite Z.ones_spec_high by lia. cbn [orb].
      rewrite Z.mul_pow2_bits by lia. rewrite Z.div_pow2_bits by lia.
      f_equal. lia.
  - apply in_seqZ_0. split; [apply Z.div_pos; lia|].
    apply Z.div_lt_upper_bound; [lia|].
    rewrite <- Z.pow_add_r by done. lia.
Qed.

Section SingleLoss.
Variable m : Mask.
Hypothesis HN0 : 0 <= mask_N m.
Hypothesis HK0 : 0 <= mask_K m.
Hypothesis Hsmall : mask_N m + mask_K m <= 62.

Local Abbreviation total := (mask_N m + mask_K m).
Local Abbreviation g :=
  {| numVertices := 2 ^ total; N := mask_N m; K := mask_K m; mask := m |}.
Local Abbreviation good :=
  (map (fun fecState => Z.lor (2 ^ mask_N m - 1) (fecState * 2 ^ mask_N m))
       (seqZ 0 (2 ^ mask_K m))).
Local Abbreviation full := (2 ^ total - 1).

Lemma full_range : 0 <= full < 2 ^ total.
Proof. pose proof (pow2_pos total ltac:(lia)). lia. Qed.

Lemma clearbit_full_range i :
  0 <= i < total -> 0 <= Z.clearbit full i < 2 ^ total.
Proof.
  intros Hi. pose proof full_range as Hf.
  rewrite clearbit_set_lt by (lia || (apply testbit_all_ones; lia)).
  pose proof (testbit_true_ge full i ltac:(lia)
                ltac:(apply testbit_all_ones; lia)).
  pose proof (pow2_pos i ltac:(lia)). lia.
Qed.

(** A vertex with all data packets is recoverable: it is a source. *)
Lemma good_justified v :
  0 <= v < 2 ^ total ->
  (forall d, 0 <= d < mask_N m -> Z.testbit v d = true) ->
  justified g good v.
Proof.
  intros Hv Hbits. exists v.
  split; [by apply goodVertices_member|].
  split; [split; simpl; lia|apply reaches_refl].
Qed.

(** The loss of a parity packet alone is recoverable. *)
Lemma lost_parity_recoverable j :
  0 <= j < mask_K m -> justified g good (Z.clearbit full (mask_N m + j)).
Proof.
  intros Hj. apply good_justified; [apply clearbit_full_range; lia|].
  intros d Hd. rewrite Z.clearbit_neq by lia. apply testbit_all_ones. lia.
Qed.

(** The loss of a data packet alone is recoverable when some parity
    protects it. *)
Lemma lost_data_recoverable d j :
  0 <= d < mask_N m -> 0 <= j < mask_K m -> IsProtected m d j = true ->
  justified g good (Z.clearbit full d).
Proof.
  intros Hd Hj Hp. pose proof full_range as Hf.
  exists full. split.
  { apply goodVertices_member; [done|done|done|].
    intros d' Hd'. apply testbit_all_ones. lia. }
  split; [split; simpl; lia|].
  eapply reaches_step; [apply reaches_refl| |].
  2:{ pose proof (clearbit_full_range d ltac:(lia)). split; simpl; lia. }
  exists (edges_spec m full). split.
  { simpl. by apply (GetEdges_in_range g eq_refl eq_refl HN0 HK0 Hsmall). }
  unfold edges_spec. apply in_flat_map. exists j.
  split; [by apply in_seqZ_0|].
  assert (parity_usable m full j = true) as ->.
  { unfold parity_usable. rewrite testbit_all_ones by lia. cbn [andb].
    apply forallb_forall. intros d' Hd'. apply in_seqZ_0 in Hd'.
    rewrite testbit_all_ones by lia. by destruct (IsProtected m d' j). }
  apply in_map_iff. exists d. split; [done|].
  apply filter_In. split; [by apply in_seqZ_0|done].
Qed.

(** A vertex that misses one data packet and every parity protecting it
    is not recoverable. *)
Lemma unprotected_loss_unrecoverable v d :
  0 <= d < mask_N m -> Z.testbit v d = false ->
  (forall d', 0 <= d' < mask_N m -> d' <> d -> Z.testbit v d' = true) ->
  (forall j, 0 <= j < mask_K m -> IsProtected m d j = true ->
     Z.testbit v (mask_N m + j) = false) ->
  ~ justified g good v.
Proof.
  intros Hd Hmiss Hrest Hpar (s & Hin & _ & Hr).
  apply in_map_iff in Hin as (f & <- & Hf). apply in_seqZ_0 in Hf.
  destruct (good_vertex_facts (mask_N m) (mask_K m) f HN0 HK0 Hf)
    as [Hrange Hfull].
  pose proof (reaches_spent m HN0 HK0 Hsmall _ v Hrange Hfull Hr) as Hspent.
  assert (bitcount (mask_N m) v = mask_N m - 1) as Hcount.
  { transitivity (bitcount (mask_N m) (Z.clearbit (2 ^ mask_N m - 1) d)).
    - apply bitcount_ext. intros i Hi. rewrite Z.clearbit_eqb.
      destruct (Z.eqb_spec d i) as [->|Hne].
      + by rewrite andb_false_r.
      + rewrite testbit_all_ones by lia. apply Hrest; lia.
    - rewrite bitcount_clearbit by (lia || (apply testbit_all_ones; lia)).
      rewrite bitcount_full; [lia|done|].
      intros i Hi. by apply testbit_all_ones. }
  assert (spent_parities m v = 0) as Hzero.
  { unfold spent_parities. rewrite filter_none_length; [done|].
    intros j Hj. apply in_seqZ_0 in Hj. unfold parity_spent.
    destruct (IsProtected m d j) eqn:Hp.
    - by rewrite (Hpar j Hj Hp).
    - apply andb_false_iff. right. apply negb_false_iff.
      apply forallb_forall. intros d' Hd'. apply in_seqZ_0 in Hd'.
      destruct (Z.eq_dec d' d) as [->|Hne]; [by rewrite Hp|].
      rewrite Hrest by done. by destruct (IsProtected m d' j). }
  lia.
Qed.

(** The loss of a data packet alone is not recoverable when no parity
    protects it. *)
Lemma lost_data_unrecoverable d :
  0 <= d < mask_N m ->
  (forall j, 0 <= j < mask_K m -> IsProtected m d j = false) ->
  ~ justified g good (Z.clearbit full d).
Proof.
  intros Hd Hnone. apply (unprotected_loss_unrecoverable _ d); [done| | |].
  - apply Z.clearbit_eq.
  - intros d' Hd' Hne. rewrite Z.clearbit_neq by lia.
    apply testbit_all_ones. lia.
  - intros j Hj Hp. rewrite Hnone in Hp by done. done.
Qed.

End SingleLoss.

Lemma min_failing_one (fails : Z -> Prop) total r :
  min_failing fails total r -> (fails 1 -> 1 <= total) ->
  (r = 1 <-> fails 1).
Proof.
  intros Hmin Ht. split.
  - intros ->. destruct Hmin as [[? _]|(_ & ? & _)]; [lia|done].
  - intros Hf. specialize (Ht Hf).
    pose proof (min_failing_upper fails total r 1 Hmin ltac:(lia) Hf). lia.
Qed.

(** Some single loss is not recoverable exactly when some data packet is
    protected by no parity packet. *)
Lemma single_loss_fails_iff (mk : Mask) (R : list Z) :
  0 <= mask_N mk -> 0 <= mask_K mk -> mask_N mk + mask_K mk <= 62 ->
  (forall v, In v R <->
     justified
       {| numVertices := 2 ^ (mask_N mk + mask_K mk);
          N := mask_N mk; K := mask_K mk; mask := mk |}
       (map (fun fecState =>
               Z.lor (2 ^ mask_N mk - 1) (fecState * 2 ^ mask_N mk))
            (seqZ 0 (2 ^ mask_K mk))) v) ->
  loss_count_fails (mask_N mk + mask_K mk) R 1 <->
  exists d, 0 <= d < mask_N mk /\
    forall j, 0 <= j < mask_K mk -> IsProtected mk d j = false.
Proof.
  intros HN HK Hs Hiff. split.
  - intros (lp & Hrange & Hcount & Hnr). unfold non_recoverable in Hnr.
    destruct (single_loss_pattern (mask_N mk + mask_K mk) lp ltac:(lia)
                Hrange Hcount)
      as (i & Hi & ->).
    rewrite lxor_all_ones_pow2 in Hnr by done.
    destruct (Z_lt_ge_dec i (mask_N mk)) as [Hlt|Hge].
    + exists i. split; [lia|]. intros j Hj.
      destruct (IsProtected mk i j) eqn:Hp; [|done].
      exfalso. apply Hnr, Hiff.
      apply (lost_data_recoverable mk HN HK Hs i j); [lia|lia|done].
    + exfalso. apply Hnr, Hiff.
      replace i with (mask_N mk + (i - mask_N mk)) by lia.
      apply (lost_parity_recoverable mk HN HK). lia.
  - intros (d & Hd & Hnone).
    destruct (single_loss_count (mask_N mk + mask_K mk) d ltac:(lia))
      as [Hrange Hcount].
    exists (2 ^ d). split; [done|]. split; [done|].
    unfold non_recoverable. rewrite lxor_all_ones_pow2 by lia.
    intros Hin. apply Hiff in Hin.
    by apply (lost_data_unrecoverable mk HN HK Hs d).
Qed.

(** X25: a single loss can be fatal exactly when a data packet is left
    unprotected.  For a mask with [N, K >= 0] and [N + K <= 48] (the
    [2^(N+K)] vertices are within the allocation limit of the search)
    the analysis runs through, and it reports
    [MinLostPacketsForNonRecovery = 1] if and only if some data packet is
    protected by none of the [K] parity packets. *)
Theorem single_loss_fatal_iff_unprotected (mk : Mask) (fuel : nat) :
  0 <= mask_N mk -> 0 <= mask_K mk -> mask_N mk + mask_K mk <= 48 ->
  (Z.to_nat (2 ^ (mask_N mk + mask_K mk)) <= fuel)%nat ->
  exists g good reachable rc,
    NewRecoveryGraph mk = Ok g /\
    goodVertices (mask_N mk) (mask_K mk) = Ok good /\
    BFS fuel g good = Ok reachable /\
    CalculateRecoveryCharacteristicsFromReachable
      fuel (mask_N mk) (mask_K mk) reachable = Ok rc /\
    (MinLostPacketsForNonRecovery rc = 1 <->
     exists d, 0 <= d < mask_N mk /\
       forall j, 0 <= j < mask_K mk -> IsProtected mk d j = false).
Proof.
  intros HN HK Hs48 Hfuel.
  assert (mask_N mk + mask_K mk <= 62) as Hs by lia.
  destruct (analysis_spec mk fuel HN HK Hs48 Hfuel)
    as (res & rc & Hg & Hgood & Hrun & Hrc & Hiff & H1 & _).
  eexists _, _, res, rc.
  split; [exact Hg|]. split; [exact Hgood|].
  split; [done|]. split; [done|].
  rewrite <- (single_loss_fails_iff mk res HN HK Hs Hiff).
  apply (min_failing_one _ _ _ H1).
  intros Hf. apply (single_loss_fails_iff mk res HN HK Hs Hiff) in Hf.
  destruct Hf as (d & Hd & _). lia.
Qed.

Lemma single_loss_fatal_iff_unprotected_witness :
  (0 <= mask_N scenario_mask /\ 0 <= mask_K scenario_mask /\
   mask_N scenario_mask + mask_K scenario_mask <= 48 /\
   (Z.to_nat (2 ^ (mask_N scenario_mask + mask_K scenario_mask)) <= 16)%nat) /\
  exists g good reachable rc,
    NewRecoveryGraph scenario_mask = Ok g /\
    goodVertices (mask_N scenario_mask) (mask_K scenario_mask) = Ok good /\
    BFS 16 g good = Ok reachable /\
    CalculateRecoveryCharacteristicsFromReachable
      16 (mask_N scenario_mask) (mask_K scenario_mask) reachable = Ok rc /\
    (MinLostPacketsForNonRecovery rc = 1 <->
     exists d, 0 <= d < mask_N scenario_mask /\
       forall j, 0 <= j < mask_K scenario_mask ->
         IsProtected scenario_mask d j = false).
Proof.
  assert (0 <= mask_N scenario_mask) as H1 by (simpl; lia).
  assert (0 <= mask_K scenario_mask) as H2 by (simpl; lia).
  assert (mask_N scenario_mask + mask_K scenario_mask <= 48) as H3
    by (simpl; lia).
  assert (Z.to_nat (2 ^ (mask_N scenario_mask + mask_K scenario_mask)) <= 16)%nat
    as H4 by (simpl; lia).
  split; [done|].
  exact (single_loss_fatal_iff_unprotected scenario_mask 16 H1 H2 H3 H4).
Defined.

(** ** The interleaved mask *)

Lemma InterleavedMask_IsProtected_spec n k d j :
  0 < k -> 0 <= d < n ->
  InterleavedMask_IsProtected n k d j = true <-> j = d mod k.
Proof.
  intros Hk Hd. unfold InterleavedMask_IsProtected.
  pose proof (Z.mod_pos_bound d k Hk) as Hm.
  destruct (Z.ltb_spec d 0); [lia|].
  destruct (Z.geb_spec d n); [lia|]. cbn [orb].
  destruct (Z.ltb_spec j 0); cbn [orb]; [split; [done|lia]|].
  destruct (Z.geb_spec j k); cbn [orb]; [split; [done|lia]|].
  rewrite Z.rem_mod_nonneg by lia. rewrite Z.eqb_eq. split; intros; lia.
Qed.

Lemma clearbit_range x i total :
  0 <= i -> 0 <= x < 2 ^ total -> 0 <= Z.clearbit x i < 2 ^ total.
Proof.
  intros Hi Hx. destruct (Z.testbit x i) eqn:Hb.
  - rewrite clearbit_set_lt by done.
    pose proof (testbit_true_ge x i ltac:(lia) Hb).
    pose proof (pow2_pos i Hi). lia.
  - by rewrite clearbit_unset.
Qed.

(** X26: the interleaved mask recovers every single loss and not every
    double loss.  For [1 <= K <= N] and [N + K <= 48] the factory
    returns the mask, in which data packet [d] is protected by parity
    [d mod K] and no other; the analysis runs through and reports
    [MinLostPacketsForNonRecovery = 2] (a data packet lost together with
    its parity) and [2 <= MinConsecutiveLostForNonRecovery <= K + 1]. *)
Theorem InterleavedMask_min_lost (N K : Z) (fuel : nat) :
  1 <= K <= N -> N + K <= 48 ->
  (Z.to_nat (2 ^ (N + K)) <= fuel)%nat ->
  exists mk g good reachable rc,
    InterleavedMaskFactory_CreateMask N K = Some mk /\
    mask_N mk = N /\ mask_K mk = K /\
    (forall d j, 0 <= d < N ->
       (IsProtected mk d j = true <-> j = d mod K)) /\
    NewRecoveryGraph mk = Ok g /\
    goodVertices N K = Ok good /\
    BFS fuel g good = Ok reachable /\
    CalculateRecoveryCharacteristicsFromReachable fuel N K reachable = Ok rc /\
    MinLostPacketsForNonRecovery rc = 2 /\
    2 <= MinConsecutiveLostForNonRecovery rc <= K + 1.
Proof.
  intros HK Hs Hfuel.
  set (mk := InterleavedMask N K).
  assert (0 <= mask_N mk) as HN0 by (simpl; lia).
  assert (0 <= mask_K mk) as HK0 by (simpl; lia).
  assert (mask_N mk + mask_K mk <= 62) as Hs' by (simpl; lia).
  assert (mask_N mk + mask_K mk <= 48) as Hs48 by (simpl; lia).
  assert (forall d j, 0 <= d < N ->
            (IsProtected mk d j = true <-> j = d mod K)) as Hprot.
  { intros d j Hd. apply InterleavedMask_IsProtected_spec; lia. }
  destruct (analysis_spec mk fuel HN0 HK0 Hs48 Hfuel)
    as (res & rc & Hg & Hgood & Hrun & Hrc & Hiff & H1 & H2).
  simpl mask_N in *. simpl mask_K in *.
  set (T := N + K) in *.
  (* no single loss is fatal *)
  assert (~ loss_count_fails T res 1) as Hno1.
  { intros Hf.
    apply (single_loss_fails_iff mk res HN0 HK0 Hs' Hiff) in Hf
      as (d & Hd & Hnone). simpl in Hd.
    pose proof (Z.mod_pos_bound d K ltac:(lia)) as Hm.
    specialize (Hnone (d mod K) Hm).
    pose proof (proj2 (Hprot d (d mod K) Hd) eq_refl) as Hyes.
    congruence. }
  (* data packet 0 lost together with parity 0 *)
  set (v := Z.clearbit (Z.clearbit (2 ^ T - 1) 0) N).
  pose proof (pow2_pos T ltac:(unfold T; lia)) as HpT.
  assert (0 <= v < 2 ^ T) as Hv.
  { apply clearbit_range; [lia|]. apply clearbit_range; lia. }
  assert (bitcount T v = T - 2) as Hcount.
  { unfold v. rewrite bitcount_clearbit.
    - rewrite bitcount_clearbit by
        (unfold T; lia || (apply testbit_all_ones; unfold T; lia)).
      rewrite bitcount_full; [lia|unfold T; lia|].
      intros i Hi. by apply testbit_all_ones.
    - unfold T; lia.
    - rewrite Z.clearbit_neq by lia. apply testbit_all_ones. unfold T; lia. }
  assert (loss_count_fails T res 2) as Hf2.
  { exists (Z.lxor (2 ^ T - 1) v). split; [apply lxor_lt_pow2; lia|].
    split; [rewrite bitcount_complement by (unfold T; lia); lia|].
    unfold non_recoverable.
    rewrite <- Z.lxor_assoc, Z.lxor_nilpotent, Z.lxor_0_l.
    intros Hin. apply Hiff in Hin. revert Hin.
    apply (unprotected_loss_unrecoverable mk HN0 HK0 Hs' v 0);
      try change (mask_N mk) with N; try change (mask_K mk) with K.
    - lia.
    - unfold v. rewrite Z.clearbit_neq by lia. apply Z.clearbit_eq.
    - intros d' Hd' Hne. unfold v. rewrite !Z.clearbit_neq by lia.
      apply testbit_all_ones. unfold T; lia.
    - intros j Hj Hp. apply Hprot in Hp; [|lia].
      rewrite Z.mod_0_l in Hp by lia. subst j.
      unfold v. rewrite Z.add_0_r. apply Z.clearbit_eq. }
  pose proof (min_failing_upper _ _ _ 2 H1 ltac:(unfold T; lia) Hf2) as Hr1.
  assert (MinLostPacketsForNonRecovery rc <> 1) as Hne1.
  { intros Heq. apply Hno1.
    apply (min_failing_one _ _ _ H1); [unfold T; lia|done]. }
  assert (forall v, In v res -> N <= bitcount T v) as Hdel.
  { intros w Hw. apply Hiff in Hw.
    by apply (justified_delivered mk w HN0 HK0 Hs'). }
  pose proof (long_run_fails N K res ltac:(lia) ltac:(lia) Hdel) as Hrun2.
  pose proof (min_failing_upper _ _ _ (K + 1) H2 ltac:(unfold T; lia) Hrun2)
    as Hr2.
  assert (loss_count_fails T res (MinConsecutiveLostForNonRecovery rc))
    as Hf2'.
  { apply run_fails_loss_count_fails; [lia|].
    destruct H2 as [[? _]|(_ & ? & _)]; [lia|done]. }
  pose proof (min_failing_upper _ _ _ (MinConsecutiveLostForNonRecovery rc)
                H1 ltac:(unfold T; lia) Hf2') as Hr12.
  exists mk. eexists _, _, res, rc.
  split.
  { unfold InterleavedMaskFactory_CreateMask.
    destruct (Z.leb_spec N 0); [lia|]. destruct (Z.leb_spec K 0); [lia|].
    destruct (Z.gtb_spec K N); [lia|]. done. }
  split; [done|]. split; [done|]. split; [exact Hprot|].
  split; [exact Hg|]. split; [exact Hgood|].
  split; [done|]. split; [done|]. lia.
Qed.

Lemma InterleavedMask_min_lost_witness :
  (1 <= 2 <= 4 /\ 4 + 2 <= 48 /\ (Z.to_nat (2 ^ (4 + 2)) <= 64)%nat) /\
  exists mk g good reachable rc,
    InterleavedMaskFactory_CreateMask 4 2 = Some mk /\
    mask_N mk = 4 /\ mask_K mk = 2 /\
    (forall d j, 0 <= d < 4 ->
       (IsProtected mk d j = true <-> j = d mod 2)) /\
    NewRecoveryGraph mk = Ok g /\
    goodVertices 4 2 = Ok good /\
    BFS 64 g good = Ok reachable /\
    CalculateRecoveryCharacteristicsFromReachable 64 4 2 reachable = Ok rc /\
    MinLostPacketsForNonRecovery rc = 2 /\
    2 <= MinConsecutiveLostForNonRecovery rc <= 2 + 1.
Proof.
  assert (1 <= 2 <= 4) as H1 by lia.
  assert (4 + 2 <= 48) as H2 by lia.
  assert (Z.to_nat (2 ^ (4 + 2)) <= 64)%nat as H3 by (simpl; lia).
  split; [done|].
  exact (InterleavedMask_min_lost 4 2 64 H1 H2 H3).
Defined.

(** ** The good vertices *)

(** X27: the good vertices are the vertices with all data packets
    present.  For [N, K >= 0] and [N + K <= 62] the loop of the analysis
    builds the list of the [2^N - 1 + fecState * 2^N] for [fecState]
    from [0] to [2^K - 1], in this order, and a number is in the list
    exactly when it is a vertex (below [2^(N+K)]) whose [N] low bits are
    all set. *)
Theorem goodVertices_all_data_present (N K : Z) :
  0 <= N -> 0 <= K -> N + K <= 62 ->
  exists good,
    goodVertices N K = Ok good /\
    good = map (fun fecState => 2 ^ N - 1 + fecState * 2 ^ N)
               (seqZ 0 (2 ^ K)) /\
    (forall v, In v good <->
       0 <= v < 2 ^ (N + K) /\
       forall d, 0 <= d < N -> Z.testbit v d = true).
Proof.
  intros HN HK Hs. eexists. split; [by apply goodVertices_eq|].
  pose proof (pow2_pos N HN) as HpN. split.
  - apply map_ext. intros f.
    rewrite Z.lor_comm, lor_disjoint_below by lia. lia.
  - intros v. split.
    + intros Hin. apply in_map_iff in Hin as (f & <- & Hf).
      apply in_seqZ_0 in Hf.
      split; [by apply good_vertex_facts|].
      intros d Hd. rewrite Z.lor_spec, testbit_all_ones by done. done.
    + intros [Hv Hbits]. by apply goodVertices_member.
Qed.

Lemma goodVertices_all_data_present_witness :
  (0 <= 3 /\ 0 <= 1 /\ 3 + 1 <= 62) /\
  exists good,
    goodVertices 3 1 = Ok good /\
    good = map (fun fecState => 2 ^ 3 - 1 + fecState * 2 ^ 3)
               (seqZ 0 (2 ^ 1)) /\
    (forall v, In v good <->
       0 <= v < 2 ^ (3 + 1) /\
       forall d, 0 <= d < 3 -> Z.testbit v d = true).
Proof.
  assert (0 <= 3) as H1 by lia.
  assert (0 <= 1) as H2 by lia.
  assert (3 + 1 <= 62) as H3 by lia.
  split; [done|].
  exact (goodVertices_all_data_present 3 1 H1 H2 H3).
Defined.

(** ** The bit-pattern mask *)

Lemma shl_byte_1 s : 0 <= s <= 7 -> shl_byte 1 s = Ok (2 ^ s).
Proof.
  intros Hs. unfold shl_byte. destruct (Z.ltb_spec s 0); [lia|].
  rewrite Z.shiftl_1_l. rewrite Z.mod_small; [done|].
  split; [apply Z.lt_le_incl, pow2_pos; lia|].
  apply (pow2_lt_mono s 8). lia.
Qed.

Lemma index_inside {A} (l : list A) i :
  0 <= i < Z.of_nat (length l) ->
  exists x, l !! Z.to_nat i = Some x /\ index l i = Ok x.
Proof.
  intros Hi. unfold index. destruct (Z.ltb_spec i 0); [lia|].
  destruct (l !! Z.to_nat i) as [x|] eqn:Hl; [by exists x|].
  apply lookup_ge_None in Hl. lia.
Qed.

Lemma index_outside {A} (l : list A) i :
  Z.of_nat (length l) <= i -> index l i = Panic.
Proof.
  intros Hi. unfold index. destruct (Z.ltb_spec i 0); [done|].
  destruct (l !! Z.to_nat i) as [x|] eqn:Hl; [|done].
  apply lookup_lt_Some in Hl. lia.
Qed.

(** X28: the bounds of [bitMask.IsProtected].  With [len] the number of
    bytes of the mask and [fecIndex < 2^62]: outside the packet range
    [[0, 16)], for a negative [fecIndex] and for [2 * fecIndex > len]
    the answer is [false]; when byte [2 * fecIndex + packetIndex / 8]
    exists the answer is its bit [7 - packetIndex mod 8] (most
    significant bit first); in between, for
    [2 * fecIndex <= len <= 2 * fecIndex + packetIndex / 8], the bounds
    test lets the index through and the call panics. *)
Theorem bitMask_IsProtected_bounds (m : bitMask) (packetIndex fecIndex : Z) :
  fecIndex < 2 ^ 62 ->
  (packetIndex < 0 \/ 16 <= packetIndex \/ fecIndex < 0 \/
   Z.of_nat (length (bm_data m)) < 2 * fecIndex ->
     bitMask_IsProtected m packetIndex fecIndex = Ok false) /\
  (0 <= packetIndex < 16 -> 0 <= fecIndex ->
   2 * fecIndex + packetIndex / 8 < Z.of_nat (length (bm_data m)) ->
     exists b,
       bm_data m !! Z.to_nat (2 * fecIndex + packetIndex / 8) = Some b /\
       bitMask_IsProtected m packetIndex fecIndex =
         Ok (Z.testbit b (7 - packetIndex mod 8))) /\
  (0 <= packetIndex < 16 -> 0 <= fecIndex ->
   2 * fecIndex <= Z.of_nat (length (bm_data m)) <=
     2 * fecIndex + packetIndex / 8 ->
     bitMask_IsProtected m packetIndex fecIndex = Panic).
Proof.
  intros Hf. unfold bitMask_IsProtected.
  assert (0 <= fecIndex -> mul fecIndex 2 = 2 * fecIndex) as Hmul.
  { intros H0. unfold mul. rewrite wrap_small; lia. }
  split; [|split].
  - intros Hout.
    destruct (Z.ltb_spec packetIndex 0); [done|].
    destruct (Z.geb_spec packetIndex 16); [done|].
    destruct (Z.ltb_spec fecIndex 0); [done|]. cbn [orb].
    rewrite Hmul by done.
    destruct (Z.gtb_spec (2 * fecIndex) (Z.of_nat (length (bm_data m))));
      [done|lia].
  - intros Hp Hf0 Hpos.
    destruct (Z.ltb_spec packetIndex 0); [lia|].
    destruct (Z.geb_spec packetIndex 16); [lia|].
    destruct (Z.ltb_spec fecIndex 0); [lia|]. cbn [orb].
    rewrite Hmul by done.
    assert (0 <= packetIndex / 8) as Hq by (apply Z.div_pos; lia).
    destruct (Z.gtb_spec (2 * fecIndex) (Z.of_nat (length (bm_data m))));
      [lia|].
    destruct (Z.ltb_spec packetIndex 8) as [Hlow|Hhigh].
    + rewrite Z.div_small in * by lia. rewrite Z.mod_small by lia.
      rewrite Z.add_0_r in *.
      destruct (index_inside (bm_data m) (2 * fecIndex)) as (b & Hb & ->);
        [lia|].
      exists b. split; [done|]. cbn [bind]. unfold sub.
      rewrite wrap_small by lia. rewrite shl_byte_1 by lia. cbn [bind].
      rewrite land_pow2_eqb by lia. by rewrite negb_involutive.
    + assert (packetIndex / 8 = 1) as Hdiv.
      { symmetry. apply (Z.div_unique packetIndex 8 1 (packetIndex - 8)); lia. }
      assert (packetIndex mod 8 = packetIndex - 8) as Hmod.
      { symmetry. apply (Z.mod_unique packetIndex 8 1 (packetIndex - 8)); lia. }
      rewrite Hdiv in *. rewrite Hmod. unfold add.
      rewrite (wrap_small (2 * fecIndex + 1)) by lia.
      destruct (index_inside (bm_data m) (2 * fecIndex + 1))
        as (b & Hb & ->); [lia|].
      exists b. split; [done|]. cbn [bind]. unfold sub.
      rewrite (wrap_small (packetIndex - 8)) by lia.
      rewrite wrap_small by lia. rewrite shl_byte_1 by lia. cbn [bind].
      rewrite land_pow2_eqb by lia. by rewrite negb_involutive.
  - intros Hp Hf0 Hlen.
    destruct (Z.ltb_spec packetIndex 0); [lia|].
    destruct (Z.geb_spec packetIndex 16); [lia|].
    destruct (Z.ltb_spec fecIndex 0); [lia|]. cbn [orb].
    rewrite Hmul by done.
    destruct (Z.gtb_spec (2 * fecIndex) (Z.of_nat (length (bm_data m))));
      [lia|].
    destruct (Z.ltb_spec packetIndex 8) as [Hlow|Hhigh].
    + rewrite Z.div_small in Hlen by lia.
      rewrite index_outside by lia. done.
    + assert (packetIndex / 8 = 1) as Hdiv.
      { symmetry. apply (Z.div_unique packetIndex 8 1 (packetIndex - 8)); lia. }
      rewrite Hdiv in Hlen. unfold add.
      rewrite (wrap_small (2 * fecIndex + 1)) by lia.
      rewrite index_outside by lia. done.
Qed.

Lemma bitMask_IsProtected_bounds_witness :
  1 < 2 ^ 62 /\
  (3 < 0 \/ 16 <= 3 \/ 1 < 0 \/
   Z.of_nat (length (bm_data {| bm_data := [255; 240]; bm_n := 12;
                                bm_k := 1 |})) < 2 * 1 ->
     bitMask_IsProtected {| bm_data := [255; 240]; bm_n := 12; bm_k := 1 |}
                         3 1 = Ok false) /\
  (0 <= 3 < 16 -> 0 <= 1 ->
   2 * 1 + 3 / 8 <
     Z.of_nat (length (bm_data {| bm_data := [255; 240]; bm_n := 12;
                                  bm_k := 1 |})) ->
     exists b,
       bm_data {| bm_data := [255; 240]; bm_n := 12; bm_k := 1 |}
         !! Z.to_nat (2 * 1 + 3 / 8) = Some b /\
       bitMask_IsProtected {| bm_data := [255; 240]; bm_n := 12; bm_k := 1 |}
                           3 1 = Ok (Z.testbit b (7 - 3 mod 8))) /\
  (0 <= 3 < 16 -> 0 <= 1 ->
   2 * 1 <= Z.of_nat (length (bm_data {| bm_data := [255; 240]; bm_n := 12;
                                         bm_k := 1 |})) <=
     2 * 1 + 3 / 8 ->
     bitMask_IsProtected {| bm_data := [255; 240]; bm_n := 12; bm_k := 1 |}
                         3 1 = Panic).
Proof.
  assert (1 < 2 ^ 62) as H by lia.
  split; [exact H|].
  exact (bitMask_IsProtected_bounds
           {| bm_data := [255; 240]; bm_n := 12; bm_k := 1 |} 3 1 H).
Defined.

(** ** Formatting helpers *)

Lemma formatMask_eq mask N :
  0 <= N ->
  formatMask mask N =
  Ok (map (fun i => bit_char (mbit mask i)) (seqZ 0 N)).
Proof.
  intros HN. unfold formatMask, for_range. rewrite Z.sub_0_r.
  rewrite (for_loop_append (fun i => [bit_char (mbit mask i)])).
  - by rewrite Z2Nat.id, flat_map_singleton by done.
  - intros j t Hj. rewrite shl_nonneg by lia. cbn [bind].
    unfold mbit, and, bit_char.
    by destruct (Z.land mask (wrap (Z.shiftl 1 j)) =? 0).
Qed.

Lemma bit_char_inj b b' : bit_char b = bit_char b' -> b = b'.
Proof. by destruct b, b'. Qed.

Lemma map_seqZ_lookup {A} (f : Z -> A) n (i : nat) :
  Z.of_nat i < n ->
  map f (seqZ 0 n) !! i = Some (f (Z.of_nat i)).
Proof.
  intros Hi. rewrite list_lookup_fmap.
  rewrite (lookup_seqZ_lt 0 n i) by lia. simpl. by rewrite ?Z.add_0_l.
Qed.

(** X29: [formatMask mask N], for a non-negative mask and [N >= 0]
    (machine integers), is a string of exactly [N] characters whose
    character [i] is ['1'] when bit [i] of the mask is set and ['0']
    otherwise; two masks get the same string exactly when they agree on
    their [N] low bits. *)
Theorem formatMask_bits (mask mask' N : Z) :
  0 <= mask <= max_int -> 0 <= mask' <= max_int -> 0 <= N <= max_int ->
  exists s s',
    formatMask mask N = Ok s /\ formatMask mask' N = Ok s' /\
    Z.of_nat (length s) = N /\
    (forall i : nat, Z.of_nat i < N ->
       s !! i = Some (bit_char (Z.testbit mask (Z.of_nat i)))) /\
    (s = s' <-> mask mod 2 ^ N = mask' mod 2 ^ N).
Proof.
  intros Hm Hm' HN.
  exists (map (fun i => bit_char (mbit mask i)) (seqZ 0 N)),
         (map (fun i => bit_char (mbit mask' i)) (seqZ 0 N)).
  split; [apply formatMask_eq; lia|]. split; [apply formatMask_eq; lia|].
  split; [rewrite length_map, length_seqZ; lia|].
  split.
  - intros i Hi. rewrite map_seqZ_lookup by done.
    by rewrite mbit_testbit_nonneg by lia.
  - split.
    + intros Heq. apply Z.bits_inj'. intros k Hk.
      destruct (Z.lt_ge_cases k N) as [Hlt|Hge].
      * rewrite !Z.mod_pow2_bits_low by lia.
        assert (map (fun i => bit_char (mbit mask i)) (seqZ 0 N)
                  !! Z.to_nat k =
                map (fun i => bit_char (mbit mask' i)) (seqZ 0 N)
                  !! Z.to_nat k) as Hl by (by rewrite Heq).
        rewrite !map_seqZ_lookup in Hl by lia.
        inversion Hl as [Hc]. apply bit_char_inj in Hc.
        rewrite !mbit_testbit_nonneg in Hc by lia.
        by rewrite Z2Nat.id in Hc by done.
      * rewrite !Z.mod_pow2_bits_high by lia. done.
    + intros Heq. apply map_ext_in. intros i Hi. apply in_seqZ_0 in Hi.
      f_equal. rewrite !mbit_testbit_nonneg by lia.
      rewrite <- (Z.mod_pow2_bits_low mask N i) by lia.
      rewrite <- (Z.mod_pow2_bits_low mask' N i) by lia.
      by rewrite Heq.
Qed.

Lemma formatMask_bits_witness :
  (0 <= 5 <= max_int /\ 0 <= 13 <= max_int /\ 0 <= 3 <= max_int) /\
  exists s s',
    formatMask 5 3 = Ok s /\ formatMask 13 3 = Ok s' /\
    Z.of_nat (length s) = 3 /\
    (forall i : nat, Z.of_nat i < 3 ->
       s !! i = Some (bit_char (Z.testbit 5 (Z.of_nat i)))) /\
    (s = s' <-> 5 mod 2 ^ 3 = 13 mod 2 ^ 3).
Proof.
  assert (0 <= 5 <= max_int) as H1 by (unfold max_int; lia).
  assert (0 <= 13 <= max_int) as H2 by (unfold max_int; lia).
  assert (0 <= 3 <= max_int) as H3 by (unfold max_int; lia).
  split; [done|]. exact (formatMask_bits 5 13 3 H1 H2 H3).
Defined.

(** X30: [truncateName name width] (the name shorter than [2^62] bytes)
    returns the name itself when it has at most [width] bytes; a longer
    name is cut to exactly [width] bytes, its first [width - 3] bytes
    followed by three dots, when [width >= 3]; for a longer name and
    [width < 3] the slice bound is out of range and the call panics. *)
Theorem truncateName_width (name : gostring) (width : Z) :
  in_range width -> Z.of_nat (length name) < 2 ^ 62 ->
  (Z.of_nat (length name) <= width -> truncateName name width = Ok name) /\
  (3 <= width < Z.of_nat (length name) ->
   truncateName name width =
     Ok (take (Z.to_nat (width - 3)) name ++ ["."%char; "."%char; "."%char]) /\
   Z.of_nat (length (take (Z.to_nat (width - 3)) name ++
                     ["."%char; "."%char; "."%char])) = width) /\
  (width < 3 -> width < Z.of_nat (length name) ->
   truncateName name width = Panic).
Proof.
  intros Hw Hshort. unfold in_range, min_int, max_int in Hw.
  unfold truncateName.
  split; [|split].
  - intros Hlen. by destruct (Z.leb_spec (Z.of_nat (length name)) width); [|lia].
  - intros Hlen. destruct (Z.leb_spec (Z.of_nat (length name)) width); [lia|].
    unfold sub. rewrite wrap_id by (unfold in_range, min_int, max_int; lia).
    destruct (Z.ltb_spec (width - 3) 0); [lia|].
    destruct (Z.gtb_spec (width - 3) (Z.of_nat (length name))); [lia|].
    split; [done|].
    rewrite length_app, length_take. simpl. lia.
  - intros Hw3 Hlen.
    destruct (Z.leb_spec (Z.of_nat (length name)) width); [lia|].
    unfold sub.
    destruct (Z_lt_ge_dec (width - 3) (- 2 ^ 63)) as [Hwrap|Hok].
    + assert (wrap (width - 3) = width - 3 + 2 ^ 64) as ->.
      { unfold wrap.
        rewrite <- (Z.mod_unique_pos (width - 3 + 2 ^ 63) (2 ^ 64) (-1)
                      (width - 3 + 2 ^ 63 + 2 ^ 64)) by lia.
        lia. }
      destruct (Z.ltb_spec (width - 3 + 2 ^ 64) 0); [done|].
      destruct (Z.gtb_spec (width - 3 + 2 ^ 64) (Z.of_nat (length name)));
        [done|lia].
    + rewrite wrap_id by (unfold in_range, min_int, max_int; lia).
      by destruct (Z.ltb_spec (width - 3) 0); [|lia].
Qed.

Lemma truncateName_width_witness :
  (in_range 5 /\
   Z.of_nat (length ["G"%char; "i"%char; "l"%char; "b"%char; "e"%char; "r"%char;
                     "t"%char]) < 2 ^ 62) /\
  (Z.of_nat (length ["G"%char; "i"%char; "l"%char; "b"%char; "e"%char; "r"%char;
                     "t"%char]) <= 5 ->
   truncateName ["G"%char; "i"%char; "l"%char; "b"%char; "e"%char; "r"%char;
                 "t"%char] 5 =
   Ok ["G"%char; "i"%char; "l"%char; "b"%char; "e"%char; "r"%char; "t"%char]) /\
  (3 <= 5 < Z.of_nat (length ["G"%char; "i"%char; "l"%char; "b"%char; "e"%char;
                              "r"%char; "t"%char]) ->
   truncateName ["G"%char; "i"%char; "l"%char; "b"%char; "e"%char; "r"%char;
                 "t"%char] 5 =
     Ok (take (Z.to_nat (5 - 3))
              ["G"%char; "i"%char; "l"%char; "b"%char; "e"%char; "r"%char;
               "t"%char] ++ ["."%char; "."%char; "."%char]) /\
   Z.of_nat (length (take (Z.to_nat (5 - 3))
                       ["G"%char; "i"%char; "l"%char; "b"%char; "e"%char;
                        "r"%char; "t"%char] ++
                     ["."%char; "."%char; "."%char])) = 5) /\
  (5 < 3 ->
   5 < Z.of_nat (length ["G"%char; "i"%char; "l"%char; "b"%char; "e"%char;
                         "r"%char; "t"%char]) ->
   truncateName ["G"%char; "i"%char; "l"%char; "b"%char; "e"%char; "r"%char;
                 "t"%char] 5 = Panic).
Proof.
  assert (in_range 5) as H1 by (unfold in_range, min_int, max_int; lia).
  assert (Z.of_nat (length ["G"%char; "i"%char; "l"%char; "b"%char; "e"%char;
                            "r"%char; "t"%char]) < 2 ^ 62) as H2
    by (simpl; lia).
  split; [done|].
  exact (truncateName_width
           ["G"%char; "i"%char; "l"%char; "b"%char; "e"%char; "r"%char;
            "t"%char] 5 H1 H2).
Defined.
